(** * LUT stitching pass: pairing single-output GTP_LUTs into GTP_LUT6D cells

    A shallow embedding of the stitcher pass (collection of LUT cells,
    topological leveling, candidate search, truth-table fusion, greedy
    planning and the remove-then-add commit), followed by the properties
    the design document states about it. *)

From stdpp Require Import base option list gmap strings pretty sorting.
From Stdlib Require Import ZArith Lia Ascii.

Local Open Scope Z_scope.

(** ** RTLIL values *)

(** [RTLIL::State]: the value of one constant bit. *)
Inductive State := S0 | S1 | Sx | Sz | Sa | Sm.

#[global] Instance State_eq_dec : EqDecision State.
Proof. solve_decision. Defined.

Definition State_to_nat (s : State) : nat :=
  match s with S0 => 0 | S1 => 1 | Sx => 2 | Sz => 3 | Sa => 4 | Sm => 5 end%nat.

Definition State_of_nat (n : nat) : option State :=
  match n with
  | 0 => Some S0 | 1 => Some S1 | 2 => Some Sx
  | 3 => Some Sz | 4 => Some Sa | 5 => Some Sm | _ => None
  end%nat.

#[global] Instance State_countable : Countable State.
Proof.
  refine (inj_countable State_to_nat State_of_nat _).
  intros []; reflexivity.
Defined.

(** [RTLIL::IdString]: identifiers are kept as strings, with the leading
    backslash of public names. *)
Abbreviation IdString := string.

(** [RTLIL::SigBit]: one constant bit, or one bit of a wire. *)
Inductive SigBit :=
| SigConst (data : State)
| SigWire (wire : IdString) (offset : nat).

#[global] Instance SigBit_eq_dec : EqDecision SigBit.
Proof. solve_decision. Defined.

#[global] Instance SigBit_countable : Countable SigBit.
Proof.
  refine (inj_countable'
            (fun s => match s with
                      | SigConst d => inl d
                      | SigWire w o => inr (w, o)
                      end)
            (fun e => match e with
                      | inl d => SigConst d
                      | inr (w, o) => SigWire w o
                      end) _).
  intros []; reflexivity.
Defined.

(** [RTLIL::Const]: a bit vector, bit 0 first. *)
Abbreviation Const := (list State).

(** ** Containers of the netlist library

    [pool<T>] is an insertion-ordered hash set.  Only membership, size and
    iteration are used; iteration visits the entries from the most recently
    inserted one back to the first.  A pool is the list of its entries in
    iteration order. *)
Definition pool_insert {A} `{EqDecision A} (x : A) (p : list A) : list A :=
  if decide (x ∈ p) then p else x :: p.

(** [pool::insert(x).second]: whether the entry is new. *)
Definition pool_insert_is_new {A} `{EqDecision A} (x : A) (p : list A) : bool :=
  bool_decide (x ∉ p).

Definition pool_count {A} `{EqDecision A} (x : A) (p : list A) : bool :=
  bool_decide (x ∈ p).

(** ** LUT records *)

Record LutInfo := mkLutInfo {
  cell_ptr : IdString;   (* the cell, identified by its name in the module *)
  size : Z;
  ordered_inputs : list (string * SigBit);   (* map<string, SigBit>, in key order *)
  output : SigBit;
  init_val : Const;
  is_merged : bool
}.

Definition set_is_merged (l : LutInfo) : LutInfo :=
  mkLutInfo (cell_ptr l) (size l) (ordered_inputs l) (output l) (init_val l) true.

Definition input_sigs (l : LutInfo) : list SigBit := (ordered_inputs l).*2.

(** ** Truth-table fusion *)

(** [std::find] followed by [distance(begin, it)]. *)
Fixpoint find_index (l : list SigBit) (x : SigBit) : option nat :=
  match l with
  | [] => None
  | y :: l' => if decide (y = x) then Some 0%nat else S <$> find_index l' x
  end.

Definition lut_has_input (lut : LutInfo) (input_sig : SigBit) : bool :=
  existsb (fun pair => bool_decide (pair.2 = input_sig)) (ordered_inputs lut).

(** One pass of the inner loop of [calculate_new_init] over the ports of a
    source LUT; the state is [(addr, bit_pos)].  [sel_forced] is [Some sel]
    in the Z half, where a port equal to the selector that is not among the
    shared slots adds its weight, and [None] in the Z5 half. *)
Definition addr_step (shared_inputs : list SigBit) (sel_forced : option SigBit)
    (i : Z) (st : Z * Z) (pair : string * SigBit) : Z * Z :=
  let '(addr, bit_pos) := st in
  let addr' :=
    match find_index shared_inputs pair.2 with
    | Some shared_idx =>
        if Z.testbit i (Z.of_nat shared_idx) then addr + bit_pos else addr
    | None =>
        match sel_forced with
        | Some sel_bit => if decide (pair.2 = sel_bit) then addr + bit_pos else addr
        | None => addr
        end
    end in
  (addr', Z.shiftl bit_pos 1).

Definition source_addr (shared_inputs : list SigBit) (sel_forced : option SigBit)
    (lut : LutInfo) (i : Z) : Z :=
  (foldl (addr_step shared_inputs sel_forced i) (0, 1) (ordered_inputs lut)).1.

(** The guarded table read: [bits().at(addr)] when [addr < GetSize], else [S0]. *)
Definition init_at (init : Const) (addr : Z) : State :=
  if decide (addr < Z.of_nat (length init))
  then default S0 (init !! Z.to_nat addr) else S0.

Definition half_bits (shared_inputs : list SigBit) (sel_forced : option SigBit)
    (lut : LutInfo) : list State :=
  (fun i => init_at (init_val lut) (source_addr shared_inputs sel_forced lut (Z.of_nat i)))
    <$> seq 0 32.

(** Result of [calculate_new_init]: the fused table and the two output
    targets written through the reference parameters. *)
Record NewInit := mkNewInit {
  new_init : Const;
  z_out_sig : SigBit;
  z5_out_sig : SigBit
}.

(** [new_inputs_vec[i]] for [i < 5] is read without a bounds check; a vector
    with fewer than five entries has no defined behaviour, modelled by [None]. *)
Definition calculate_new_init (lut_a lut_b : LutInfo) (new_inputs_vec : list SigBit)
    (sel_bit : SigBit) : option NewInit :=
  let lut_for_z5 := if lut_has_input lut_a sel_bit then lut_b else lut_a in
  let lut_for_z_sel1 := if lut_has_input lut_a sel_bit then lut_a else lut_b in
  if decide (5 <= length new_inputs_vec)%nat then
    let shared_inputs := take 5 new_inputs_vec in
    let z5_bits := half_bits shared_inputs None lut_for_z5 in
    let z_bits := half_bits shared_inputs (Some sel_bit) lut_for_z_sel1 in
    Some (mkNewInit (z5_bits ++ z_bits) (output lut_for_z_sel1) (output lut_for_z5))
  else None.

(** ** Reference semantics of the cells

    A [GTP_LUTk] cell outputs the bit of its table at the address whose bit
    [j] is the value on port [Ij]; a port without a connection reads as 0, and
    a table shorter than the address reads as [S0]. *)

Definition port_name (i : nat) : string := "I" +:+ pretty i.

Fixpoint lookup_port (name : string) (inputs : list (string * SigBit)) : option SigBit :=
  match inputs with
  | [] => None
  | (k, s) :: rest => if decide (k = name) then Some s else lookup_port name rest
  end.

Definition port_value (rho : SigBit -> bool) (lut : LutInfo) (j : nat) : bool :=
  match lookup_port (port_name j) (ordered_inputs lut) with
  | Some s => rho s
  | None => false
  end.

Fixpoint bits_to_Z (bs : list bool) : Z :=
  match bs with
  | [] => 0
  | b :: bs' => Z.b2z b + 2 * bits_to_Z bs'
  end.

Definition lut_address (lut : LutInfo) (rho : SigBit -> bool) : Z :=
  bits_to_Z (port_value rho lut <$> seq 0 (Z.to_nat (size lut))).

Definition lut_output (lut : LutInfo) (rho : SigBit -> bool) : State :=
  default S0 (init_val lut !! Z.to_nat (lut_address lut rho)).

(** Every declared port [I0 .. I(size-1)] carries a signal. *)
Definition fully_connected (lut : LutInfo) : Prop :=
  (ordered_inputs lut).*1 = port_name <$> seq 0 (Z.to_nat (size lut)).

(** The address presented to a fused cell on its lines [I0 ..]: bit [k] is
    the value of the signal bound to slot [k]. *)
Definition slots_address (slots : list SigBit) (rho : SigBit -> bool) : Z :=
  bits_to_Z (rho <$> slots).

(** The [GTP_LUT6D] primitive: Z5 reads the low half of the table through
    lines I0..I4 as if I5 were 0; Z reads the whole table through I0..I5.
    Modelled from the spec: the fused cell's two output pins (the primitive's
    simulation model is not part of the pass). *)
Definition lut6d_Z5 (init : Const) (slots : list SigBit) (rho : SigBit -> bool) : State :=
  default S0 (init !! Z.to_nat (slots_address (take 5 slots) rho)).

Definition lut6d_Z (init : Const) (slots : list SigBit) (rho : SigBit -> bool) : State :=
  default S0 (init !! Z.to_nat (slots_address (take 6 slots) rho)).

(** ** ABSORB legality test *)

Definition U64_MAX : Z := 0xFFFFFFFFFFFFFFFF.

(** Bitwise complement of a [uint64_t]. *)
Definition not64 (x : Z) : Z := Z.lxor x U64_MAX.

Definition const_to_uint64 (c : Const) : Z :=
  foldl (fun val i =>
           if decide (c !! i = Some S1) then Z.lor val (Z.shiftl 1 (Z.of_nat i)) else val)
        0 (seq 0 (Nat.min (length c) 64)).

Definition masks : list Z :=
  [ 0xAAAAAAAAAAAAAAAA; 0xCCCCCCCCCCCCCCCC; 0xF0F0F0F0F0F0F0F0;
    0xFF00FF00FF00FF00; 0xFFFF0000FFFF0000; 0xFFFFFFFF00000000 ].

(** The mask of the first port of [ordered_inputs_6] bound to [target_sig],
    0 when there is none.  The argument is the input map of a 6-input LUT, so
    the port rank stays below six; a rank outside [masks] reads as 0 here. *)
Definition get_input_mask (ordered_inputs_6 : list (string * SigBit)) (target_sig : SigBit) : Z :=
  match find_index ordered_inputs_6.*2 target_sig with
  | Some input_idx => default 0 (masks !! input_idx)
  | None => 0
  end.

(** The mask of one row [i] of the smaller LUT inside the 64-bit space. *)
Definition row_mask (lut_6 lut_s : LutInfo) (i : Z) : Z :=
  (foldl (fun (st : Z * nat) (p_s : string * SigBit) =>
            let '(target_mask, s_input_idx) := st in
            let lut6_mask := get_input_mask (ordered_inputs lut_6) p_s.2 in
            (if Z.testbit i (Z.of_nat s_input_idx)
             then Z.land target_mask lut6_mask
             else Z.land target_mask (not64 lut6_mask),
             S s_input_idx))
         (U64_MAX, 0%nat) (ordered_inputs lut_s)).1.

(** The table of the smaller LUT spread over the 64 rows.  For an arity
    above 6 the loop shifts a 64-bit value by 64 or more, which the language
    leaves undefined; such a row reads as 0 here, and what is proved of the
    legality test through this table is stated for arities 0 to 6. *)
Definition s_expanded_tt (lut_6 lut_s : LutInfo) : Z :=
  foldl (fun acc i =>
           if Z.testbit (const_to_uint64 (init_val lut_s)) (Z.of_nat i)
           then Z.lor acc (row_mask lut_6 lut_s (Z.of_nat i)) else acc)
        0 (seq 0 (Z.to_nat (Z.shiftl 1 (size lut_s)))).

Definition potential_sel_bits (lut_6 lut_s : LutInfo) : list SigBit :=
  filter (fun s => s ∉ input_sigs lut_s) (input_sigs lut_6).

Definition sel_is_0_match (lut_6 lut_s : LutInfo) (sel : SigBit) : bool :=
  let sel_mask := get_input_mask (ordered_inputs lut_6) sel in
  bool_decide (Z.land (const_to_uint64 (init_val lut_6)) (not64 sel_mask)
               = Z.land (s_expanded_tt lut_6 lut_s) (not64 sel_mask)).

Definition sel_is_1_match (lut_6 lut_s : LutInfo) (sel : SigBit) : bool :=
  let sel_mask := get_input_mask (ordered_inputs lut_6) sel in
  bool_decide (Z.land (const_to_uint64 (init_val lut_6)) sel_mask
               = Z.land (s_expanded_tt lut_6 lut_s) sel_mask).

(** [CanLut6AbsorbLutS]: [Some found_sel_bit] when the function returns true,
    [None] when it returns false. *)
Definition CanLut6AbsorbLutS (lut_6 lut_s : LutInfo) : option SigBit :=
  match potential_sel_bits lut_6 lut_s with
  | [found_sel_bit] =>
      if sel_is_0_match lut_6 lut_s found_sel_bit || sel_is_1_match lut_6 lut_s found_sel_bit
      then Some found_sel_bit else None
  | _ => None
  end.

(** ** Candidate search *)

Inductive MergeType := SHARED_INPUTS | LUT6_ABSORB.

#[global] Instance MergeType_eq_dec : EqDecision MergeType.
Proof. solve_decision. Defined.

Record MergeCandidate := mkCand {
  idx_a : nat;
  idx_b : nat;
  score : Z;
  union_inputs : list SigBit;   (* pool<SigBit> *)
  type : MergeType;
  discovered_sel_bit : SigBit
}.

Definition LAYERED_SEARCH_THRESHOLD : Z := 30000.

(** The pool filled with the inputs of [lut_a], then those of [lut_b]. *)
Definition insert_inputs (lut : LutInfo) (p : list SigBit) : list SigBit :=
  foldl (fun p pair => pool_insert pair.2 p) p (ordered_inputs lut).

Definition current_union_inputs (lut_a lut_b : LutInfo) : list SigBit :=
  insert_inputs lut_b (insert_inputs lut_a []).

Definition shared_count (lut_a lut_b : LutInfo) : Z :=
  (size lut_a + size lut_b) - Z.of_nat (length (current_union_inputs lut_a lut_b)).

Definition shared_score (lut_a lut_b : LutInfo) : Z :=
  shared_count lut_a lut_b * 100 - Z.of_nat (length (current_union_inputs lut_a lut_b)).

Definition shared_candidate (i j : nat) (lut_a lut_b : LutInfo) : MergeCandidate :=
  mkCand i j (shared_score lut_a lut_b) (current_union_inputs lut_a lut_b)
         SHARED_INPUTS (SigConst Sx).

Definition is_subset (inputs_s inputs_6 : list SigBit) : bool :=
  forallb (fun sig_s => pool_count sig_s inputs_6) inputs_s.

(** The candidates pushed by the [check_shared_inputs] lambda of the
    layered search for the pair [(i, j)]. *)
Definition check_shared_inputs (lut_a lut_b : LutInfo) (i j : nat) : list MergeCandidate :=
  if decide (length (current_union_inputs lut_a lut_b) <= 5)%nat then
    if decide (shared_count lut_a lut_b >= 1) then [shared_candidate i j lut_a lut_b]
    else []
  else [].

(** The candidates pushed by the [check_lut6_absorb] lambda. *)
Definition check_lut6_absorb (lut_6 lut_s : LutInfo) (idx_6 idx_s : nat) : list MergeCandidate :=
  if decide (size lut_6 ≠ 6 ∨ size lut_s >= 6) then []
  else
    let inputs_6 := insert_inputs lut_6 [] in
    let inputs_s := insert_inputs lut_s [] in
    if is_subset inputs_s inputs_6 then
      match CanLut6AbsorbLutS lut_6 lut_s with
      | Some sel_bit =>
          [mkCand idx_6 idx_s (10000 + size lut_s * 100) inputs_6 LUT6_ABSORB sel_bit]
      | None => []
      end
    else [].

(** The body of the first double loop of the global search. *)
Definition global_shared_check (lut_a lut_b : LutInfo) (i j : nat) : list MergeCandidate :=
  let n := length (current_union_inputs lut_a lut_b) in
  let shared_inputs := shared_count lut_a lut_b in
  if decide ((n <= 6)%nat ∧ shared_inputs <= 5) then
    if decide (n <= 6)%nat then [shared_candidate i j lut_a lut_b] else []
  else [].

(** The body of the second double loop of the global search, entered for
    [i ≠ j] once [luts[i].size == 6]. *)
Definition global_absorb_check (lut_6 lut_s : LutInfo) (i j : nat) : list MergeCandidate :=
  let inputs_6 := insert_inputs lut_6 [] in
  let inputs_s := insert_inputs lut_s [] in
  if is_subset inputs_s inputs_6 then
    match CanLut6AbsorbLutS lut_6 lut_s with
    | Some sel_bit =>
        [mkCand i j (10000 + size lut_s * 100) inputs_6 LUT6_ABSORB sel_bit]
    | None => []
    end
  else [].

(** Index pairs [(i, j)] with [i < j < n], in loop order. *)
Definition upper_pairs (n : nat) : list (nat * nat) :=
  i ← seq 0 n; (fun j => (i, j)) <$> seq (S i) (n - S i).

(** Runs [body] on the two records an index pair denotes.  The loops only
    produce indices inside the vector. *)
Definition on_pair (luts : list LutInfo)
    (body : LutInfo -> LutInfo -> nat -> nat -> list MergeCandidate) (p : nat * nat)
    : list MergeCandidate :=
  match luts !! p.1, luts !! p.2 with
  | Some lut_a, Some lut_b => body lut_a lut_b p.1 p.2
  | _, _ => []
  end.

(** [FindMergeCandidates_Global]: the candidates in the order they are pushed. *)
Definition FindMergeCandidates_Global (luts : list LutInfo) : list MergeCandidate :=
  let n := length luts in
  (upper_pairs n ≫= on_pair luts global_shared_check)
  ++ (i ← seq 0 n;
      match luts !! i with
      | Some lut_6 =>
          if decide (size lut_6 ≠ 6) then []
          else j ← seq 0 n;
               if decide (i = j) then [] else on_pair luts global_absorb_check (i, j)
      | None => []
      end).

(** The three checks the layered search runs on a pair. *)
Definition layered_checks (luts : list LutInfo) (p : nat * nat) : list MergeCandidate :=
  on_pair luts check_shared_inputs p
  ++ on_pair luts check_lut6_absorb p
  ++ on_pair luts check_lut6_absorb (p.2, p.1).

(** [map<int, vector<int>>]: a finite map iterated in ascending key order. *)
Definition levels_in_order (level_to_lut_indices : gmap Z (list nat)) : list Z :=
  merge_sort Z.le (elements (dom level_to_lut_indices)).

(** The pairs tested at [level]: positions [i < j] inside the level, then
    the level against the next one when it exists. *)
Definition layered_pairs (level_to_lut_indices : gmap Z (list nat)) (level : Z)
    : list (nat * nat) :=
  let luts_in_current_level := default [] (level_to_lut_indices !! level) in
  ((fun p => (default 0%nat (luts_in_current_level !! p.1),
              default 0%nat (luts_in_current_level !! p.2)))
     <$> upper_pairs (length luts_in_current_level))
  ++ match level_to_lut_indices !! (level + 1) with
     | Some luts_in_next_level =>
         lut_idx_curr ← luts_in_current_level;
         (fun lut_idx_next => (lut_idx_curr, lut_idx_next)) <$> luts_in_next_level
     | None => []
     end.

Definition FindMergeCandidates_Layered (luts : list LutInfo)
    (level_to_lut_indices : gmap Z (list nat)) : list MergeCandidate :=
  level ← levels_in_order level_to_lut_indices;
  layered_pairs level_to_lut_indices level ≫= layered_checks luts.

(** ** The netlist *)

Record Cell := mkCell {
  cell_name : IdString;
  cell_type : IdString;
  cell_connections : gmap IdString SigBit;
  cell_parameters : gmap IdString Const
}.

(** A module is the list of its cells in iteration order; cell names are
    the keys of the module's cell table. *)
Record Module := mkModule { cells : list Cell }.

Definition module_cell (m : Module) (n : IdString) : option Cell :=
  list_find (fun c => cell_name c = n) (cells m) ≫= fun r => Some r.2.

Definition cell_names (m : Module) : list IdString := cell_name <$> cells m.

(** [Module::remove(cell)] erases the entry of the cell's name from the
    cell table.  The table keeps its entries in a vector that is iterated
    from the back, and erasing an entry moves the entry at the back into the
    freed slot.  In iteration order: the first cell takes the place of the
    removed one, unless it is the removed one. *)
Definition module_remove (m : Module) (c : Cell) : Module :=
  match list_find (fun c' => cell_name c' = cell_name c) (cells m), cells m with
  | Some (O, _), _ :: rest => mkModule rest
  | Some (S i, _), first :: rest => mkModule (<[i := first]> rest)
  | _, _ => m
  end.

(** [Module::addCell(name, type)] asserts that the name is not in use; a
    failed assertion aborts the pass ([None]).  The new entry goes to the
    back of the table, so the new cell comes first in the iteration.  Of the
    names the assertion inspects, the module here holds those of its cells;
    the names of wires, memories and processes are outside it. *)
Definition module_add (m : Module) (c : Cell) : option Module :=
  if decide (cell_name c ∈ cell_names m) then None
  else Some (mkModule (c :: cells m)).

(** [log_id]: the name without the backslash of a public identifier. *)
Definition log_id (n : IdString) : string :=
  match n with
  | String "\"%char rest => rest
  | _ => n
  end.

Definition ID_Z : IdString := "\Z".
Definition ID_Z5 : IdString := "\Z5".
Definition ID_INIT : IdString := "\INIT".
Definition ID_GTP_LUT6D : IdString := "\GTP_LUT6D".

(** ** Step 1: collecting the LUT cells *)

(** [ordered_inputs[port_name] = sig] on a [map<string, SigBit>]. *)
Fixpoint map_assign (k : string) (v : SigBit) (m : list (string * SigBit))
    : list (string * SigBit) :=
  match m with
  | [] => [(k, v)]
  | (k', v') :: rest =>
      if decide (k = k') then (k, v) :: rest
      else if String.ltb k k' then (k, v) :: (k', v') :: rest
      else (k', v') :: map_assign k v rest
  end.

(** [strncmp(type_str, "\\GTP_LUT", 8) == 0 && strlen(type_str) == 9], with
    the arity read from the ninth character as a signed [char]. *)
Definition gtp_lut_size (ty : IdString) : option Z :=
  if decide (String.length ty = 9%nat ∧ String.prefix "\GTP_LUT" ty = true) then
    match String.get 8 ty with
    | Some c =>
        let v := Z.of_nat (Ascii.nat_of_ascii c) in
        Some ((if decide (v < 128) then v else v - 256) - 48)
    | None => None
    end
  else None.

Section Collect.
  (** [SigMap]: the canonical representative of a signal. *)
Variable sigmap : SigBit -> SigBit.

Definition collect_inputs (cell : Cell) (size : Z) : list (string * SigBit) :=
    foldl (fun inputs i =>
             let port_name := port_name i in
             let port_id := "\" +:+ port_name in
             match cell_connections cell !! port_id with
             | Some sig => map_assign port_name (sigmap sig) inputs
             | None => inputs
             end)
          [] (seq 0 (Z.to_nat size)).

  (** One iteration of the loop over the cells; [getPort(ID(Z))] and
      [getParam(ID(INIT))] raise when the entry is missing ([None]). *)
Definition collect_cell (luts : list LutInfo) (cell : Cell) : option (list LutInfo) :=
    match gtp_lut_size (cell_type cell) with
    | Some size =>
        out ← cell_connections cell !! ID_Z;
        init ← cell_parameters cell !! ID_INIT;
        Some (luts ++ [mkLutInfo (cell_name cell) size (collect_inputs cell size)
                                 (sigmap out) init false])
    | None => Some luts
    end.

Definition CollectLuts (module : Module) : option (list LutInfo) :=
    foldl (fun acc cell => acc ≫= fun luts => collect_cell luts cell)
          (Some []) (cells module).
End Collect.

(** ** Step 2: leveling *)

Record LevelState := mkLevelState {
  q : list IdString;
  lut_levels : gmap IdString Z;
  lut_in_degree : gmap IdString Z;
  processed_count : Z
}.

Definition build_output_sig_to_lut (luts : list LutInfo) : gmap SigBit IdString :=
  foldl (fun m lut => <[output lut := cell_ptr lut]> m) ∅ luts.

Definition init_lut_graph (luts : list LutInfo) : gmap IdString (list IdString) :=
  foldl (fun g lut => <[cell_ptr lut := []]> g) ∅ luts.

(** The inner loop over the inputs of [src_lut]: an input driven by another
    LUT adds the edge driver -> [src_lut], and the in-degree grows only when
    the edge is new. *)
Definition add_input_edge (output_sig_to_lut : gmap SigBit IdString) (src : IdString)
    (st : gmap IdString (list IdString) * gmap IdString Z) (pair : string * SigBit)
    : gmap IdString (list IdString) * gmap IdString Z :=
  let '(lut_graph, in_degree) := st in
  match output_sig_to_lut !! pair.2 with
  | Some driver_lut_ptr =>
      let downstream := default [] (lut_graph !! driver_lut_ptr) in
      if pool_insert_is_new src downstream
      then (<[driver_lut_ptr := pool_insert src downstream]> lut_graph,
            <[src := default 0 (in_degree !! src) + 1]> in_degree)
      else (<[driver_lut_ptr := downstream]> lut_graph, in_degree)
  | None => (lut_graph, in_degree)
  end.

Definition add_lut_edges (output_sig_to_lut : gmap SigBit IdString)
    (st : gmap IdString (list IdString) * gmap IdString Z) (src_lut : LutInfo)
    : gmap IdString (list IdString) * gmap IdString Z :=
  foldl (add_input_edge output_sig_to_lut (cell_ptr src_lut))
        (st.1, <[cell_ptr src_lut := 0]> st.2) (ordered_inputs src_lut).

Definition build_graph (luts : list LutInfo)
    : gmap IdString (list IdString) * gmap IdString Z :=
  foldl (add_lut_edges (build_output_sig_to_lut luts)) (init_lut_graph luts, ∅) luts.

(** Seeding the queue with the LUTs of in-degree 0, at level 0. *)
Definition seed (in_degree : gmap IdString Z)
    (st : list IdString * gmap IdString Z) (lut : LutInfo)
    : list IdString * gmap IdString Z :=
  if decide (default 0 (in_degree !! cell_ptr lut) = 0)
  then (st.1 ++ [cell_ptr lut], <[cell_ptr lut := 0]> st.2)
  else st.

(** The body of the loop over the downstream LUTs of the dequeued node;
    [lut_in_degree.at] raises on a missing key ([None]). *)
Definition relax (current_level : Z) (st : LevelState) (downstream_lut_ptr : IdString)
    : option LevelState :=
  let new_level := current_level + 1 in
  let levels' :=
    match lut_levels st !! downstream_lut_ptr with
    | Some old => if decide (new_level > old)
                  then <[downstream_lut_ptr := new_level]> (lut_levels st)
                  else lut_levels st
    | None => <[downstream_lut_ptr := new_level]> (lut_levels st)
    end in
  deg ← lut_in_degree st !! downstream_lut_ptr;
  let deg' := deg - 1 in
  Some (mkLevelState (if decide (deg' = 0) then q st ++ [downstream_lut_ptr] else q st)
                     levels'
                     (<[downstream_lut_ptr := deg']> (lut_in_degree st))
                     (processed_count st)).

Definition relax_all (current_level : Z) (succs : list IdString) (st : LevelState)
    : option LevelState :=
  foldl (fun acc d => acc ≫= fun st => relax current_level st d) (Some st) succs.

(** One iteration of the [while (!q.empty())] loop, for the dequeued node. *)
Definition level_step (lut_graph : gmap IdString (list IdString))
    (current_lut_ptr : IdString) (st : LevelState) : option LevelState :=
  current_level ← lut_levels st !! current_lut_ptr;
  succs ← lut_graph !! current_lut_ptr;
  relax_all current_level succs
            (mkLevelState (q st) (lut_levels st) (lut_in_degree st) (processed_count st + 1)).

(** The queue loop.  [fuel] bounds the number of iterations; [None] is a
    raised exception or exhausted fuel. *)
Fixpoint level_loop (lut_graph : gmap IdString (list IdString)) (fuel : nat)
    (st : LevelState) : option LevelState :=
  match q st with
  | [] => Some st
  | current_lut_ptr :: rest =>
      match fuel with
      | O => None
      | S fuel' =>
          st' ← level_step lut_graph current_lut_ptr
                  (mkLevelState rest (lut_levels st) (lut_in_degree st) (processed_count st));
          level_loop lut_graph fuel' st'
      end
  end.

Record Leveling := mkLeveling {
  levels_of : gmap IdString Z;     (* the global [lut_levels] after the call *)
  loop_warning : bool              (* "Combinational loop detected among LUTs." *)
}.

Definition NumberLutsByLevel (luts : list LutInfo) : option Leveling :=
  let '(lut_graph, in_degree) := build_graph luts in
  let '(q0, levels0) := foldl (seed in_degree) ([], ∅) luts in
  st ← level_loop lut_graph (length luts) (mkLevelState q0 levels0 in_degree 0);
  Some (mkLeveling (lut_levels st)
                   (bool_decide (processed_count st ≠ Z.of_nat (length luts)))).

(** The partition of the LUT indices by level built in [StitcherMain]; LUTs
    without a level are left out. *)
Definition partition_by_level (luts : list LutInfo) (lut_levels : gmap IdString Z)
    : gmap Z (list nat) :=
  foldl (fun (m : gmap Z (list nat)) '(i, lut) =>
           match lut_levels !! cell_ptr lut with
           | Some level => <[level := default [] (m !! level) ++ [i]]> m
           | None => m
           end)
        ∅ (imap (fun i lut => (i, lut)) luts).

(** ** Steps 4 and 5: planning and committing *)

Record MergePlan := mkPlan {
  new_cell_name : IdString;
  plan_init_val : Const;
  port_connections : gmap IdString SigBit;
  cell_a_to_remove : IdString;
  cell_b_to_remove : IdString
}.

(** [priority_queue<MergeCandidate>]: candidates leave the queue by
    descending score.  The order among equal scores is left to the heap of
    the standard library and may differ from the order of the sort used
    here; no statement about the planner depends on it. *)
Definition higher_first (c1 c2 : MergeCandidate) : Prop := score c2 <= score c1.

#[global] Instance higher_first_dec : RelDecision higher_first.
Proof. intros c1 c2. unfold higher_first. apply _. Defined.

Definition pop_order (candidates : list MergeCandidate) : list MergeCandidate :=
  merge_sort higher_first candidates.

(** SHARED_INPUTS: the union, padded with constant 0 up to five entries,
    then the constant-1 selector. *)
Definition shared_inputs_vec (union_inputs : list SigBit) : list SigBit :=
  union_inputs ++ replicate (5 - length union_inputs) (SigConst S0) ++ [SigConst S1].

(** [find] of the selector followed by [iter_swap] with the last element. *)
Definition swap_sel_to_last (v : list SigBit) (sel_bit : SigBit) : list SigBit :=
  match find_index v sel_bit with
  | Some k =>
      let last_idx := (length v - 1)%nat in
      match v !! k, v !! last_idx with
      | Some x, Some y => <[last_idx := x]> (<[k := y]> v)
      | _, _ => v
      end
  | None => v
  end.

Definition new_inputs_of (lut_a lut_b : LutInfo) (best_pair : MergeCandidate)
    : list SigBit * SigBit :=
  match type best_pair with
  | SHARED_INPUTS => (shared_inputs_vec (union_inputs best_pair), SigConst S1)
  | LUT6_ABSORB =>
      let lut_6 := if decide (size lut_a = 6) then lut_a else lut_b in
      (swap_sel_to_last (input_sigs lut_6) (discovered_sel_bit best_pair),
       discovered_sel_bit best_pair)
  end.

(** [port_connections["\\I" + to_string(k)] = new_inputs_vec[k]] for [k < 6];
    the vector is read without a bounds check ([None] when it is too short). *)
Definition input_ports (new_inputs_vec : list SigBit) : option (gmap IdString SigBit) :=
  foldl (fun acc k =>
           m ← acc; sig ← new_inputs_vec !! k;
           Some (<["\I" +:+ pretty k := sig]> m))
        (Some ∅) (seq 0 6).

Section Planner.
  (** [Module::uniquify]: a name not used in the module, derived from the
      proposed one. *)
Variable uniquify : Module -> IdString -> IdString.

  (** The part of the loop body of [PlanMerges] after both LUTs are claimed. *)
Definition make_plan (module : Module) (lut_a lut_b : LutInfo)
      (best_pair : MergeCandidate) : option MergePlan :=
    let '(new_inputs_vec, sel_bit) := new_inputs_of lut_a lut_b best_pair in
    ni ← calculate_new_init lut_a lut_b new_inputs_vec sel_bit;
    let new_name_str := log_id (cell_ptr lut_a) +:+ "_" +:+ log_id (cell_ptr lut_b) +:+ "_merged" in
    ports ← input_ports new_inputs_vec;
    Some (mkPlan (uniquify module ("\" +:+ new_name_str))
                 (new_init ni)
                 (<[ID_Z5 := z5_out_sig ni]> (<[ID_Z := z_out_sig ni]> ports))
                 (cell_ptr lut_a) (cell_ptr lut_b)).

  (** One iteration of the [while (!candidates.empty())] loop, for the
      candidate that leaves the queue.  [luts[idx]] is read without a bounds
      check ([None] when the index is outside the vector). *)
Definition plan_iteration (module : Module) (st : list LutInfo * list MergePlan)
      (best_pair : MergeCandidate) : option (list LutInfo * list MergePlan) :=
    lut_a ← st.1 !! idx_a best_pair;
    lut_b ← st.1 !! idx_b best_pair;
    if is_merged lut_a || is_merged lut_b then Some st
    else
      let luts' := alter set_is_merged (idx_b best_pair)
                     (alter set_is_merged (idx_a best_pair) st.1) in
      plan ← make_plan module lut_a lut_b best_pair;
      Some (luts', st.2 ++ [plan]).

Fixpoint PlanMerges_loop (module : Module) (st : list LutInfo * list MergePlan)
      (popped : list MergeCandidate) : option (list LutInfo * list MergePlan) :=
    match popped with
    | [] => Some st
    | best_pair :: rest =>
        st' ← plan_iteration module st best_pair;
        PlanMerges_loop module st' rest
    end.

Definition PlanMerges (module : Module) (luts : list LutInfo)
      (candidates : list MergeCandidate) : option (list LutInfo * list MergePlan) :=
    PlanMerges_loop module (luts, []) (pop_order candidates).
End Planner.

(** What the commit phase does to the module, in order. *)
Inductive Event :=
| EvRemove (n : IdString)
| EvAddCell (n : IdString).

#[global] Instance Event_eq_dec : EqDecision Event.
Proof. solve_decision. Defined.

Definition cell_names_to_remove (plans : list MergePlan) : list IdString :=
  foldl (fun p plan => pool_insert (cell_b_to_remove plan)
                         (pool_insert (cell_a_to_remove plan) p)) [] plans.

Definition remove_named (st : Module * list Event) (cell_name : IdString)
    : Module * list Event :=
  match module_cell st.1 cell_name with
  | Some c => (module_remove st.1 c, st.2 ++ [EvRemove cell_name])
  | None => st
  end.

Definition fused_cell (plan : MergePlan) : Cell :=
  mkCell (new_cell_name plan) ID_GTP_LUT6D (port_connections plan)
         {[ ID_INIT := plan_init_val plan ]}.

Definition add_fused (st : Module * list Event) (plan : MergePlan)
    : option (Module * list Event) :=
  m ← module_add st.1 (fused_cell plan);
  Some (m, st.2 ++ [EvAddCell (new_cell_name plan)]).

Record Committed := mkCommitted {
  module_after : Module;
  events : list Event;
  performed : nat       (* the count in "Performed %zu merges successfully." *)
}.

(** Step 5 of [StitcherMain]: the removals, then the additions.  The block
    returns unless an [addCell] finds its name in use. *)
Definition ExecuteMerges (module : Module) (plans : list MergePlan) : option Committed :=
  let st := foldl remove_named (module, []) (cell_names_to_remove plans) in
  st ← foldl (fun acc plan => acc ≫= fun st => add_fused st plan) (Some st) plans;
  Some (mkCommitted st.1 st.2 (length plans)).

(** ** The pass *)

Inductive LogMsg :=
| LogCollected (n : nat)
| LogLoopWarning
| LogFound (n : nat)
| LogNoValidMerges
| LogPlanned (n : nat)
| LogPerformed (n : nat).

Record PassResult := mkPassResult {
  result_module : Module;
  result_events : list Event;
  result_log : list LogMsg
}.

Section Pass.
Variable uniquify : Module -> IdString -> IdString.
  (** [SigMap sigmap(module)]. *)
Variable SigMap : Module -> SigBit -> SigBit.

  (** Steps 2 and 3: the candidates and the log lines of the search.  The
      diagnostic dump of step 1 writes a file and is left out. *)
Definition find_candidates (all_luts : list LutInfo)
      : option (list MergeCandidate * list LogMsg) :=
    if decide (Z.of_nat (length all_luts) <= LAYERED_SEARCH_THRESHOLD) then
      let candidates := FindMergeCandidates_Global all_luts in
      Some (candidates, [LogFound (length candidates)])
    else
      lv ← NumberLutsByLevel all_luts;
      let level_to_lut_indices := partition_by_level all_luts (levels_of lv) in
      let candidates := FindMergeCandidates_Layered all_luts level_to_lut_indices in
      Some (candidates,
            (if loop_warning lv then [LogLoopWarning] else [])
            ++ [LogFound (length candidates)]).

Definition StitcherMain (module : Module) : option PassResult :=
    all_luts ← CollectLuts (SigMap module) module;
    '(candidates, search_log) ← find_candidates all_luts;
    '(_, plans) ← PlanMerges uniquify module all_luts candidates;
    let log := [LogCollected (length all_luts)] ++ search_log in
    match plans with
    | [] => Some (mkPassResult module [] (log ++ [LogNoValidMerges]))
    | _ =>
        done ← ExecuteMerges module plans;
        Some (mkPassResult (module_after done) (events done)
                (log ++ [LogPlanned (length plans); LogPerformed (performed done)]))
    end.
End Pass.

(** ** Diagnostic printing: [format_init_hex] *)

(** The character printed for one table bit. *)
Definition state_char (s : State) : ascii :=
  match s with
  | S1 => "1"
  | S0 => "0"
  | _ => "x"
  end%char.

(** [while (bin_str.length() % 4 != 0) bin_str.insert(0, "0")]; the loop
    runs at most three times. *)
Fixpoint pad_nibbles (fuel : nat) (bin_str : list ascii) : list ascii :=
  if decide (length bin_str mod 4 ≠ 0)%nat then
    match fuel with
    | O => bin_str
    | S fuel' => pad_nibbles fuel' ("0"%char :: bin_str)
    end
  else bin_str.

Definition hex_chars : list ascii := String.list_ascii_of_string "0123456789abcdef".

(** The value of one group of four characters: a character other than
    ['1'] counts as 0. *)
Definition nibble_of (g0 g1 g2 g3 : ascii) : nat :=
  ((if decide (g0 = "1"%char) then 8 else 0)
   + (if decide (g1 = "1"%char) then 4 else 0)
   + (if decide (g2 = "1"%char) then 2 else 0)
   + (if decide (g3 = "1"%char) then 1 else 0))%nat.

(** The loop over the groups of four.  After the padding the length is a
    multiple of 4; a shorter last group cannot occur and is dropped here. *)
Fixpoint hex_of_groups (bin_str : list ascii) : list ascii :=
  match bin_str with
  | g0 :: g1 :: g2 :: g3 :: rest =>
      default "0"%char (hex_chars !! nibble_of g0 g1 g2 g3) :: hex_of_groups rest
  | _ => []
  end.

Definition format_init_hex (init_val : Const) : string :=
  let width := length init_val in
  if decide (width = 0%nat) then "0"
  else
    (* from the most significant bit down *)
    let bin_str := state_char <$> reverse init_val in
    let bin_str := pad_nibbles 3 bin_str in
    let hex_str := hex_of_groups bin_str in
    let hex_str :=
      if decide (length hex_str = 16%nat)
      then take 8 hex_str ++ "_"%char :: drop 8 hex_str
      else hex_str in
    match hex_str with
    | [] => "0"
    | _ => String.string_of_list_ascii hex_str
    end.

(** ** The command: [StitcherPass::execute] *)

(** The option loop of [execute].  It starts at [argidx = 1] with an empty
    [dump_filename]; an argument ["-dump"] that is not the last one takes the
    next argument as file name; anything else ends the loop.  The result is
    the file name and the index handed to [extra_args].  Each round moves
    [argidx] forward, so [fuel = length args] rounds are enough. *)
Fixpoint option_loop (fuel : nat) (args : list string) (argidx : nat)
    (dump_filename : string) : string * nat :=
  match fuel with
  | O => (dump_filename, argidx)
  | S fuel' =>
      if decide (argidx < length args)%nat then
        if decide (args !! argidx = Some "-dump" ∧ (argidx + 1 < length args)%nat) then
          option_loop fuel' args (S (S argidx)) (default "" (args !! S argidx))
        else (dump_filename, argidx)
      else (dump_filename, argidx)
  end.

Definition parse_options (args : list string) : string * nat :=
  option_loop (length args) args 1 "".

(** * The truth-table shuffler

    A stand-alone tool: it reads the names of the inputs of a truth table
    in weight order, the table, and a new order of the same names, and prints
    the table of the same function for the new order. *)

Module Shuffler.

  (** What a call does: return a value, throw (the tool then prints the
      message and exits with status 1), or leave the language's defined
      behaviour. *)
Inductive Exn :=
  | InvalidHexCharacter    (* "Invalid hex character" *)
  | TooShort               (* "Truth table string is too short." *)
  | InvalidFormat          (* "Invalid truth table format. Use 'b' or 'h'." *)
  | LengthMismatch         (* "Weight strings must have the same length." *)
  | OutOfRange.            (* [std::out_of_range] from [map::at] *)

Inductive Outcome (A : Type) :=
  | Ok (a : A)
  | Throw (e : Exn)
  | Undefined.
  Arguments Ok {A} a.
  Arguments Throw {A} e.
  Arguments Undefined {A}.

Definition bind {A B} (x : Outcome A) (f : A -> Outcome B) : Outcome B :=
    match x with
    | Ok a => f a
    | Throw e => Throw e
    | Undefined => Undefined
    end.

Definition is_lower (c : ascii) : bool :=
    (97 <=? nat_of_ascii c)%nat && (nat_of_ascii c <=? 122)%nat.
Definition is_upper (c : ascii) : bool :=
    (65 <=? nat_of_ascii c)%nat && (nat_of_ascii c <=? 90)%nat.

  (** [toupper] and [tolower] in the "C" locale: only the 26 letters change,
      every other character, also one above 127, is returned as it is. *)
Definition toupper (c : ascii) : ascii :=
    if is_lower c then ascii_of_nat (nat_of_ascii c - 32) else c.
Definition tolower (c : ascii) : ascii :=
    if is_upper c then ascii_of_nat (nat_of_ascii c + 32) else c.

Definition hex_char_to_bin (c : ascii) : Outcome (list ascii) :=
    match toupper c with
    | "0" => Ok ["0"; "0"; "0"; "0"]
    | "1" => Ok ["0"; "0"; "0"; "1"]
    | "2" => Ok ["0"; "0"; "1"; "0"]
    | "3" => Ok ["0"; "0"; "1"; "1"]
    | "4" => Ok ["0"; "1"; "0"; "0"]
    | "5" => Ok ["0"; "1"; "0"; "1"]
    | "6" => Ok ["0"; "1"; "1"; "0"]
    | "7" => Ok ["0"; "1"; "1"; "1"]
    | "8" => Ok ["1"; "0"; "0"; "0"]
    | "9" => Ok ["1"; "0"; "0"; "1"]
    | "A" => Ok ["1"; "0"; "1"; "0"]
    | "B" => Ok ["1"; "0"; "1"; "1"]
    | "C" => Ok ["1"; "1"; "0"; "0"]
    | "D" => Ok ["1"; "1"; "0"; "1"]
    | "E" => Ok ["1"; "1"; "1"; "0"]
    | "F" => Ok ["1"; "1"; "1"; "1"]
    | _ => Throw InvalidHexCharacter
    end%char.

Definition hex_chars : list ascii := String.list_ascii_of_string "0123456789ABCDEF".

  (** The loop over the groups of four of [bin_to_hex], after the padding. *)
Fixpoint hex_of_groups (padded_bin : list ascii) : list ascii :=
    match padded_bin with
    | g0 :: g1 :: g2 :: g3 :: rest =>
        default "0"%char (hex_chars !! nibble_of g0 g1 g2 g3) :: hex_of_groups rest
    | _ => []
    end.

Definition bin_to_hex (bin : list ascii) : list ascii :=
    match bin with
    | [] => ["0"%char]
    | _ => hex_of_groups (pad_nibbles 3 bin)
    end.

  (** [1 << n] on [int]: defined for [n] below 31. *)
Definition shl1 (n : nat) : Outcome nat :=
    if decide (n < 31)%nat then Ok (2 ^ n)%nat else Undefined.

  (** [bin_tt += hex_char_to_bin(c)] over the characters of [value]. *)
Fixpoint hex_to_bin (value : list ascii) : Outcome (list ascii) :=
    match value with
    | [] => Ok []
    | c :: rest =>
        bind (hex_char_to_bin c) (fun bits =>
        bind (hex_to_bin rest) (fun more => Ok (bits ++ more)))
    end.

Definition parse_truth_table (raw_tt : list ascii) (n_bits : nat) : Outcome (list ascii) :=
    match raw_tt with
    | format :: ((_ :: _) as value) =>
        let format := tolower format in
        bind (if decide (format = "b"%char) then Ok value
              else if decide (format = "h"%char) then hex_to_bin value
              else Throw InvalidFormat) (fun bin_tt =>
        let bin_tt := reverse bin_tt in
        bind (shl1 n_bits) (fun expected_length =>
        Ok (if decide (length bin_tt < expected_length)%nat
            then bin_tt ++ replicate (expected_length - length bin_tt) "0"%char
            else take expected_length bin_tt)))
    | _ => Throw TooShort
    end.

  (** [old_weights_map[original_weights_str[i]] = i] for [i] from 0 up: a
      later position replaces an earlier one. *)
Definition old_weights_map (original_weights_str : list ascii) : gmap ascii nat :=
    foldl (fun (m : gmap ascii nat) (p : nat * ascii) => <[p.2 := p.1]> m) ∅
          (imap (fun i c => (i, c)) original_weights_str).

  (** The inner loop: the address in the original table for [new_addr]. *)
Definition old_address (old_weights : gmap ascii nat) (new_weights_str : list ascii)
      (new_addr : nat) : Outcome nat :=
    foldl (fun acc i =>
             bind acc (fun old_addr =>
             if Nat.testbit new_addr i then
               match new_weights_str !! i with
               | Some new_weight_char =>
                   match old_weights !! new_weight_char with
                   | Some old_pos => bind (shl1 old_pos) (fun w => Ok (old_addr + w)%nat)
                   | None => Throw OutOfRange
                   end
               | None => Undefined
               end
             else Ok old_addr))
          (Ok 0%nat) (seq 0 (length new_weights_str)).

  (** [original_tt_bin[old_addr]]: the character at the index, the
      terminating null at the index equal to the length, undefined beyond. *)
Definition char_at (s : list ascii) (i : nat) : Outcome ascii :=
    match s !! i with
    | Some c => Ok c
    | None => if decide (i = length s) then Ok Ascii.zero else Undefined
    end.

  (** The conversion loop over the addresses of the new table. *)
Fixpoint convert (old_weights : gmap ascii nat) (new_weights_str original_tt_bin : list ascii)
      (addrs : list nat) : Outcome (list ascii) :=
    match addrs with
    | [] => Ok []
    | new_addr :: rest =>
        bind (old_address old_weights new_weights_str new_addr) (fun old_addr =>
        bind (char_at original_tt_bin old_addr) (fun c =>
        bind (convert old_weights new_weights_str original_tt_bin rest) (fun more =>
        Ok (c :: more))))
    end.

  (** The computation of [main] on its three inputs; the result is the two
      strings it prints after "New Truth Table (binary)" and "(hex)". *)
Definition shuffle (original_weights_str original_tt_str new_weights_str : list ascii)
      : Outcome (list ascii * list ascii) :=
    if decide (length original_weights_str ≠ length new_weights_str)
    then Throw LengthMismatch
    else
      let n_vars := length original_weights_str in
      bind (shl1 n_vars) (fun tt_size =>
      bind (parse_truth_table original_tt_str n_vars) (fun original_tt_bin =>
      bind (convert (old_weights_map original_weights_str) new_weights_str original_tt_bin
                    (seq 0 tt_size)) (fun new_tt_bin =>
      let new_tt_bin := reverse new_tt_bin in
      Ok (new_tt_bin, bin_to_hex new_tt_bin)))).

End Shuffler.

(** ** Sample netlists used by the examples below *)

Definition wire_bit (n : string) : SigBit := SigWire n 0.

Definition table_of (n : nat) (v : Z) : Const :=
  (fun i => if Z.testbit v (Z.of_nat i) then S1 else S0) <$> seq 0 n.

(** A collected LUT with every port bound, in port order. *)
Definition sample_lut (nm : IdString) (ins : list SigBit) (out : SigBit) (tt : Z) : LutInfo :=
  mkLutInfo nm (Z.of_nat (length ins)) (imap (fun i s => (port_name i, s)) ins) out
            (table_of (2 ^ length ins) tt) false.

Definition keep_name (m : Module) (n : IdString) : IdString := n.

(** Two 1-input LUTs over independent inputs: a buffer of x and an inverter of y. *)
Definition lut_x : LutInfo := sample_lut "\lx" [wire_bit "x"] (wire_bit "ox") 2.
Definition lut_y : LutInfo := sample_lut "\ly" [wire_bit "y"] (wire_bit "oy") 1.

(** Two 3-input LUTs over disjoint inputs: the union has six signals. *)
Definition lut_p : LutInfo :=
  sample_lut "\lp" [wire_bit "a"; wire_bit "b"; wire_bit "c"] (wire_bit "op") 0x80.
Definition lut_q : LutInfo :=
  sample_lut "\lq" [wire_bit "d"; wire_bit "e"; wire_bit "f"] (wire_bit "oq") 0xFE.

(** The level partition of [lut_x; lut_y]: both at level 0. *)
Definition level0_pair : gmap Z (list nat) := {[ 0 := [0; 1]%nat ]}.

(** The plans for [lut_x; lut_y] from the exhaustive search, in an empty module. *)
Definition planned_xy : list LutInfo * list MergePlan :=
  default ([], [])
    (PlanMerges keep_name (mkModule []) [lut_x; lut_y]
                (FindMergeCandidates_Global [lut_x; lut_y])).

(** A 6-input LUT computing f AND a, and a 5-input buffer of a over the
    first five of its inputs. *)
Definition six_wires : list SigBit :=
  [wire_bit "a"; wire_bit "b"; wire_bit "c"; wire_bit "d"; wire_bit "e"; wire_bit "f"].
Definition lut_and_sel : LutInfo :=
  sample_lut "\l6" six_wires (wire_bit "o6") 0xAAAAAAAA00000000.
Definition lut_buf5 : LutInfo :=
  sample_lut "\l5" (take 5 six_wires) (wire_bit "o5") 0xAAAAAAAA.
Definition absorb_buf5 : MergeCandidate :=
  mkCand 0 1 10500 (reverse six_wires) LUT6_ABSORB (wire_bit "f").

(** The assignment that sets only signal a. *)
Definition only_a (s : SigBit) : bool := bool_decide (s = wire_bit "a").

(** A 6-input LUT computing (a AND b) OR f, and a second 6-input LUT
    computing a AND b whose ports I4 and I5 carry the same signal e. *)
Definition lut_six : LutInfo :=
  sample_lut "\u6" six_wires (wire_bit "ou") 0xFFFFFFFF88888888.
Definition lut_six_dup : LutInfo :=
  sample_lut "\v6" (take 5 six_wires ++ [wire_bit "e"]) (wire_bit "ov") 0x8888888888888888.

(** A cycle-free netlist: [lut_z] reads the outputs of [lut_x] and [lut_y]. *)
Definition lut_z : LutInfo :=
  sample_lut "\lz" [wire_bit "ox"; wire_bit "oy"] (wire_bit "oz") 8.
Definition dag3 : list LutInfo := [lut_x; lut_y; lut_z].
Definition dag3_rank (l : LutInfo) : nat :=
  if decide (cell_ptr l = "\lz") then 1%nat else 0%nat.

(** A netlist with a feedback loop between [cyc_c1] and [cyc_c2]; [cyc_c1]
    also reads the output of the loop-free [cyc_x], as does [cyc_d]. *)
Definition cyc_x : LutInfo := sample_lut "\cx" [wire_bit "in"] (wire_bit "ox") 2.
Definition cyc_c1 : LutInfo :=
  sample_lut "\c1" [wire_bit "ox"; wire_bit "oc2"] (wire_bit "oc1") 8.
Definition cyc_c2 : LutInfo := sample_lut "\c2" [wire_bit "oc1"] (wire_bit "oc2") 1.
Definition cyc_d : LutInfo :=
  sample_lut "\cd" [wire_bit "ox"; wire_bit "in"] (wire_bit "od") 6.
Definition cyc4 : list LutInfo := [cyc_x; cyc_c1; cyc_c2; cyc_d].
Definition cyc4_partition : gmap Z (list nat) := {[ 0 := [0%nat]; 1 := [1; 3]%nat ]}.

(** A module with the two 1-input LUT cells and a flip-flop. *)
Definition cell_x : Cell :=
  mkCell "\lx" "\GTP_LUT1" {[ "\I0" := wire_bit "x"; "\Z" := wire_bit "ox" ]}
         {[ "\INIT" := table_of 2 2 ]}.
Definition cell_y : Cell :=
  mkCell "\ly" "\GTP_LUT1" {[ "\I0" := wire_bit "y"; "\Z" := wire_bit "oy" ]}
         {[ "\INIT" := table_of 2 1 ]}.
Definition cell_ff : Cell :=
  mkCell "\ff" "\GTP_DFF" {[ "\D" := wire_bit "ox"; "\Q" := wire_bit "q" ]} ∅.
Definition module_xy : Module := mkModule [cell_x; cell_ff; cell_y].
Definition same_sig (m : Module) (s : SigBit) : SigBit := s.

(** A 5-input LUT computing a AND b over the first five inputs of [lut_six],
    and the ABSORB candidate of the two with f as selector. *)
Definition lut_and5 : LutInfo :=
  sample_lut "\w5" (take 5 six_wires) (wire_bit "ow") 0x88888888.
Definition absorb_and5 : MergeCandidate :=
  mkCand 0 1 10500 (reverse six_wires) LUT6_ABSORB (wire_bit "f").

(** The levels [NumberLutsByLevel] leaves for [cyc4]. *)
Definition cyc4_levels : gmap IdString Z :=
  default ∅ (levels_of <$> NumberLutsByLevel cyc4).

(** The cell a LUT record was collected from, for a record whose signals
    are canonical. *)
Definition cell_of_lut (lut : LutInfo) (ty : IdString) : Cell :=
  mkCell (cell_ptr lut) ty
         (<[ID_Z := output lut]>
            (list_to_map ((fun p : string * SigBit => ("\" +:+ p.1, p.2))
                            <$> ordered_inputs lut)))
         {[ ID_INIT := init_val lut ]}.

(** A module with the 6-input LUT [lut_six], the 5-input LUT [lut_and5]
    and a flip-flop. *)
Definition module_65 : Module :=
  mkModule [cell_of_lut lut_six "\GTP_LUT6"; cell_ff; cell_of_lut lut_and5 "\GTP_LUT5"].

(** The plans for [lut_six; lut_and5] from the exhaustive search, in an
    empty module. *)
Definition planned_65 : list LutInfo * list MergePlan :=
  default ([], [])
    (PlanMerges keep_name (mkModule []) [lut_six; lut_and5]
                (FindMergeCandidates_Global [lut_six; lut_and5])).

(** Two 6-input LUTs over inputs of their own, which merge with nothing,
    and a module that holds them around the cells of [module_65]. *)
Definition lut_k1 : LutInfo :=
  sample_lut "\k1" (wire_bit <$> ["g1"; "g2"; "g3"; "g4"; "g5"; "g6"]) (wire_bit "ok1") 1.
Definition lut_k2 : LutInfo :=
  sample_lut "\k2" (wire_bit <$> ["h1"; "h2"; "h3"; "h4"; "h5"; "h6"]) (wire_bit "ok2") 6.
Definition luts_keep : list LutInfo := [lut_k1; lut_six; lut_and5; lut_k2].
Definition module_keep : Module :=
  mkModule [cell_of_lut lut_k1 "\GTP_LUT6"; cell_of_lut lut_six "\GTP_LUT6"; cell_ff;
            cell_of_lut lut_and5 "\GTP_LUT5"; cell_of_lut lut_k2 "\GTP_LUT6"].

(** A [GTP_LUT2] cell with only port I1 connected, whose table makes it a
    buffer of I1, next to a 1-input buffer of b. *)
Definition cell_gap : Cell :=
  mkCell "\g2" "\GTP_LUT2" {[ "\I1" := wire_bit "a"; "\Z" := wire_bit "og" ]}
         {[ "\INIT" := table_of 4 12 ]}.
Definition cell_b1 : Cell :=
  mkCell "\b1" "\GTP_LUT1" {[ "\I0" := wire_bit "b"; "\Z" := wire_bit "ob" ]}
         {[ "\INIT" := table_of 2 2 ]}.
Definition module_gap : Module := mkModule [cell_gap; cell_b1].
Definition lut_gap : LutInfo :=
  mkLutInfo "\g2" 2 [("I1", wire_bit "a")] (wire_bit "og") (table_of 4 12) false.
Definition lut_b1 : LutInfo := sample_lut "\b1" [wire_bit "b"] (wire_bit "ob") 2.
Definition gap_slots : list SigBit :=
  [wire_bit "b"; wire_bit "a"; SigConst S0; SigConst S0; SigConst S0].

(** A cycle-free netlist in which [md_u1] and [md_u2] both drive the
    signal s that [md_v3] reads; [md_u1] reads the output of [md_w0]. *)
Definition md_w0 : LutInfo := sample_lut "\w0" [wire_bit "p"] (wire_bit "w") 2.
Definition md_u1 : LutInfo := sample_lut "\u1" [wire_bit "w"] (wire_bit "s") 2.
Definition md_u2 : LutInfo := sample_lut "\u2" [wire_bit "q"] (wire_bit "s") 2.
Definition md_v3 : LutInfo := sample_lut "\v3" [wire_bit "s"] (wire_bit "o") 2.
Definition two_drivers : list LutInfo := [md_w0; md_u1; md_u2; md_v3].
Definition two_drivers_rank (l : LutInfo) : nat :=
  if decide (cell_ptr l = "\v3") then 2%nat
  else if decide (cell_ptr l = "\u1") then 1%nat else 0%nat.

(** Four 1-input LUTs whose names make the two pairs [\x_y], [\z] and
    [\x], [\y_z] produce the same fused name. *)
Definition clash_xy : LutInfo := sample_lut "\x_y" [wire_bit "a"] (wire_bit "o1") 2.
Definition clash_z : LutInfo := sample_lut "\z" [wire_bit "a"] (wire_bit "o2") 1.
Definition clash_x : LutInfo := sample_lut "\x" [wire_bit "b"] (wire_bit "o3") 2.
Definition clash_yz : LutInfo := sample_lut "\y_z" [wire_bit "b"] (wire_bit "o4") 1.
Definition luts_clash : list LutInfo := [clash_xy; clash_z; clash_x; clash_yz].
Definition module_clash : Module :=
  mkModule ((fun lut => cell_of_lut lut "\GTP_LUT1") <$> luts_clash).
Definition planned_clash : list LutInfo * list MergePlan :=
  default ([], [])
    (PlanMerges keep_name module_clash luts_clash (FindMergeCandidates_Global luts_clash)).

(** ** Vocabulary of the properties *)

(** The claimed flag of the LUT record at index [k]. *)
Definition claimed (luts : list LutInfo) (k : nat) : Prop :=
  is_merged <$> luts !! k = Some true.

(** A plan names a LUT when it schedules the LUT's cell for removal. *)
Definition names_lut (plan : MergePlan) (lut : LutInfo) : Prop :=
  cell_ptr lut = cell_a_to_remove plan ∨ cell_ptr lut = cell_b_to_remove plan.

(** A plan names a cell name. *)
Definition names_cell (plan : MergePlan) (n : IdString) : Prop :=
  n = cell_a_to_remove plan ∨ n = cell_b_to_remove plan.


(** *** Leveling: the dependency graph and its chains *)

(** [u -> v]: the canonical output of [u] is one of the canonical inputs of [v]. *)
Definition dep_edge (u v : LutInfo) : Prop := output u ∈ input_sigs v.

#[global] Instance dep_edge_dec u v : Decision (dep_edge u v).
Proof. unfold dep_edge. apply _. Defined.

(** A chain of LUT-to-LUT dependencies inside [luts]. *)
Fixpoint dep_chain (luts : list LutInfo) (c : list LutInfo) : Prop :=
  match c with
  | [] => True
  | u :: rest =>
      u ∈ luts ∧ dep_chain luts rest ∧
      match rest with
      | [] => True
      | v :: _ => dep_edge u v
      end
  end.

(** No chain of dependencies passes twice through the same LUT. *)
Definition cycle_free (luts : list LutInfo) : Prop :=
  ∀ c, dep_chain luts c -> NoDup c.

(** [n] is the number of edges of the longest chain that ends at [v]. *)
Definition longest_chain_to (luts : list LutInfo) (v : LutInfo) (n : nat) : Prop :=
  (∃ c, dep_chain luts (c ++ [v]) ∧ length c = n) ∧
  (∀ c, dep_chain luts (c ++ [v]) -> (length c <= n)%nat).

(** *** Leveling: the state of the queue loop *)

Section LevelInvariant.
Variable nodes : list IdString.
Variable lut_graph : gmap IdString (list IdString).

Definition succs (p : IdString) : list IdString := default [] (lut_graph !! p).

  (** The edge [p -> v] has not been relaxed yet: [p] is not processed, or
      [p] is the node being processed and [v] is still to come. *)
Definition pend (P : list IdString) (u : IdString) (todo : list IdString)
      (v p : IdString) : Prop :=
    v ∈ succs p ∧ (p ∉ P ∨ (p = u ∧ v ∈ todo)).

#[global] Instance pend_dec P u todo v p : Decision (pend P u todo v p).
  Proof. unfold pend. apply _. Defined.

Definition pending (P : list IdString) (u : IdString) (todo : list IdString)
      (v : IdString) : nat :=
    length (filter (pend P u todo v) nodes).

  (** The invariant of the queue loop: [P] lists the processed nodes, [u] is
      the last of them and [todo] the successors of [u] not relaxed yet. *)
Record level_inv (P : list IdString) (u : IdString) (todo : list IdString)
      (st : LevelState) : Prop := mkLevelInv {
    inv_nodup : NoDup (P ++ q st);
    inv_nodes : ∀ v, v ∈ P ++ q st -> v ∈ nodes;
    inv_count : processed_count st = Z.of_nat (length P);
    inv_indeg : ∀ v, v ∈ nodes ->
                     lut_in_degree st !! v = Some (Z.of_nat (pending P u todo v));
    inv_ready : ∀ v, v ∈ nodes -> (v ∈ P ++ q st <-> pending P u todo v = 0%nat);
    inv_have : ∀ v, v ∈ P ++ q st -> is_Some (lut_levels st !! v);
    inv_nonneg : ∀ v L, lut_levels st !! v = Some L -> 0 <= L;
    inv_ge : ∀ p v Lp, p ∈ nodes -> v ∈ succs p -> ¬ pend P u todo v p ->
                       lut_levels st !! p = Some Lp ->
                       ∃ Lv, lut_levels st !! v = Some Lv ∧ Lp + 1 <= Lv;
    inv_def : ∀ v L, lut_levels st !! v = Some L ->
                     (L = 0 ∧ ∀ p, p ∈ nodes -> v ∉ succs p) ∨
                     (∃ p, p ∈ nodes ∧ v ∈ succs p ∧ ¬ pend P u todo v p ∧
                           lut_levels st !! p = Some (L - 1))
  }.
End LevelInvariant.

(** *** Leveling: the facts kept while the graph is built *)

Section GraphInvariant.
Variable luts : list LutInfo.

  (** [E u w] says that the edge [u -> w] has been looked at, and [Dn] lists
      the LUTs whose in-degree entry is final for the edges seen so far. *)
Record graph_inv (E : LutInfo -> LutInfo -> Prop) (Dn : list LutInfo)
      (g : gmap IdString (list IdString)) (deg : gmap IdString Z) : Prop := mkGraphInv {
    gi_dom : ∀ u, u ∈ luts -> is_Some (g !! cell_ptr u);
    gi_nodup : ∀ p, NoDup (succs g p);
    gi_sound : ∀ p x, x ∈ succs g p ->
                      ∃ u w, u ∈ luts ∧ w ∈ luts ∧ cell_ptr u = p ∧ cell_ptr w = x ∧
                             dep_edge u w ∧ E u w;
    gi_complete : ∀ u w, u ∈ luts -> w ∈ luts -> dep_edge u w -> E u w ->
                         cell_ptr w ∈ succs g (cell_ptr u);
    gi_deg : ∀ w, w ∈ Dn ->
                  deg !! cell_ptr w
                  = Some (Z.of_nat (length (filter (fun p => cell_ptr w ∈ succs g p)
                                                   (cell_ptr <$> luts))))
  }.
End GraphInvariant.

(** Every LUT a plan names is claimed, and no LUT is named by two plans. *)
Definition plans_consistent (st : list LutInfo * list MergePlan) : Prop :=
  (∀ plan k lut, plan ∈ st.2 -> st.1 !! k = Some lut -> names_lut plan lut ->
                 is_merged lut = true) ∧
  (∀ n1 n2 p1 p2 k lut, n1 ≠ n2 -> st.2 !! n1 = Some p1 -> st.2 !! n2 = Some p2 ->
                        st.1 !! k = Some lut -> ¬ (names_lut p1 lut ∧ names_lut p2 lut)).

(** Whether a table bit is 1; the legality test of ABSORB reads tables
    through [const_to_uint64], which sees every other state as 0. *)
Definition is_one (s : State) : bool := bool_decide (s = S1).

(** [mask_rows_ok j k]: bit [k] of the [j]-th mask template is bit [j] of [k]. *)
Definition mask_rows_ok : bool :=
  forallb (fun j => forallb (fun k =>
             Bool.eqb (Z.testbit (default 0 (masks !! j)) (Z.of_nat k))
                      (Z.testbit (Z.of_nat k) (Z.of_nat j)))
           (seq 0 64)) (seq 0 6).

(** *** ABSORB: assignments that realise an address *)

(** The assignment that gives every input of [lut] the bit of [k] at the
    rank of its first port, and 0 to every other signal. *)
Definition assignment_of_address (lut : LutInfo) (k : Z) (s : SigBit) : bool :=
  match find_index (input_sigs lut) s with
  | Some j => Z.testbit k (Z.of_nat j)
  | None => false
  end.

(** The two LUTs give the same 1-or-not-1 output under [rho]. *)
Definition same_output (lut_a lut_b : LutInfo) (rho : SigBit -> bool) : Prop :=
  is_one (lut_output lut_a rho) = is_one (lut_output lut_b rho).

(** *** Collecting: what a record owes to its cell *)

(** The cell is one that [CollectLuts] takes: its type is [\GTP_LUT]
    followed by one more character. *)
Definition is_lut_cell (cell : Cell) : Prop := is_Some (gtp_lut_size (cell_type cell)).

#[global] Instance is_lut_cell_dec cell : Decision (is_lut_cell cell).
Proof. unfold is_lut_cell. apply _. Defined.

(** [lut] is the record of [cell]: name, arity from the type, canonical
    output and table, and on every port [Ii] below the arity the canonical
    signal of the cell's connection, if it has one. *)
Definition collected_from (sigmap : SigBit -> SigBit) (lut : LutInfo) (cell : Cell) : Prop :=
  cell_ptr lut = cell_name cell ∧
  gtp_lut_size (cell_type cell) = Some (size lut) ∧
  sigmap <$> cell_connections cell !! ID_Z = Some (output lut) ∧
  cell_parameters cell !! ID_INIT = Some (init_val lut) ∧
  is_merged lut = false ∧
  ∀ i : nat,
    lookup_port (port_name i) (ordered_inputs lut)
    = if decide (Z.of_nat i < size lut)
      then sigmap <$> cell_connections cell !! ("\" +:+ port_name i)
      else None.

(** *** Planning: the names the plans schedule for removal *)

Definition planned_names (plans : list MergePlan) : list IdString :=
  plans ≫= fun plan => [cell_a_to_remove plan; cell_b_to_remove plan].

(** The facts the planner keeps about its state: the plans name distinct
    cells, the claimed records are exactly the named ones, and every named
    cell is the cell of a record. *)
Definition pairs_inv (st : list LutInfo * list MergePlan) : Prop :=
  NoDup (planned_names st.2) ∧
  (∀ k lut, st.1 !! k = Some lut ->
            (is_merged lut = true <-> cell_ptr lut ∈ planned_names st.2)) ∧
  planned_names st.2 ⊆ cell_ptr <$> st.1.

(** *** Leveling: the level of an index and the bucket of a level *)

(** The level of the LUT at index [i], if the index is inside the vector
    and its cell has a level. *)
Definition level_of_index (luts : list LutInfo) (lut_levels : gmap IdString Z)
    (i : nat) : option Z :=
  luts !! i ≫= fun lut => lut_levels !! cell_ptr lut.

(** The indices of the LUTs at [level], in ascending order. *)
Definition level_bucket (luts : list LutInfo) (lut_levels : gmap IdString Z)
    (level : Z) : list nat :=
  filter (fun i => level_of_index luts lut_levels i = Some level) (seq 0 (length luts)).

(** *** Planning: what a candidate needs from the LUT vector *)

(** The two indices of the candidate lie inside [luts], and when the
    candidate is an ABSORB the LUT whose inputs become the lines of the fused
    cell has at least six of them. *)
Definition plannable (luts : list LutInfo) (c : MergeCandidate) : Prop :=
  match luts !! idx_a c, luts !! idx_b c with
  | Some lut_a, Some lut_b =>
      type c = LUT6_ABSORB ->
      (6 <= length (ordered_inputs (if decide (size lut_a = 6)%Z then lut_a else lut_b)))%nat
  | _, _ => False
  end.

#[global] Instance plannable_dec luts c : Decision (plannable luts c).
Proof. unfold plannable. destruct (luts !! idx_a c), (luts !! idx_b c); apply _. Defined.

(** The fields of a record the planner never writes. *)
Definition lut_static (lut : LutInfo)
    : IdString * Z * list (string * SigBit) * SigBit * Const :=
  (cell_ptr lut, size lut, ordered_inputs lut, output lut, init_val lut).

(** *** Reading a printed table back *)

(** The value of a lower-case hexadecimal digit. *)
Definition hex_digit_value (c : ascii) : option Z :=
  Z.of_nat <$> (list_find (fun h => h = c) hex_chars ≫= fun r => Some r.1).

(** The number a string of hexadecimal digits denotes, most significant
    digit first; underscores are separators. *)
Definition hex_value (s : string) : option Z :=
  foldl (fun acc c =>
           if decide (c = "_"%char) then acc
           else v ← acc; d ← hex_digit_value c; Some (16 * v + d))
        (Some 0) (String.list_ascii_of_string s).

(** The number a table denotes when every bit that is not 1 counts as 0. *)
Definition const_value (c : Const) : Z := bits_to_Z (is_one <$> c).

(** *** Fusion: the assignment a half of the fused table sees *)

(** What a source LUT reads when its table is copied into one half of the
    fused table: a signal on one of the shared slots keeps its value; the
    forced selector, when it is on no shared slot, reads 1; every other
    signal reads 0. *)
Definition seen_through (shared_inputs : list SigBit) (sel_forced : option SigBit)
    (rho : SigBit -> bool) (s : SigBit) : bool :=
  if decide (s ∈ shared_inputs) then rho s else bool_decide (sel_forced = Some s).

(** *** Planning: the shape of a plan *)

(** The port names of a fused cell. *)
Definition fused_port_names : list IdString :=
  ["\I0"; "\I1"; "\I2"; "\I3"; "\I4"; "\I5"; "\Z"; "\Z5"].

(** [plan] is a well-formed plan for the records [lut_a] and [lut_b]: it
    removes their two cells, names the new cell after them, carries a table
    of 64 bits, connects exactly the eight ports of a GTP_LUT6D, and drives
    the output of one LUT from Z and the output of the other from Z5. *)
Definition plan_for (uniquify : Module -> IdString -> IdString) (module : Module)
    (lut_a lut_b : LutInfo) (plan : MergePlan) : Prop :=
  cell_a_to_remove plan = cell_ptr lut_a ∧
  cell_b_to_remove plan = cell_ptr lut_b ∧
  new_cell_name plan
  = uniquify module ("\" +:+ log_id (cell_ptr lut_a) +:+ "_" +:+ log_id (cell_ptr lut_b)
                         +:+ "_merged") ∧
  length (plan_init_val plan) = 64%nat ∧
  (∀ name, is_Some (port_connections plan !! name) <-> name ∈ fused_port_names) ∧
  ((port_connections plan !! ID_Z = Some (output lut_a) ∧
    port_connections plan !! ID_Z5 = Some (output lut_b)) ∨
   (port_connections plan !! ID_Z = Some (output lut_b) ∧
    port_connections plan !! ID_Z5 = Some (output lut_a))).

(** *** The shuffler: tables and assignments *)

(** The address an assignment selects in a table whose inputs are [names],
    lowest weight first. *)
Fixpoint address (names : list ascii) (rho : ascii -> bool) : nat :=
  match names with
  | [] => 0
  | c :: rest => Nat.b2n (rho c) + 2 * address rest rho
  end.

(** A hexadecimal digit in either case. *)
Definition is_hex_digit (c : ascii) : Prop := Shuffler.toupper c ∈ Shuffler.hex_chars.

#[global] Instance is_hex_digit_dec c : Decision (is_hex_digit c).
Proof. unfold is_hex_digit. apply _. Defined.

(** ** Lists, pools and bit vectors *)

Lemma find_index_Some l x k : find_index l x = Some k -> l !! k = Some x.
Proof.
  revert k. induction l as [|y l IH]; intros k; simpl; [done|].
  destruct (decide (y = x)) as [->|Hne].
  - intros [= <-]. done.
  - destruct (find_index l x) as [k'|] eqn:E; simpl; [|done].
    intros [= <-]. simpl. by apply IH.
Qed.

Lemma find_index_elem l x : x ∈ l -> is_Some (find_index l x).
Proof.
  induction 1 as [|y z l Hin IH]; simpl.
  - rewrite decide_True by done. eauto.
  - destruct (decide (z = y)); [eauto|]. destruct IH as [k ->]. simpl. eauto.
Qed.

Lemma find_index_None l x : find_index l x = None -> x ∉ l.
Proof.
  intros E Hin. apply find_index_elem in Hin as [k Hk]. congruence.
Qed.

Lemma elem_of_pool_insert {A} `{EqDecision A} (x y : A) p :
  y ∈ pool_insert x p <-> y = x ∨ y ∈ p.
Proof.
  unfold pool_insert. destruct (decide (x ∈ p)); [|by rewrite elem_of_cons].
  split; [by right|]. intros [->|]; done.
Qed.

Lemma NoDup_pool_insert {A} `{EqDecision A} (x : A) p :
  NoDup p -> NoDup (pool_insert x p).
Proof.
  intros Hp. unfold pool_insert. destruct (decide (x ∈ p)); [done|].
  by constructor.
Qed.

Lemma elem_of_insert_inputs lut p s :
  s ∈ insert_inputs lut p <-> s ∈ input_sigs lut ∨ s ∈ p.
Proof.
  unfold insert_inputs, input_sigs. revert p.
  induction (ordered_inputs lut) as [|[k v] l IH]; intros p; simpl.
  - rewrite elem_of_nil. tauto.
  - rewrite IH, elem_of_pool_insert, elem_of_cons. simpl. tauto.
Qed.

Lemma NoDup_insert_inputs lut p : NoDup p -> NoDup (insert_inputs lut p).
Proof.
  unfold insert_inputs. revert p.
  induction (ordered_inputs lut) as [|[k v] l IH]; intros p Hp; simpl; [done|].
  apply IH. by apply NoDup_pool_insert.
Qed.

Lemma elem_of_current_union_inputs lut_a lut_b s :
  s ∈ current_union_inputs lut_a lut_b <-> s ∈ input_sigs lut_a ∨ s ∈ input_sigs lut_b.
Proof.
  unfold current_union_inputs. rewrite !elem_of_insert_inputs, elem_of_nil. tauto.
Qed.

Lemma bits_to_Z_bounds bs : 0 <= bits_to_Z bs < 2 ^ Z.of_nat (length bs).
Proof.
  induction bs as [|b bs IH]; simpl length; simpl bits_to_Z; [lia|].
  rewrite Nat2Z.inj_succ, Z.pow_succ_r by lia. destruct b; simpl; lia.
Qed.

Lemma testbit_bits_to_Z bs k :
  Z.testbit (bits_to_Z bs) (Z.of_nat k) = default false (bs !! k).
Proof.
  revert k. induction bs as [|b bs IH]; intros k; simpl bits_to_Z.
  - by rewrite Z.testbit_0_l.
  - destruct k as [|k].
    + change (Z.of_nat 0) with 0. rewrite (Z.add_comm (Z.b2z b)), Z.testbit_0_r. done.
    + rewrite Nat2Z.inj_succ, (Z.add_comm (Z.b2z b)), Z.testbit_succ_r by lia. apply IH.
Qed.

(** ** Address reconstruction in [calculate_new_init] *)

Section Reconstruct.
Variable shared_inputs : list SigBit.
Variable sel_forced : option SigBit.
Variable rho : SigBit -> bool.

Lemma addr_step_found addr bit_pos pair :
    pair.2 ∈ shared_inputs ->
    addr_step shared_inputs sel_forced (slots_address shared_inputs rho) (addr, bit_pos) pair
    = (addr + bit_pos * Z.b2z (rho pair.2), 2 * bit_pos).
  Proof.
    intros Hin. unfold addr_step.
    destruct (find_index_elem _ _ Hin) as [k Hk]. rewrite Hk.
    apply find_index_Some in Hk. unfold slots_address.
    rewrite testbit_bits_to_Z, list_lookup_fmap, Hk. simpl.
    rewrite Z.shiftl_mul_pow2 by lia.
    f_equal; [destruct (rho pair.2); simpl; lia | lia].
  Qed.

Lemma foldl_addr_step inputs addr bit_pos :
    Forall (fun pair => pair.2 ∈ shared_inputs) inputs ->
    foldl (addr_step shared_inputs sel_forced (slots_address shared_inputs rho))
          (addr, bit_pos) inputs
    = (addr + bit_pos * bits_to_Z (rho <$> inputs.*2),
       bit_pos * 2 ^ Z.of_nat (length inputs)).
  Proof.
    intros Hall. revert addr bit_pos.
    induction Hall as [|pair inputs Hin _ IH]; intros addr bit_pos.
    - simpl. f_equal; lia.
    - cbn [foldl]. rewrite addr_step_found by done. rewrite IH.
      cbn [fmap list_fmap bits_to_Z length]. rewrite Nat2Z.inj_succ, Z.pow_succ_r by lia.
      f_equal; lia.
  Qed.

Lemma source_addr_rank lut :
    input_sigs lut ⊆ shared_inputs ->
    source_addr shared_inputs sel_forced lut (slots_address shared_inputs rho)
    = bits_to_Z (rho <$> input_sigs lut).
  Proof.
    intros Hsub. unfold source_addr. rewrite foldl_addr_step.
    - simpl. unfold input_sigs. lia.
    - apply Forall_forall. intros pair Hp. apply Hsub.
      unfold input_sigs. apply list_elem_of_fmap. eauto.
  Qed.
End Reconstruct.

(** ** Ports of a fully connected LUT *)

Lemma lookup_port_nth (f : nat -> string) `{!Inj (=) (=) f} inputs n b j :
  inputs.*1 = f <$> seq b n -> (b <= j < b + n)%nat ->
  lookup_port (f j) inputs = inputs.*2 !! (j - b)%nat.
Proof.
  revert b n. induction inputs as [|[k s] inputs IH]; intros b n Hkeys Hj.
  - destruct n; [lia|done].
  - destruct n as [|n]; [done|]. simpl in Hkeys. injection Hkeys as -> Hkeys.
    simpl. destruct (decide (f b = f j)) as [Heq|Hne].
    + apply (inj f) in Heq as ->. by rewrite Nat.sub_diag.
    + assert (b ≠ j) by congruence.
      rewrite (IH (S b) n) by (done || lia).
      replace (j - b)%nat with (S (j - S b)) by lia. done.
Qed.

#[global] Instance port_name_inj : Inj (=) (=) port_name.
Proof.
  intros i j H. unfold port_name in H.
  apply (inj (String.append "I")) in H. by apply (inj pretty) in H.
Qed.

Lemma lut_address_rank lut rho :
  fully_connected lut ->
  lut_address lut rho = bits_to_Z (rho <$> input_sigs lut).
Proof.
  unfold fully_connected, lut_address, input_sigs. intros Hfc.
  f_equal. apply list_eq. intros j.
  assert (Hlen : length (ordered_inputs lut) = Z.to_nat (size lut)).
  { rewrite <- (length_fmap fst), Hfc, length_fmap, length_seq. done. }
  rewrite !list_lookup_fmap.
  destruct (decide (j < Z.to_nat (size lut))%nat) as [Hlt|Hge].
  - rewrite lookup_seq_lt by done. simpl. unfold port_value.
    rewrite (lookup_port_nth port_name _ _ 0%nat _ Hfc) by lia.
    rewrite Nat.sub_0_r, list_lookup_fmap.
    destruct (ordered_inputs lut !! j) as [[k s]|] eqn:E; [done|].
    apply lookup_ge_None in E. lia.
  - rewrite lookup_seq_ge by lia. rewrite lookup_ge_None_2; [done|lia].
Qed.

Lemma init_at_default init a : 0 <= a -> init_at init a = default S0 (init !! Z.to_nat a).
Proof.
  intros Ha. unfold init_at. destruct (decide _) as [|Hge]; [done|].
  rewrite lookup_ge_None_2; [done|lia].
Qed.

Lemma length_half_bits shared sel lut : length (half_bits shared sel lut) = 32%nat.
Proof. unfold half_bits. by rewrite length_fmap, length_seq. Qed.

Lemma half_bits_exact shared sel lut rho :
  length shared = 5%nat -> input_sigs lut ⊆ shared -> fully_connected lut ->
  half_bits shared sel lut !! Z.to_nat (slots_address shared rho)
  = Some (lut_output lut rho).
Proof.
  intros Hlen Hsub Hfc. unfold half_bits.
  pose proof (bits_to_Z_bounds (rho <$> shared)) as Hb.
  rewrite length_fmap, Hlen in Hb. change (2 ^ Z.of_nat 5) with 32 in Hb.
  fold (slots_address shared rho) in Hb.
  rewrite list_lookup_fmap, lookup_seq_lt by lia. simpl.
  rewrite Z2Nat.id by lia.
  rewrite source_addr_rank by done.
  rewrite init_at_default by apply bits_to_Z_bounds.
  unfold lut_output. by rewrite lut_address_rank.
Qed.

Lemma calculate_new_init_exact lut_a lut_b new_inputs_vec sel_bit :
  (5 <= length new_inputs_vec)%nat ->
  input_sigs lut_a ⊆ take 5 new_inputs_vec ->
  input_sigs lut_b ⊆ take 5 new_inputs_vec ->
  fully_connected lut_a -> fully_connected lut_b ->
  ∃ ni z5_src z_src,
    calculate_new_init lut_a lut_b new_inputs_vec sel_bit = Some ni ∧
    ((z5_src = lut_a ∧ z_src = lut_b) ∨ (z5_src = lut_b ∧ z_src = lut_a)) ∧
    z5_out_sig ni = output z5_src ∧ z_out_sig ni = output z_src ∧
    ∀ rho,
      let addr := Z.to_nat (slots_address (take 5 new_inputs_vec) rho) in
      new_init ni !! addr = Some (lut_output z5_src rho) ∧
      new_init ni !! (32 + addr)%nat = Some (lut_output z_src rho).
Proof.
  intros Hlen Ha Hb Hfa Hfb. unfold calculate_new_init.
  rewrite decide_True by done.
  assert (Hl5 : length (take 5 new_inputs_vec) = 5%nat) by (rewrite length_take; lia).
  eexists _, (if lut_has_input lut_a sel_bit then lut_b else lut_a),
             (if lut_has_input lut_a sel_bit then lut_a else lut_b).
  split; [reflexivity|]. split; [destruct (lut_has_input _ _); tauto|].
  split; [done|]. split; [done|]. intros rho. cbv zeta.
  set (addr := Z.to_nat _). cbn [new_init].
  assert (Hlt : (addr < 32)%nat).
  { pose proof (bits_to_Z_bounds (rho <$> take 5 new_inputs_vec)) as Hbd.
    rewrite length_fmap, Hl5 in Hbd. change (2 ^ Z.of_nat 5) with 32 in Hbd.
    unfold addr, slots_address. lia. }
  split.
  - rewrite lookup_app_l by (rewrite length_half_bits; lia).
    apply half_bits_exact; [done| |]; destruct (lut_has_input _ _); done.
  - rewrite lookup_app_r by (rewrite length_half_bits; lia).
    rewrite length_half_bits. replace (32 + addr - 32)%nat with addr by lia.
    apply half_bits_exact; [done| |]; destruct (lut_has_input _ _); done.
Qed.

Lemma input_ports_lookup v m k :
  input_ports v = Some m -> (k < 6)%nat -> m !! ("\I" +:+ pretty k) = v !! k.
Proof.
  unfold input_ports.
  destruct v as [|x0 [|x1 [|x2 [|x3 [|x4 [|x5 v]]]]]]; try done.
  intros [= <-] Hk.
  do 6 (destruct k as [|k]; [vm_compute; reflexivity|]). lia.
Qed.

(** ** SHARED_INPUTS plans *)

Lemma take_shared_inputs_vec u :
  (length u <= 5)%nat ->
  take 5 (shared_inputs_vec u) = u ++ replicate (5 - length u) (SigConst S0).
Proof.
  intros Hu. unfold shared_inputs_vec. rewrite app_assoc.
  rewrite take_app_le by (rewrite length_app, length_replicate; lia).
  apply take_ge. rewrite length_app, length_replicate. lia.
Qed.

Lemma shared_inputs_vec_last u :
  (length u <= 5)%nat -> shared_inputs_vec u !! 5%nat = Some (SigConst S1).
Proof.
  intros Hu. unfold shared_inputs_vec. rewrite app_assoc.
  rewrite lookup_app_r by (rewrite length_app, length_replicate; lia).
  rewrite length_app, length_replicate.
  by replace (5 - (length u + (5 - length u)))%nat with 0%nat by lia.
Qed.

Lemma plan_port_lookup ports z5 z k :
  (k < 6)%nat ->
  (<[ID_Z5 := z5]> (<[ID_Z := z]> ports) : gmap IdString SigBit) !! ("\I" +:+ pretty k)
  = ports !! ("\I" +:+ pretty k).
Proof.
  intros Hk.
  do 6 (destruct k as [|k];
        [rewrite !lookup_insert_ne by (vm_compute; discriminate); reflexivity|]).
  lia.
Qed.

(** X29. SHARED_INPUTS exactness for LUTs without a gap in their ports.
    For two LUTs with every declared port connected whose union of canonical
    inputs has at most five signals, the SHARED_INPUTS plan binds the fused
    cell's lines I0..I4 to five slots and I5 to constant 1, connects Z5 to
    one source LUT and Z to the other, and for every assignment of the
    signals the low half of the fused table at the address read off the five
    slots is the first source's original output while the high half at the
    same address is the other source's original output. *)
Theorem shared_inputs_plan_exact (uniquify : Module -> IdString -> IdString)
    (module : Module) (lut_a lut_b : LutInfo) (i j : nat) :
  fully_connected lut_a -> fully_connected lut_b ->
  (length (current_union_inputs lut_a lut_b) <= 5)%nat ->
  ∃ plan slots z5_src z_src,
    make_plan uniquify module lut_a lut_b (shared_candidate i j lut_a lut_b) = Some plan ∧
    length slots = 5%nat ∧
    (∀ k, (k < 5)%nat -> port_connections plan !! ("\I" +:+ pretty k) = slots !! k) ∧
    port_connections plan !! ("\I" +:+ pretty 5%nat) = Some (SigConst S1) ∧
    ((z5_src = lut_a ∧ z_src = lut_b) ∨ (z5_src = lut_b ∧ z_src = lut_a)) ∧
    port_connections plan !! ID_Z5 = Some (output z5_src) ∧
    port_connections plan !! ID_Z = Some (output z_src) ∧
    ∀ rho : SigBit -> bool,
      plan_init_val plan !! Z.to_nat (slots_address slots rho)
        = Some (lut_output z5_src rho) ∧
      plan_init_val plan !! (32 + Z.to_nat (slots_address slots rho))%nat
        = Some (lut_output z_src rho).
Proof.
  intros Hfa Hfb Hu.
  set (u := current_union_inputs lut_a lut_b) in *.
  set (v := shared_inputs_vec u).
  assert (Hlen : length v = 6%nat).
  { unfold v, shared_inputs_vec. rewrite !length_app, length_replicate. simpl. lia. }
  assert (Htake : take 5 v = u ++ replicate (5 - length u) (SigConst S0))
    by (by apply take_shared_inputs_vec).
  assert (Hsub : ∀ lut, input_sigs lut ⊆ u -> input_sigs lut ⊆ take 5 v).
  { intros lut H s Hs. rewrite Htake. apply elem_of_app. left. by apply H. }
  destruct (calculate_new_init_exact lut_a lut_b v (SigConst S1))
    as (ni & z5_src & z_src & Hni & Hperm & Hz5 & Hz & Hbits); try done.
  { lia. }
  { apply Hsub. intros s Hs. apply elem_of_current_union_inputs. by left. }
  { apply Hsub. intros s Hs. apply elem_of_current_union_inputs. by right. }
  destruct (input_ports v) as [ports|] eqn:Hports.
  2:{ exfalso. revert Hports. unfold input_ports.
      destruct v as [|x0 [|x1 [|x2 [|x3 [|x4 [|x5 v']]]]]]; done. }
  eexists _, (take 5 v), z5_src, z_src. split.
  { unfold make_plan, new_inputs_of. cbn [type shared_candidate union_inputs].
    fold u. fold v. rewrite Hni. cbn [mbind option_bind]. rewrite Hports.
    reflexivity. }
  cbn [port_connections plan_init_val].
  split; [rewrite length_take; lia|].
  split.
  { intros k Hk. rewrite plan_port_lookup by lia.
    rewrite (input_ports_lookup v) by (done || lia).
    by rewrite lookup_take_lt by lia. }
  split.
  { rewrite plan_port_lookup by lia. rewrite (input_ports_lookup v) by (done || lia).
    by apply shared_inputs_vec_last. }
  split; [done|]. split; [rewrite lookup_insert_eq; congruence|].
  split; [rewrite lookup_insert_ne by done; rewrite lookup_insert_eq; congruence|].
  apply Hbits.
Qed.

Lemma shared_inputs_plan_exact_witness :
  ∃ plan slots z5_src z_src,
    make_plan keep_name (mkModule []) lut_x lut_y (shared_candidate 0 1 lut_x lut_y)
      = Some plan ∧
    length slots = 5%nat ∧
    (∀ k, (k < 5)%nat -> port_connections plan !! ("\I" +:+ pretty k) = slots !! k) ∧
    port_connections plan !! ("\I" +:+ pretty 5%nat) = Some (SigConst S1) ∧
    ((z5_src = lut_x ∧ z_src = lut_y) ∨ (z5_src = lut_y ∧ z_src = lut_x)) ∧
    port_connections plan !! ID_Z5 = Some (output z5_src) ∧
    port_connections plan !! ID_Z = Some (output z_src) ∧
    ∀ rho : SigBit -> bool,
      plan_init_val plan !! Z.to_nat (slots_address slots rho)
        = Some (lut_output z5_src rho) ∧
      plan_init_val plan !! (32 + Z.to_nat (slots_address slots rho))%nat
        = Some (lut_output z_src rho).
Proof.
  apply (shared_inputs_plan_exact keep_name (mkModule []) lut_x lut_y 0 1).
  - vm_compute. reflexivity.
  - vm_compute. reflexivity.
  - vm_compute. lia.
Defined.

(** ** Candidate search: which pairs are tested and what they emit *)

Lemma elem_of_upper_pairs n i j : (i, j) ∈ upper_pairs n <-> (i < j < n)%nat.
Proof.
  unfold upper_pairs. rewrite list_elem_of_bind. split.
  - intros (i' & Hj & Hi). apply elem_of_seq in Hi.
    apply list_elem_of_fmap in Hj as (j' & [= -> ->] & Hj).
    apply elem_of_seq in Hj. lia.
  - intros Hij. exists i. split; [|apply elem_of_seq; lia].
    apply list_elem_of_fmap. exists j. split; [done|]. apply elem_of_seq. lia.
Qed.

Lemma elem_of_on_pair luts body p c :
  c ∈ on_pair luts body p <->
  ∃ lut_a lut_b, luts !! p.1 = Some lut_a ∧ luts !! p.2 = Some lut_b ∧
                 c ∈ body lut_a lut_b p.1 p.2.
Proof.
  unfold on_pair. destruct (luts !! p.1) as [a|], (luts !! p.2) as [b|];
    split; try (intros H; by apply elem_of_nil in H);
    try (intros (? & ? & ? & ? & ?); done).
  - eauto.
  - intros (? & ? & [= <-] & [= <-] & ?). done.
Qed.

Lemma elem_of_FindMergeCandidates_Global luts c :
  c ∈ FindMergeCandidates_Global luts <->
  (∃ i j lut_a lut_b, (i < j)%nat ∧ luts !! i = Some lut_a ∧ luts !! j = Some lut_b ∧
                      c ∈ global_shared_check lut_a lut_b i j) ∨
  (∃ i j lut_6 lut_s, i ≠ j ∧ luts !! i = Some lut_6 ∧ luts !! j = Some lut_s ∧
                      size lut_6 = 6 ∧ c ∈ global_absorb_check lut_6 lut_s i j).
Proof.
  unfold FindMergeCandidates_Global. rewrite elem_of_app, !list_elem_of_bind.
  split; (intros [H|H]; [left|right]).
  - destruct H as ([i j] & Hc & Hp). apply elem_of_upper_pairs in Hp.
    apply elem_of_on_pair in Hc as (a & b & Ha & Hb & Hc). simpl in *.
    exists i, j, a, b. split; [lia|done].
  - destruct H as (i & Hc & Hi).
    destruct (luts !! i) as [lut_6|] eqn:E6; [|by apply elem_of_nil in Hc].
    destruct (decide (size lut_6 ≠ 6)) as [|H6]; [by apply elem_of_nil in Hc|].
    apply list_elem_of_bind in Hc as (j & Hc & Hj).
    destruct (decide (i = j)); [by apply elem_of_nil in Hc|].
    apply elem_of_on_pair in Hc as (a & b & Ha & Hb & Hc). simpl in *.
    rewrite E6 in Ha. injection Ha as <-.
    exists i, j, lut_6, b. repeat split; try done. lia.
  - destruct H as (i & j & a & b & Hij & Ha & Hb & Hc).
    exists (i, j). split.
    + apply elem_of_on_pair. exists a, b. done.
    + apply elem_of_upper_pairs. apply lookup_lt_Some in Hb. lia.
  - destruct H as (i & j & a & b & Hij & Ha & Hb & H6 & Hc).
    exists i. split; [|apply elem_of_seq; apply lookup_lt_Some in Ha; lia].
    rewrite Ha. rewrite decide_False by lia.
    apply list_elem_of_bind. exists j. split; [|apply elem_of_seq; apply lookup_lt_Some in Hb; lia].
    rewrite decide_False by done. apply elem_of_on_pair. exists a, b. done.
Qed.

Lemma elem_of_levels_in_order (lv : gmap Z (list nat)) level :
  level ∈ levels_in_order lv <-> is_Some (lv !! level).
Proof.
  unfold levels_in_order. rewrite merge_sort_Permutation, elem_of_elements.
  apply elem_of_dom.
Qed.

Lemma elem_of_FindMergeCandidates_Layered luts (lv : gmap Z (list nat)) c :
  c ∈ FindMergeCandidates_Layered luts lv <->
  ∃ level p, is_Some (lv !! level) ∧ p ∈ layered_pairs lv level ∧ c ∈ layered_checks luts p.
Proof.
  unfold FindMergeCandidates_Layered. rewrite list_elem_of_bind. split.
  - intros (level & Hc & Hl). apply elem_of_levels_in_order in Hl.
    apply list_elem_of_bind in Hc as (p & Hc & Hp). eauto.
  - intros (level & p & Hl & Hp & Hc). exists level. split.
    + apply list_elem_of_bind. eauto.
    + by apply elem_of_levels_in_order.
Qed.

Lemma elem_of_check_shared_inputs lut_a lut_b i j c :
  c ∈ check_shared_inputs lut_a lut_b i j <->
  c = shared_candidate i j lut_a lut_b ∧
  (length (current_union_inputs lut_a lut_b) <= 5)%nat ∧ shared_count lut_a lut_b >= 1.
Proof.
  unfold check_shared_inputs. repeat case_decide; rewrite ?list_elem_of_singleton, ?elem_of_nil;
    intuition lia.
Qed.

Lemma elem_of_global_shared_check lut_a lut_b i j c :
  c ∈ global_shared_check lut_a lut_b i j <->
  c = shared_candidate i j lut_a lut_b ∧
  (length (current_union_inputs lut_a lut_b) <= 6)%nat ∧ shared_count lut_a lut_b <= 5.
Proof.
  unfold global_shared_check. repeat case_decide; rewrite ?list_elem_of_singleton, ?elem_of_nil;
    intuition lia.
Qed.

Lemma absorb_check_type lut_6 lut_s i j c :
  c ∈ check_lut6_absorb lut_6 lut_s i j ∨ c ∈ global_absorb_check lut_6 lut_s i j ->
  type c = LUT6_ABSORB.
Proof.
  unfold check_lut6_absorb, global_absorb_check.
  intros [H|H]; repeat case_decide; repeat case_match;
    try (by apply elem_of_nil in H); apply list_elem_of_singleton in H as ->; done.
Qed.

(** ** SHARED_INPUTS candidates *)

Lemma shared_candidate_inj i j a b i' j' a' b' (luts : list LutInfo) :
  shared_candidate i j a b = shared_candidate i' j' a' b' ->
  luts !! i = Some a -> luts !! j = Some b ->
  luts !! i' = Some a' -> luts !! j' = Some b' ->
  i = i' ∧ j = j' ∧ a = a' ∧ b = b'.
Proof.
  intros [= -> -> _ _] ????. repeat split; congruence.
Qed.

Lemma elem_of_layered_checks_shared luts p c :
  c ∈ layered_checks luts p -> type c = SHARED_INPUTS ->
  c ∈ on_pair luts check_shared_inputs p.
Proof.
  unfold layered_checks. rewrite !elem_of_app. intros [H|[H|H]] Ht; [done|..];
    apply elem_of_on_pair in H as (a & b & _ & _ & H);
    assert (type c = LUT6_ABSORB) by (eapply absorb_check_type; left; eassumption); congruence.
Qed.

(** C3 (amended). For a tested pair [(i, j)] of LUTs: the exhaustive search
    emits the pair's SHARED_INPUTS candidate, when the union has at most five
    signals, exactly if the shared count is at most 5, and never when the
    union has more than six signals; the level-windowed search emits it
    exactly if the union has at most five signals and the shared count is at
    least 1.  The candidate's score is shared_count * 100 - union_size with
    shared_count = size_a + size_b - union_size, and every SHARED_INPUTS
    candidate either search returns is the candidate of its pair. *)
Theorem shared_inputs_rule (luts : list LutInfo) (lv : gmap Z (list nat))
    (i j : nat) (lut_a lut_b : LutInfo) :
  luts !! i = Some lut_a -> luts !! j = Some lut_b ->
  let n := length (current_union_inputs lut_a lut_b) in
  let cand := shared_candidate i j lut_a lut_b in
  ((i < j)%nat -> (n <= 5)%nat ->
     (cand ∈ FindMergeCandidates_Global luts <-> shared_count lut_a lut_b <= 5)) ∧
  ((6 < n)%nat -> cand ∉ FindMergeCandidates_Global luts) ∧
  ((∃ level, is_Some (lv !! level) ∧ (i, j) ∈ layered_pairs lv level) ->
     (cand ∈ FindMergeCandidates_Layered luts lv <->
      (n <= 5)%nat ∧ shared_count lut_a lut_b >= 1)) ∧
  score cand = (size lut_a + size lut_b - Z.of_nat n) * 100 - Z.of_nat n ∧
  (∀ c, c ∈ FindMergeCandidates_Global luts ∨ c ∈ FindMergeCandidates_Layered luts lv ->
        type c = SHARED_INPUTS ->
        ∃ a b, luts !! idx_a c = Some a ∧ luts !! idx_b c = Some b ∧
               c = shared_candidate (idx_a c) (idx_b c) a b).
Proof.
  intros Ha Hb n cand.
  assert (Hglob : cand ∈ FindMergeCandidates_Global luts ->
                  (n <= 6)%nat ∧ shared_count lut_a lut_b <= 5).
  { intros Hin. apply elem_of_FindMergeCandidates_Global in Hin
      as [(i' & j' & a' & b' & _ & Ha' & Hb' & Hc)|(i' & j' & a' & b' & _ & _ & _ & _ & Hc)].
    - apply elem_of_global_shared_check in Hc as (Heq & Hn & Hs).
      destruct (shared_candidate_inj _ _ _ _ _ _ _ _ luts Heq) as (_ & _ & <- & <-);
        try done; try (split; [unfold n; lia|lia]).
    - assert (Ht : type cand = LUT6_ABSORB)
        by (eapply absorb_check_type; right; eassumption).
      discriminate Ht. }
  assert (Hlay : cand ∈ FindMergeCandidates_Layered luts lv ->
                 (n <= 5)%nat ∧ shared_count lut_a lut_b >= 1).
  { intros Hin.
    apply elem_of_FindMergeCandidates_Layered in Hin as (level & p & _ & _ & Hc).
    apply elem_of_layered_checks_shared in Hc; [|done].
    apply elem_of_on_pair in Hc as (a' & b' & Ha' & Hb' & Hc).
    apply elem_of_check_shared_inputs in Hc as (Heq & Hn & Hs).
    destruct (shared_candidate_inj _ _ _ _ _ _ _ _ luts Heq) as (_ & _ & <- & <-);
      try done; try (split; [unfold n; lia|lia]). }
  split; [|split; [|split; [|split]]].
  - intros Hij Hn. split; [intros Hin; by apply Hglob|].
    intros Hs. apply elem_of_FindMergeCandidates_Global. left.
    exists i, j, lut_a, lut_b. split; [done|]. split; [done|]. split; [done|].
    apply elem_of_global_shared_check. split; [reflexivity|]. fold n. lia.
  - intros Hn Hin. apply Hglob in Hin. lia.
  - intros (level & Hl & Hp). split; [done|].
    intros [Hn Hs].
    apply elem_of_FindMergeCandidates_Layered. exists level, (i, j).
    split; [done|]. split; [done|]. unfold layered_checks. apply elem_of_app. left.
    apply elem_of_on_pair. exists lut_a, lut_b. split; [done|]. split; [done|].
    apply elem_of_check_shared_inputs. split; [reflexivity|]. fold n. lia.
  - reflexivity.
  - intros c [Hin|Hin] Ht.
    + apply elem_of_FindMergeCandidates_Global in Hin
        as [(i' & j' & a' & b' & _ & Ha' & Hb' & Hc)|(i' & j' & a' & b' & _ & _ & _ & _ & Hc)].
      * apply elem_of_global_shared_check in Hc as (-> & _). simpl. eauto.
      * assert (type c = LUT6_ABSORB)
          by (eapply absorb_check_type; right; eassumption). congruence.
    + apply elem_of_FindMergeCandidates_Layered in Hin as (level & p & _ & _ & Hc).
      apply elem_of_layered_checks_shared in Hc; [|done].
      apply elem_of_on_pair in Hc as (a' & b' & Ha' & Hb' & Hc).
      apply elem_of_check_shared_inputs in Hc as (-> & _). simpl. eauto.
Qed.

Lemma shared_inputs_rule_witness :
  let n := length (current_union_inputs lut_x lut_y) in
  let cand := shared_candidate 0 1 lut_x lut_y in
  ((0 < 1)%nat -> (n <= 5)%nat ->
     (cand ∈ FindMergeCandidates_Global [lut_x; lut_y] <-> shared_count lut_x lut_y <= 5)) ∧
  ((6 < n)%nat -> cand ∉ FindMergeCandidates_Global [lut_x; lut_y]) ∧
  ((∃ level, is_Some (level0_pair !! level) ∧ (0%nat, 1%nat) ∈ layered_pairs level0_pair level) ->
     (cand ∈ FindMergeCandidates_Layered [lut_x; lut_y] level0_pair <->
      (n <= 5)%nat ∧ shared_count lut_x lut_y >= 1)) ∧
  score cand = (size lut_x + size lut_y - Z.of_nat n) * 100 - Z.of_nat n ∧
  (∀ c, c ∈ FindMergeCandidates_Global [lut_x; lut_y]
        ∨ c ∈ FindMergeCandidates_Layered [lut_x; lut_y] level0_pair ->
        type c = SHARED_INPUTS ->
        ∃ a b, [lut_x; lut_y] !! idx_a c = Some a ∧ [lut_x; lut_y] !! idx_b c = Some b ∧
               c = shared_candidate (idx_a c) (idx_b c) a b).
Proof.
  apply (shared_inputs_rule [lut_x; lut_y] level0_pair 0 1 lut_x lut_y); reflexivity.
Defined.

(** C3 as stated fails in both searches.  In the level-windowed search the
    tested pair [lut_x], [lut_y] has a union of two signals and emits nothing,
    because the two LUTs share no input; in the exhaustive search the pair
    [lut_p], [lut_q] is emitted although its union has six signals. *)
Lemma shared_inputs_rule_counterexample :
  ((length (current_union_inputs lut_x lut_y) <= 5)%nat ∧
   partition_by_level [lut_x; lut_y] <$> (levels_of <$> NumberLutsByLevel [lut_x; lut_y])
     = Some level0_pair ∧
   (0%nat, 1%nat) ∈ layered_pairs level0_pair 0 ∧
   FindMergeCandidates_Layered [lut_x; lut_y] level0_pair = []) ∧
  (¬ (length (current_union_inputs lut_p lut_q) <= 5)%nat ∧
   FindMergeCandidates_Global [lut_p; lut_q] = [shared_candidate 0 1 lut_p lut_q]).
Proof.
  split; [split; [|split; [|split]]|split].
  - vm_compute. lia.
  - vm_compute. reflexivity.
  - vm_compute. apply list_elem_of_here.
  - vm_compute. reflexivity.
  - vm_compute. lia.
  - vm_compute. reflexivity.
Qed.

(** ** The greedy planner *)

Section PlannerFacts.
Variable uniquify : Module -> IdString -> IdString.
Variable module : Module.

Lemma make_plan_names lut_a lut_b c plan :
    make_plan uniquify module lut_a lut_b c = Some plan ->
    cell_a_to_remove plan = cell_ptr lut_a ∧ cell_b_to_remove plan = cell_ptr lut_b.
  Proof.
    unfold make_plan. destruct (new_inputs_of lut_a lut_b c) as [v sel].
    destruct (calculate_new_init _ _ _ _); [|done]. simpl.
    destruct (input_ports v); [|done]. simpl. by intros [= <-].
  Qed.

Lemma plan_iteration_cases st c st' :
    plan_iteration uniquify module st c = Some st' ->
    ∃ lut_a lut_b,
      st.1 !! idx_a c = Some lut_a ∧ st.1 !! idx_b c = Some lut_b ∧
      ((is_merged lut_a || is_merged lut_b = true ∧ st' = st) ∨
       (is_merged lut_a = false ∧ is_merged lut_b = false ∧
        ∃ plan, make_plan uniquify module lut_a lut_b c = Some plan ∧
                st' = (alter set_is_merged (idx_b c) (alter set_is_merged (idx_a c) st.1),
                       st.2 ++ [plan]))).
  Proof.
    unfold plan_iteration.
    destruct (st.1 !! idx_a c) as [a|]; [|done].
    destruct (st.1 !! idx_b c) as [b|]; [|done]. simpl.
    destruct (is_merged a || is_merged b) eqn:E.
    - intros [= <-]. exists a, b. eauto.
    - apply orb_false_iff in E as [Ea Eb].
      destruct (make_plan _ _ _ _ _) as [plan|] eqn:Ep; [|done]. simpl.
      intros [= <-]. exists a, b. split; [done|]. split; [done|]. right.
      split; [done|]. split; [done|]. by exists plan.
  Qed.

Lemma claim_both_lookup (luts : list LutInfo) (ia ib k : nat) :
    alter set_is_merged ib (alter set_is_merged ia luts) !! k
    = (if decide (k = ia ∨ k = ib) then set_is_merged else id) <$> luts !! k.
  Proof.
    destruct (decide (k = ib)) as [->|Hb].
    - rewrite list_lookup_alter_eq.
      destruct (decide (ib = ia)) as [->|Ha].
      + rewrite list_lookup_alter_eq, decide_True by auto.
        by destruct (luts !! ia).
      + rewrite list_lookup_alter_ne by done. by rewrite decide_True by auto.
    - rewrite list_lookup_alter_ne by done.
      destruct (decide (k = ia)) as [->|Ha].
      + rewrite list_lookup_alter_eq. by rewrite decide_True by auto.
      + rewrite list_lookup_alter_ne by done.
        rewrite decide_False by tauto. by destruct (luts !! k).
  Qed.

Lemma plan_iteration_ptrs st c st' :
    plan_iteration uniquify module st c = Some st' ->
    cell_ptr <$> st'.1 = cell_ptr <$> st.1.
  Proof.
    intros H. apply plan_iteration_cases in H
      as (a & b & _ & _ & [[_ ->]|(_ & _ & plan & _ & ->)]); [done|].
    apply list_eq. intros k. cbn [fst].
    rewrite !list_lookup_fmap, claim_both_lookup.
    destruct (st.1 !! k); [|done]. simpl. by case_decide.
  Qed.

Lemma plan_iteration_monotone st c st' k :
    plan_iteration uniquify module st c = Some st' ->
    claimed st.1 k -> claimed st'.1 k.
  Proof.
    intros H. apply plan_iteration_cases in H
      as (a & b & _ & _ & [[_ ->]|(_ & _ & plan & _ & ->)]); [done|].
    unfold claimed. cbn [fst]. rewrite claim_both_lookup.
    destruct (st.1 !! k) as [l|]; [|done]. simpl. intros [= Hl].
    case_decide; simpl; [done|by rewrite Hl].
  Qed.

Lemma PlanMerges_loop_app st pre post :
    PlanMerges_loop uniquify module st (pre ++ post)
    = PlanMerges_loop uniquify module st pre ≫= fun mid =>
        PlanMerges_loop uniquify module mid post.
  Proof.
    revert st. induction pre as [|c pre IH]; intros st; simpl; [done|].
    destruct (plan_iteration uniquify module st c) as [st1|]; simpl; [apply IH|done].
  Qed.

Lemma PlanMerges_loop_monotone st popped st' k :
    PlanMerges_loop uniquify module st popped = Some st' ->
    claimed st.1 k -> claimed st'.1 k.
  Proof.
    revert st. induction popped as [|c popped IH]; intros st; simpl.
    - by intros [= <-].
    - destruct (plan_iteration uniquify module st c) as [st1|] eqn:E; [|done]. simpl.
      intros H Hk. eapply IH; [done|]. by eapply plan_iteration_monotone.
  Qed.

Lemma PlanMerges_loop_ptrs st popped st' :
    PlanMerges_loop uniquify module st popped = Some st' ->
    cell_ptr <$> st'.1 = cell_ptr <$> st.1.
  Proof.
    revert st. induction popped as [|c popped IH]; intros st; simpl.
    - by intros [= <-].
    - destruct (plan_iteration uniquify module st c) as [st1|] eqn:E; [|done]. simpl.
      intros H. rewrite (IH _ H). by eapply plan_iteration_ptrs.
  Qed.

Lemma ptr_index (luts : list LutInfo) k k' l l' :
    NoDup (cell_ptr <$> luts) ->
    luts !! k = Some l -> luts !! k' = Some l' -> cell_ptr l = cell_ptr l' -> k = k'.
  Proof.
    intros Hnd Hk Hk' Heq.
    eapply NoDup_lookup; [exact Hnd| |]; rewrite list_lookup_fmap.
    - by rewrite Hk.
    - rewrite Hk'. simpl. by rewrite Heq.
  Qed.

Lemma plan_iteration_consistent st c st' :
    NoDup (cell_ptr <$> st.1) ->
    plan_iteration uniquify module st c = Some st' ->
    plans_consistent st -> plans_consistent st'.
  Proof.
    intros Hnd H [Hcl Hdj]. apply plan_iteration_cases in H
      as (a & b & Ha & Hb & [[_ ->]|(Hfa & Hfb & plan & Hplan & ->)]); [done|].
    apply make_plan_names in Hplan as [Hna Hnb].
    assert (Hstep : ∀ k lut', alter set_is_merged (idx_b c) (alter set_is_merged (idx_a c) st.1) !! k
                              = Some lut' ->
              ∃ lut, st.1 !! k = Some lut ∧ cell_ptr lut' = cell_ptr lut ∧
                     (is_merged lut = true -> is_merged lut' = true) ∧
                     (k = idx_a c ∨ k = idx_b c -> is_merged lut' = true)).
    { intros k lut'. rewrite claim_both_lookup.
      destruct (st.1 !! k) as [l|]; [|done]. simpl. intros [= <-]. exists l.
      case_decide; simpl; tauto. }
    assert (Hnew : ∀ k lut, st.1 !! k = Some lut -> names_lut plan lut ->
                            k = idx_a c ∨ k = idx_b c).
    { intros k lut Hk [Hn|Hn]; [left|right].
      - eapply (ptr_index st.1); [done|exact Hk|exact Ha|congruence].
      - eapply (ptr_index st.1); [done|exact Hk|exact Hb|congruence]. }
    assert (Hold : ∀ p k lut, p ∈ st.2 -> st.1 !! k = Some lut -> names_lut p lut ->
                              ¬ names_lut plan lut).
    { intros p k lut Hp Hk Hn Hn'. pose proof (Hcl p k lut Hp Hk Hn) as Ht.
      destruct (Hnew k lut Hk Hn') as [-> | ->]; congruence. }
    split; cbn [fst snd].
    - intros p k lut' Hp Hk Hn. destruct (Hstep k lut' Hk) as (lut & Hl & Hptr & Hmono & Hset).
      apply elem_of_app in Hp as [Hp|Hp].
      + apply Hmono. eapply Hcl; [exact Hp|exact Hl|]. unfold names_lut in *. by rewrite <- Hptr.
      + apply list_elem_of_singleton in Hp as ->. apply Hset. eapply Hnew; [exact Hl|].
        unfold names_lut in *. by rewrite <- Hptr.
    - intros n1 n2 p1 p2 k lut' Hne H1 H2 Hk [Hn1 Hn2].
      destruct (Hstep k lut' Hk) as (lut & Hl & Hptr & _ & _).
      assert (Hn1' : names_lut p1 lut) by (unfold names_lut in *; by rewrite <- Hptr).
      assert (Hn2' : names_lut p2 lut) by (unfold names_lut in *; by rewrite <- Hptr).
      apply lookup_snoc_Some in H1 as [[Hlt1 H1]|[Hlen1 E1]];
        apply lookup_snoc_Some in H2 as [[Hlt2 H2]|[Hlen2 E2]]; subst.
      + by eapply (Hdj n1 n2 p1 p2 k lut).
      + eapply (Hold p1 k lut); [by eapply list_elem_of_lookup_2|done..].
      + eapply (Hold p2 k lut); [by eapply list_elem_of_lookup_2|done..].
      + lia.
  Qed.

Lemma PlanMerges_loop_consistent st popped st' :
    NoDup (cell_ptr <$> st.1) ->
    PlanMerges_loop uniquify module st popped = Some st' ->
    plans_consistent st -> plans_consistent st'.
  Proof.
    revert st. induction popped as [|c popped IH]; intros st Hnd; simpl.
    - by intros [= <-].
    - destruct (plan_iteration uniquify module st c) as [st1|] eqn:E; [|done]. simpl.
      intros H Hc. eapply (IH st1); [|done|by eapply plan_iteration_consistent].
      by rewrite (plan_iteration_ptrs _ _ _ E).
  Qed.
End PlannerFacts.

(** C5. Across one run of the planner every claimed flag only goes from
    false to true (at any point of the run a flag that was set stays set until
    the end), no LUT is named by two emitted plans, every LUT named by a plan
    is claimed, and each iteration either skips a candidate with a claimed LUT,
    leaving the state untouched, or claims both LUTs and appends the plan that
    names them. *)
Theorem planner_claims_once (uniquify : Module -> IdString -> IdString) (module : Module)
    (luts : list LutInfo) (candidates : list MergeCandidate)
    (luts' : list LutInfo) (plans : list MergePlan) :
  NoDup (cell_ptr <$> luts) ->
  PlanMerges uniquify module luts candidates = Some (luts', plans) ->
  (∀ pre post mid k,
      pop_order candidates = pre ++ post ->
      PlanMerges_loop uniquify module (luts, []) pre = Some mid ->
      (claimed luts k -> claimed mid.1 k) ∧ (claimed mid.1 k -> claimed luts' k)) ∧
  (∀ n1 n2 p1 p2 k lut,
      n1 ≠ n2 -> plans !! n1 = Some p1 -> plans !! n2 = Some p2 ->
      luts !! k = Some lut -> ¬ (names_lut p1 lut ∧ names_lut p2 lut)) ∧
  (∀ plan k lut,
      plan ∈ plans -> luts' !! k = Some lut -> names_lut plan lut -> is_merged lut = true) ∧
  (∀ st c st',
      plan_iteration uniquify module st c = Some st' ->
      ∃ lut_a lut_b,
        st.1 !! idx_a c = Some lut_a ∧ st.1 !! idx_b c = Some lut_b ∧
        if is_merged lut_a || is_merged lut_b then st' = st
        else claimed st'.1 (idx_a c) ∧ claimed st'.1 (idx_b c) ∧
             ∃ plan, st'.2 = st.2 ++ [plan] ∧
                     cell_a_to_remove plan = cell_ptr lut_a ∧
                     cell_b_to_remove plan = cell_ptr lut_b).
Proof.
  intros Hnd Hrun. unfold PlanMerges in Hrun.
  assert (Hcons : plans_consistent (luts', plans)).
  { eapply PlanMerges_loop_consistent; [|exact Hrun|]; [done|].
    split; cbn [fst snd]; [intros ??? H; by apply elem_of_nil in H|].
    intros ?????? _ H. by rewrite lookup_nil in H. }
  pose proof (PlanMerges_loop_ptrs _ _ _ _ _ Hrun) as Hptrs. cbn [fst] in Hptrs.
  destruct Hcons as [Hcl Hdj]. cbn [fst snd] in Hcl, Hdj.
  split; [|split; [|split]].
  - intros pre post mid k Hsplit Hpre.
    rewrite Hsplit, PlanMerges_loop_app, Hpre in Hrun. simpl in Hrun. split.
    + by apply (PlanMerges_loop_monotone _ _ _ _ _ k Hpre).
    + by apply (PlanMerges_loop_monotone _ _ _ _ _ k Hrun).
  - intros n1 n2 p1 p2 k lut Hne H1 H2 Hk Hn.
    assert (∃ lut', luts' !! k = Some lut' ∧ cell_ptr lut' = cell_ptr lut) as (lut' & Hk' & Hp).
    { pose proof (f_equal (fun l => l !! k) Hptrs) as E. simpl in E.
      rewrite !list_lookup_fmap, Hk in E. destruct (luts' !! k) as [l'|]; [|done].
      injection E as E. eauto. }
    apply (Hdj n1 n2 p1 p2 k lut' Hne H1 H2 Hk').
    unfold names_lut in *. by rewrite Hp.
  - exact Hcl.
  - intros st c st' Hit.
    destruct (plan_iteration_cases _ _ _ _ _ Hit)
      as (a & b & Ha & Hb & [[Hor ->]|(Hfa & Hfb & plan & Hplan & ->)]);
      exists a, b; (split; [done|]); (split; [done|]).
    + by rewrite Hor.
    + rewrite Hfa, Hfb. cbn [orb fst snd]. unfold claimed.
      rewrite !claim_both_lookup, Ha, Hb, !decide_True by auto. simpl.
      split; [done|]. split; [done|]. exists plan. split; [done|].
      by eapply make_plan_names.
Qed.

Lemma planner_claims_once_witness :
  let luts := [lut_x; lut_y] in
  let candidates := FindMergeCandidates_Global luts in
  (∀ pre post mid k,
      pop_order candidates = pre ++ post ->
      PlanMerges_loop keep_name (mkModule []) (luts, []) pre = Some mid ->
      (claimed luts k -> claimed mid.1 k) ∧ (claimed mid.1 k -> claimed planned_xy.1 k)) ∧
  (∀ n1 n2 p1 p2 k lut,
      n1 ≠ n2 -> planned_xy.2 !! n1 = Some p1 -> planned_xy.2 !! n2 = Some p2 ->
      luts !! k = Some lut -> ¬ (names_lut p1 lut ∧ names_lut p2 lut)) ∧
  (∀ plan k lut,
      plan ∈ planned_xy.2 -> planned_xy.1 !! k = Some lut -> names_lut plan lut ->
      is_merged lut = true) ∧
  (∀ st c st',
      plan_iteration keep_name (mkModule []) st c = Some st' ->
      ∃ lut_a lut_b,
        st.1 !! idx_a c = Some lut_a ∧ st.1 !! idx_b c = Some lut_b ∧
        if is_merged lut_a || is_merged lut_b then st' = st
        else claimed st'.1 (idx_a c) ∧ claimed st'.1 (idx_b c) ∧
             ∃ plan, st'.2 = st.2 ++ [plan] ∧
                     cell_a_to_remove plan = cell_ptr lut_a ∧
                     cell_b_to_remove plan = cell_ptr lut_b).
Proof.
  apply (planner_claims_once keep_name (mkModule []) [lut_x; lut_y]
           (FindMergeCandidates_Global [lut_x; lut_y]) planned_xy.1 planned_xy.2).
  - apply (bool_decide_unpack _). vm_compute. exact I.
  - vm_compute. reflexivity.
Defined.

(** ** The commit phase *)

Lemma filter_ext_elem {A} (P Q : A -> Prop) `{!∀ x, Decision (P x)} `{!∀ x, Decision (Q x)}
    (l : list A) :
  (∀ x, x ∈ l -> (P x <-> Q x)) -> filter P l = filter Q l.
Proof.
  induction l as [|x l IH]; intros Hext; [done|].
  rewrite !filter_cons. rewrite IH by (intros y Hy; apply Hext; by right).
  destruct (decide (P x)) as [HP|HP], (decide (Q x)) as [HQ|HQ]; try done.
  - destruct HQ. apply Hext; [by left|done].
  - destruct HP. apply Hext; [by left|done].
Qed.

Lemma filter_all {A} (P : A -> Prop) `{!∀ x, Decision (P x)} (l : list A) :
  (∀ x, x ∈ l -> P x) -> filter P l = l.
Proof.
  induction l as [|x l IH]; intros Hall; [done|].
  rewrite filter_cons_True by (apply Hall; by left). f_equal. apply IH.
  intros y Hy. apply Hall. by right.
Qed.

Lemma elem_of_cell_names_to_remove plans n :
  n ∈ cell_names_to_remove plans <-> ∃ plan, plan ∈ plans ∧ names_cell plan n.
Proof.
  unfold cell_names_to_remove.
  assert (G : ∀ p, n ∈ foldl (fun p plan => pool_insert (cell_b_to_remove plan)
                                   (pool_insert (cell_a_to_remove plan) p)) p plans
                   <-> n ∈ p ∨ ∃ plan, plan ∈ plans ∧ names_cell plan n).
  { induction plans as [|pl plans IH]; intros p; simpl.
    - split; [auto|]. intros [H|(pl & H & _)]; [done|by apply elem_of_nil in H].
    - rewrite IH, !elem_of_pool_insert. unfold names_cell. split.
      + intros [[Hb|[Ha|H]]|(pl' & Hin & Hn)].
        * right. exists pl. split; [apply list_elem_of_here|auto].
        * right. exists pl. split; [apply list_elem_of_here|auto].
        * by left.
        * right. exists pl'. split; [by apply list_elem_of_further|done].
      + intros [H|(pl' & Hin & Hn)]; [auto|].
        apply elem_of_cons in Hin as [->|Hin]; [destruct Hn; auto|].
        right. eauto. }
  rewrite G, elem_of_nil. tauto.
Qed.

Lemma NoDup_cell_names_to_remove plans : NoDup (cell_names_to_remove plans).
Proof.
  unfold cell_names_to_remove.
  assert (G : ∀ p, NoDup p ->
                   NoDup (foldl (fun p plan => pool_insert (cell_b_to_remove plan)
                                   (pool_insert (cell_a_to_remove plan) p)) p plans)).
  { induction plans as [|pl plans IH]; intros p Hp; simpl; [done|].
    apply IH. by do 2 apply NoDup_pool_insert. }
  apply G. constructor.
Qed.

Lemma module_cell_Some m n :
  is_Some (module_cell m n) <-> n ∈ cell_names m.
Proof.
  unfold module_cell, cell_names. split.
  - intros [c Hc]. destruct (list_find _ _) as [[i c']|] eqn:E; [|done].
    apply list_find_Some in E as (Hi & <- & _).
    apply list_elem_of_fmap. exists c'. split; [done|]. by eapply list_elem_of_lookup_2.
  - intros Hin. apply list_elem_of_fmap in Hin as (c & -> & Hc).
    destruct (list_find (λ c0, cell_name c0 = cell_name c) (cells m)) as [[i c']|] eqn:E.
    + by eexists.
    + apply list_find_None in E. rewrite Forall_forall in E. by destruct (E c Hc).
Qed.

Lemma module_cell_name m n c : module_cell m n = Some c -> cell_name c = n.
Proof.
  unfold module_cell. destruct (list_find _ _) as [[i c']|] eqn:E; [|done].
  simpl. intros [= <-]. by apply list_find_Some in E as (_ & ? & _).
Qed.

(** Erasing a cell: up to the order, the one entry of its name goes. *)
Lemma module_remove_delete m n c :
  module_cell m n = Some c ->
  ∃ i, cells m !! i = Some c ∧ cells (module_remove m c) ≡ₚ delete i (cells m).
Proof.
  unfold module_cell, module_remove.
  destruct (list_find (fun c0 => cell_name c0 = n) (cells m)) as [[i c']|] eqn:E; [|done].
  cbn [mbind option_bind snd]. intros [= ->].
  pose proof E as E'. apply list_find_Some in E' as (Hi & Hn & _). rewrite Hn, E.
  exists i. split; [done|].
  destruct (cells m) as [|first rest]; [done|]. destruct i as [|i]; [done|].
  cbn [cells]. change (delete (S i) (first :: rest)) with (first :: delete i rest).
  change ((first :: rest) !! S i) with (rest !! i) in Hi.
  rewrite insert_take_drop by (by eapply lookup_lt_Some).
  rewrite delete_take_drop. by rewrite <- Permutation_middle.
Qed.

Lemma cell_names_delete (cs : list Cell) i c n :
  cs !! i = Some c -> n ≠ cell_name c ->
  n ∈ cell_name <$> delete i cs <-> n ∈ cell_name <$> cs.
Proof.
  intros Hi Hne. rewrite (delete_Permutation cs i c Hi) at 2.
  rewrite fmap_cons, elem_of_cons. split; [auto|]. by intros [->|H].
Qed.

Lemma delete_unique_name (cs : list Cell) i c :
  NoDup (cell_name <$> cs) -> cs !! i = Some c ->
  delete i cs = filter (fun c' => cell_name c' ≠ cell_name c) cs.
Proof.
  revert i. induction cs as [|x cs IH]; intros i Hnd Hi; [done|].
  rewrite fmap_cons in Hnd. apply NoDup_cons in Hnd as [Hx Hnd].
  destruct i as [|i]; cbn in Hi.
  - injection Hi as ->. change (delete 0%nat (c :: cs)) with cs.
    rewrite filter_cons_False by (intros H; by apply H).
    symmetry. apply filter_all. intros c' Hc' Heq. apply Hx. rewrite <- Heq.
    apply list_elem_of_fmap. eauto.
  - change (delete (S i) (x :: cs)) with (x :: delete i cs). rewrite filter_cons_True.
    + f_equal. by apply IH.
    + intros Heq. apply Hx. rewrite Heq. apply list_elem_of_fmap. exists c. split; [done|].
      by eapply list_elem_of_lookup_2.
Qed.

(** The removal loop over a pool of names. *)
Lemma remove_phase names m ev :
  NoDup names ->
  ∃ kept,
    foldl remove_named (m, ev) names
    = (mkModule kept, ev ++ (EvRemove <$> filter (fun n => n ∈ cell_names m) names)) ∧
    (∀ n, n ∈ cell_name <$> kept -> n ∈ cell_names m) ∧
    (NoDup (cell_names m) ->
     kept ≡ₚ filter (fun c => cell_name c ∉ names) (cells m)).
Proof.
  intros Hnd. revert m ev. induction Hnd as [|n names Hn Hnd IH]; intros m ev.
  - exists (cells m). cbn [foldl filter list_filter fmap list_fmap]. rewrite app_nil_r.
    split; [by destruct m|]. split; [done|]. intros _.
    rewrite filter_all; [done|]. intros c _. apply not_elem_of_nil.
  - cbn [foldl]. unfold remove_named at 2. cbn [fst snd].
    destruct (module_cell m n) as [c|] eqn:E.
    + pose proof (module_cell_name _ _ _ E) as Hc.
      assert (Hin : n ∈ cell_names m) by (apply module_cell_Some; eauto).
      destruct (module_remove_delete m n c E) as (i & Hi & Hperm).
      destruct (IH (module_remove m c) (ev ++ [EvRemove n])) as (kept & -> & Hsub & Hkept).
      assert (Hnames : ∀ n', n' ≠ n ->
                             n' ∈ cell_names (module_remove m c) <-> n' ∈ cell_names m).
      { intros n' Hne. unfold cell_names. rewrite Hperm.
        apply (cell_names_delete _ _ c); [done|by rewrite Hc]. }
      exists kept. split; [|split].
      * f_equal. rewrite filter_cons_True by done. rewrite <- app_assoc.
        cbn [fmap list_fmap app]. do 3 f_equal.
        apply filter_ext_elem. intros n' Hn'. cbv beta. apply Hnames. by intros ->.
      * intros n' Hn'. apply Hsub in Hn'. unfold cell_names in Hn' |- *.
        rewrite Hperm in Hn'. rewrite (delete_Permutation _ _ _ Hi), fmap_cons.
        by apply elem_of_cons; right.
      * intros Hm. rewrite Hkept.
        2:{ unfold cell_names. rewrite Hperm.
            eapply sublist_NoDup; [exact Hm|]. apply fmap_sublist, sublist_delete. }
        rewrite Hperm, (delete_unique_name _ _ _ Hm Hi), Hc.
        rewrite list_filter_filter.
        rewrite (list_filter_iff _ (fun c' => cell_name c' ∉ n :: names)); [done|].
        intros c'. rewrite elem_of_cons. tauto.
    + assert (Hout : n ∉ cell_names m).
      { intros Hin. apply module_cell_Some in Hin as [? ?]. congruence. }
      destruct (IH m ev) as (kept & -> & Hsub & Hkept).
      exists kept. split; [|split; [done|]].
      * by rewrite filter_cons_False by done.
      * intros Hm. rewrite (Hkept Hm).
        rewrite (filter_ext_elem _ (fun c' => cell_name c' ∉ n :: names)); [done|].
        intros c' Hc'. cbv beta. rewrite elem_of_cons.
        split; [|tauto]. intros H [Heq|H']; [|done].
        apply Hout. rewrite <- Heq. apply list_elem_of_fmap. eauto.
Qed.

(** The addition loop, when no [addCell] aborts. *)
Lemma add_phase plans m ev st :
  foldl (fun acc plan => acc ≫= fun st => add_fused st plan) (Some (m, ev)) plans = Some st ->
  st = (mkModule (reverse (fused_cell <$> plans) ++ cells m),
        ev ++ (EvAddCell <$> (new_cell_name <$> plans))) ∧
  NoDup (new_cell_name <$> plans) ∧
  (∀ plan, plan ∈ plans -> new_cell_name plan ∉ cell_names m).
Proof.
  revert m ev. induction plans as [|pl plans IH]; intros m ev Hrun.
  - cbn in Hrun. injection Hrun as <-. rewrite app_nil_r. split; [by destruct m|].
    split; [constructor|]. intros plan Hp. by apply elem_of_nil in Hp.
  - cbn [foldl mbind option_bind] in Hrun. unfold add_fused at 2 in Hrun.
    cbn [fst snd] in Hrun. unfold module_add in Hrun.
    destruct (decide (cell_name (fused_cell pl) ∈ cell_names m)) as [Hin|Hout].
    { cbn [mbind option_bind] in Hrun. exfalso. clear -Hrun.
      induction plans as [|p plans IHp]; [done|]. by apply IHp. }
    cbn [mbind option_bind] in Hrun. apply IH in Hrun as (-> & Hnd & Hfree).
    cbn [cells cell_names] in Hfree. split; [|split].
    + cbn [cells fmap list_fmap]. rewrite reverse_cons, <- !app_assoc. done.
    + cbn [fmap list_fmap]. apply NoDup_cons. split; [|done].
      intros Hdup. apply list_elem_of_fmap in Hdup as (plan & Heq & Hp).
      apply (Hfree plan Hp). rewrite <- Heq. cbn [fmap list_fmap]. apply list_elem_of_here.
    + intros plan Hp. apply elem_of_cons in Hp as [->|Hp]; [done|].
      intros Hin. apply (Hfree plan Hp). cbn [fmap list_fmap]. by apply list_elem_of_further.
Qed.

(** The commit, when it returns. *)
Lemma ExecuteMerges_run (module : Module) (plans : list MergePlan) (done : Committed) :
  ExecuteMerges module plans = Some done ->
  ∃ kept,
    done = mkCommitted
             (mkModule (reverse (fused_cell <$> plans) ++ kept))
             ((EvRemove <$> filter (fun n => n ∈ cell_names module)
                                   (cell_names_to_remove plans))
              ++ (EvAddCell <$> (new_cell_name <$> plans)))
             (length plans) ∧
    NoDup (new_cell_name <$> plans) ∧
    (∀ plan, plan ∈ plans -> new_cell_name plan ∉ cell_name <$> kept) ∧
    (∀ n, n ∈ cell_name <$> kept -> n ∈ cell_names module) ∧
    (NoDup (cell_names module) ->
     kept ≡ₚ filter (fun c => cell_name c ∉ cell_names_to_remove plans) (cells module)).
Proof.
  unfold ExecuteMerges. cbv zeta.
  destruct (remove_phase (cell_names_to_remove plans) module [])
    as (kept & -> & Hsub & Hkept); [apply NoDup_cell_names_to_remove|].
  destruct (foldl _ (Some _) plans) as [st|] eqn:Eadd; [|done].
  cbn [mbind option_bind]. intros [= <-].
  apply add_phase in Eadd as (-> & Hnd & Hfree). exists kept. cbn [fst snd cells app].
  by repeat split.
Qed.

(** C8. When the commit returns, it has first removed, once each, exactly
    the cells of the module that some plan names, and only after the last
    removal added one fused cell per plan: the event trace is the removals
    followed by the additions. *)
Theorem commit_removes_before_adding (module : Module) (plans : list MergePlan)
    (done : Committed) :
  ExecuteMerges module plans = Some done ->
  ∃ removed,
    events done = (EvRemove <$> removed) ++ (EvAddCell <$> (new_cell_name <$> plans)) ∧
    NoDup removed ∧
    (∀ n, n ∈ removed <-> n ∈ cell_names module ∧ ∃ plan, plan ∈ plans ∧ names_cell plan n).
Proof.
  intros Hrun. destruct (ExecuteMerges_run _ _ _ Hrun) as (kept & -> & _).
  exists (filter (fun n => n ∈ cell_names module) (cell_names_to_remove plans)).
  cbn [events]. split; [done|]. split; [apply NoDup_filter, NoDup_cell_names_to_remove|].
  intros n. by rewrite list_elem_of_filter, elem_of_cell_names_to_remove.
Qed.

Lemma commit_removes_before_adding_witness :
  ∃ removed,
    events (default (mkCommitted module_65 [] 0) (ExecuteMerges module_65 planned_65.2))
    = (EvRemove <$> removed) ++ (EvAddCell <$> (new_cell_name <$> planned_65.2)) ∧
    NoDup removed ∧
    (∀ n, n ∈ removed <->
          n ∈ cell_names module_65 ∧ ∃ plan, plan ∈ planned_65.2 ∧ names_cell plan n).
Proof.
  apply (commit_removes_before_adding module_65 planned_65.2). vm_compute. reflexivity.
Defined.

(** ** The pass as a whole *)

(** C10. When planning yields no plan -- in particular when no LUT was
    collected or no candidate was found -- [StitcherMain] returns the module
    it was given, with no mutation event.  In every run the events are those
    of the commit of the plans, which runs only when there is a plan. *)
Theorem no_plan_no_mutation (uniquify : Module -> IdString -> IdString)
    (SigMap : Module -> SigBit -> SigBit) (module : Module)
    (all_luts : list LutInfo) (candidates : list MergeCandidate) (search_log : list LogMsg) :
  CollectLuts (SigMap module) module = Some all_luts ->
  find_candidates all_luts = Some (candidates, search_log) ->
  ((all_luts = [] ∨ candidates = [] ∨
    ∃ luts', PlanMerges uniquify module all_luts candidates = Some (luts', [])) ->
   ∃ log, StitcherMain uniquify SigMap module = Some (mkPassResult module [] log) ∧
          LogNoValidMerges ∈ log) ∧
  (∀ res, StitcherMain uniquify SigMap module = Some res ->
          ∃ luts' plans,
            PlanMerges uniquify module all_luts candidates = Some (luts', plans) ∧
            match plans with
            | [] => result_module res = module ∧ result_events res = []
            | _ => ∃ done, ExecuteMerges module plans = Some done ∧
                           result_module res = module_after done ∧
                           result_events res = events done
            end).
Proof.
  intros Hcol Hfind. unfold StitcherMain. rewrite Hcol. cbn [mbind option_bind].
  rewrite Hfind. cbn [mbind option_bind]. split.
  - intros Hnone.
    assert (∃ luts', PlanMerges uniquify module all_luts candidates = Some (luts', []))
      as [luts' Hplan].
    { destruct Hnone as [->|[->|H]]; [| |done].
      - vm_compute in Hfind. injection Hfind as <- _. by eexists.
      - by eexists. }
    rewrite Hplan. cbn [mbind option_bind]. eexists. split; [reflexivity|].
    apply elem_of_app. right. apply list_elem_of_here.
  - intros res Hres.
    destruct (PlanMerges uniquify module all_luts candidates) as [[luts' plans]|]; [|done].
    cbn [mbind option_bind] in Hres. exists luts', plans. split; [done|].
    destruct plans as [|p plans].
    + injection Hres as <-. done.
    + destruct (ExecuteMerges module (p :: plans)) as [cm|]; [|done].
      cbn [mbind option_bind] in Hres. injection Hres as <-. by exists cm.
Qed.

Lemma no_plan_no_mutation_witness :
  ∃ log, StitcherMain keep_name (fun _ s => s) (mkModule [])
         = Some (mkPassResult (mkModule []) [] log) ∧
         LogNoValidMerges ∈ log.
Proof.
  apply (no_plan_no_mutation keep_name (fun _ s => s) (mkModule []) [] [] [LogFound 0]).
  - reflexivity.
  - reflexivity.
  - left. reflexivity.
Defined.

(** ** ABSORB candidates *)

Lemma elem_of_check_lut6_absorb lut_6 lut_s i j c :
  c ∈ check_lut6_absorb lut_6 lut_s i j <->
  size lut_6 = 6 ∧ size lut_s < 6 ∧
  is_subset (insert_inputs lut_s []) (insert_inputs lut_6 []) = true ∧
  ∃ sel, CanLut6AbsorbLutS lut_6 lut_s = Some sel ∧
         c = mkCand i j (10000 + size lut_s * 100) (insert_inputs lut_6 []) LUT6_ABSORB sel.
Proof.
  unfold check_lut6_absorb. case_decide as Hsz.
  - rewrite elem_of_nil. split; [done|]. intros (? & ? & _). lia.
  - destruct (is_subset _ _) eqn:Es.
    + destruct (CanLut6AbsorbLutS lut_6 lut_s) as [sel|] eqn:Ec.
      * rewrite list_elem_of_singleton. split.
        -- intros ->. repeat split; try lia. eauto.
        -- intros (_ & _ & _ & sel' & [= <-] & ->). done.
      * rewrite elem_of_nil. split; [done|]. intros (_ & _ & _ & sel' & [=] & _).
    + rewrite elem_of_nil. split; [done|]. intros (_ & _ & [=] & _).
Qed.

Lemma elem_of_global_absorb_check lut_6 lut_s i j c :
  c ∈ global_absorb_check lut_6 lut_s i j <->
  is_subset (insert_inputs lut_s []) (insert_inputs lut_6 []) = true ∧
  ∃ sel, CanLut6AbsorbLutS lut_6 lut_s = Some sel ∧
         c = mkCand i j (10000 + size lut_s * 100) (insert_inputs lut_6 []) LUT6_ABSORB sel.
Proof.
  unfold global_absorb_check. destruct (is_subset _ _) eqn:Es.
  - destruct (CanLut6AbsorbLutS lut_6 lut_s) as [sel|] eqn:Ec.
    + rewrite list_elem_of_singleton. split.
      * intros ->. eauto.
      * intros (_ & sel' & [= <-] & ->). done.
    + rewrite elem_of_nil. split; [done|]. intros (_ & sel' & [=] & _).
  - rewrite elem_of_nil. split; [done|]. intros ([=] & _).
Qed.

Lemma is_subset_spec lut_s lut_6 :
  is_subset (insert_inputs lut_s []) (insert_inputs lut_6 []) = true <->
  input_sigs lut_s ⊆ input_sigs lut_6.
Proof.
  unfold is_subset, pool_count. rewrite forallb_forall. split.
  - intros H s Hs.
    assert (Hin : s ∈ insert_inputs lut_s []) by (apply elem_of_insert_inputs; auto).
    apply list_elem_of_In, H, bool_decide_eq_true, elem_of_insert_inputs in Hin
      as [?|Hn]; [done|by apply elem_of_nil in Hn].
  - intros H s Hs. apply list_elem_of_In, elem_of_insert_inputs in Hs as [Hs|Hs];
      [|by apply elem_of_nil in Hs].
    apply bool_decide_eq_true, elem_of_insert_inputs. left. by apply H.
Qed.

Lemma CanLut6AbsorbLutS_Some lut_6 lut_s sel :
  CanLut6AbsorbLutS lut_6 lut_s = Some sel <->
  potential_sel_bits lut_6 lut_s = [sel] ∧
  (sel_is_0_match lut_6 lut_s sel = true ∨ sel_is_1_match lut_6 lut_s sel = true).
Proof.
  unfold CanLut6AbsorbLutS.
  destruct (potential_sel_bits lut_6 lut_s) as [|s [|s' l]].
  - split; [done|]. by intros [[=] _].
  - destruct (sel_is_0_match lut_6 lut_s s) eqn:E0;
      destruct (sel_is_1_match lut_6 lut_s s) eqn:E1; simpl; split;
      try (intros [= <-]; rewrite ?E0, ?E1; auto);
      try (intros [[= <-] H]; rewrite ?E0, ?E1 in H; by destruct H); done.
  - split; [done|]. by intros [[=] _].
Qed.

(** What both searches guarantee about an emitted ABSORB candidate
    [(i, j)]: the absorbing LUT has arity 6, the inputs of the other LUT all
    occur among its inputs, exactly one of its ports carries a signal the other
    LUT does not use, the masked table comparison succeeds for selector 0 or
    for selector 1, and the score is 10000 + 100 * the other LUT's arity.  The
    level-windowed search also guarantees that the other LUT's arity is below
    6. *)
Lemma absorb_candidate_sound luts (lv : gmap Z (list nat)) c :
  type c = LUT6_ABSORB ->
  c ∈ FindMergeCandidates_Global luts ∨ c ∈ FindMergeCandidates_Layered luts lv ->
  ∃ lut_6 lut_s sel,
    luts !! idx_a c = Some lut_6 ∧ luts !! idx_b c = Some lut_s ∧
    size lut_6 = 6 ∧
    input_sigs lut_s ⊆ input_sigs lut_6 ∧
    potential_sel_bits lut_6 lut_s = [sel] ∧ discovered_sel_bit c = sel ∧
    (sel_is_0_match lut_6 lut_s sel = true ∨ sel_is_1_match lut_6 lut_s sel = true) ∧
    score c = 10000 + 100 * size lut_s ∧
    (c ∈ FindMergeCandidates_Layered luts lv -> size lut_s < 6).
Proof.
  intros Ht Hin.
  assert (Hlay : c ∈ FindMergeCandidates_Layered luts lv ->
                 ∃ i j lut_6 lut_s, luts !! i = Some lut_6 ∧ luts !! j = Some lut_s ∧
                                    c ∈ check_lut6_absorb lut_6 lut_s i j).
  { intros H. apply elem_of_FindMergeCandidates_Layered in H as (level & p & _ & _ & Hc).
    unfold layered_checks in Hc. rewrite !elem_of_app in Hc.
    destruct Hc as [Hc|[Hc|Hc]];
      apply elem_of_on_pair in Hc as (a & b & Ha & Hb & Hc).
    - apply elem_of_check_shared_inputs in Hc as (-> & _). done.
    - eauto 10.
    - eauto 10. }
  assert (Hcases :
    ∃ i j lut_6 lut_s, luts !! i = Some lut_6 ∧ luts !! j = Some lut_s ∧ size lut_6 = 6 ∧
      is_subset (insert_inputs lut_s []) (insert_inputs lut_6 []) = true ∧
      (c ∈ FindMergeCandidates_Layered luts lv -> size lut_s < 6) ∧
      ∃ sel, CanLut6AbsorbLutS lut_6 lut_s = Some sel ∧
             c = mkCand i j (10000 + size lut_s * 100) (insert_inputs lut_6 [])
                        LUT6_ABSORB sel).
  { destruct Hin as [Hin|Hin].
    - apply elem_of_FindMergeCandidates_Global in Hin
        as [(i & j & a & b & _ & Ha & Hb & Hc)|(i & j & a & b & _ & Ha & Hb & H6 & Hc)].
      + apply elem_of_global_shared_check in Hc as (-> & _). done.
      + apply elem_of_global_absorb_check in Hc as (Hs & sel & Hsel & ->).
        exists i, j, a, b. repeat split; try done; [|eauto].
        intros Hl. destruct (Hlay Hl) as (i' & j' & a' & b' & Ha' & Hb' & Hc').
        apply elem_of_check_lut6_absorb in Hc' as (_ & Hlt & _ & sel' & _ & [= -> -> _ _ _]).
        congruence.
    - destruct (Hlay Hin) as (i & j & a & b & Ha & Hb & Hc).
      apply elem_of_check_lut6_absorb in Hc as (H6 & Hlt & Hs & sel & Hsel & ->).
      exists i, j, a, b. repeat split; try done. eauto. }
  destruct Hcases as (i & j & lut_6 & lut_s & Ha & Hb & H6 & Hs & Hlt & sel & Hsel & ->).
  apply CanLut6AbsorbLutS_Some in Hsel as [Hpot Hm].
  exists lut_6, lut_s, sel. cbn [idx_a idx_b score discovered_sel_bit].
  repeat split; try done; [by apply is_subset_spec|lia].
Qed.

(** A SHARED_INPUTS score stays below every ABSORB score when the arities
    lie between 0 and 6. *)
Lemma absorb_outranks_shared lut_a lut_b lut_s :
  size lut_a <= 6 -> size lut_b <= 6 -> 0 <= size lut_s ->
  shared_score lut_a lut_b < 10000 + 100 * size lut_s.
Proof. unfold shared_score, shared_count. lia. Qed.

(** C2 fails on the code when the legality test matches only at selector 1.
    [lut_and_sel] computes f AND a and [lut_buf5] computes a, so the two agree
    where f = 1 and differ where f = 0.  The pair is accepted as an ABSORB
    candidate; the plan drives pin Z from the 6-input LUT, yet with a = 1 and
    f = 0 pin Z of the fused cell is 1 while the 6-input LUT outputs 0. *)
Theorem absorb_sel1_match_is_not_exact :
  absorb_buf5 ∈ FindMergeCandidates_Global [lut_and_sel; lut_buf5] ∧
  sel_is_0_match lut_and_sel lut_buf5 (wire_bit "f") = false ∧
  sel_is_1_match lut_and_sel lut_buf5 (wire_bit "f") = true ∧
  ∃ plan,
    make_plan keep_name (mkModule []) lut_and_sel lut_buf5 absorb_buf5 = Some plan ∧
    port_connections plan !! ID_Z = Some (output lut_and_sel) ∧
    port_connections plan !! ID_Z5 = Some (output lut_buf5) ∧
    (fun k => port_connections plan !! ("\I" +:+ pretty k)) <$> seq 0 6
      = Some <$> six_wires ∧
    lut6d_Z (plan_init_val plan) six_wires only_a = S1 ∧
    lut_output lut_and_sel only_a = S0 ∧
    lut6d_Z5 (plan_init_val plan) six_wires only_a = lut_output lut_buf5 only_a.
Proof.
  split; [|split; [|split]].
  - vm_compute. apply list_elem_of_further, list_elem_of_here.
  - vm_compute. reflexivity.
  - vm_compute. reflexivity.
  - eexists. split; [vm_compute; reflexivity|]. vm_compute. auto 10.
Qed.

(** C4 fails in the exhaustive search: the second loop only checks that the
    absorbing LUT has arity 6.  [lut_six] and [lut_six_dup] both have arity 6,
    and the pair is emitted as an ABSORB candidate with score 10600; the
    level-windowed check rejects the same pair. *)
Theorem global_absorb_accepts_arity_6 :
  size lut_six = 6 ∧ size lut_six_dup = 6 ∧
  mkCand 0 1 10600 (reverse six_wires) LUT6_ABSORB (wire_bit "f")
    ∈ FindMergeCandidates_Global [lut_six; lut_six_dup] ∧
  check_lut6_absorb lut_six lut_six_dup 0 1 = [].
Proof.
  split; [reflexivity|]. split; [reflexivity|]. split.
  - vm_compute. apply list_elem_of_here.
  - vm_compute. reflexivity.
Qed.

(** ** Leveling: the queue loop *)

Lemma filter_length_add {A} (Q Q' : A -> Prop)
    `{!∀ x, Decision (Q x)} `{!∀ x, Decision (Q' x)} (l : list A) (u : A) :
  NoDup l -> u ∈ l -> ¬ Q u -> (∀ p, Q' p <-> Q p ∨ p = u) ->
  length (filter Q' l) = S (length (filter Q l)).
Proof.
  intros Hnd Hu HQu Hiff. induction Hnd as [|x l Hx Hnd IH]; [by apply elem_of_nil in Hu|].
  apply elem_of_cons in Hu as [<- | Hu].
  - rewrite (filter_cons_True Q') by (apply Hiff; auto).
    rewrite (filter_cons_False Q) by done. simpl. f_equal. f_equal.
    apply filter_ext_elem. intros p Hp. rewrite Hiff. split; [|auto].
    intros [? | ->]; done.
  - assert (x ≠ u) by (intros ->; done).
    rewrite !filter_cons. destruct (decide (Q x)) as [HQ|HQ].
    + rewrite decide_True by (apply Hiff; auto). simpl. by rewrite IH.
    + rewrite decide_False by (rewrite Hiff; intros [?|?]; done). by apply IH.
Qed.

Section Kahn.
Variable nodes : list IdString.
Variable lut_graph : gmap IdString (list IdString).
Hypothesis nodes_nodup : NoDup nodes.
Hypothesis graph_dom : ∀ p, p ∈ nodes -> is_Some (lut_graph !! p).
Hypothesis succs_nodup : ∀ p, NoDup (succs lut_graph p).
Hypothesis succs_nodes : ∀ p v, v ∈ succs lut_graph p -> v ∈ nodes.

Local Abbreviation sc := (succs lut_graph).
Local Abbreviation pd := (pend lut_graph).
Local Abbreviation pg := (pending nodes lut_graph).
Local Abbreviation linv := (level_inv nodes lut_graph).

Lemma pending_relax P u v todo w :
    u ∈ nodes -> u ∈ P -> v ∈ sc u -> v ∉ todo ->
    pg P u (v :: todo) w
    = (pg P u todo w + (if decide (w = v) then 1 else 0))%nat.
  Proof.
    intros Hu HuP Hv Hnt. unfold pending. destruct (decide (w = v)) as [->|Hne].
    - rewrite Nat.add_1_r. apply (filter_length_add _ _ nodes u); try done.
      + unfold pend. intros [_ [?|[_ ?]]]; done.
      + intros p. unfold pend. rewrite elem_of_cons. split.
        * intros [Hs [?|[-> _]]]; auto.
        * intros [[Hs [? | [-> ?]]] | ->]; auto.
    - rewrite Nat.add_0_r. f_equal. apply filter_ext_elem. intros p _.
      unfold pend. rewrite elem_of_cons. split.
      + intros [Hs [?|[-> [?|?]]]]; auto.
      + intros [Hs [?|[-> ?]]]; auto.
  Qed.

Lemma pending_pop P u u' :
    u ∉ P ->
    ∀ v, pg (P ++ [u]) u (sc u) v = pg P u' [] v.
  Proof.
    intros Hu v. unfold pending. f_equal. apply filter_ext_elem. intros p _.
    unfold pend. rewrite elem_of_app, list_elem_of_singleton. split.
    - intros [Hs [Hn|[-> _]]]; split; auto.
    - intros [Hs [Hn|[_ Hnil]]]; [|by apply elem_of_nil in Hnil].
      split; [done|]. destruct (decide (p = u)) as [->|Hne]; [auto|].
      left. intros [?|?]; done.
  Qed.

Lemma pend_pop P u u' v p :
    u ∉ P -> v ∈ sc p ->
    (pd (P ++ [u]) u (sc u) v p <-> pd P u' [] v p).
  Proof.
    intros Hu Hs. unfold pend. rewrite elem_of_app, list_elem_of_singleton. split.
    - intros [_ [Hn|[-> _]]]; split; auto.
    - intros [_ [Hn|[_ Hnil]]]; [|by apply elem_of_nil in Hnil].
      split; [done|]. destruct (decide (p = u)) as [->|Hne]; [auto|].
      left. intros [?|?]; done.
  Qed.

  (** Dequeuing [u]: the same facts, read with [u] as the node in progress. *)
Lemma level_inv_pop P u' u rest st :
    linv P u' [] st -> q st = u :: rest ->
    linv (P ++ [u]) u (sc u)
      (mkLevelState rest (lut_levels st) (lut_in_degree st) (processed_count st + 1)).
  Proof.
    intros [Hnd Hn Hc Hi Hr Hh Hnn Hge Hdef] Hq. rewrite Hq in *.
    assert (HuP : u ∉ P).
    { apply NoDup_app in Hnd as (_ & Hd & _). intros HP. apply (Hd u HP). by left. }
    assert (Hset : ∀ v, v ∈ (P ++ [u]) ++ rest <-> v ∈ P ++ u :: rest).
    { intros v. by rewrite <- app_assoc. }
    split; cbn [q lut_levels lut_in_degree processed_count].
    - by rewrite <- app_assoc.
    - intros v Hv. apply Hn. by apply Hset.
    - rewrite length_app, Hc. simpl. lia.
    - intros v Hv. rewrite (pending_pop P u u') by done. by apply Hi.
    - intros v Hv. rewrite (pending_pop P u u') by done. rewrite Hset. by apply Hr.
    - intros v Hv. apply Hh. by apply Hset.
    - done.
    - intros p v Lp Hp Hs Hnp. apply Hge; [done..|]. by rewrite <- (pend_pop P u u').
    - intros v L HL. destruct (Hdef v L HL) as [?|(p & Hp & Hs & Hnp & HLp)]; [by left|].
      right. exists p. repeat split; try done. by rewrite (pend_pop P u u').
  Qed.

Lemma not_pend_processed P u todo v p :
    v ∈ sc p -> ¬ pd P u todo v p -> p ∈ P ∧ ¬ (p = u ∧ v ∈ todo).
  Proof.
    intros Hs Hn. unfold pend in Hn. split.
    - destruct (decide (p ∈ P)); [done|]. destruct Hn. auto.
    - intros H. destruct Hn. auto.
  Qed.

Lemma not_pend_tail P u v todo w p :
    ¬ pd P u (v :: todo) w p -> ¬ pd P u todo w p.
  Proof.
    unfold pend. intros Hn [Hs [?|[-> ?]]]; apply Hn; (split; [done|]); auto.
    right. split; [done|]. by right.
  Qed.

  (** Relaxing the edge [u -> v]. *)
Lemma level_inv_relax P u v todo st Lu :
    linv P u (v :: todo) st -> u ∈ P -> v ∈ sc u -> v ∉ todo ->
    lut_levels st !! u = Some Lu ->
    ∃ st', relax Lu st v = Some st' ∧ linv P u todo st' ∧
           lut_levels st' !! u = Some Lu.
  Proof.
    intros [Hnd Hn Hc Hi Hr Hh Hnn Hge Hdef] HuP Hv Hnt HLu.
    assert (Hun : u ∈ nodes) by (apply Hn, elem_of_app; auto).
    assert (Hvn : v ∈ nodes) by (by eapply succs_nodes).
    assert (Hpg : ∀ w, pg P u (v :: todo) w
                       = (pg P u todo w + (if decide (w = v) then 1 else 0))%nat).
    { intros w. by apply pending_relax. }
    assert (Hvq : v ∉ P ++ q st).
    { intros Hin. apply Hr in Hin; [|done]. rewrite Hpg, decide_True in Hin by done. lia. }
    assert (Hvu : v ≠ u) by (intros ->; apply Hvq, elem_of_app; auto).
    assert (HvP : ∀ p, p ∈ P -> p ≠ v).
    { intros p Hp ->. apply Hvq, elem_of_app. auto. }
    unfold relax. rewrite (Hi v Hvn), Hpg, decide_True by done.
    cbn [mbind option_bind].
    set (deg' := Z.of_nat (pg P u todo v + 1) - 1).
    assert (Hdeg : deg' = Z.of_nat (pg P u todo v)) by (unfold deg'; lia).
    set (levels' := match lut_levels st !! v with
                    | Some old => if decide (Lu + 1 > old)
                                  then <[v := Lu + 1]> (lut_levels st) else lut_levels st
                    | None => <[v := Lu + 1]> (lut_levels st)
                    end).
    assert (Hlv_ne : ∀ w, w ≠ v -> levels' !! w = lut_levels st !! w).
    { intros w Hw. unfold levels'. destruct (lut_levels st !! v) as [old|];
        [destruct (decide _)|]; by rewrite ?lookup_insert_ne. }
    assert (Hlv_v : ∃ Lv, levels' !! v = Some Lv ∧ Lu + 1 <= Lv ∧
                          (Lv = Lu + 1 ∨ lut_levels st !! v = Some Lv) ∧
                          (∀ old, lut_levels st !! v = Some old -> old <= Lv)).
    { unfold levels'. destruct (lut_levels st !! v) as [old|] eqn:E.
      - destruct (decide (Lu + 1 > old)).
        + exists (Lu + 1). rewrite lookup_insert_eq. repeat split; try lia; auto.
          intros ? [= <-]. lia.
        + exists old. rewrite E. repeat split; try lia; auto. intros ? [= <-]. lia.
      - exists (Lu + 1). rewrite lookup_insert_eq. repeat split; try lia; auto. done. }
    eexists. split; [reflexivity|].
    cbn [lut_levels]. split; [|by rewrite Hlv_ne].
    assert (Hq' : ∀ w, w ∈ P ++ (if decide (deg' = 0) then q st ++ [v] else q st)
                       <-> w ∈ P ++ q st ∨ (w = v ∧ pg P u todo v = 0%nat)).
    { intros w. destruct (decide (deg' = 0)) as [H0|H0].
      - rewrite app_assoc, elem_of_app, list_elem_of_singleton.
        split; (intros [?|?]; [by left|right]); [split; [done|lia]|tauto].
      - split; [auto|]. intros [?|[_ ?]]; [done|lia]. }
    split; cbn [q lut_levels lut_in_degree processed_count].
    - destruct (decide (deg' = 0)); [|done].
      rewrite app_assoc. apply NoDup_app. split; [done|]. split; [|apply NoDup_singleton].
      intros w Hw Hw'. apply list_elem_of_singleton in Hw' as ->. done.
    - intros w Hw. apply Hq' in Hw as [Hw|[-> _]]; [by apply Hn|done].
    - done.
    - intros w Hw. destruct (decide (w = v)) as [->|Hne].
      + by rewrite lookup_insert_eq, Hdeg.
      + rewrite lookup_insert_ne by done. rewrite (Hi w Hw), Hpg, decide_False by done.
        by rewrite Nat.add_0_r.
    - intros w Hw. rewrite Hq'. destruct (decide (w = v)) as [->|Hne].
      + split; [intros [?|[_ ?]]; done|]. auto.
      + rewrite (Hr w Hw), Hpg, decide_False, Nat.add_0_r by done.
        split; [intros [?|[? _]]; done|auto].
    - intros w Hw. apply Hq' in Hw as [Hw|[-> _]].
      + rewrite Hlv_ne; [by apply Hh|]. intros ->. done.
      + destruct Hlv_v as (Lv & -> & _). eauto.
    - intros w L HL. destruct (decide (w = v)) as [->|Hne].
      + destruct Hlv_v as (Lv & E & Hge' & _). rewrite E in HL. injection HL as <-.
        specialize (Hnn u Lu HLu). lia.
      + rewrite Hlv_ne in HL by done. by eapply Hnn.
    - intros p w Lp Hp Hs Hnp HLp.
      destruct (not_pend_processed _ _ _ _ _ Hs Hnp) as [HpP Hnot].
      rewrite Hlv_ne in HLp by (by apply HvP).
      destruct (decide (p = u ∧ w = v)) as [[-> ->]|Hother].
      + destruct Hlv_v as (Lv & E & Hge' & _). exists Lv. split; [done|]. congruence.
      + assert (Hnp' : ¬ pd P u (v :: todo) w p).
        { unfold pend. intros [_ [?|[-> Hin]]]; [done|].
          apply elem_of_cons in Hin as [->|Hin]; [by apply Hother|]. by apply Hnot. }
        destruct (Hge p w Lp Hp Hs Hnp' HLp) as (Lw & HLw & Hle).
        destruct (decide (w = v)) as [->|Hne].
        * destruct Hlv_v as (Lv & E & _ & _ & Hold). exists Lv. split; [done|].
          specialize (Hold _ HLw). lia.
        * exists Lw. by rewrite Hlv_ne.
    - intros w L HL.
      assert (Hkeep : ∀ L0, lut_levels st !! w = Some L0 -> L0 = L ->
                (L = 0 ∧ ∀ p, p ∈ nodes -> w ∉ sc p) ∨
                (∃ p, p ∈ nodes ∧ w ∈ sc p ∧ ¬ pd P u todo w p ∧ levels' !! p = Some (L - 1))).
      { intros L0 HL0 ->. destruct (Hdef w L HL0) as [?|(p & Hp & Hs & Hnp & HLp)]; [by left|].
        right. exists p. split; [done|]. split; [done|].
        split; [by eapply not_pend_tail|].
        rewrite Hlv_ne; [done|]. apply HvP. by eapply not_pend_processed. }
      destruct (decide (w = v)) as [->|Hne].
      + destruct Hlv_v as (Lv & E & _ & [->|Hold] & _); rewrite E in HL; injection HL as <-.
        * right. exists u. split; [done|]. split; [done|]. split.
          -- unfold pend. intros [_ [?|[_ ?]]]; done.
          -- rewrite Hlv_ne by done. rewrite HLu. f_equal. lia.
        * by eapply Hkeep.
      + rewrite Hlv_ne in HL by done. by eapply Hkeep.
  Qed.

Lemma relax_all_cons Lu v todo st :
    relax_all Lu (v :: todo) st = relax Lu st v ≫= relax_all Lu todo.
  Proof.
    unfold relax_all. cbn [foldl mbind option_bind].
    destruct (relax Lu st v) as [st1|]; [done|].
    cbn [mbind option_bind]. induction todo as [|w todo IH]; [done|]. apply IH.
  Qed.

Lemma level_inv_relax_all P u todo st Lu :
    linv P u todo st -> u ∈ P -> NoDup todo -> (∀ v, v ∈ todo -> v ∈ sc u) ->
    lut_levels st !! u = Some Lu ->
    ∃ st', relax_all Lu todo st = Some st' ∧ linv P u [] st'.
  Proof.
    intros Hinv HuP Hnd. revert st Hinv.
    induction Hnd as [|v todo Hv Hnd IH]; intros st Hinv Hsub HLu.
    - exists st. done.
    - destruct (level_inv_relax P u v todo st Lu) as (st1 & Hst1 & Hinv1 & HLu1);
        [done|done|apply Hsub; by left|done|done|].
      destruct (IH st1) as (st' & Hst' & Hinv'); [done|intros w Hw; apply Hsub; by right|done|].
      exists st'. split; [|done]. by rewrite relax_all_cons, Hst1.
  Qed.

  (** One iteration of the queue loop. *)
Lemma level_inv_step P u' u rest st :
    linv P u' [] st -> q st = u :: rest ->
    ∃ st', level_step lut_graph u
             (mkLevelState rest (lut_levels st) (lut_in_degree st) (processed_count st))
           = Some st' ∧ linv (P ++ [u]) u [] st'.
  Proof.
    intros Hinv Hq. pose proof (level_inv_pop P u' u rest st Hinv Hq) as Hpop.
    assert (Hu : u ∈ P ++ q st) by (rewrite Hq, elem_of_app; right; by left).
    destruct (inv_have _ _ _ _ _ _ Hinv u Hu) as [Lu HLu].
    destruct (graph_dom u (inv_nodes _ _ _ _ _ _ Hinv u Hu)) as [l Hl].
    unfold level_step. cbn [lut_levels q lut_in_degree processed_count].
    rewrite HLu, Hl. cbn [mbind option_bind].
    assert (Hsc : sc u = l) by (unfold succs; by rewrite Hl).
    rewrite <- Hsc. apply (level_inv_relax_all (P ++ [u]) u); try done.
    - apply elem_of_app. right. by left.
  Qed.

Lemma level_inv_room P u' st u rest :
    linv P u' [] st -> q st = u :: rest -> (length P < length nodes)%nat.
  Proof.
    intros Hinv Hq.
    assert (Hle : (length (P ++ q st) <= length nodes)%nat).
    { apply submseteq_length, NoDup_submseteq; [by destruct Hinv|].
      intros v. by apply (inv_nodes _ _ _ _ _ _ Hinv). }
    rewrite Hq, length_app in Hle. simpl in Hle. lia.
  Qed.

  (** The queue loop terminates within [length nodes] iterations and keeps
      the invariant. *)
Lemma level_loop_total fuel P u' st :
    linv P u' [] st -> (length nodes <= fuel + length P)%nat ->
    ∃ st' P' u'', level_loop lut_graph fuel st = Some st' ∧ linv P' u'' [] st' ∧ q st' = [].
  Proof.
    revert P u' st. induction fuel as [|fuel IH]; intros P u' st Hinv Hfuel.
    - destruct (q st) as [|u rest] eqn:Hq.
      + exists st, P, u'. simpl. by rewrite Hq.
      + pose proof (level_inv_room _ _ _ _ _ Hinv Hq). lia.
    - destruct (q st) as [|u rest] eqn:Hq.
      + exists st, P, u'. simpl. by rewrite Hq.
      + destruct (level_inv_step P u' u rest st Hinv Hq) as (st1 & Hst1 & Hinv1).
        destruct (IH (P ++ [u]) u st1 Hinv1) as (st' & P' & u'' & Hloop & Hinv' & Hq').
        { rewrite length_app. simpl. lia. }
        exists st', P', u''. split; [|done]. simpl. rewrite Hq, Hst1. done.
  Qed.

  (** When the loop ends, a node is processed exactly if all its
      predecessors are. *)
Lemma level_inv_final P u st v :
    linv P u [] st -> q st = [] -> v ∈ nodes ->
    (v ∈ P <-> ∀ p, p ∈ nodes -> v ∈ sc p -> p ∈ P).
  Proof.
    intros Hinv Hq Hv. pose proof (inv_ready _ _ _ _ _ _ Hinv v Hv) as Hr.
    rewrite Hq, app_nil_r in Hr. rewrite Hr. unfold pending.
    rewrite length_zero_iff_nil. split.
    - intros Hnil p Hp Hs. destruct (decide (p ∈ P)) as [|Hn]; [done|].
      assert (Hin : p ∈ filter (pd P u [] v) nodes).
      { apply list_elem_of_filter. split; [|done]. split; auto. }
      rewrite Hnil in Hin. by apply elem_of_nil in Hin.
    - intros Hall. destruct (filter (pd P u [] v) nodes) as [|p l] eqn:E; [done|].
      assert (Hin : p ∈ filter (pd P u [] v) nodes) by (rewrite E; by left).
      apply list_elem_of_filter in Hin as [[Hs [Hn|[_ Hnil]]] Hp].
      + destruct Hn. by apply Hall.
      + by apply elem_of_nil in Hnil.
  Qed.
End Kahn.

(** ** Leveling: building the dependency graph *)

Lemma lut_by_ptr (luts : list LutInfo) u w :
  NoDup (cell_ptr <$> luts) -> u ∈ luts -> w ∈ luts -> cell_ptr u = cell_ptr w -> u = w.
Proof.
  intros Hnd Hu Hw Heq.
  apply list_elem_of_lookup in Hu as [i Hi]. apply list_elem_of_lookup in Hw as [j Hj].
  assert (i = j).
  { eapply NoDup_lookup; [exact Hnd| |]; rewrite list_lookup_fmap.
    - by rewrite Hi.
    - rewrite Hj. simpl. by rewrite Heq. }
  congruence.
Qed.

Lemma lut_by_output (luts : list LutInfo) u w :
  NoDup (output <$> luts) -> u ∈ luts -> w ∈ luts -> output u = output w -> u = w.
Proof.
  intros Hnd Hu Hw Heq.
  apply list_elem_of_lookup in Hu as [i Hi]. apply list_elem_of_lookup in Hw as [j Hj].
  assert (i = j).
  { eapply NoDup_lookup; [exact Hnd| |]; rewrite list_lookup_fmap.
    - by rewrite Hi.
    - rewrite Hj. simpl. by rewrite Heq. }
  congruence.
Qed.

Lemma build_output_sig_to_lut_sound luts s d :
  build_output_sig_to_lut luts !! s = Some d ->
  ∃ u, u ∈ luts ∧ output u = s ∧ cell_ptr u = d.
Proof.
  unfold build_output_sig_to_lut.
  assert (G : ∀ (m : gmap SigBit IdString),
             foldl (fun m lut => <[output lut := cell_ptr lut]> m) m luts !! s = Some d ->
             m !! s = Some d ∨ ∃ u, u ∈ luts ∧ output u = s ∧ cell_ptr u = d).
  { induction luts as [|l luts IH]; intros m; simpl; [auto|].
    intros H. apply IH in H as [H|(u & Hu & Ho & Hp)].
    - rewrite lookup_insert in H. case_decide as E.
      + injection H as <-. right. exists l. split; [by left|done].
      + by left.
    - right. exists u. split; [by right|done]. }
  intros H. apply G in H as [H|H]; [by rewrite lookup_empty in H|done].
Qed.

Lemma build_output_sig_to_lut_complete luts u :
  NoDup (output <$> luts) -> u ∈ luts ->
  build_output_sig_to_lut luts !! output u = Some (cell_ptr u).
Proof.
  intros Hnd Hu.
  destruct (build_output_sig_to_lut luts !! output u) as [d|] eqn:E.
  - apply build_output_sig_to_lut_sound in E as (w & Hw & Ho & <-).
    f_equal. f_equal. by eapply lut_by_output.
  - exfalso. revert E. unfold build_output_sig_to_lut.
    assert (G : ∀ (m : gmap SigBit IdString),
               is_Some (m !! output u) ∨ u ∈ luts ->
               is_Some (foldl (fun m lut => <[output lut := cell_ptr lut]> m) m luts
                          !! output u)).
    { clear. induction luts as [|l luts IH]; intros m; simpl.
      - intros [?|H]; [done|by apply elem_of_nil in H].
      - intros [H|H]; apply IH.
        + left. rewrite lookup_insert. case_decide; [eauto|done].
        + apply elem_of_cons in H as [->|H]; [|by right].
          left. rewrite lookup_insert_eq. eauto. }
    intros E. destruct (G ∅ (or_intror Hu)) as [? ?]. congruence.
Qed.

Lemma init_lut_graph_lookup luts p :
  init_lut_graph luts !! p = if decide (p ∈ cell_ptr <$> luts) then Some [] else None.
Proof.
  unfold init_lut_graph.
  assert (G : ∀ (g : gmap IdString (list IdString)),
             foldl (fun g lut => <[cell_ptr lut := []]> g) g luts !! p
             = if decide (p ∈ cell_ptr <$> luts) then Some [] else g !! p).
  { induction luts as [|l luts IH]; intros g; simpl.
    - done.
    - rewrite IH. destruct (decide (p ∈ cell_ptr <$> luts)) as [Hin|Hout].
      + rewrite decide_True by (by right). done.
      + rewrite lookup_insert. destruct (decide (cell_ptr l = p)) as [<-|Hne].
        * rewrite decide_True by (by left). done.
        * rewrite decide_False; [done|]. intros H. apply elem_of_cons in H as [?|?]; done. }
  rewrite G. case_decide; [done|apply lookup_empty].
Qed.

Lemma succs_insert (g : gmap IdString (list IdString)) d l p :
  succs (<[d := l]> g) p = if decide (d = p) then l else succs g p.
Proof. unfold succs. rewrite lookup_insert. by case_decide. Qed.

Section BuildGraph.
Variable luts : list LutInfo.
Hypothesis ptrs_nodup : NoDup (cell_ptr <$> luts).
Hypothesis outputs_nodup : NoDup (output <$> luts).

Local Abbreviation osl := (build_output_sig_to_lut luts).
Local Abbreviation ginv := (graph_inv luts).

Lemma graph_inv_iff E E' Dn g deg :
    (∀ u w, dep_edge u w -> (E u w <-> E' u w)) ->
    ginv E Dn g deg -> ginv E' Dn g deg.
  Proof.
    intros Hiff [H1 H2 H3 H4 H5]. split; try done.
    - intros p x Hx. destruct (H3 p x Hx) as (u & w & ? & ? & ? & ? & Hd & He).
      exists u, w. repeat split; try done. by apply Hiff.
    - intros u w Hu Hw Hd He. apply H4; try done. by apply Hiff.
  Qed.

Lemma graph_inv_init :
    ginv (fun _ _ => False) [] (init_lut_graph luts) ∅.
  Proof.
    assert (Hs : ∀ p, succs (init_lut_graph luts) p = []).
    { intros p. unfold succs. rewrite init_lut_graph_lookup. by case_decide. }
    split.
    - intros u Hu. rewrite init_lut_graph_lookup, decide_True; [eauto|].
      apply list_elem_of_fmap. eauto.
    - intros p. rewrite Hs. constructor.
    - intros p x. rewrite Hs. intros H. by apply elem_of_nil in H.
    - done.
    - intros w H. by apply elem_of_nil in H.
  Qed.

  (** Examining one input of [v]. *)
Lemma graph_inv_input E Dn v pair g deg :
    v ∈ luts -> v ∈ Dn -> pair.2 ∈ input_sigs v ->
    ginv E Dn g deg ->
    let st' := add_input_edge osl (cell_ptr v) (g, deg) pair in
    ginv (fun u w => E u w ∨ (w = v ∧ output u = pair.2)) Dn st'.1 st'.2.
  Proof.
    intros Hv HvD Hin [H1 H2 H3 H4 H5]. unfold add_input_edge.
    destruct (osl !! pair.2) as [d|] eqn:Eo; cbn zeta.
    2:{ cbn [fst snd]. split; try done.
        - intros p x Hx. destruct (H3 p x Hx) as (u & w & ? & ? & ? & ? & ? & ?).
          exists u, w. auto 10.
        - intros u w Hu Hw Hd [He|[-> Ho]]; [by apply H4|].
          rewrite <- Ho, build_output_sig_to_lut_complete in Eo by done. done. }
    apply build_output_sig_to_lut_sound in Eo as (u0 & Hu0 & Ho0 & Hp0).
    fold (succs g d). unfold pool_insert_is_new, pool_insert.
    destruct (decide (cell_ptr v ∈ succs g d)) as [Hold|Hnew].
    - rewrite bool_decide_eq_false_2 by auto. cbn [fst snd].
      assert (Hs : ∀ p, succs (<[d := succs g d]> g) p = succs g p).
      { intros p. rewrite succs_insert. case_decide; [by subst|done]. }
      split.
      + intros u Hu. rewrite lookup_insert. case_decide; [eauto|by apply H1].
      + intros p. rewrite Hs. apply H2.
      + intros p x. rewrite Hs. intros Hx.
        destruct (H3 p x Hx) as (u & w & ? & ? & ? & ? & ? & ?). exists u, w. auto 10.
      + intros u w Hu Hw Hd [He|[-> Ho]]; rewrite Hs; [by apply H4|].
        assert (u = u0) as -> by (eapply lut_by_output; [done..|congruence]).
        by rewrite Hp0.
      + intros w Hw. rewrite (H5 w Hw). do 3 f_equal.
        apply filter_ext_elem. intros p _. by rewrite Hs.
    - rewrite bool_decide_eq_true_2 by done. cbn [fst snd].
      assert (Hs : ∀ p, succs (<[d := cell_ptr v :: succs g d]> g) p
                        = if decide (d = p) then cell_ptr v :: succs g p else succs g p).
      { intros p. rewrite succs_insert. case_decide; [by subst|done]. }
      assert (Hmono : ∀ p x, x ∈ succs g p -> x ∈ succs (<[d := cell_ptr v :: succs g d]> g) p).
      { intros p x Hx. rewrite Hs. case_decide; [by right|done]. }
      assert (Hdn : d ∈ cell_ptr <$> luts) by (apply list_elem_of_fmap; eauto).
      split.
      + intros u Hu. rewrite lookup_insert. case_decide; [eauto|by apply H1].
      + intros p. rewrite Hs. case_decide as Ed; [|apply H2].
        subst p. constructor; [done|apply H2].
      + intros p x. rewrite Hs. intros Hx.
        assert (Hcase : x ∈ succs g p ∨ (p = d ∧ x = cell_ptr v)).
        { case_decide as Ed; [|by left]. apply elem_of_cons in Hx as [->|?]; auto. }
        destruct Hcase as [Hx'|[-> ->]].
        * destruct (H3 p x Hx') as (u & w & ? & ? & ? & ? & ? & ?). exists u, w. auto 10.
        * exists u0, v. repeat split; try done.
          -- unfold dep_edge. by rewrite Ho0.
          -- right. done.
      + intros u w Hu Hw Hd [He|[-> Ho]].
        * apply Hmono. by apply H4.
        * assert (u = u0) as -> by (eapply lut_by_output; [done..|congruence]).
          rewrite Hs, Hp0, decide_True by done. by left.
      + intros w Hw. destruct (decide (cell_ptr w = cell_ptr v)) as [Heq|Hne].
        * rewrite Heq. rewrite lookup_insert_eq, (H5 v HvD). cbn [default from_option id]. f_equal.
          rewrite (filter_length_add (fun p => cell_ptr v ∈ succs g p)
                     (fun p => cell_ptr v ∈ succs (<[d := cell_ptr v :: succs g d]> g) p)
                     _ d); [lia|done..|].
          intros p. rewrite Hs. case_decide as Ed.
          -- subst p. split; [auto|]. intros _. by left.
          -- split; [auto|]. intros [?|?]; [done|]. by subst.
        * rewrite lookup_insert_ne by done. rewrite (H5 w Hw). do 3 f_equal.
          apply filter_ext_elem. intros p _. rewrite Hs. case_decide; [|done].
          subst p. rewrite elem_of_cons. split; [auto|]. intros [?|?]; done.
  Qed.

  (** Examining all the inputs of [v]. *)
Lemma graph_inv_inputs (D Dn : list LutInfo) v inputs (S : SigBit -> Prop) g deg :
    v ∈ luts -> v ∈ Dn -> (∀ pair, pair ∈ inputs -> pair.2 ∈ input_sigs v) ->
    ginv (fun u w => w ∈ D ∨ (w = v ∧ S (output u))) Dn g deg ->
    let st' := foldl (add_input_edge osl (cell_ptr v)) (g, deg) inputs in
    ginv (fun u w => w ∈ D ∨ (w = v ∧ (S (output u) ∨ output u ∈ inputs.*2))) Dn st'.1 st'.2.
  Proof.
    intros Hv HvD. revert S g deg.
    induction inputs as [|pair inputs IH]; intros S g deg Hin Hinv; cbn [foldl].
    - eapply graph_inv_iff; [|exact Hinv]. intros u w _. cbn.
      rewrite elem_of_nil. tauto.
    - pose proof (graph_inv_input _ _ v pair g deg Hv HvD
                    (Hin pair (list_elem_of_here _ _)) Hinv) as Hstep.
      destruct (add_input_edge osl (cell_ptr v) (g, deg) pair) as [g1 deg1].
      cbn [fst snd] in Hstep.
      eapply graph_inv_iff;
        [|apply (IH (fun s => S s ∨ s = pair.2) g1 deg1)].
      + intros u w _. cbn. rewrite elem_of_cons. tauto.
      + intros p Hp. apply Hin. by right.
      + eapply graph_inv_iff; [|exact Hstep]. intros u w _. cbn. tauto.
  Qed.

  (** Processing the LUT [v] in the second loop. *)
Lemma graph_inv_lut (D : list LutInfo) v g deg :
    v ∈ luts -> v ∉ D ->
    ginv (fun _ w => w ∈ D) D g deg ->
    let st' := add_lut_edges osl (g, deg) v in
    ginv (fun _ w => w ∈ D ++ [v]) (D ++ [v]) st'.1 st'.2.
  Proof.
    intros Hv HvD Hinv. unfold add_lut_edges. cbn [fst snd].
    assert (Hstart : ginv (fun u w => w ∈ D ∨ (w = v ∧ False)) (D ++ [v])
                          g (<[cell_ptr v := 0]> deg)).
    { destruct Hinv as [H1 H2 H3 H4 H5]. split; try done.
      - intros p x Hx. destruct (H3 p x Hx) as (u & w & ? & ? & ? & ? & ? & ?).
        exists u, w. auto 10.
      - intros u w Hu Hw Hd [He|[_ []]]. by apply H4.
      - intros w Hw. destruct (decide (cell_ptr w = cell_ptr v)) as [Heq|Hne].
        + rewrite Heq, lookup_insert_eq. do 2 f_equal.
          assert (Hnil : filter (fun p => cell_ptr v ∈ succs g p) (cell_ptr <$> luts) = []).
          { destruct (filter _ _) as [|p l] eqn:E; [done|].
            assert (Hp : p ∈ filter (fun p => cell_ptr v ∈ succs g p) (cell_ptr <$> luts))
              by (rewrite E; by left).
            apply list_elem_of_filter in Hp as [Hp _].
            destruct (H3 p _ Hp) as (u & w' & _ & Hw' & _ & Hpw & _ & HD).
            assert (w' = v) as -> by (by eapply lut_by_ptr). done. }
          by rewrite Hnil.
        + rewrite lookup_insert_ne by done. apply H5.
          apply elem_of_app in Hw as [?|Hw]; [done|].
          apply list_elem_of_singleton in Hw as ->. done. }
    pose proof (graph_inv_inputs D (D ++ [v]) v (ordered_inputs v) (fun _ => False)
                  g (<[cell_ptr v := 0]> deg) Hv) as Hfold.
    cbn zeta in Hfold.
    destruct (foldl (add_input_edge osl (cell_ptr v)) (g, <[cell_ptr v := 0]> deg)
                    (ordered_inputs v)) as [g1 deg1].
    cbn [fst snd] in *.
    eapply graph_inv_iff; [|apply Hfold].
    - intros u w Hd. cbn. rewrite elem_of_app, list_elem_of_singleton.
      split; [intros [?|[-> [[]|?]]]; auto|].
      intros [?| ->]; [by left|]. right. split; [done|]. right. exact Hd.
    - apply elem_of_app. right. by left.
    - intros pair Hp. unfold input_sigs. apply list_elem_of_fmap. eauto.
    - done.
  Qed.

Lemma graph_inv_luts rest (D : list LutInfo) g deg :
    luts = D ++ rest ->
    ginv (fun _ w => w ∈ D) D g deg ->
    let st' := foldl (add_lut_edges osl) (g, deg) rest in
    ginv (fun _ w => w ∈ luts) luts st'.1 st'.2.
  Proof.
    revert D g deg. induction rest as [|v rest IH]; intros D g deg Hl Hinv; cbn [foldl].
    - rewrite app_nil_r in Hl. by subst D.
    - assert (Hv : v ∈ luts) by (rewrite Hl, elem_of_app; right; by left).
      assert (HvD : v ∉ D).
      { pose proof (NoDup_fmap_1 _ _ ptrs_nodup) as Hnd. rewrite Hl in Hnd.
        apply NoDup_app in Hnd as (_ & Hd & _). intros HD. apply (Hd v HD). by left. }
      pose proof (graph_inv_lut D v g deg Hv HvD Hinv) as Hstep. cbn zeta in Hstep.
      destruct (add_lut_edges osl (g, deg) v) as [g1 deg1]. cbn [fst snd] in Hstep.
      apply (IH (D ++ [v])); [|done]. by rewrite <- app_assoc.
  Qed.

  (** The graph the leveler builds: its edges are the dependency edges, and
      the in-degree table counts the distinct drivers of each LUT. *)
Lemma build_graph_inv :
    ginv (fun _ w => w ∈ luts) luts (build_graph luts).1 (build_graph luts).2.
  Proof.
    unfold build_graph. apply (graph_inv_luts luts []); [done|].
    eapply graph_inv_iff; [|apply graph_inv_init].
    intros u w _. cbn. rewrite elem_of_nil. tauto.
  Qed.
End BuildGraph.

(** ** Leveling: seeding and the complete run *)

Lemma seed_fold deg luts qa (la : gmap IdString Z) :
  let ready := filter (fun p => default 0 (deg !! p) = 0) (cell_ptr <$> luts) in
  let r := foldl (seed deg) (qa, la) luts in
  r.1 = qa ++ ready ∧
  ∀ p, r.2 !! p = if decide (p ∈ ready) then Some 0 else la !! p.
Proof.
  revert qa la. induction luts as [|l luts IH]; intros qa la; cbn zeta.
  - simpl. rewrite app_nil_r. done.
  - cbn [foldl fmap list_fmap]. rewrite filter_cons.
    destruct (decide (default 0 (deg !! cell_ptr l) = 0)) as [H0|H0].
    + assert (seed deg (qa, la) l = (qa ++ [cell_ptr l], <[cell_ptr l := 0]> la)) as ->
        by (unfold seed; cbn [fst snd]; by rewrite decide_True).
      destruct (IH (qa ++ [cell_ptr l]) (<[cell_ptr l := 0]> la)) as [H1 H2].
      split; [by rewrite H1, <- app_assoc|].
      intros p. rewrite H2.
      destruct (decide (p ∈ filter (fun p => default 0 (deg !! p) = 0) (cell_ptr <$> luts)))
        as [Hin|Hout].
      * rewrite decide_True by (by right). done.
      * rewrite lookup_insert. destruct (decide (cell_ptr l = p)) as [<-|Hne].
        -- rewrite decide_True by (by left). done.
        -- rewrite decide_False; [done|].
           intros H. apply elem_of_cons in H as [?|?]; done.
    + assert (seed deg (qa, la) l = (qa, la)) as ->
        by (unfold seed; by rewrite decide_False).
      apply IH.
Qed.

Section Leveling.
Variable luts : list LutInfo.
Hypothesis ptrs_nodup : NoDup (cell_ptr <$> luts).
Hypothesis outputs_nodup : NoDup (output <$> luts).

Local Abbreviation nodes := (cell_ptr <$> luts).
Local Abbreviation g := (build_graph luts).1.
Local Abbreviation deg := (build_graph luts).2.
Local Abbreviation ready := (filter (fun p => default 0 (deg !! p) = 0) nodes).
Local Abbreviation lev0 := (foldl (seed deg) ([], ∅) luts).2.

Lemma built : graph_inv luts (fun _ w => w ∈ luts) luts g deg.
  Proof. by apply build_graph_inv. Qed.

Lemma built_succs_nodes p v : v ∈ succs g p -> v ∈ nodes.
  Proof.
    intros Hv. destruct (gi_sound _ _ _ _ _ built p v Hv) as (u & w & _ & Hw & _ & <- & _).
    apply list_elem_of_fmap. eauto.
  Qed.

Lemma built_graph_dom p : p ∈ nodes -> is_Some (g !! p).
  Proof.
    intros Hp. apply list_elem_of_fmap in Hp as (u & -> & Hu).
    by apply (gi_dom _ _ _ _ _ built).
  Qed.

Lemma pending_start u0 v :
    pending nodes g [] u0 [] v = length (filter (fun p => v ∈ succs g p) nodes).
  Proof.
    unfold pending. f_equal. apply filter_ext_elem. intros p _. unfold pend.
    split; [by intros [? _]|]. intros Hs. split; [done|]. left. apply not_elem_of_nil.
  Qed.

Lemma deg_start u0 v :
    v ∈ nodes -> deg !! v = Some (Z.of_nat (pending nodes g [] u0 [] v)).
  Proof.
    intros Hv. apply list_elem_of_fmap in Hv as (w & -> & Hw).
    rewrite pending_start. by apply (gi_deg _ _ _ _ _ built).
  Qed.

Lemma ready_iff u0 v :
    v ∈ ready <-> v ∈ nodes ∧ pending nodes g [] u0 [] v = 0%nat.
  Proof.
    rewrite list_elem_of_filter. split.
    - intros [H0 Hv]. split; [done|]. rewrite (deg_start u0 v Hv) in H0. simpl in H0. lia.
    - intros [Hv H0]. split; [|done]. rewrite (deg_start u0 v Hv). simpl. lia.
  Qed.

  (** The invariant holds when the queue loop is entered. *)
Lemma level_inv_start u0 :
    level_inv nodes g [] u0 [] (mkLevelState ready lev0 deg 0).
  Proof.
    destruct (seed_fold deg luts [] ∅) as [_ Hlev]. cbn zeta in Hlev.
    split; cbn [q lut_levels lut_in_degree processed_count app].
    - by apply NoDup_filter.
    - intros v Hv. by apply list_elem_of_filter in Hv as [_ ?].
    - done.
    - intros v Hv. by apply deg_start.
    - intros v Hv. rewrite (ready_iff u0). tauto.
    - intros v Hv. rewrite Hlev, decide_True by done. eauto.
    - intros v L. rewrite Hlev. case_decide; [|by rewrite lookup_empty].
      intros [= <-]. done.
    - intros p v Lp _ Hs Hnp. unfold pend in Hnp. destruct Hnp. split; [done|].
      left. apply not_elem_of_nil.
    - intros v L. rewrite Hlev. case_decide as Hr; [|by rewrite lookup_empty].
      intros [= <-]. left. split; [done|]. intros p Hp Hs.
      apply (ready_iff u0) in Hr as [_ H0]. rewrite pending_start in H0.
      apply length_zero_iff_nil in H0.
      assert (Hin : p ∈ filter (fun p => v ∈ succs g p) nodes)
        by (by apply list_elem_of_filter).
      rewrite H0 in Hin. by apply elem_of_nil in Hin.
  Qed.

  (** Leveling always returns: the queue empties within [length luts]
      iterations and no table access fails. *)
Lemma NumberLutsByLevel_total :
    ∃ st P u,
      NumberLutsByLevel luts
      = Some (mkLeveling (lut_levels st)
                         (bool_decide (Z.of_nat (length P) ≠ Z.of_nat (length luts)))) ∧
      level_inv nodes g P u [] st ∧ q st = [].
  Proof.
    destruct (level_loop_total nodes g ptrs_nodup built_graph_dom
                (gi_nodup _ _ _ _ _ built) built_succs_nodes
                (length luts) [] "" _ (level_inv_start ""))
      as (st & P & u & Hloop & Hinv & Hq).
    { rewrite length_fmap. simpl. lia. }
    exists st, P, u. split; [|done].
    unfold NumberLutsByLevel.
    destruct (build_graph luts) as [g0 deg0] eqn:Eb. cbn [fst snd] in *.
    destruct (seed_fold deg0 luts [] ∅) as [Hq0 _]. cbn zeta in Hq0.
    destruct (foldl (seed deg0) ([], ∅) luts) as [q0 l0] eqn:Es.
    cbn [fst snd app] in *. subst q0. rewrite Hloop. cbn [mbind option_bind].
    by rewrite (inv_count _ _ _ _ _ _ Hinv).
  Qed.
End Leveling.

(** ** Leveling on a cycle-free graph *)

Lemma dep_chain_elem luts c x : dep_chain luts c -> x ∈ c -> x ∈ luts.
Proof.
  induction c as [|y c IH]; intros Hc Hx; [by apply elem_of_nil in Hx|].
  destruct Hc as (Hy & Hc & _). apply elem_of_cons in Hx as [->|Hx]; [done|by apply IH].
Qed.

Lemma dep_chain_app_cons luts c y x tail :
  dep_chain luts (c ++ y :: x :: tail) -> dep_chain luts ((c ++ [y]) ++ x :: tail).
Proof. by rewrite <- app_assoc. Qed.

(** A rank that grows along every dependency edge rules out cycles. *)
Lemma cycle_free_by_rank luts (rank : LutInfo -> nat) :
  (∀ u v, u ∈ luts -> v ∈ luts -> dep_edge u v -> (rank u < rank v)%nat) ->
  cycle_free luts.
Proof.
  intros Hrank c.
  assert (G : dep_chain luts c ->
              NoDup c ∧ ∀ x y, head c = Some x -> y ∈ c -> (rank x <= rank y)%nat).
  { induction c as [|u c IH]; intros Hc.
    - split; [constructor|]. intros x y _ Hy. by apply elem_of_nil in Hy.
    - destruct Hc as (Hu & Hc & He). destruct (IH Hc) as [Hnd Hmin]. split.
      + constructor; [|done]. intros Hin. destruct c as [|v c]; [by apply elem_of_nil in Hin|].
        assert (Hv : v ∈ luts) by (eapply dep_chain_elem; [exact Hc|by left]).
        pose proof (Hrank u v Hu Hv He). pose proof (Hmin v u eq_refl Hin). lia.
      + intros x y [= <-] Hy. apply elem_of_cons in Hy as [->|Hy]; [done|].
        destruct c as [|v c]; [by apply elem_of_nil in Hy|].
        assert (Hv : v ∈ luts) by (eapply dep_chain_elem; [exact Hc|by left]).
        pose proof (Hrank u v Hu Hv He). pose proof (Hmin v y eq_refl Hy). lia. }
  intros Hc. by apply G.
Qed.

Section LevelingDag.
Variable luts : list LutInfo.
Hypothesis ptrs_nodup : NoDup (cell_ptr <$> luts).
Hypothesis outputs_nodup : NoDup (output <$> luts).
Hypothesis no_cycle : cycle_free luts.

Variable st : LevelState.
Variable P : list IdString.
Variable u0 : IdString.

Local Abbreviation nodes := (cell_ptr <$> luts).
Local Abbreviation g := (build_graph luts).1.

Hypothesis Hinv : level_inv nodes g P u0 [] st.
Hypothesis Hq : q st = [].

Lemma ptr_in_nodes w : w ∈ luts -> cell_ptr w ∈ nodes.
  Proof. intros Hw. apply list_elem_of_fmap. eauto. Qed.

Lemma graph_edge_lut p w :
    w ∈ luts -> cell_ptr w ∈ succs g p -> ∃ x, x ∈ luts ∧ cell_ptr x = p ∧ dep_edge x w.
  Proof.
    intros Hw Hs.
    destruct (gi_sound _ _ _ _ _ (built luts ptrs_nodup outputs_nodup) p _ Hs)
      as (x & w' & Hx & Hw' & Hp & Hpw & Hd & _).
    assert (w' = w) as -> by (by eapply lut_by_ptr). eauto.
  Qed.

Lemma lut_edge_graph x w :
    x ∈ luts -> w ∈ luts -> dep_edge x w -> cell_ptr w ∈ succs g (cell_ptr x).
  Proof.
    intros Hx Hw Hd. by apply (gi_complete _ _ _ _ _ (built luts ptrs_nodup outputs_nodup)).
  Qed.

Lemma unprocessed_pred w :
    w ∈ luts -> cell_ptr w ∉ P -> ∃ x, x ∈ luts ∧ dep_edge x w ∧ cell_ptr x ∉ P.
  Proof.
    intros Hw HwP.
    pose proof (inv_ready _ _ _ _ _ _ Hinv _ (ptr_in_nodes w Hw)) as Hr.
    rewrite Hq, app_nil_r in Hr.
    destruct (filter (pend g P u0 [] (cell_ptr w)) nodes) as [|p l] eqn:E.
    { destruct HwP. apply Hr. unfold pending. by rewrite E. }
    assert (Hp : p ∈ filter (pend g P u0 [] (cell_ptr w)) nodes) by (rewrite E; by left).
    apply list_elem_of_filter in Hp as [[Hs [HpP|[_ Hnil]]] Hp];
      [|by apply elem_of_nil in Hnil].
    destruct (graph_edge_lut p w Hw Hs) as (x & Hx & <- & Hd). eauto.
  Qed.

Lemma unprocessed_chain n x tail :
    x ∈ luts -> cell_ptr x ∉ P -> dep_chain luts (x :: tail) ->
    ∃ c, length c = n ∧ dep_chain luts (c ++ x :: tail).
  Proof.
    revert x tail. induction n as [|n IH]; intros x tail Hx HxP Hc.
    - by exists [].
    - destruct (unprocessed_pred x Hx HxP) as (y & Hy & Hd & HyP).
      destruct (IH y (x :: tail) Hy HyP) as (c & Hlen & Hc'); [by split|].
      exists (c ++ [y]). split; [rewrite length_app; simpl; lia|].
      by apply dep_chain_app_cons.
  Qed.

Lemma all_processed w : w ∈ luts -> cell_ptr w ∈ P.
  Proof.
    intros Hw. destruct (decide (cell_ptr w ∈ P)) as [|HwP]; [done|]. exfalso.
    destruct (unprocessed_chain (length luts) w [] Hw HwP) as (c & Hlen & Hc);
      [by split|].
    assert (Hle : (length (c ++ [w]) <= length luts)%nat).
    { apply submseteq_length, NoDup_submseteq; [by apply no_cycle|].
      intros x. by apply dep_chain_elem. }
    rewrite length_app in Hle. simpl in Hle. lia.
  Qed.

Lemma processed_all : length P = length luts.
  Proof.
    assert (HP : NoDup P).
    { pose proof (inv_nodup _ _ _ _ _ _ Hinv) as H. by rewrite Hq, app_nil_r in H. }
    rewrite <- (length_fmap cell_ptr luts). apply Nat.le_antisymm.
    - apply submseteq_length, NoDup_submseteq; [done|]. intros v Hv.
      apply (inv_nodes _ _ _ _ _ _ Hinv). rewrite Hq, app_nil_r. done.
    - apply submseteq_length, NoDup_submseteq; [done|]. intros v Hv.
      apply list_elem_of_fmap in Hv as (w & -> & Hw). by apply all_processed.
  Qed.

Lemma level_have w :
    w ∈ luts -> ∃ n : nat, lut_levels st !! cell_ptr w = Some (Z.of_nat n).
  Proof.
    intros Hw. destruct (inv_have _ _ _ _ _ _ Hinv (cell_ptr w)) as [L HL].
    { rewrite Hq, app_nil_r. by apply all_processed. }
    pose proof (inv_nonneg _ _ _ _ _ _ Hinv _ _ HL).
    exists (Z.to_nat L). rewrite HL. f_equal. lia.
  Qed.

Lemma level_edge x w Lx :
    x ∈ luts -> w ∈ luts -> dep_edge x w -> lut_levels st !! cell_ptr x = Some Lx ->
    ∃ Lw, lut_levels st !! cell_ptr w = Some Lw ∧ Lx + 1 <= Lw.
  Proof.
    intros Hx Hw Hd HLx.
    apply (inv_ge _ _ _ _ _ _ Hinv (cell_ptr x)); [by apply ptr_in_nodes| |  |done].
    - by apply lut_edge_graph.
    - unfold pend. intros [_ [HxP|[_ Hnil]]]; [|by apply elem_of_nil in Hnil].
      apply HxP. by apply all_processed.
  Qed.

Lemma level_pred w L :
    w ∈ luts -> lut_levels st !! cell_ptr w = Some L ->
    L = 0 ∨ ∃ x, x ∈ luts ∧ dep_edge x w ∧ lut_levels st !! cell_ptr x = Some (L - 1).
  Proof.
    intros Hw HL.
    destruct (inv_def _ _ _ _ _ _ Hinv _ _ HL) as [[-> _]|(p & Hp & Hs & _ & HLp)]; [by left|].
    right. destruct (graph_edge_lut p w Hw Hs) as (x & Hx & <- & Hd). eauto.
  Qed.

Lemma chain_upper c w K Lw :
    dep_chain luts (c ++ [w]) ->
    (∀ x Lx, head (c ++ [w]) = Some x -> lut_levels st !! cell_ptr x = Some Lx -> K <= Lx) ->
    lut_levels st !! cell_ptr w = Some Lw ->
    K + Z.of_nat (length c) <= Lw.
  Proof.
    revert K. induction c as [|x c IH]; intros K Hc Hhead HLw.
    - simpl. specialize (Hhead w Lw eq_refl HLw). lia.
    - cbn [app] in Hc. destruct Hc as (Hx & Hc & He).
      destruct (level_have x Hx) as [nx Hnx].
      pose proof (Hhead x _ eq_refl Hnx) as HK.
      cbn [length]. rewrite Nat2Z.inj_succ.
      enough (K + 1 + Z.of_nat (length c) <= Lw) by lia.
      apply IH; [done| |done].
      intros y Ly Hy HLy. destruct (c ++ [w]) as [|y' rest] eqn:E; [done|].
      injection Hy as ->.
      assert (Hyl : y ∈ luts) by (eapply dep_chain_elem; [exact Hc|by left]).
      destruct (level_edge x y _ Hx Hyl He Hnx) as (Ly' & HLy' & Hle).
      rewrite HLy in HLy'. injection HLy' as <-. lia.
  Qed.

Lemma chain_exists n x tail :
    x ∈ luts -> lut_levels st !! cell_ptr x = Some (Z.of_nat n) ->
    dep_chain luts (x :: tail) ->
    ∃ c, length c = n ∧ dep_chain luts (c ++ x :: tail).
  Proof.
    revert x tail. induction n as [|n IH]; intros x tail Hx HL Hc.
    - by exists [].
    - destruct (level_pred x _ Hx HL) as [?|(y & Hy & Hd & HLy)]; [lia|].
      replace (Z.of_nat (S n) - 1) with (Z.of_nat n) in HLy by lia.
      destruct (IH y (x :: tail) Hy HLy) as (c & Hlen & Hc'); [by split|].
      exists (c ++ [y]). split; [rewrite length_app; simpl; lia|].
      by apply dep_chain_app_cons.
  Qed.

Lemma level_is_longest_chain w :
    w ∈ luts ->
    ∃ n : nat, lut_levels st !! cell_ptr w = Some (Z.of_nat n) ∧ longest_chain_to luts w n.
  Proof.
    intros Hw. destruct (level_have w Hw) as [n Hn]. exists n. split; [done|]. split.
    - destruct (chain_exists n w [] Hw Hn) as (c & Hlen & Hc); [by split|]. eauto.
    - intros c Hc.
      enough (0 + Z.of_nat (length c) <= Z.of_nat n) by lia.
      apply (chain_upper c w 0 _ Hc); [|done].
      intros x Lx _ HLx. by eapply (inv_nonneg _ _ _ _ _ _ Hinv).
  Qed.
End LevelingDag.

(** C6 (amended). On a cycle-free dependency graph of distinct cells in
    which no signal is driven by two LUTs, leveling returns without the loop
    warning, the level of every LUT is the length of the longest chain of
    dependencies that ends at it, and the level strictly grows along every
    dependency edge. *)
Theorem leveling_longest_chain (luts : list LutInfo) :
  NoDup (cell_ptr <$> luts) -> NoDup (output <$> luts) -> cycle_free luts ->
  ∃ lv,
    NumberLutsByLevel luts = Some lv ∧
    loop_warning lv = false ∧
    (∀ v, v ∈ luts ->
          ∃ n : nat, levels_of lv !! cell_ptr v = Some (Z.of_nat n) ∧
                     longest_chain_to luts v n) ∧
    (∀ u v, u ∈ luts -> v ∈ luts -> dep_edge u v ->
            ∃ level_u level_v,
              levels_of lv !! cell_ptr u = Some level_u ∧
              levels_of lv !! cell_ptr v = Some level_v ∧
              level_u < level_v).
Proof.
  intros Hptr Hout Hacyc.
  destruct (NumberLutsByLevel_total luts Hptr Hout) as (st & P & u0 & Hrun & Hinv & Hq).
  eexists. split; [exact Hrun|]. cbn [loop_warning levels_of].
  split; [|split].
  - rewrite (processed_all luts Hptr Hout Hacyc st P u0 Hinv Hq).
    by apply bool_decide_eq_false_2; intros H.
  - intros v Hv. by eapply level_is_longest_chain.
  - intros u v Hu Hv Hd.
    destruct (level_have luts Hptr Hout Hacyc st P u0 Hinv Hq u Hu) as [nu Hnu].
    destruct (level_edge luts Hptr Hout Hacyc st P u0 Hinv Hq u v _ Hu Hv Hd Hnu)
      as (Lv & HLv & Hle).
    exists (Z.of_nat nu), Lv. split; [done|]. split; [done|]. lia.
Qed.

Lemma dag3_cycle_free : cycle_free dag3.
Proof.
  apply (cycle_free_by_rank dag3 dag3_rank).
  assert (H : Forall (fun u => Forall (fun v => dep_edge u v ->
                                          (dag3_rank u < dag3_rank v)%nat) dag3) dag3).
  { apply (bool_decide_unpack _). vm_compute. exact I. }
  intros u v Hu Hv. rewrite Forall_forall in H. specialize (H u Hu).
  rewrite Forall_forall in H. by apply H.
Defined.

Lemma leveling_longest_chain_witness :
  ∃ lv,
    NumberLutsByLevel dag3 = Some lv ∧
    loop_warning lv = false ∧
    (∀ v, v ∈ dag3 ->
          ∃ n : nat, levels_of lv !! cell_ptr v = Some (Z.of_nat n) ∧
                     longest_chain_to dag3 v n) ∧
    (∀ u v, u ∈ dag3 -> v ∈ dag3 -> dep_edge u v ->
            ∃ level_u level_v,
              levels_of lv !! cell_ptr u = Some level_u ∧
              levels_of lv !! cell_ptr v = Some level_v ∧
              level_u < level_v).
Proof.
  apply (leveling_longest_chain dag3).
  - apply (bool_decide_unpack _). vm_compute. exact I.
  - apply (bool_decide_unpack _). vm_compute. exact I.
  - exact dag3_cycle_free.
Defined.

(** C6 as stated fails when two LUTs drive one signal.  In [two_drivers]
    the LUTs [md_u1] and [md_u2] both drive s, which [md_v3] reads, and
    [md_u1] reads the output of [md_w0]; there is no cycle.  The table from
    output signal to driver keeps only the last driver of s, [md_u2], so the
    edge from [md_u1] to [md_v3] is not in the graph that is leveled: the two
    get the same level 1, although the longest chain that ends at [md_v3]
    has two edges. *)
Lemma two_drivers_break_level_order :
  NoDup (cell_ptr <$> two_drivers) ∧ cycle_free two_drivers ∧
  md_u1 ∈ two_drivers ∧ md_v3 ∈ two_drivers ∧ dep_edge md_u1 md_v3 ∧
  dep_chain two_drivers [md_w0; md_u1; md_v3] ∧
  ∃ lv,
    NumberLutsByLevel two_drivers = Some lv ∧
    loop_warning lv = false ∧
    levels_of lv !! cell_ptr md_u1 = Some 1 ∧
    levels_of lv !! cell_ptr md_v3 = Some 1.
Proof.
  split; [apply (bool_decide_unpack _); vm_compute; exact I|]. split.
  { apply (cycle_free_by_rank two_drivers two_drivers_rank).
    assert (H : Forall (fun u => Forall (fun v => dep_edge u v ->
                          (two_drivers_rank u < two_drivers_rank v)%nat) two_drivers)
                       two_drivers).
    { apply (bool_decide_unpack _). vm_compute. exact I. }
    intros u v Hu Hv. rewrite Forall_forall in H. specialize (H u Hu).
    rewrite Forall_forall in H. by apply H. }
  split; [do 1 apply list_elem_of_further; apply list_elem_of_here|].
  split; [do 3 apply list_elem_of_further; apply list_elem_of_here|].
  split; [vm_compute; apply list_elem_of_here|].
  split.
  { cbn [dep_chain]. repeat split.
    - apply list_elem_of_here.
    - apply list_elem_of_further, list_elem_of_here.
    - do 3 apply list_elem_of_further. apply list_elem_of_here.
    - vm_compute. apply list_elem_of_here.
    - vm_compute. apply list_elem_of_here. }
  eexists. split; [vm_compute; reflexivity|].
  split; [reflexivity|]. split; vm_compute; reflexivity.
Qed.

(** C7 fails on the code for a LUT of a cycle that also has a processed
    driver.  In [cyc4] the LUTs [cyc_c1] and [cyc_c2] feed each other.
    Leveling returns with the loop warning and leaves [cyc_c2] without a level,
    but [cyc_c1] keeps level 1, received when its driver [cyc_x] was processed:
    it is placed in the level partition and the level-windowed search pairs it
    with [cyc_d]. *)
Theorem cycle_node_keeps_level :
  dep_edge cyc_c1 cyc_c2 ∧ dep_edge cyc_c2 cyc_c1 ∧
  ∃ lv,
    NumberLutsByLevel cyc4 = Some lv ∧
    loop_warning lv = true ∧
    levels_of lv !! cell_ptr cyc_c1 = Some 1 ∧
    levels_of lv !! cell_ptr cyc_c2 = None ∧
    partition_by_level cyc4 (levels_of lv) = cyc4_partition ∧
    shared_candidate 1 3 cyc_c1 cyc_d ∈ FindMergeCandidates_Layered cyc4 cyc4_partition.
Proof.
  split; [vm_compute; apply list_elem_of_here|].
  split; [vm_compute; apply list_elem_of_further, list_elem_of_here|].
  eexists. split; [vm_compute; reflexivity|].
  split; [reflexivity|]. split; [vm_compute; reflexivity|].
  split; [vm_compute; reflexivity|]. split; [vm_compute; reflexivity|].
  vm_compute. apply list_elem_of_further, list_elem_of_here.
Qed.

(** ** Collecting *)

Lemma CollectLuts_ptrs sigmap module luts :
  CollectLuts sigmap module = Some luts ->
  cell_ptr <$> luts `sublist_of` cell_names module.
Proof.
  unfold CollectLuts, cell_names.
  assert (G : ∀ cs acc luts,
             foldl (fun acc cell => acc ≫= fun luts => collect_cell sigmap luts cell)
                   (Some acc) cs = Some luts ->
             ∃ more, luts = acc ++ more ∧ cell_ptr <$> more `sublist_of` cell_name <$> cs).
  { induction cs as [|c cs IH]; intros acc l; cbn [foldl].
    - intros [= <-]. exists []. by rewrite app_nil_r.
    - cbn [mbind option_bind]. unfold collect_cell at 2.
      destruct (gtp_lut_size (cell_type c)) as [sz|].
      + destruct (cell_connections c !! ID_Z) as [out|]; cbn [mbind option_bind].
        2:{ intros H. exfalso. clear -H. induction cs as [|c' cs IHc]; [done|]. by apply IHc. }
        destruct (cell_parameters c !! ID_INIT) as [init|]; cbn [mbind option_bind].
        2:{ intros H. exfalso. clear -H. induction cs as [|c' cs IHc]; [done|]. by apply IHc. }
        intros H. apply IH in H as (more & -> & Hsub).
        eexists (_ :: more). split; [by rewrite <- app_assoc|].
        cbn [fmap list_fmap cell_ptr]. by apply sublist_skip.
      + intros H. apply IH in H as (more & -> & Hsub).
        exists more. split; [done|]. cbn [fmap list_fmap]. by apply sublist_cons. }
  intros H. apply G in H as (more & -> & Hsub). done.
Qed.

(** The records collected from a module have distinct cells. *)
Lemma CollectLuts_distinct sigmap module luts :
  NoDup (cell_names module) -> CollectLuts sigmap module = Some luts ->
  NoDup (cell_ptr <$> luts).
Proof.
  intros Hnd H. apply (sublist_NoDup _ (cell_names module) Hnd).
  by eapply CollectLuts_ptrs.
Qed.

(** The pass on [module_xy]: the two LUT cells are collected, planned as
    one SHARED_INPUTS merge, removed, and replaced by one fused cell. *)
Example StitcherMain_module_xy :
  CollectLuts (same_sig module_xy) module_xy = Some [lut_x; lut_y] ∧
  (fun r => (cell_names (result_module r), result_events r, result_log r))
    <$> StitcherMain keep_name same_sig module_xy
  = Some (["\lx_ly_merged"; "\ff"],
          [EvRemove "\ly"; EvRemove "\lx"; EvAddCell "\lx_ly_merged"],
          [LogCollected 2; LogFound 1; LogPlanned 1; LogPerformed 1]).
Proof. split; vm_compute; reflexivity. Qed.

(** ** ABSORB: the 64-bit masks *)

Lemma masks_testbit j k m :
  masks !! j = Some m -> 0 <= k < 64 ->
  Z.testbit m k = Z.testbit k (Z.of_nat j).
Proof.
  intros Hj Hk.
  assert (Hok : mask_rows_ok = true) by (vm_compute; reflexivity).
  unfold mask_rows_ok in Hok. rewrite forallb_forall in Hok.
  assert (Hjlt : (j < 6)%nat) by (apply lookup_lt_Some in Hj; exact Hj).
  specialize (Hok j). rewrite forallb_forall in Hok.
  assert (Hin : In j (seq 0 6)) by (apply in_seq; lia).
  specialize (Hok Hin (Z.to_nat k)).
  assert (Hin' : In (Z.to_nat k) (seq 0 64)) by (apply in_seq; lia).
  specialize (Hok Hin'). rewrite Hj in Hok. cbn [default from_option id] in Hok.
  rewrite Z2Nat.id in Hok by lia. by apply Bool.eqb_prop in Hok.
Qed.

Lemma U64_MAX_testbit k : 0 <= k < 64 -> Z.testbit U64_MAX k = true.
Proof.
  intros Hk. change U64_MAX with (Z.ones 64). apply Z.ones_spec_low. lia.
Qed.

Lemma not64_testbit m k : 0 <= k < 64 -> Z.testbit (not64 m) k = negb (Z.testbit m k).
Proof.
  intros Hk. unfold not64. rewrite Z.lxor_spec, U64_MAX_testbit by done.
  by destruct (Z.testbit m k).
Qed.

Lemma const_to_uint64_testbit c k :
  0 <= k ->
  Z.testbit (const_to_uint64 c) k
  = bool_decide (k < 64 ∧ c !! Z.to_nat k = Some S1).
Proof.
  intros Hk. unfold const_to_uint64.
  assert (G : ∀ n a acc,
             Z.testbit (foldl (fun val i =>
                          if decide (c !! i = Some S1)
                          then Z.lor val (Z.shiftl 1 (Z.of_nat i)) else val) acc (seq a n)) k
             = Z.testbit acc k
               || bool_decide ((a <= Z.to_nat k < a + n)%nat ∧ c !! Z.to_nat k = Some S1)).
  { induction n as [|n IH]; intros a acc; cbn [seq foldl].
    - rewrite bool_decide_eq_false_2 by lia. by rewrite orb_false_r.
    - rewrite IH. destruct (decide (c !! a = Some S1)) as [Ha|Ha].
      + rewrite Z.lor_spec, Z.shiftl_1_l, Z.pow2_bits_eqb by lia.
        destruct (Z.testbit acc k); [done|]. cbn [orb].
        destruct (Z.eqb_spec (Z.of_nat a) k) as [Heq|Hne].
        * symmetry. apply bool_decide_eq_true_2. split; [lia|].
          by replace (Z.to_nat k) with a by lia.
        * cbn [orb]. apply bool_decide_ext.
          split; intros [? ?]; (split; [lia|done]).
      + destruct (Z.testbit acc k); [done|]. cbn [orb]. apply bool_decide_ext.
        split; intros [? ?]; (split; [|done]); [lia|].
        destruct (decide (Z.to_nat k = a)) as [<-|?]; [done|lia]. }
  rewrite G, Z.testbit_0_l. cbn [orb]. apply bool_decide_ext.
  split.
  - intros [Hr Hc]. split; [lia|done].
  - intros [Hr Hc]. split; [|done]. apply lookup_lt_Some in Hc. lia.
Qed.

Lemma bits_to_Z_unique bs i :
  0 <= i < 2 ^ Z.of_nat (length bs) ->
  (∀ idx b, bs !! idx = Some b -> Z.testbit i (Z.of_nat idx) = b) ->
  i = bits_to_Z bs.
Proof.
  intros Hi Hbits. apply Z.bits_inj'. intros n Hn.
  replace n with (Z.of_nat (Z.to_nat n)) by lia.
  rewrite testbit_bits_to_Z.
  destruct (bs !! Z.to_nat n) as [b|] eqn:E; cbn [default from_option id].
  - by apply Hbits.
  - apply lookup_ge_None in E. destruct (decide (i = 0)) as [->|Hne].
    + apply Z.testbit_0_l.
    + apply Z.bits_above_log2; [lia|].
      assert (Z.log2 i < Z.of_nat (length bs)) by (apply Z.log2_lt_pow2; lia). lia.
Qed.

Lemma filter_singleton_unique {A} (P : A -> Prop) `{!∀ x, Decision (P x)} (l : list A) x j j' a b :
  filter P l = [x] -> l !! j = Some a -> l !! j' = Some b -> P a -> P b -> j = j'.
Proof.
  revert j j'. induction l as [|y l IH]; intros j j' Hf Ha Hb Pa Pb; [done|].
  rewrite filter_cons in Hf. destruct (decide (P y)) as [Py|Py].
  - injection Hf as -> Hnil.
    assert (Hnone : ∀ n c, l !! n = Some c -> ¬ P c).
    { intros n c Hc Pc.
      assert (Hin : c ∈ filter P l) by (apply list_elem_of_filter; split;
                                        [done|by eapply list_elem_of_lookup_2]).
      rewrite Hnil in Hin. by apply elem_of_nil in Hin. }
    destruct j as [|j], j' as [|j']; try done; simpl in *.
    + by destruct (Hnone _ _ Hb).
    + by destruct (Hnone _ _ Ha).
    + by destruct (Hnone _ _ Ha).
  - destruct j as [|j], j' as [|j']; simpl in *.
    + done.
    + injection Ha as <-. done.
    + injection Hb as <-. done.
    + f_equal. by eapply IH.
Qed.

Section AbsorbMasks.
Variable lut_6 lut_s : LutInfo.
Variable rho : SigBit -> bool.

Local Abbreviation in6 := (input_sigs lut_6).
Local Abbreviation ins := (input_sigs lut_s).
Local Abbreviation k6 := (bits_to_Z (rho <$> in6)).

Hypothesis six_inputs : length in6 = 6%nat.
Hypothesis subset : ins ⊆ in6.

Lemma k6_bounds : 0 <= k6 < 64.
  Proof.
    pose proof (bits_to_Z_bounds (rho <$> in6)) as H.
    rewrite length_fmap, six_inputs in H. exact H.
  Qed.

  (** At the address the assignment gives the 6-input LUT, the mask of a
      signal reads as the value of that signal. *)
Lemma get_input_mask_rho s :
    s ∈ in6 -> Z.testbit (get_input_mask (ordered_inputs lut_6) s) k6 = rho s.
  Proof.
    intros Hs. unfold get_input_mask. fold in6.
    destruct (find_index_elem _ _ Hs) as [j Hj]. rewrite Hj.
    apply find_index_Some in Hj.
    assert (Hlt : (j < 6)%nat) by (rewrite <- six_inputs; by eapply lookup_lt_Some).
    destruct (masks !! j) as [m|] eqn:Em.
    2:{ apply lookup_ge_None in Em. simpl in Em. lia. }
    cbn [default from_option id]. rewrite (masks_testbit j _ m Em k6_bounds).
    by rewrite testbit_bits_to_Z, list_lookup_fmap, Hj.
  Qed.

Lemma row_mask_testbit i :
    Z.testbit (row_mask lut_6 lut_s i) k6 = true <->
    ∀ idx s, ins !! idx = Some s -> Z.testbit i (Z.of_nat idx) = rho s.
  Proof.
    unfold row_mask.
    assert (G : ∀ inputs m idx0,
               (∀ p, p ∈ inputs -> p.2 ∈ in6) ->
               Z.testbit (foldl (fun (st : Z * nat) (p_s : string * SigBit) =>
                            let '(target_mask, s_input_idx) := st in
                            let lut6_mask := get_input_mask (ordered_inputs lut_6) p_s.2 in
                            (if Z.testbit i (Z.of_nat s_input_idx)
                             then Z.land target_mask lut6_mask
                             else Z.land target_mask (not64 lut6_mask),
                             S s_input_idx)) (m, idx0) inputs).1 k6 = true
               <-> Z.testbit m k6 = true ∧
                   ∀ j s, inputs.*2 !! j = Some s ->
                          Z.testbit i (Z.of_nat (idx0 + j)) = rho s).
    { induction inputs as [|p inputs IH]; intros m idx0 Hin; cbn [foldl fst].
      - split; [|by intros [? _]]. intros Hm. split; [done|]. intros j s Hj. done.
      - rewrite IH by (intros p' Hp'; apply Hin; by right).
        assert (Hp : p.2 ∈ in6) by (apply Hin; by left).
        assert (Hbit : Z.testbit (if Z.testbit i (Z.of_nat idx0)
                                  then Z.land m (get_input_mask (ordered_inputs lut_6) p.2)
                                  else Z.land m (not64 (get_input_mask (ordered_inputs lut_6) p.2)))
                                 k6 = true
                       <-> Z.testbit m k6 = true ∧ Z.testbit i (Z.of_nat idx0) = rho p.2).
        { destruct (Z.testbit i (Z.of_nat idx0));
            rewrite Z.land_spec, ?not64_testbit by apply k6_bounds;
            rewrite get_input_mask_rho by done;
            destruct (Z.testbit m k6), (rho p.2); cbn; intuition congruence. }
        rewrite Hbit. split.
        + intros [[Hm H0] Hrest]. split; [done|]. intros [|j] s Hj.
          * cbn in Hj. injection Hj as <-. by rewrite Nat.add_0_r.
          * cbn in Hj. rewrite <- Nat.add_succ_comm. by apply Hrest.
        + intros [Hm Hall]. split; [split; [done|]|].
          * specialize (Hall 0%nat p.2 eq_refl). by rewrite Nat.add_0_r in Hall.
          * intros j s Hj. rewrite Nat.add_succ_comm. by apply (Hall (S j)). }
    rewrite G.
    - rewrite U64_MAX_testbit by apply k6_bounds. unfold input_sigs. split.
      + intros [_ H]. done.
      + intros H. split; [done|]. done.
    - intros p Hp. apply subset. unfold input_sigs. apply list_elem_of_fmap. eauto.
  Qed.

Lemma s_expanded_tt_testbit :
    Z.testbit (s_expanded_tt lut_6 lut_s) k6 = true <->
    ∃ i, (i < Z.to_nat (Z.shiftl 1 (size lut_s)))%nat ∧
         Z.testbit (const_to_uint64 (init_val lut_s)) (Z.of_nat i) = true ∧
         Z.testbit (row_mask lut_6 lut_s (Z.of_nat i)) k6 = true.
  Proof.
    unfold s_expanded_tt.
    assert (G : ∀ n a acc,
               Z.testbit (foldl (fun acc i =>
                            if Z.testbit (const_to_uint64 (init_val lut_s)) (Z.of_nat i)
                            then Z.lor acc (row_mask lut_6 lut_s (Z.of_nat i)) else acc)
                          acc (seq a n)) k6 = true
               <-> Z.testbit acc k6 = true ∨
                   ∃ i, (a <= i < a + n)%nat ∧
                        Z.testbit (const_to_uint64 (init_val lut_s)) (Z.of_nat i) = true ∧
                        Z.testbit (row_mask lut_6 lut_s (Z.of_nat i)) k6 = true).
    { induction n as [|n IH]; intros a acc; cbn [seq foldl].
      - split; [auto|]. intros [?|(i & ? & _)]; [done|lia].
      - rewrite IH. split.
        + intros [H|(i & Hi & H1 & H2)].
          * destruct (Z.testbit (const_to_uint64 (init_val lut_s)) (Z.of_nat a)) eqn:E;
              [|by left].
            rewrite Z.lor_spec in H. apply orb_true_iff in H as [?|?]; [by left|].
            right. exists a. split; [lia|done].
          * right. exists i. split; [lia|done].
        + intros [H|(i & Hi & H1 & H2)].
          * left. destruct (Z.testbit (const_to_uint64 _) _); [|done].
            rewrite Z.lor_spec, H. done.
          * destruct (decide (i = a)) as [->|Hne].
            -- left. rewrite H1, Z.lor_spec, H2. by rewrite orb_true_r.
            -- right. exists i. split; [lia|done]. }
    rewrite G, Z.testbit_0_l. split.
    - intros [?|(i & Hi & H)]; [done|]. exists i. split; [lia|done].
    - intros (i & Hi & H). right. exists i. split; [lia|done].
  Qed.
End AbsorbMasks.

(** ** ABSORB: what a match at selector 0 means *)

Lemma fully_connected_length lut :
  fully_connected lut -> length (input_sigs lut) = Z.to_nat (size lut).
Proof.
  unfold fully_connected, input_sigs. intros H.
  rewrite length_fmap, <- (length_fmap fst), H, length_fmap, length_seq. done.
Qed.

Section AbsorbSel0.
Variable lut_6 lut_s : LutInfo.
Variable sel : SigBit.

Local Abbreviation in6 := (input_sigs lut_6).
Local Abbreviation ins := (input_sigs lut_s).

Hypothesis size_6 : size lut_6 = 6.
Hypothesis size_s : 0 <= size lut_s <= 6.
Hypothesis connected_6 : fully_connected lut_6.
Hypothesis connected_s : fully_connected lut_s.
Hypothesis subset : ins ⊆ in6.
Hypothesis one_sel : potential_sel_bits lut_6 lut_s = [sel].

Lemma six_inputs : length in6 = 6%nat.
  Proof. rewrite fully_connected_length by done. by rewrite size_6. Qed.

Lemma sel_in_6 : sel ∈ in6.
  Proof.
    assert (H : sel ∈ potential_sel_bits lut_6 lut_s) by (rewrite one_sel; by left).
    unfold potential_sel_bits in H. by apply list_elem_of_filter in H as [_ ?].
  Qed.

Lemma sel_not_in_s : sel ∉ ins.
  Proof.
    assert (H : sel ∈ potential_sel_bits lut_6 lut_s) by (rewrite one_sel; by left).
    unfold potential_sel_bits in H. by apply list_elem_of_filter in H as [? _].
  Qed.

Lemma sel_once j j' : in6 !! j = Some sel -> in6 !! j' = Some sel -> j = j'.
  Proof.
    intros Hj Hj'.
    eapply (filter_singleton_unique (fun s => s ∉ ins) in6); eauto using sel_not_in_s.
  Qed.

Lemma lut_output_6 rho :
    is_one (lut_output lut_6 rho)
    = Z.testbit (const_to_uint64 (init_val lut_6)) (bits_to_Z (rho <$> in6)).
  Proof.
    pose proof (k6_bounds lut_6 rho six_inputs) as Hk.
    unfold lut_output. rewrite lut_address_rank by done.
    rewrite const_to_uint64_testbit by lia. unfold is_one.
    destruct (init_val lut_6 !! Z.to_nat (bits_to_Z (rho <$> in6))) as [s|];
      cbn [default from_option id].
    - apply bool_decide_ext. split; [intros ->; split; [lia|done]|by intros [_ [= ->]]].
    - rewrite bool_decide_eq_false_2 by done. symmetry.
      apply bool_decide_eq_false_2. by intros [_ ?].
  Qed.

Lemma lut_output_s rho :
    is_one (lut_output lut_s rho)
    = Z.testbit (const_to_uint64 (init_val lut_s)) (bits_to_Z (rho <$> ins)).
  Proof.
    pose proof (bits_to_Z_bounds (rho <$> ins)) as Hk.
    rewrite length_fmap, fully_connected_length in Hk by done.
    assert (2 ^ Z.of_nat (Z.to_nat (size lut_s)) <= 2 ^ 6)
      by (apply Z.pow_le_mono_r; lia).
    unfold lut_output. rewrite lut_address_rank by done.
    rewrite const_to_uint64_testbit by lia. unfold is_one.
    destruct (init_val lut_s !! Z.to_nat (bits_to_Z (rho <$> ins))) as [s|];
      cbn [default from_option id].
    - apply bool_decide_ext. split; [intros ->; split; [lia|done]|by intros [_ [= ->]]].
    - rewrite bool_decide_eq_false_2 by done. symmetry.
      apply bool_decide_eq_false_2. by intros [_ ?].
  Qed.

  (** The expansion of the smaller table, read at the address of the
      6-input LUT, is the output of the smaller LUT. *)
Lemma s_expanded_tt_output rho :
    Z.testbit (s_expanded_tt lut_6 lut_s) (bits_to_Z (rho <$> in6))
    = is_one (lut_output lut_s rho).
  Proof.
    rewrite lut_output_s. apply eq_true_iff_eq.
    rewrite (s_expanded_tt_testbit lut_6 lut_s rho six_inputs).
    pose proof (bits_to_Z_bounds (rho <$> ins)) as Hk.
    rewrite length_fmap, fully_connected_length, Z2Nat.id in Hk by (done || lia).
    assert (0 < 2 ^ size lut_s) by (apply Z.pow_pos_nonneg; lia).
    rewrite Z.shiftl_1_l. split.
    - intros (i & Hi & Ht & Hrow).
      rewrite (row_mask_testbit lut_6 lut_s rho six_inputs subset) in Hrow.
      assert (Z.of_nat i = bits_to_Z (rho <$> ins)) as <-; [|done].
      apply bits_to_Z_unique.
      + rewrite length_fmap, fully_connected_length, Z2Nat.id by (done || lia). lia.
      + intros idx b. rewrite list_lookup_fmap.
        destruct (ins !! idx) as [s|] eqn:E; [|done]. intros [= <-]. by apply Hrow.
    - intros Ht. exists (Z.to_nat (bits_to_Z (rho <$> ins))).
      rewrite Z2Nat.id by lia. split; [lia|]. split; [done|].
      apply (row_mask_testbit lut_6 lut_s rho six_inputs subset).
      intros idx s Hs. by rewrite testbit_bits_to_Z, list_lookup_fmap, Hs.
  Qed.

  (** When the legality test matches at selector 0, the two LUTs agree
      wherever the selector is 0. *)
Lemma sel0_outputs_agree rho :
    sel_is_0_match lut_6 lut_s sel = true -> rho sel = false ->
    is_one (lut_output lut_6 rho) = is_one (lut_output lut_s rho).
  Proof.
    intros Hm Hsel. unfold sel_is_0_match in Hm. apply bool_decide_eq_true in Hm.
    pose proof (k6_bounds lut_6 rho six_inputs) as Hk.
    apply (f_equal (fun z => Z.testbit z (bits_to_Z (rho <$> in6)))) in Hm.
    rewrite !Z.land_spec, !not64_testbit in Hm by done.
    rewrite (get_input_mask_rho lut_6 rho six_inputs sel sel_in_6), Hsel in Hm.
    cbn [negb] in Hm. rewrite !andb_true_r in Hm.
    by rewrite lut_output_6, Hm, s_expanded_tt_output.
  Qed.

  (** The slot vector of the plan: the inputs of the 6-input LUT with the
      selector moved to the last place. *)
Lemma swap_sel_lookup :
    ∃ ks y, in6 !! ks = Some sel ∧ in6 !! 5%nat = Some y ∧
            swap_sel_to_last in6 sel = <[5%nat := sel]> (<[ks := y]> in6).
  Proof.
    destruct (find_index_elem _ _ sel_in_6) as [ks Hks].
    pose proof (find_index_Some _ _ _ Hks) as Hsel.
    destruct (in6 !! 5%nat) as [y|] eqn:E5.
    2:{ apply lookup_ge_None in E5. rewrite six_inputs in E5. lia. }
    exists ks, y. split; [done|]. split; [done|].
    unfold swap_sel_to_last. rewrite Hks, six_inputs.
    change (6 - 1)%nat with 5%nat. by rewrite Hsel, E5.
  Qed.

Lemma swap_sel_length : length (swap_sel_to_last in6 sel) = 6%nat.
  Proof.
    destruct swap_sel_lookup as (ks & y & _ & _ & ->).
    by rewrite !length_insert, six_inputs.
  Qed.

Lemma swap_sel_last : swap_sel_to_last in6 sel !! 5%nat = Some sel.
  Proof.
    destruct swap_sel_lookup as (ks & y & _ & _ & ->).
    apply list_lookup_insert_eq. rewrite length_insert, six_inputs. lia.
  Qed.

Lemma swap_sel_front j :
    (j < 5)%nat ->
    ∃ ks y, in6 !! ks = Some sel ∧ in6 !! 5%nat = Some y ∧
            swap_sel_to_last in6 sel !! j = if decide (j = ks) then Some y else in6 !! j.
  Proof.
    intros Hj. destruct swap_sel_lookup as (ks & y & Hks & H5 & ->).
    exists ks, y. split; [done|]. split; [done|].
    rewrite list_lookup_insert_ne by lia.
    destruct (decide (j = ks)) as [->|Hne].
    - apply list_lookup_insert_eq. rewrite six_inputs. lia.
    - by rewrite list_lookup_insert_ne.
  Qed.

Lemma swap_sel_others s :
    s ∈ in6 -> s ≠ sel -> s ∈ take 5 (swap_sel_to_last in6 sel).
  Proof.
    intros Hs Hne. apply list_elem_of_lookup in Hs as [j Hj].
    assert (Hlt : (j < 6)%nat) by (rewrite <- six_inputs; by eapply lookup_lt_Some).
    destruct (decide (j = 5%nat)) as [->|Hj5].
    - destruct swap_sel_lookup as (ks & y & Hks & H5 & _).
      assert (ks ≠ 5%nat) by (intros ->; congruence).
      assert (Hk : (ks < 5)%nat).
      { apply lookup_lt_Some in Hks. rewrite six_inputs in Hks. lia. }
      destruct (swap_sel_front ks Hk) as (ks' & y' & Hks' & H5' & Hv).
      assert (ks' = ks) as -> by (by eapply sel_once).
      rewrite decide_True in Hv by done.
      apply (list_elem_of_lookup_2 _ ks). rewrite lookup_take_lt by lia. congruence.
    - destruct (swap_sel_front j ltac:(lia)) as (ks & y & Hks & H5 & Hv).
      rewrite decide_False in Hv by (intros ->; congruence).
      apply (list_elem_of_lookup_2 _ j). rewrite lookup_take_lt by lia. congruence.
  Qed.

Lemma swap_sel_out : sel ∉ take 5 (swap_sel_to_last in6 sel).
  Proof.
    intros Hin. apply list_elem_of_lookup in Hin as [j Hj].
    assert (Hlt : (j < 5)%nat).
    { apply lookup_lt_Some in Hj. rewrite length_take in Hj. lia. }
    rewrite lookup_take_lt in Hj by done.
    destruct (swap_sel_front j Hlt) as (ks & y & Hks & H5 & Hv).
    rewrite Hj in Hv. destruct (decide (j = ks)) as [->|Hne].
    - injection Hv as <-. assert (ks = 5%nat) by (by eapply sel_once). lia.
    - symmetry in Hv. assert (j = ks) by (by eapply sel_once). done.
  Qed.
End AbsorbSel0.

(** ** ABSORB: the fused table when the test matches at selector 0 *)

Lemma bits_to_Z_snoc bs b :
  bits_to_Z (bs ++ [b]) = bits_to_Z bs + 2 ^ Z.of_nat (length bs) * Z.b2z b.
Proof.
  induction bs as [|c bs IH]; cbn [app bits_to_Z length].
  - simpl. lia.
  - rewrite IH, Nat2Z.inj_succ, Z.pow_succ_r by lia. lia.
Qed.

Lemma foldl_addr_step_sel shared sel rho inputs addr bit_pos :
  rho sel = true -> sel ∉ shared ->
  Forall (fun pair : string * SigBit => pair.2 ∈ shared ∨ pair.2 = sel) inputs ->
  foldl (addr_step shared (Some sel) (slots_address shared rho)) (addr, bit_pos) inputs
  = (addr + bit_pos * bits_to_Z (rho <$> inputs.*2),
     bit_pos * 2 ^ Z.of_nat (length inputs)).
Proof.
  intros Hsel Hout Hall. revert addr bit_pos.
  induction Hall as [|pair inputs Hp _ IH]; intros addr bit_pos.
  - simpl. f_equal; lia.
  - cbn [foldl].
    assert (Hstep : addr_step shared (Some sel) (slots_address shared rho) (addr, bit_pos) pair
                    = (addr + bit_pos * Z.b2z (rho pair.2), 2 * bit_pos)).
    { destruct Hp as [Hin|Heq]; [by apply addr_step_found|].
      unfold addr_step. rewrite Heq.
      destruct (find_index shared sel) as [k|] eqn:E.
      - apply find_index_Some in E. destruct Hout. by eapply list_elem_of_lookup_2.
      - rewrite decide_True by done. rewrite Hsel, Z.shiftl_mul_pow2 by lia.
        f_equal; simpl; lia. }
    rewrite Hstep, IH. cbn [fmap list_fmap bits_to_Z length].
    rewrite Nat2Z.inj_succ, Z.pow_succ_r by lia. f_equal; lia.
Qed.

Section AbsorbPlan.
Variable uniquify : Module -> IdString -> IdString.
Variable module : Module.
Variable lut_6 lut_s : LutInfo.
Variable sel : SigBit.
Variable best_pair : MergeCandidate.

Hypothesis size_6 : size lut_6 = 6.
Hypothesis size_s : 0 <= size lut_s <= 6.
Hypothesis connected_6 : fully_connected lut_6.
Hypothesis connected_s : fully_connected lut_s.
Hypothesis subset : input_sigs lut_s ⊆ input_sigs lut_6.
Hypothesis one_sel : potential_sel_bits lut_6 lut_s = [sel].
Hypothesis absorb_type : type best_pair = LUT6_ABSORB.
Hypothesis absorb_sel : discovered_sel_bit best_pair = sel.

Local Abbreviation slots := (swap_sel_to_last (input_sigs lut_6) sel).

Lemma absorb_has_sel : lut_has_input lut_6 sel = true.
  Proof.
    pose proof (sel_in_6 lut_6 lut_s sel one_sel) as Hin.
    unfold lut_has_input. apply existsb_exists.
    unfold input_sigs in Hin. apply list_elem_of_fmap in Hin as (pair & -> & Hp).
    exists pair. split; [by apply list_elem_of_In|]. by apply bool_decide_eq_true.
  Qed.

Lemma absorb_s_in_slots : input_sigs lut_s ⊆ take 5 slots.
  Proof.
    intros s Hs. apply (swap_sel_others lut_6 lut_s sel); try done.
    - by apply subset.
    - intros ->. by apply (sel_not_in_s lut_6 lut_s sel one_sel).
  Qed.

Lemma absorb_high_half rho :
    rho sel = true ->
    half_bits (take 5 slots) (Some sel) lut_6 !! Z.to_nat (slots_address (take 5 slots) rho)
    = Some (lut_output lut_6 rho).
  Proof.
    intros Hsel.
    assert (Hl5 : length (take 5 slots) = 5%nat).
    { rewrite length_take, (swap_sel_length lut_6 lut_s sel) by done. lia. }
    pose proof (bits_to_Z_bounds (rho <$> take 5 slots)) as Hb.
    rewrite length_fmap, Hl5 in Hb. change (2 ^ Z.of_nat 5) with 32 in Hb.
    unfold half_bits. rewrite list_lookup_fmap, lookup_seq_lt by (unfold slots_address; lia).
    simpl. rewrite Z2Nat.id by (unfold slots_address; lia). f_equal.
    unfold source_addr. rewrite foldl_addr_step_sel; try done.
    - cbn [fst]. rewrite Z.add_0_l, Z.mul_1_l.
      rewrite init_at_default by apply bits_to_Z_bounds.
      unfold lut_output. by rewrite lut_address_rank.
    - by apply (swap_sel_out lut_6 lut_s sel).
    - apply Forall_forall. intros pair Hp.
      destruct (decide (pair.2 = sel)) as [|Hne]; [by right|]. left.
      apply (swap_sel_others lut_6 lut_s sel); try done.
      unfold input_sigs. apply list_elem_of_fmap. eauto.
  Qed.

  (** X1. ABSORB with a match at selector 0.  For a 6-input LUT and a LUT
      of arity at most 6, both with every declared port connected, where the
      inputs of the second all occur among those of the first and the
      selector is the only input of the first that the second does not read:
      when the tables match at selector 0, the plan of the ABSORB candidate
      binds the six lines to the inputs of the 6-input LUT with the selector
      on I5, drives Z5 from the smaller LUT and Z from the 6-input LUT; pin
      Z5 is the smaller LUT's output for every assignment, and pin Z is 1
      exactly when the 6-input LUT's output is 1 (where the selector is 0, Z
      reads the smaller LUT's table, which the test compares with the other
      only as 1 or not 1). *)
Lemma absorb_sel0_exact :
    sel_is_0_match lut_6 lut_s sel = true ->
    ∃ plan,
      make_plan uniquify module lut_6 lut_s best_pair = Some plan ∧
      (∀ k, (k < 6)%nat -> port_connections plan !! ("\I" +:+ pretty k) = slots !! k) ∧
      slots !! 5%nat = Some sel ∧
      port_connections plan !! ID_Z = Some (output lut_6) ∧
      port_connections plan !! ID_Z5 = Some (output lut_s) ∧
      ∀ rho : SigBit -> bool,
        lut6d_Z5 (plan_init_val plan) slots rho = lut_output lut_s rho ∧
        is_one (lut6d_Z (plan_init_val plan) slots rho) = is_one (lut_output lut_6 rho).
  Proof.
    intros Hm0.
    pose proof (swap_sel_length lut_6 lut_s sel size_6 connected_6 one_sel) as Hlen.
    pose proof (swap_sel_last lut_6 lut_s sel size_6 connected_6 one_sel) as Hlast.
    destruct (input_ports slots) as [ports|] eqn:Hports.
    2:{ exfalso. revert Hports. unfold input_ports.
        destruct slots as [|x0 [|x1 [|x2 [|x3 [|x4 [|x5 v']]]]]]; done. }
    eexists. split.
    { unfold make_plan, new_inputs_of. rewrite absorb_type, absorb_sel.
      rewrite decide_True by done. unfold calculate_new_init.
      rewrite absorb_has_sel, decide_True by lia. cbn [mbind option_bind].
      rewrite Hports. reflexivity. }
    cbn [port_connections plan_init_val new_init z_out_sig z5_out_sig].
    split.
    { intros k Hk. rewrite plan_port_lookup by done. by apply input_ports_lookup. }
    split; [done|]. split; [by rewrite lookup_insert_ne, lookup_insert_eq|].
    split; [by rewrite lookup_insert_eq|].
    intros rho.
    assert (Hl5 : length (take 5 slots) = 5%nat) by (rewrite length_take; lia).
    pose proof (bits_to_Z_bounds (rho <$> take 5 slots)) as Hb.
    rewrite length_fmap, Hl5 in Hb. change (2 ^ Z.of_nat 5) with 32 in Hb.
    fold (slots_address (take 5 slots) rho) in Hb.
    assert (Hlow : (half_bits (take 5 slots) None lut_s
                    ++ half_bits (take 5 slots) (Some sel) lut_6)
                     !! Z.to_nat (slots_address (take 5 slots) rho)
                   = Some (lut_output lut_s rho)).
    { rewrite lookup_app_l by (rewrite length_half_bits; lia).
      apply half_bits_exact; [done|apply absorb_s_in_slots|done]. }
    split.
    - unfold lut6d_Z5. by rewrite Hlow.
    - unfold lut6d_Z.
      assert (Hsplit : take 6 slots = take 5 slots ++ [sel]).
      { rewrite take_ge by lia. rewrite <- (take_drop 5 slots) at 1. f_equal.
        apply list_eq. intros n. rewrite lookup_drop.
        destruct n as [|n]; [exact Hlast|].
        simpl. apply lookup_ge_None. lia. }
      unfold slots_address at 1. rewrite Hsplit, fmap_app. cbn [fmap list_fmap].
      rewrite bits_to_Z_snoc, length_fmap, Hl5. change (2 ^ Z.of_nat 5) with 32.
      fold (slots_address (take 5 slots) rho).
      destruct (rho sel) eqn:Hsel; cbn [Z.b2z].
      + replace (Z.to_nat (slots_address (take 5 slots) rho + 32 * 1))
          with (32 + Z.to_nat (slots_address (take 5 slots) rho))%nat by lia.
        rewrite lookup_app_r by (rewrite length_half_bits; lia).
        rewrite length_half_bits.
        replace (32 + Z.to_nat (slots_address (take 5 slots) rho) - 32)%nat
          with (Z.to_nat (slots_address (take 5 slots) rho)) by lia.
        by rewrite absorb_high_half.
      + rewrite Z.mul_0_r, Z.add_0_r, Hlow. cbn [default from_option id].
        symmetry. by apply (sel0_outputs_agree lut_6 lut_s sel).
  Qed.
End AbsorbPlan.

(** A 6-input LUT that agrees with a 5-input AND of a and b whenever f is 0:
    the pair [lut_six], [lut_and5] is absorbed with f as selector, and the
    fused cell reproduces both LUTs. *)
Example absorb_sel0_exact_six_and5 :
  FindMergeCandidates_Global [lut_six; lut_and5] !! 1%nat = Some absorb_and5 ∧
  ∃ plan,
    make_plan keep_name (mkModule []) lut_six lut_and5 absorb_and5 = Some plan ∧
    ∀ rho : SigBit -> bool,
      lut6d_Z5 (plan_init_val plan) six_wires rho = lut_output lut_and5 rho ∧
      is_one (lut6d_Z (plan_init_val plan) six_wires rho) = is_one (lut_output lut_six rho).
Proof.
  split; [by vm_compute|].
  destruct (absorb_sel0_exact keep_name (mkModule []) lut_six lut_and5 (wire_bit "f")
              absorb_and5) as (plan & Hp & _ & _ & _ & _ & Hrho).
  - reflexivity.
  - vm_compute. split; discriminate.
  - reflexivity.
  - reflexivity.
  - intros s Hs. vm_compute in Hs |- *.
    repeat (apply elem_of_cons in Hs as [-> | Hs]; [set_solver|]).
    by apply elem_of_nil in Hs.
  - reflexivity.
  - reflexivity.
  - reflexivity.
  - reflexivity.
  - exists plan. split; [exact Hp|]. exact Hrho.
Defined.

(** ** ABSORB: what the legality test decides *)

Lemma find_index_NoDup l j x : NoDup l -> l !! j = Some x -> find_index l x = Some j.
Proof.
  intros Hnd Hj. destruct (find_index_elem l x) as [k Hk].
  { by eapply list_elem_of_lookup_2. }
  rewrite Hk. f_equal. apply find_index_Some in Hk.
  by eapply NoDup_lookup.
Qed.

Lemma assignment_of_address_rank lut k :
  NoDup (input_sigs lut) -> 0 <= k < 2 ^ Z.of_nat (length (input_sigs lut)) ->
  bits_to_Z (assignment_of_address lut k <$> input_sigs lut) = k.
Proof.
  intros Hnd Hk. symmetry. apply bits_to_Z_unique.
  - by rewrite length_fmap.
  - intros idx b. rewrite list_lookup_fmap.
    destruct (input_sigs lut !! idx) as [s|] eqn:E; [|done]. intros [= <-].
    unfold assignment_of_address. by rewrite (find_index_NoDup _ idx).
Qed.

Lemma U64_MAX_testbit_high n : 64 <= n -> Z.testbit U64_MAX n = false.
Proof. intros Hn. change U64_MAX with (Z.ones 64). apply Z.ones_spec_high. lia. Qed.

Lemma row_mask_high lut_6 lut_s i n :
  64 <= n -> Z.testbit (row_mask lut_6 lut_s i) n = false.
Proof.
  intros Hn. unfold row_mask.
  assert (G : ∀ inputs m idx0,
             Z.testbit m n = false ->
             Z.testbit (foldl (fun (st : Z * nat) (p_s : string * SigBit) =>
                          let '(target_mask, s_input_idx) := st in
                          let lut6_mask := get_input_mask (ordered_inputs lut_6) p_s.2 in
                          (if Z.testbit i (Z.of_nat s_input_idx)
                           then Z.land target_mask lut6_mask
                           else Z.land target_mask (not64 lut6_mask),
                           S s_input_idx)) (m, idx0) inputs).1 n = false).
  { induction inputs as [|p inputs IH]; intros m idx0 Hm; cbn [foldl fst]; [done|].
    apply IH. destruct (Z.testbit i (Z.of_nat idx0)); by rewrite Z.land_spec, Hm. }
  apply G. by apply U64_MAX_testbit_high.
Qed.

Lemma s_expanded_tt_high lut_6 lut_s n :
  64 <= n -> Z.testbit (s_expanded_tt lut_6 lut_s) n = false.
Proof.
  intros Hn. unfold s_expanded_tt.
  assert (G : ∀ l acc,
             Z.testbit acc n = false ->
             Z.testbit (foldl (fun acc i =>
                          if Z.testbit (const_to_uint64 (init_val lut_s)) (Z.of_nat i)
                          then Z.lor acc (row_mask lut_6 lut_s (Z.of_nat i)) else acc)
                        acc l) n = false).
  { induction l as [|i l IH]; intros acc Hacc; cbn [foldl]; [done|].
    apply IH. destruct (Z.testbit _ (Z.of_nat i)); [|done].
    by rewrite Z.lor_spec, Hacc, row_mask_high. }
  apply G. apply Z.testbit_0_l.
Qed.

Section AbsorbMeaning.
Variable lut_6 lut_s : LutInfo.
Variable sel : SigBit.

Hypothesis size_6 : size lut_6 = 6.
Hypothesis size_s : 0 <= size lut_s <= 6.
Hypothesis connected_6 : fully_connected lut_6.
Hypothesis connected_s : fully_connected lut_s.
Hypothesis subset : input_sigs lut_s ⊆ input_sigs lut_6.
Hypothesis one_sel : potential_sel_bits lut_6 lut_s = [sel].

Lemma sel_mask_rho rho :
    Z.testbit (get_input_mask (ordered_inputs lut_6) sel)
              (bits_to_Z (rho <$> input_sigs lut_6)) = rho sel.
  Proof.
    apply get_input_mask_rho.
    - by eapply six_inputs.
    - by eapply sel_in_6.
  Qed.

Lemma sel1_outputs_agree rho :
    sel_is_1_match lut_6 lut_s sel = true -> rho sel = true ->
    same_output lut_6 lut_s rho.
  Proof.
    intros Hm Hsel. unfold sel_is_1_match in Hm. apply bool_decide_eq_true in Hm.
    apply (f_equal (fun z => Z.testbit z (bits_to_Z (rho <$> input_sigs lut_6)))) in Hm.
    rewrite !Z.land_spec, sel_mask_rho, Hsel, !andb_true_r in Hm.
    unfold same_output.
    rewrite lut_output_6 by done.
    by rewrite <- (s_expanded_tt_output lut_6 lut_s).
  Qed.

Hypothesis inputs_distinct : NoDup (input_sigs lut_6).

  (** Every row of the 64-bit space is the address of some assignment. *)
Lemma row_agrees k :
    0 <= k < 64 ->
    same_output lut_6 lut_s (assignment_of_address lut_6 k) ->
    Z.testbit (const_to_uint64 (init_val lut_6)) k
    = Z.testbit (s_expanded_tt lut_6 lut_s) k.
  Proof.
    intros Hk Hsame. unfold same_output in Hsame.
    rewrite lut_output_6 in Hsame by done.
    rewrite <- (s_expanded_tt_output lut_6 lut_s) in Hsame by done.
    rewrite assignment_of_address_rank in Hsame; [done|done|].
    by rewrite (six_inputs lut_6).
  Qed.

Lemma row_sel k :
    0 <= k < 64 ->
    assignment_of_address lut_6 k sel
    = Z.testbit (get_input_mask (ordered_inputs lut_6) sel) k.
  Proof.
    intros Hk. rewrite <- (sel_mask_rho (assignment_of_address lut_6 k)).
    rewrite assignment_of_address_rank; [done|done|].
    by rewrite (six_inputs lut_6).
  Qed.

Lemma sel0_match_complete :
    (∀ rho, rho sel = false -> same_output lut_6 lut_s rho) ->
    sel_is_0_match lut_6 lut_s sel = true.
  Proof.
    intros Hall. unfold sel_is_0_match. apply bool_decide_eq_true.
    apply Z.bits_inj'. intros n Hn. rewrite !Z.land_spec.
    destruct (decide (n < 64)) as [Hlt|Hge].
    - rewrite not64_testbit by lia. rewrite <- row_sel by lia.
      destruct (assignment_of_address lut_6 n sel) eqn:Es; cbn [negb].
      + by rewrite !andb_false_r.
      + rewrite !andb_true_r. apply row_agrees; [lia|]. by apply Hall.
    - rewrite const_to_uint64_testbit by done.
      rewrite bool_decide_eq_false_2 by (intros [? _]; lia).
      by rewrite s_expanded_tt_high by lia.
  Qed.

Lemma sel1_match_complete :
    (∀ rho, rho sel = true -> same_output lut_6 lut_s rho) ->
    sel_is_1_match lut_6 lut_s sel = true.
  Proof.
    intros Hall. unfold sel_is_1_match. apply bool_decide_eq_true.
    apply Z.bits_inj'. intros n Hn. rewrite !Z.land_spec.
    destruct (decide (n < 64)) as [Hlt|Hge].
    - rewrite <- row_sel by lia.
      destruct (assignment_of_address lut_6 n sel) eqn:Es.
      + rewrite !andb_true_r. apply row_agrees; [lia|]. by apply Hall.
      + by rewrite !andb_false_r.
    - rewrite const_to_uint64_testbit by done.
      rewrite bool_decide_eq_false_2 by (intros [? _]; lia).
      by rewrite s_expanded_tt_high by lia.
  Qed.
End AbsorbMeaning.

(** X2. The legality test of ABSORB decides a functional fact.  For a
    fully connected 6-input LUT with six distinct input signals and a fully
    connected LUT whose inputs all occur among them, [CanLut6AbsorbLutS]
    returns true with selector [sel] exactly when [sel] is the only input of
    the 6-input LUT that the other LUT does not read and the two LUTs give the
    same output under every assignment with [sel] at 0, or under every
    assignment with [sel] at 1. *)
Theorem absorb_test_meaning (lut_6 lut_s : LutInfo) (sel : SigBit) :
  size lut_6 = 6 -> 0 <= size lut_s <= 6 ->
  fully_connected lut_6 -> fully_connected lut_s ->
  NoDup (input_sigs lut_6) -> input_sigs lut_s ⊆ input_sigs lut_6 ->
  CanLut6AbsorbLutS lut_6 lut_s = Some sel <->
  potential_sel_bits lut_6 lut_s = [sel] ∧
  ((∀ rho, rho sel = false -> same_output lut_6 lut_s rho) ∨
   (∀ rho, rho sel = true -> same_output lut_6 lut_s rho)).
Proof.
  intros H6 Hs Hc6 Hcs Hnd Hsub. rewrite CanLut6AbsorbLutS_Some. split.
  - intros [Hone [Hm|Hm]]; (split; [done|]).
    + left. intros rho Hr. unfold same_output. by apply (sel0_outputs_agree lut_6 lut_s sel).
    + right. intros rho Hr. by apply (sel1_outputs_agree lut_6 lut_s sel).
  - intros [Hone [Hall|Hall]]; (split; [done|]).
    + left. by apply sel0_match_complete.
    + right. by apply sel1_match_complete.
Qed.

Lemma absorb_test_meaning_witness :
  CanLut6AbsorbLutS lut_six lut_and5 = Some (wire_bit "f") <->
  potential_sel_bits lut_six lut_and5 = [wire_bit "f"] ∧
  ((∀ rho, rho (wire_bit "f") = false -> same_output lut_six lut_and5 rho) ∨
   (∀ rho, rho (wire_bit "f") = true -> same_output lut_six lut_and5 rho)).
Proof.
  apply (absorb_test_meaning lut_six lut_and5 (wire_bit "f")).
  - reflexivity.
  - vm_compute. split; discriminate.
  - reflexivity.
  - reflexivity.
  - apply (bool_decide_unpack _). vm_compute. exact I.
  - apply (bool_decide_unpack _). vm_compute. exact I.
Defined.

Lemma filter_ne_notin (l : list SigBit) (x : SigBit) :
  x ∉ l -> filter (fun s => s ≠ x) l = l.
Proof.
  induction l as [|y l IH]; intros Hx; [done|].
  apply not_elem_of_cons in Hx as [Hne Hx].
  rewrite filter_cons_True by done. f_equal. by apply IH.
Qed.

Lemma filter_ne_length (l : list SigBit) (x : SigBit) :
  NoDup l -> x ∈ l -> length l = S (length (filter (fun s => s ≠ x) l)).
Proof.
  induction 1 as [|y l Hy Hnd IH]; intros Hin; [by apply elem_of_nil in Hin|].
  destruct (decide (y = x)) as [->|Hne].
  - rewrite filter_cons_False by (intros H; by apply H).
    by rewrite filter_ne_notin.
  - rewrite filter_cons_True by done.
    apply elem_of_cons in Hin as [->|Hin]; [done|]. simpl. f_equal. by apply IH.
Qed.

(** X3. When the legality test accepts with selector [sel], exactly one
    port of the 6-input LUT carries [sel], the other LUT does not read [sel],
    and the other LUT reads every other input of the 6-input LUT.  With six
    distinct signals on the 6-input LUT, the other LUT therefore has at least
    five connected ports: a LUT with four inputs or fewer is never absorbed. *)
Theorem absorb_reads_all_but_selector (lut_6 lut_s : LutInfo) (sel : SigBit) :
  CanLut6AbsorbLutS lut_6 lut_s = Some sel ->
  sel ∈ input_sigs lut_6 ∧ (sel ∉ input_sigs lut_s) ∧
  (∀ j j', input_sigs lut_6 !! j = Some sel -> input_sigs lut_6 !! j' = Some sel -> j = j') ∧
  (∀ s, s ∈ input_sigs lut_6 -> s ≠ sel -> s ∈ input_sigs lut_s) ∧
  (NoDup (input_sigs lut_6) -> length (input_sigs lut_6) = 6%nat ->
   (5 <= length (ordered_inputs lut_s))%nat).
Proof.
  intros Hc. apply CanLut6AbsorbLutS_Some in Hc as [Hone _].
  pose proof (sel_in_6 _ _ _ Hone) as Hin.
  pose proof (sel_not_in_s _ _ _ Hone) as Hout.
  assert (Hothers : ∀ s, s ∈ input_sigs lut_6 -> s ≠ sel -> s ∈ input_sigs lut_s).
  { intros s Hs Hne. destruct (decide (s ∈ input_sigs lut_s)) as [|Hn]; [done|].
    assert (Hp : s ∈ potential_sel_bits lut_6 lut_s)
      by (unfold potential_sel_bits; by apply list_elem_of_filter).
    rewrite Hone in Hp. by apply list_elem_of_singleton in Hp. }
  repeat split; try done.
  - intros j j'. by apply (sel_once lut_6 lut_s sel).
  - intros Hnd Hlen.
    pose proof (filter_ne_length _ _ Hnd Hin) as Hf. rewrite Hlen in Hf.
    assert (Hsub : filter (fun s => s ≠ sel) (input_sigs lut_6) ⊆+ input_sigs lut_s).
    { apply NoDup_submseteq; [by apply NoDup_filter|].
      intros s Hs. apply list_elem_of_filter in Hs as [Hne Hs]. by apply Hothers. }
    apply submseteq_length in Hsub. unfold input_sigs in Hsub at 2.
    rewrite length_fmap in Hsub. lia.
Qed.

Lemma absorb_reads_all_but_selector_witness :
  wire_bit "f" ∈ input_sigs lut_six ∧ (wire_bit "f" ∉ input_sigs lut_and5) ∧
  (∀ j j', input_sigs lut_six !! j = Some (wire_bit "f") ->
           input_sigs lut_six !! j' = Some (wire_bit "f") -> j = j') ∧
  (∀ s, s ∈ input_sigs lut_six -> s ≠ wire_bit "f" -> s ∈ input_sigs lut_and5) ∧
  (NoDup (input_sigs lut_six) -> length (input_sigs lut_six) = 6%nat ->
   (5 <= length (ordered_inputs lut_and5))%nat).
Proof.
  apply (absorb_reads_all_but_selector lut_six lut_and5 (wire_bit "f")).
  vm_compute. reflexivity.
Defined.

(** ** Collecting: the records and their cells *)

Lemma lookup_port_map_assign k k' v m :
  lookup_port k (map_assign k' v m) = if decide (k = k') then Some v else lookup_port k m.
Proof.
  induction m as [|[k0 v0] m IH]; cbn [map_assign lookup_port].
  - destruct (decide (k' = k)) as [->|Hne].
    + by rewrite decide_True.
    + by rewrite decide_False by done.
  - destruct (decide (k' = k0)) as [->|Hne0].
    + cbn [lookup_port]. destruct (decide (k0 = k)) as [->|Hne].
      * by rewrite decide_True.
      * by rewrite decide_False by done.
    + destruct (String.ltb k' k0).
      * cbn [lookup_port]. destruct (decide (k' = k)) as [->|Hne].
        -- by rewrite decide_True.
        -- rewrite (decide_False (P := k = k')) by done. done.
      * cbn [lookup_port]. rewrite IH. destruct (decide (k0 = k)) as [->|Hne].
        -- by rewrite decide_False by done.
        -- done.
Qed.

Lemma lookup_port_collect_inputs sigmap cell (n i : nat) :
  lookup_port (port_name i)
    (foldl (fun inputs i =>
              match cell_connections cell !! ("\" +:+ port_name i) with
              | Some sig => map_assign (port_name i) (sigmap sig) inputs
              | None => inputs
              end) [] (seq 0 n))
  = if decide (i < n)%nat
    then sigmap <$> cell_connections cell !! ("\" +:+ port_name i) else None.
Proof.
  induction n as [|n IH].
  - done.
  - rewrite seq_S, foldl_app. cbn [foldl].
    destruct (cell_connections cell !! ("\" +:+ port_name (0 + n))) as [sig|] eqn:E.
    + rewrite lookup_port_map_assign. simpl in E |- *.
      destruct (decide (port_name i = port_name n)) as [Heq|Hne].
      * apply (inj port_name) in Heq as ->. rewrite decide_True by lia. by rewrite E.
      * rewrite IH. assert (i ≠ n) by congruence.
        destruct (decide (i < n)%nat); [by rewrite decide_True by lia|].
        by rewrite decide_False by lia.
    + rewrite IH. simpl in E.
      destruct (decide (i = n)) as [->|Hne].
      * rewrite decide_False by lia. rewrite decide_True by lia. by rewrite E.
      * destruct (decide (i < n)%nat); [by rewrite decide_True by lia|].
        by rewrite decide_False by lia.
Qed.

Lemma foldl_collect_None sigmap cs :
  foldl (fun acc cell => acc ≫= fun luts => collect_cell sigmap luts cell) None cs = None.
Proof. induction cs as [|c cs IH]; [done|]. apply IH. Qed.

Lemma collect_cell_cases sigmap luts cell :
  (¬ is_lut_cell cell ∧ collect_cell sigmap luts cell = Some luts) ∨
  (is_lut_cell cell ∧
   (cell_connections cell !! ID_Z = None ∨ cell_parameters cell !! ID_INIT = None) ∧
   collect_cell sigmap luts cell = None) ∨
  (is_lut_cell cell ∧
   ∃ lut, (collected_from sigmap lut cell ∧
           ordered_inputs lut = collect_inputs sigmap cell (size lut)) ∧
          collect_cell sigmap luts cell = Some (luts ++ [lut])).
Proof.
  unfold collect_cell, is_lut_cell.
  destruct (gtp_lut_size (cell_type cell)) as [sz|] eqn:Esz.
  2:{ left. split; [|done]. by intros [? ?]. }
  right. destruct (cell_connections cell !! ID_Z) as [out|] eqn:Ez; cbn [mbind option_bind].
  2:{ left. split; [eauto|]. split; [by left|done]. }
  destruct (cell_parameters cell !! ID_INIT) as [init|] eqn:Ei; cbn [mbind option_bind].
  2:{ left. split; [eauto|]. split; [by right|done]. }
  right. split; [eauto|]. eexists. split; [|done].
  unfold collected_from. cbn [cell_ptr size output init_val is_merged ordered_inputs].
  rewrite Ez. split; [|done]. repeat split; try done.
  intros i. unfold collect_inputs. cbv zeta. rewrite lookup_port_collect_inputs.
  destruct (decide (i < Z.to_nat sz)%nat); [by rewrite decide_True by lia|].
  by rewrite decide_False by lia.
Qed.

Lemma CollectLuts_fold sigmap cs acc :
  match foldl (fun acc cell => acc ≫= fun luts => collect_cell sigmap luts cell)
              (Some acc) cs with
  | Some luts => ∃ more, luts = acc ++ more ∧
                         Forall2 (fun lut cell =>
                                    collected_from sigmap lut cell ∧
                                    ordered_inputs lut = collect_inputs sigmap cell (size lut))
                                 more (filter is_lut_cell cs)
  | None => ∃ cell, cell ∈ cs ∧ is_lut_cell cell ∧
                    (cell_connections cell !! ID_Z = None ∨
                     cell_parameters cell !! ID_INIT = None)
  end.
Proof.
  revert acc. induction cs as [|c cs IH]; intros acc; cbn [foldl].
  - exists []. rewrite app_nil_r. split; [done|]. constructor.
  - cbn [mbind option_bind].
    destruct (collect_cell_cases sigmap acc c)
      as [[Hno ->]|[(Hlut & Hmiss & ->)|(Hlut & lut & Hfrom & ->)]].
    + specialize (IH acc). destruct (foldl _ (Some acc) cs) as [luts|].
      * destruct IH as (more & -> & Hall). exists more. split; [done|].
        by rewrite filter_cons_False.
      * destruct IH as (cell & Hin & Hl & Hm). exists cell. split; [by right|done].
    + rewrite foldl_collect_None. exists c. split; [by left|done].
    + specialize (IH (acc ++ [lut])). destruct (foldl _ (Some (acc ++ [lut])) cs) as [luts|].
      * destruct IH as (more & -> & Hall). exists (lut :: more).
        split; [by rewrite <- app_assoc|]. rewrite filter_cons_True by done.
        by constructor.
      * destruct IH as (cell & Hin & Hl & Hm). exists cell. split; [by right|done].
Qed.

(** X4. [CollectLuts] returns one record per cell whose type is [\GTP_LUT]
    plus one character, in the module's cell order and skipping every other
    cell; each record carries its cell's name, the arity read from the type,
    the canonical output and INIT table, and on each port below the arity the
    canonical signal of the connection.  The call fails exactly when one of
    those cells lacks its Z connection or its INIT parameter. *)
Theorem CollectLuts_records (sigmap : SigBit -> SigBit) (module : Module) :
  match CollectLuts sigmap module with
  | Some luts => Forall2 (collected_from sigmap) luts (filter is_lut_cell (cells module))
  | None => ∃ cell, cell ∈ cells module ∧ is_lut_cell cell ∧
                    (cell_connections cell !! ID_Z = None ∨
                     cell_parameters cell !! ID_INIT = None)
  end.
Proof.
  unfold CollectLuts. pose proof (CollectLuts_fold sigmap (cells module) []) as H.
  destruct (foldl _ (Some []) (cells module)) as [luts|]; [|done].
  destruct H as (more & -> & Hall). cbn [app].
  eapply Forall2_impl; [exact Hall|]. by intros lut cell [? _].
Qed.

(** *** The order of the collected inputs *)

Lemma port_name_order i j :
  (i < j)%nat -> (j < 10)%nat ->
  port_name j ≠ port_name i ∧ String.ltb (port_name j) (port_name i) = false.
Proof.
  intros Hij Hj. split; [intros H; apply (inj port_name) in H; lia|].
  assert (Hall : forallb (fun j => forallb (fun i =>
                   negb (String.ltb (port_name j) (port_name i))) (seq 0 j)) (seq 0 10) = true)
    by (vm_compute; reflexivity).
  rewrite forallb_forall in Hall. specialize (Hall j).
  rewrite forallb_forall in Hall.
  assert (Hjin : In j (seq 0 10)) by (apply in_seq; lia).
  assert (Hiin : In i (seq 0 j)) by (apply in_seq; lia).
  specialize (Hall Hjin i Hiin). by apply negb_true_iff in Hall.
Qed.

Lemma map_assign_snoc k v m :
  Forall (fun p : string * SigBit => k ≠ p.1 ∧ String.ltb k p.1 = false) m ->
  map_assign k v m = m ++ [(k, v)].
Proof.
  induction 1 as [|[k0 v0] m [Hne Hlt] _ IH]; [done|].
  cbn [map_assign app]. cbn [fst] in Hne, Hlt.
  rewrite decide_False by done. rewrite Hlt. by rewrite IH.
Qed.

Lemma collect_inputs_closed sigmap cell (n : nat) :
  (n <= 10)%nat ->
  foldl (fun inputs i =>
           match cell_connections cell !! ("\" +:+ port_name i) with
           | Some sig => map_assign (port_name i) (sigmap sig) inputs
           | None => inputs
           end) [] (seq 0 n)
  = omap (fun i => (fun sig => (port_name i, sigmap sig))
                     <$> cell_connections cell !! ("\" +:+ port_name i)) (seq 0 n).
Proof.
  induction n as [|n IH]; intros Hn; [done|].
  rewrite seq_S, foldl_app, omap_app, IH by lia. cbn [foldl Nat.add].
  change (omap ?f [n]) with (match f n with Some y => [y] | None => [] end). cbv beta.
  destruct (cell_connections cell !! ("\" +:+ port_name n)) as [sig|];
    cbn [fmap option_fmap option_map].
  - apply map_assign_snoc. apply Forall_forall. intros p Hp.
    apply list_elem_of_omap in Hp as (i & Hi & Hp).
    apply elem_of_seq in Hi.
    destruct (cell_connections cell !! ("\" +:+ port_name i)) as [si|]; [|done].
    injection Hp as <-. cbn [fst]. apply port_name_order; lia.
  - by rewrite app_nil_r.
Qed.

(** X5. The inputs of a collected record follow the port order.  For a
    cell of arity at most 10 the record lists, for I0, I1, ... in this order,
    the ports that are connected, each with its canonical signal; when all
    the ports below the arity are connected the record is fully connected:
    its k-th input is the signal on port Ik. *)
Theorem collected_inputs_in_port_order (sigmap : SigBit -> SigBit) (module : Module)
    (luts : list LutInfo) (lut : LutInfo) :
  CollectLuts sigmap module = Some luts -> lut ∈ luts -> size lut <= 10 ->
  ∃ cell,
    cell ∈ cells module ∧ collected_from sigmap lut cell ∧
    ordered_inputs lut
    = omap (fun i => (fun sig => (port_name i, sigmap sig))
                       <$> cell_connections cell !! ("\" +:+ port_name i))
           (seq 0 (Z.to_nat (size lut))) ∧
    ((∀ i, (i < Z.to_nat (size lut))%nat ->
           is_Some (cell_connections cell !! ("\" +:+ port_name i))) ->
     fully_connected lut ∧
     ∀ i, (i < Z.to_nat (size lut))%nat ->
          input_sigs lut !! i
          = sigmap <$> cell_connections cell !! ("\" +:+ port_name i)).
Proof.
  intros Hc Hin Hsz. unfold CollectLuts in Hc.
  pose proof (CollectLuts_fold sigmap (cells module) []) as H. rewrite Hc in H.
  destruct H as (more & -> & Hall). cbn [app] in Hin.
  apply list_elem_of_lookup in Hin as [k Hk].
  destruct (Forall2_lookup_l _ _ _ _ _ Hall Hk) as (cell & Hcell & Hfrom & Hord).
  exists cell. split.
  { apply list_elem_of_lookup_2 in Hcell. by apply list_elem_of_filter in Hcell as [_ ?]. }
  split; [done|].
  assert (Hclosed : ordered_inputs lut
                    = omap (fun i => (fun sig => (port_name i, sigmap sig))
                              <$> cell_connections cell !! ("\" +:+ port_name i))
                           (seq 0 (Z.to_nat (size lut)))).
  { rewrite Hord. unfold collect_inputs. cbv zeta. apply collect_inputs_closed. lia. }
  split; [done|]. intros Hports.
  assert (Hmap : ordered_inputs lut
                 = (fun i => (port_name i,
                              sigmap (default (SigConst Sx)
                                        (cell_connections cell !! ("\" +:+ port_name i)))))
                     <$> seq 0 (Z.to_nat (size lut))).
  { rewrite Hclosed. clear -Hports.
    assert (G : ∀ l : list nat, (∀ i, i ∈ l -> is_Some (cell_connections cell !! ("\" +:+ port_name i))) ->
                omap (fun i => (fun sig => (port_name i, sigmap sig))
                          <$> cell_connections cell !! ("\" +:+ port_name i)) l
                = (fun i => (port_name i,
                             sigmap (default (SigConst Sx)
                                       (cell_connections cell !! ("\" +:+ port_name i))))) <$> l).
    { induction l as [|i l IH]; intros Hl; [done|].
      change (omap ?f (i :: l))
        with (match f i with Some y => y :: omap f l | None => omap f l end).
      rewrite fmap_cons. cbv beta.
      destruct (Hl i) as [sig Hsig]; [by left|]. rewrite Hsig.
      cbn [fmap option_fmap option_map default from_option id].
      f_equal. apply IH. intros j Hj. apply Hl. by right. }
    apply G. intros i Hi. apply Hports. apply elem_of_seq in Hi. lia. }
  split.
  - unfold fully_connected. rewrite Hmap, <- list_fmap_compose. done.
  - intros i Hi. unfold input_sigs. rewrite Hmap, <- list_fmap_compose.
    rewrite list_lookup_fmap, lookup_seq_lt by done. cbn.
    destruct (Hports i Hi) as [sig ->]. done.
Qed.

Lemma collected_inputs_in_port_order_witness :
  ∃ cell,
    cell ∈ cells module_xy ∧ collected_from (same_sig module_xy) lut_x cell ∧
    ordered_inputs lut_x
    = omap (fun i => (fun sig => (port_name i, same_sig module_xy sig))
                       <$> cell_connections cell !! ("\" +:+ port_name i))
           (seq 0 (Z.to_nat (size lut_x))) ∧
    ((∀ i, (i < Z.to_nat (size lut_x))%nat ->
           is_Some (cell_connections cell !! ("\" +:+ port_name i))) ->
     fully_connected lut_x ∧
     ∀ i, (i < Z.to_nat (size lut_x))%nat ->
          input_sigs lut_x !! i
          = same_sig module_xy <$> cell_connections cell !! ("\" +:+ port_name i)).
Proof.
  apply (collected_inputs_in_port_order (same_sig module_xy) module_xy [lut_x; lut_y] lut_x).
  - vm_compute. reflexivity.
  - by left.
  - vm_compute. discriminate.
Defined.

(** ** The planner: pairs of distinct, unclaimed LUTs *)

Lemma planned_names_snoc plans plan :
  planned_names (plans ++ [plan])
  = planned_names plans ++ [cell_a_to_remove plan; cell_b_to_remove plan].
Proof. unfold planned_names. rewrite bind_app. done. Qed.

Lemma length_planned_names plans : length (planned_names plans) = (2 * length plans)%nat.
Proof.
  induction plans as [|p plans IH]; [done|].
  unfold planned_names in *. cbn [mbind list_bind length app]. rewrite IH. lia.
Qed.

Section PlannerPairs.
Variable uniquify : Module -> IdString -> IdString.
Variable module : Module.

Lemma plan_iteration_pairs st c st' :
    NoDup (cell_ptr <$> st.1) -> idx_a c ≠ idx_b c ->
    plan_iteration uniquify module st c = Some st' ->
    pairs_inv st -> pairs_inv st' ∧ (length st'.2 <= S (length st.2))%nat.
  Proof.
    intros Hnd Hne H (Hnames & Hflag & Hsub). apply plan_iteration_cases in H
      as (a & b & Ha & Hb & [[_ ->]|(Hfa & Hfb & plan & Hplan & ->)]).
    { split; [done|lia]. }
    apply make_plan_names in Hplan as [Hna Hnb]. cbn [fst snd].
    assert (Hab : cell_ptr a ≠ cell_ptr b).
    { intros Heq. apply Hne. by eapply (ptr_index st.1). }
    assert (Hfresh : ∀ l, (l = a ∨ l = b) -> cell_ptr l ∉ planned_names st.2).
    { intros l Hl Hin. destruct Hl as [-> | ->].
      - apply (Hflag _ _ Ha) in Hin. congruence.
      - apply (Hflag _ _ Hb) in Hin. congruence. }
    split; [|rewrite length_app; simpl; lia]. unfold pairs_inv. cbn [fst snd].
    split; [|split].
    - rewrite planned_names_snoc, Hna, Hnb. apply NoDup_app. split; [done|]. split.
      + intros n Hn Hin. apply elem_of_cons in Hin as [->|Hin].
        * by apply (Hfresh a); [left|].
        * apply list_elem_of_singleton in Hin as ->. by apply (Hfresh b); [right|].
      + apply NoDup_cons. split; [|apply NoDup_singleton].
        intros Hin. by apply list_elem_of_singleton in Hin.
    - intros k lut'. rewrite (claim_both_lookup uniquify module).
      destruct (st.1 !! k) as [l|] eqn:Hk; [|done]. simpl. intros [= <-].
      rewrite planned_names_snoc, Hna, Hnb, elem_of_app, elem_of_cons,
        list_elem_of_singleton.
      case_decide as Hidx.
      + cbn [set_is_merged is_merged cell_ptr]. split; [|done]. intros _. right.
        destruct Hidx as [-> | ->]; [left|right]; congruence.
      + cbn [id]. rewrite (Hflag _ _ Hk). split; [by left|].
        intros [Hin|[Heq|Heq]]; [done| |]; exfalso; apply Hidx.
        * left. by eapply (ptr_index st.1).
        * right. by eapply (ptr_index st.1).
    - assert (Hp : cell_ptr <$> alter set_is_merged (idx_b c) (alter set_is_merged (idx_a c) st.1)
                   = cell_ptr <$> st.1).
      { apply list_eq. intros k. rewrite !list_lookup_fmap, (claim_both_lookup uniquify module).
        destruct (st.1 !! k); [|done]. simpl. by case_decide. }
      rewrite Hp, planned_names_snoc, Hna, Hnb. intros n Hn.
      apply elem_of_app in Hn as [Hn|Hn]; [by apply Hsub|].
      apply elem_of_cons in Hn as [->|Hn].
      + apply list_elem_of_fmap. exists a. split; [done|]. by eapply list_elem_of_lookup_2.
      + apply list_elem_of_singleton in Hn as ->.
        apply list_elem_of_fmap. exists b. split; [done|]. by eapply list_elem_of_lookup_2.
  Qed.

Lemma PlanMerges_loop_pairs st popped st' :
    NoDup (cell_ptr <$> st.1) -> Forall (fun c => idx_a c ≠ idx_b c) popped ->
    PlanMerges_loop uniquify module st popped = Some st' ->
    pairs_inv st -> pairs_inv st' ∧ (length st'.2 <= length st.2 + length popped)%nat.
  Proof.
    revert st. induction popped as [|c popped IH]; intros st Hnd Hall; simpl.
    - intros [= <-] Hinv. split; [done|lia].
    - destruct (plan_iteration uniquify module st c) as [st1|] eqn:E; [|done]. simpl.
      apply Forall_cons in Hall as [Hc Hall]. intros H Hinv.
      destruct (plan_iteration_pairs _ _ _ Hnd Hc E Hinv) as [Hinv1 Hlen1].
      destruct (IH st1) as [Hinv' Hlen']; try done.
      { by rewrite (plan_iteration_ptrs _ _ _ _ _ E). }
      split; [done|lia].
  Qed.
End PlannerPairs.

(** X6. Started on unclaimed records with distinct cells and candidates
    that pair two different indices, the planner schedules 2 * (number of
    plans) different cells for removal: a plan names two different LUTs, no
    cell is named twice, and at the end the merged flag is set on exactly
    the records some plan names.  So at most half of the LUTs' count is
    planned, and never more plans than candidates. *)
Theorem planner_pairs_distinct_luts (uniquify : Module -> IdString -> IdString)
    (module : Module) (luts : list LutInfo) (candidates : list MergeCandidate)
    (luts' : list LutInfo) (plans : list MergePlan) :
  NoDup (cell_ptr <$> luts) ->
  Forall (fun lut => is_merged lut = false) luts ->
  Forall (fun c => idx_a c ≠ idx_b c) candidates ->
  PlanMerges uniquify module luts candidates = Some (luts', plans) ->
  NoDup (planned_names plans) ∧
  (∀ lut, lut ∈ luts' -> (is_merged lut = true <-> cell_ptr lut ∈ planned_names plans)) ∧
  planned_names plans ⊆ cell_ptr <$> luts ∧
  (2 * length plans <= length luts)%nat ∧
  (length plans <= length candidates)%nat.
Proof.
  intros Hnd Hfresh Hidx Hrun. unfold PlanMerges in Hrun.
  assert (Hperm : pop_order candidates ≡ₚ candidates) by apply merge_sort_Permutation.
  destruct (PlanMerges_loop_pairs uniquify module (luts, []) (pop_order candidates)
              (luts', plans)) as [(Hnames & Hflag & Hsub) Hlen]; try done.
  { by rewrite Hperm. }
  { split; [constructor|]. cbn [fst snd]. split.
    - intros k lut Hk.
      rewrite Forall_forall in Hfresh. rewrite (Hfresh lut) by (by eapply list_elem_of_lookup_2).
      split; [done|]. intros Hin. by apply elem_of_nil in Hin.
    - intros n Hn. by apply elem_of_nil in Hn. }
  cbn [fst snd] in *.
  pose proof (PlanMerges_loop_ptrs _ _ _ _ _ Hrun) as Hptrs. cbn [fst] in Hptrs.
  rewrite Hptrs in Hsub.
  split; [done|]. split.
  { intros lut Hin. apply list_elem_of_lookup in Hin as [k Hk]. by eapply Hflag. }
  split; [done|]. split.
  - apply NoDup_submseteq in Hsub; [|done]. apply submseteq_length in Hsub.
    rewrite length_planned_names, length_fmap in Hsub. done.
  - rewrite Hperm in Hlen. simpl in Hlen. done.
Qed.

Lemma planner_pairs_distinct_luts_witness :
  NoDup (planned_names planned_xy.2) ∧
  (∀ lut, lut ∈ planned_xy.1 ->
          (is_merged lut = true <-> cell_ptr lut ∈ planned_names planned_xy.2)) ∧
  planned_names planned_xy.2 ⊆ cell_ptr <$> [lut_x; lut_y] ∧
  (2 * length planned_xy.2 <= length [lut_x; lut_y])%nat ∧
  (length planned_xy.2 <= length (FindMergeCandidates_Global [lut_x; lut_y]))%nat.
Proof.
  apply (planner_pairs_distinct_luts keep_name (mkModule []) [lut_x; lut_y]
           (FindMergeCandidates_Global [lut_x; lut_y])).
  - apply (bool_decide_unpack _). vm_compute. exact I.
  - repeat constructor.
  - apply (bool_decide_unpack _). vm_compute. exact I.
  - vm_compute. reflexivity.
Defined.

(** ** The partition by level and the pairs of the layered search *)

Lemma level_of_index_app_l luts x lv i :
  (i < length luts)%nat ->
  level_of_index (luts ++ [x]) lv i = level_of_index luts lv i.
Proof. intros Hi. unfold level_of_index. by rewrite lookup_app_l. Qed.

Lemma level_bucket_snoc luts x lv L :
  level_bucket (luts ++ [x]) lv L
  = level_bucket luts lv L
    ++ (if decide (lv !! cell_ptr x = Some L) then [length luts] else []).
Proof.
  unfold level_bucket. rewrite length_app. cbn [length].
  rewrite Nat.add_1_r, seq_S, filter_app. cbn [Nat.add]. f_equal.
  - apply filter_ext_elem. intros i Hi. cbv beta.
    apply elem_of_seq in Hi. rewrite level_of_index_app_l by lia. done.
  - rewrite filter_cons, filter_nil. unfold level_of_index.
    rewrite lookup_app_r, Nat.sub_diag by lia. cbn [lookup list_lookup mbind option_bind].
    destruct (decide (lv !! cell_ptr x = Some L)); done.
Qed.

Lemma partition_by_level_snoc luts x lv :
  partition_by_level (luts ++ [x]) lv
  = match lv !! cell_ptr x with
    | Some level =>
        <[level := default [] (partition_by_level luts lv !! level) ++ [length luts]]>
          (partition_by_level luts lv)
    | None => partition_by_level luts lv
    end.
Proof.
  unfold partition_by_level. rewrite imap_app, foldl_app. cbn [imap foldl].
  by rewrite Nat.add_0_r.
Qed.

Lemma partition_by_level_lookup (luts : list LutInfo) (lut_levels : gmap IdString Z)
    (level : Z) :
  partition_by_level luts lut_levels !! level
  = (if decide (level_bucket luts lut_levels level = []) then None
     else Some (level_bucket luts lut_levels level)).
Proof.
  induction luts as [|x luts IH] using rev_ind.
  - unfold partition_by_level, level_bucket. cbn [length seq imap foldl].
    rewrite lookup_empty, filter_nil. by rewrite decide_True.
  - rewrite partition_by_level_snoc, level_bucket_snoc.
    destruct (lut_levels !! cell_ptr x) as [Lx|] eqn:Ex.
    + destruct (decide (Lx = level)) as [->|Hne].
      * rewrite lookup_insert_eq, IH.
        rewrite (decide_True (P := Some level = Some level)) by done.
        rewrite (decide_False (P := _ ++ [_] = [])) by (by intros H%app_eq_nil; destruct H).
        f_equal. f_equal. by destruct (decide (level_bucket luts lut_levels level = [])).
      * rewrite lookup_insert_ne by done. rewrite IH.
        rewrite (decide_False (P := Some Lx = Some level)) by congruence.
        by rewrite app_nil_r.
    + rewrite IH, (decide_False (P := None = Some level)) by done. by rewrite app_nil_r.
Qed.

Lemma elem_of_level_bucket luts lv L i :
  i ∈ level_bucket luts lv L <-> level_of_index luts lv i = Some L.
Proof.
  unfold level_bucket. rewrite list_elem_of_filter, elem_of_seq. split; [by intros [? _]|].
  intros H. split; [done|]. unfold level_of_index in H.
  destruct (luts !! i) eqn:E; [|done]. apply lookup_lt_Some in E. lia.
Qed.

Lemma partition_lookup_Some luts lv L b :
  partition_by_level luts lv !! L = Some b -> b = level_bucket luts lv L.
Proof.
  rewrite partition_by_level_lookup. case_decide; [done|]. by intros [= <-].
Qed.

Lemma NoDup_level_bucket luts lv L : NoDup (level_bucket luts lv L).
Proof. unfold level_bucket. apply NoDup_filter, NoDup_seq. Qed.

(** X7. The partition built in [StitcherMain] is the partition of the
    leveled LUT indices by level: the bucket of a level holds, in ascending
    order and once each, exactly the indices whose LUT has that level, and a
    level without LUTs has no bucket (so no bucket is empty).  An index is in
    the bucket of a level exactly when its LUT has that level, hence in at
    most one bucket, and a LUT without a level is in none. *)
Theorem partition_by_level_buckets (luts : list LutInfo) (lut_levels : gmap IdString Z) :
  (∀ level,
     partition_by_level luts lut_levels !! level
     = (if decide (level_bucket luts lut_levels level = []) then None
        else Some (level_bucket luts lut_levels level))) ∧
  (∀ level bucket i,
     partition_by_level luts lut_levels !! level = Some bucket ->
     bucket ≠ [] ∧ NoDup bucket ∧
     (i ∈ bucket <->
      ∃ lut, luts !! i = Some lut ∧ lut_levels !! cell_ptr lut = Some level)) ∧
  (∀ level level' bucket bucket' i,
     partition_by_level luts lut_levels !! level = Some bucket ->
     partition_by_level luts lut_levels !! level' = Some bucket' ->
     i ∈ bucket -> i ∈ bucket' -> level = level').
Proof.
  split; [apply partition_by_level_lookup|]. split.
  - intros level bucket i Hb. pose proof Hb as Hb'.
    rewrite partition_by_level_lookup in Hb'. case_decide as Hne; [done|].
    injection Hb' as <-. split; [done|]. split; [apply NoDup_level_bucket|].
    rewrite elem_of_level_bucket. unfold level_of_index.
    destruct (luts !! i) as [lut|]; cbn [mbind option_bind].
    + split; [eauto|]. by intros (l & [= <-] & ?).
    + split; [done|]. by intros (l & [=] & _).
  - intros level level' bucket bucket' i Hb Hb' Hi Hi'.
    apply partition_lookup_Some in Hb as ->. apply partition_lookup_Some in Hb' as ->.
    apply elem_of_level_bucket in Hi, Hi'. congruence.
Qed.

Lemma elem_of_layered_pairs luts lv L p :
  p ∈ layered_pairs (partition_by_level luts lv) L ->
  p.1 ≠ p.2 ∧
  level_of_index luts lv p.1 = Some L ∧
  (level_of_index luts lv p.2 = Some L ∨ level_of_index luts lv p.2 = Some (L + 1)).
Proof.
  unfold layered_pairs. rewrite elem_of_app. intros [H|H].
  - apply list_elem_of_fmap in H as ([i j] & -> & Hij).
    apply elem_of_upper_pairs in Hij. cbn [fst snd].
    destruct (partition_by_level luts lv !! L) as [b|] eqn:Eb; cbn [default from_option id] in *.
    2:{ simpl in Hij. lia. }
    apply partition_lookup_Some in Eb as ->.
    destruct (lookup_lt_is_Some_2 (level_bucket luts lv L) i) as [x Hx]; [lia|].
    destruct (lookup_lt_is_Some_2 (level_bucket luts lv L) j) as [y Hy]; [lia|].
    rewrite Hx, Hy. cbn [default from_option id]. split.
    + intros ->. pose proof (NoDup_lookup _ _ _ _ (NoDup_level_bucket luts lv L) Hx Hy). lia.
    + split; [|left]; apply elem_of_level_bucket; by eapply list_elem_of_lookup_2.
  - destruct (partition_by_level luts lv !! (L + 1)) as [bn|] eqn:En;
      [|by apply elem_of_nil in H].
    apply partition_lookup_Some in En as ->.
    apply list_elem_of_bind in H as (x & H & Hx).
    apply list_elem_of_fmap in H as (y & -> & Hy). cbn [fst snd].
    destruct (partition_by_level luts lv !! L) as [b|] eqn:Eb; cbn [default from_option id] in *;
      [|by apply elem_of_nil in Hx].
    apply partition_lookup_Some in Eb as ->.
    apply elem_of_level_bucket in Hx, Hy. split; [|split; [done|by right]].
    intros ->. rewrite Hx in Hy. injection Hy as Hy. lia.
Qed.

Lemma layered_candidate_levels (luts : list LutInfo)
    (lut_levels : gmap IdString Z) (c : MergeCandidate) :
  c ∈ FindMergeCandidates_Layered luts (partition_by_level luts lut_levels) ->
  (idx_a c < length luts)%nat ∧ (idx_b c < length luts)%nat ∧ idx_a c ≠ idx_b c ∧
  ∃ level_a level_b,
    level_of_index luts lut_levels (idx_a c) = Some level_a ∧
    level_of_index luts lut_levels (idx_b c) = Some level_b ∧
    -1 <= level_b - level_a <= 1.
Proof.
  intros Hc. apply elem_of_FindMergeCandidates_Layered in Hc as (L & p & _ & Hp & Hc).
  apply elem_of_layered_pairs in Hp as (Hne & Ha & Hb).
  assert (Hidx : (idx_a c = p.1 ∧ idx_b c = p.2) ∨ (idx_a c = p.2 ∧ idx_b c = p.1)).
  { unfold layered_checks in Hc. rewrite !elem_of_app in Hc.
    destruct Hc as [Hc|[Hc|Hc]]; apply elem_of_on_pair in Hc as (a & b & _ & _ & Hc).
    - apply elem_of_check_shared_inputs in Hc as (-> & _). by left.
    - apply elem_of_check_lut6_absorb in Hc as (_ & _ & _ & sel & _ & ->). by left.
    - apply elem_of_check_lut6_absorb in Hc as (_ & _ & _ & sel & _ & ->). by right. }
  assert (Hlt : ∀ i L', level_of_index luts lut_levels i = Some L' -> (i < length luts)%nat).
  { intros i L' H. unfold level_of_index in H. destruct (luts !! i) eqn:E; [|done].
    by apply lookup_lt_Some in E. }
  destruct Hidx as [[-> ->]|[-> ->]].
  - split; [by eapply Hlt|]. split; [destruct Hb; by eapply Hlt|]. split; [done|].
    destruct Hb as [Hb|Hb]; eexists _, _; (split; [exact Ha|]); (split; [exact Hb|]); lia.
  - split; [destruct Hb; by eapply Hlt|]. split; [by eapply Hlt|]. split; [done|].
    destruct Hb as [Hb|Hb]; eexists _, _; (split; [exact Hb|]); (split; [exact Ha|]); lia.
Qed.

(** X8. The layered search only pairs LUTs of the same level or of two
    consecutive levels: for every candidate it emits from the partition by
    level, both indices lie inside the LUT vector, they differ, both LUTs
    have a level, and the two levels differ by at most one.  In particular
    a LUT without a level is in no candidate. *)
Theorem layered_candidates_adjacent_levels (luts : list LutInfo)
    (lut_levels : gmap IdString Z) (c : MergeCandidate) :
  c ∈ FindMergeCandidates_Layered luts (partition_by_level luts lut_levels) ->
  ∃ lut_a lut_b level_a level_b,
    luts !! idx_a c = Some lut_a ∧ luts !! idx_b c = Some lut_b ∧
    idx_a c ≠ idx_b c ∧
    lut_levels !! cell_ptr lut_a = Some level_a ∧
    lut_levels !! cell_ptr lut_b = Some level_b ∧
    -1 <= level_b - level_a <= 1.
Proof.
  intros Hc.
  destruct (layered_candidate_levels luts lut_levels c Hc)
    as (_ & _ & Hne & la & lb & Ha & Hb & Hd).
  unfold level_of_index in Ha, Hb.
  destruct (luts !! idx_a c) as [a|] eqn:Ea; [|done].
  destruct (luts !! idx_b c) as [b|] eqn:Eb; [|done].
  cbn [mbind option_bind] in Ha, Hb. exists a, b, la, lb. done.
Qed.

Lemma layered_candidates_adjacent_levels_witness :
  let c := shared_candidate 1 3 cyc_c1 cyc_d in
  ∃ lut_a lut_b level_a level_b,
    cyc4 !! idx_a c = Some lut_a ∧ cyc4 !! idx_b c = Some lut_b ∧
    idx_a c ≠ idx_b c ∧
    cyc4_levels !! cell_ptr lut_a = Some level_a ∧
    cyc4_levels !! cell_ptr lut_b = Some level_b ∧
    -1 <= level_b - level_a <= 1.
Proof.
  apply (layered_candidates_adjacent_levels cyc4 cyc4_levels
           (shared_candidate 1 3 cyc_c1 cyc_d)).
  vm_compute. apply list_elem_of_further, list_elem_of_here.
Defined.

(** ** The planner never reads outside its vectors *)

Lemma length_shared_inputs_vec u : (6 <= length (shared_inputs_vec u))%nat.
Proof.
  unfold shared_inputs_vec. rewrite !length_app, length_replicate. simpl. lia.
Qed.

Lemma length_swap_sel_to_last v sel : length (swap_sel_to_last v sel) = length v.
Proof.
  unfold swap_sel_to_last. destruct (find_index v sel) as [k|]; [|done].
  destruct (v !! k), (v !! (length v - 1)%nat); try done.
  by rewrite !length_insert.
Qed.

Lemma input_ports_is_Some v : (6 <= length v)%nat -> is_Some (input_ports v).
Proof.
  intros Hlen. unfold input_ports.
  destruct v as [|x0 [|x1 [|x2 [|x3 [|x4 [|x5 v']]]]]]; simpl in Hlen; try lia.
  cbn. eauto.
Qed.

Section PlannerTotal.
Variable uniquify : Module -> IdString -> IdString.
Variable module : Module.

Lemma make_plan_is_Some lut_a lut_b c :
    (type c = LUT6_ABSORB ->
     (6 <= length (ordered_inputs (if decide (size lut_a = 6)%Z then lut_a else lut_b)))%nat) ->
    is_Some (make_plan uniquify module lut_a lut_b c).
  Proof.
    intros Habs. unfold make_plan.
    assert (Hlen : (6 <= length (new_inputs_of lut_a lut_b c).1)%nat).
    { unfold new_inputs_of. destruct (type c) eqn:Et; cbn [fst].
      - apply length_shared_inputs_vec.
      - rewrite length_swap_sel_to_last. unfold input_sigs. rewrite length_fmap.
        by apply Habs. }
    destruct (new_inputs_of lut_a lut_b c) as [v sel]. cbn [fst] in Hlen.
    unfold calculate_new_init. rewrite decide_True by lia. cbn [mbind option_bind].
    destruct (input_ports_is_Some v Hlen) as [ports ->]. cbn [mbind option_bind]. eauto.
  Qed.

Lemma plan_iteration_static st c st' :
    plan_iteration uniquify module st c = Some st' ->
    lut_static <$> st'.1 = lut_static <$> st.1.
  Proof.
    intros H. apply plan_iteration_cases in H
      as (a & b & _ & _ & [[_ ->]|(_ & _ & plan & _ & ->)]); [done|].
    apply list_eq. intros k. cbn [fst].
    rewrite !list_lookup_fmap, (claim_both_lookup uniquify module).
    destruct (st.1 !! k); [|done]. simpl. by case_decide.
  Qed.

Lemma plannable_static luts luts' c :
    lut_static <$> luts' = lut_static <$> luts -> plannable luts c -> plannable luts' c.
  Proof.
    intros Heq. unfold plannable.
    assert (Hk : ∀ k, lut_static <$> luts' !! k = lut_static <$> luts !! k).
    { intros k. by rewrite <- !list_lookup_fmap, Heq. }
    pose proof (Hk (idx_a c)) as Ea. pose proof (Hk (idx_b c)) as Eb.
    destruct (luts !! idx_a c) as [a|], (luts !! idx_b c) as [b|]; try done.
    destruct (luts' !! idx_a c) as [a'|], (luts' !! idx_b c) as [b'|]; try done.
    cbn in Ea, Eb. unfold lut_static in Ea, Eb.
    injection Ea as _ Esa Eoa _ _. injection Eb as _ Esb Eob _ _.
    intros Habs Ht. specialize (Habs Ht).
    rewrite Esa. destruct (decide (size a = 6)); congruence.
  Qed.

Lemma plan_iteration_is_Some st c :
    plannable st.1 c -> is_Some (plan_iteration uniquify module st c).
  Proof.
    unfold plannable, plan_iteration.
    destruct (st.1 !! idx_a c) as [a|], (st.1 !! idx_b c) as [b|]; try done.
    intros Habs. cbn [mbind option_bind].
    destruct (is_merged a || is_merged b); [eauto|].
    destruct (make_plan_is_Some a b c Habs) as [plan ->]. cbn [mbind option_bind]. eauto.
  Qed.

Lemma PlanMerges_loop_is_Some st popped :
    Forall (plannable st.1) popped ->
    is_Some (PlanMerges_loop uniquify module st popped).
  Proof.
    revert st. induction popped as [|c popped IH]; intros st Hall; cbn [PlanMerges_loop].
    - eauto.
    - apply Forall_cons in Hall as [Hc Hall].
      destruct (plan_iteration_is_Some st c Hc) as [st1 E]. rewrite E.
      cbn [mbind option_bind]. apply IH.
      eapply Forall_impl; [exact Hall|]. intros c'. apply plannable_static.
      by eapply plan_iteration_static.
  Qed.

Lemma PlanMerges_loop_static st popped st' :
    PlanMerges_loop uniquify module st popped = Some st' ->
    lut_static <$> st'.1 = lut_static <$> st.1.
  Proof.
    revert st. induction popped as [|c popped IH]; intros st; simpl.
    - by intros [= <-].
    - destruct (plan_iteration uniquify module st c) as [st1|] eqn:E; [|done]. simpl.
      intros H. rewrite (IH _ H). by eapply plan_iteration_static.
  Qed.
End PlannerTotal.

(** X9. [PlanMerges] runs to the end of the queue whenever every
    candidate is plannable: its indices lie inside the LUT vector and, for an
    ABSORB, the LUT that supplies the six lines has six connected inputs.
    Under that condition no read of [luts] or of [new_inputs_vec] is out of
    bounds.  The LUT vector it returns differs from the one it was given
    only in merged flags. *)
Theorem PlanMerges_total (uniquify : Module -> IdString -> IdString) (module : Module)
    (luts : list LutInfo) (candidates : list MergeCandidate) :
  Forall (plannable luts) candidates ->
  ∃ luts' plans,
    PlanMerges uniquify module luts candidates = Some (luts', plans) ∧
    lut_static <$> luts' = lut_static <$> luts ∧
    ∀ k lut lut', luts !! k = Some lut -> luts' !! k = Some lut' ->
                  is_merged lut = true -> is_merged lut' = true.
Proof.
  intros Hall. unfold PlanMerges.
  destruct (PlanMerges_loop_is_Some uniquify module (luts, []) (pop_order candidates))
    as [[luts' plans] Hrun].
  { cbn [fst]. unfold pop_order. by rewrite merge_sort_Permutation. }
  exists luts', plans. split; [done|]. split.
  - by apply (PlanMerges_loop_static uniquify module (luts, []) (pop_order candidates)
                (luts', plans)).
  - intros k lut lut' Hk Hk' Hm.
    pose proof (PlanMerges_loop_monotone uniquify module _ _ _ k Hrun) as Hmono.
    unfold claimed in Hmono. cbn [fst] in Hmono. rewrite Hk, Hk' in Hmono.
    cbn in Hmono. rewrite Hm in Hmono. by injection (Hmono eq_refl).
Qed.

Lemma PlanMerges_total_witness :
  ∃ luts' plans,
    PlanMerges keep_name (mkModule []) [lut_six; lut_and5]
               (FindMergeCandidates_Global [lut_six; lut_and5]) = Some (luts', plans) ∧
    lut_static <$> luts' = lut_static <$> [lut_six; lut_and5] ∧
    ∀ k lut lut', [lut_six; lut_and5] !! k = Some lut -> luts' !! k = Some lut' ->
                  is_merged lut = true -> is_merged lut' = true.
Proof.
  apply (PlanMerges_total keep_name (mkModule []) [lut_six; lut_and5]).
  apply (bool_decide_unpack _). vm_compute. exact I.
Defined.

(** ** The pass: what the searches hand to the planner *)

Lemma global_candidate_indices luts c :
  c ∈ FindMergeCandidates_Global luts ->
  ∃ lut_a lut_b, luts !! idx_a c = Some lut_a ∧ luts !! idx_b c = Some lut_b ∧
                 idx_a c ≠ idx_b c ∧ (type c = LUT6_ABSORB -> size lut_a = 6).
Proof.
  intros Hc. apply elem_of_FindMergeCandidates_Global in Hc
    as [(i & j & a & b & Hij & Ha & Hb & Hc)|(i & j & a & b & Hij & Ha & Hb & H6 & Hc)].
  - apply elem_of_global_shared_check in Hc as (-> & _). cbn [shared_candidate idx_a idx_b type].
    exists a, b. repeat split; try done. lia.
  - apply elem_of_global_absorb_check in Hc as (_ & sel & _ & ->). cbn [idx_a idx_b type].
    exists a, b. repeat split; done.
Qed.

Lemma layered_candidate_indices luts (lv : gmap Z (list nat)) c :
  c ∈ FindMergeCandidates_Layered luts lv ->
  ∃ lut_a lut_b, luts !! idx_a c = Some lut_a ∧ luts !! idx_b c = Some lut_b ∧
                 (type c = LUT6_ABSORB -> size lut_a = 6).
Proof.
  intros Hc. apply elem_of_FindMergeCandidates_Layered in Hc as (L & p & _ & _ & Hc).
  unfold layered_checks in Hc. rewrite !elem_of_app in Hc.
  destruct Hc as [Hc|[Hc|Hc]]; apply elem_of_on_pair in Hc as (a & b & Ha & Hb & Hc).
  - apply elem_of_check_shared_inputs in Hc as (-> & _). exists a, b. done.
  - apply elem_of_check_lut6_absorb in Hc as (H6 & _ & _ & sel & _ & ->). exists a, b. done.
  - apply elem_of_check_lut6_absorb in Hc as (H6 & _ & _ & sel & _ & ->). exists a, b. done.
Qed.

Lemma plannable_intro luts c lut_a lut_b :
  (∀ lut, lut ∈ luts -> size lut = 6 -> length (ordered_inputs lut) = 6%nat) ->
  luts !! idx_a c = Some lut_a -> luts !! idx_b c = Some lut_b ->
  (type c = LUT6_ABSORB -> size lut_a = 6) ->
  plannable luts c.
Proof.
  intros Hsix Ha Hb H6. unfold plannable. rewrite Ha, Hb. intros Ht.
  rewrite decide_True by auto. rewrite (Hsix lut_a); [done| |auto].
  by eapply list_elem_of_lookup_2.
Qed.

Lemma find_candidates_cases luts cands slog :
  find_candidates luts = Some (cands, slog) ->
  cands = FindMergeCandidates_Global luts ∨
  ∃ lv, NumberLutsByLevel luts = Some lv ∧
        cands = FindMergeCandidates_Layered luts (partition_by_level luts (levels_of lv)).
Proof.
  unfold find_candidates. case_decide.
  - intros [= <- _]. by left.
  - destruct (NumberLutsByLevel luts) as [lv|]; [|done]. cbn [mbind option_bind].
    intros [= <- _]. right. eauto.
Qed.

Lemma find_candidates_indices luts cands slog :
  find_candidates luts = Some (cands, slog) ->
  Forall (fun c => idx_a c ≠ idx_b c) cands ∧
  ((∀ lut, lut ∈ luts -> size lut = 6 -> length (ordered_inputs lut) = 6%nat) ->
   Forall (plannable luts) cands).
Proof.
  intros H. apply find_candidates_cases in H as [->|(lv & _ & ->)].
  - split.
    + apply Forall_forall. intros c Hc.
      by apply global_candidate_indices in Hc as (a & b & _ & _ & Hne & _).
    + intros Hsix. apply Forall_forall. intros c Hc.
      apply global_candidate_indices in Hc as (a & b & Ha & Hb & _ & H6).
      by eapply plannable_intro.
  - split.
    + apply Forall_forall. intros c Hc.
      by apply layered_candidate_levels in Hc as (_ & _ & Hne & _).
    + intros Hsix. apply Forall_forall. intros c Hc.
      apply layered_candidate_indices in Hc as (a & b & Ha & Hb & H6).
      by eapply plannable_intro.
Qed.

(** One run of the pass, stage by stage. *)
Lemma StitcherMain_run uniquify SigMap module r :
  StitcherMain uniquify SigMap module = Some r ->
  ∃ luts cands slog luts' plans kept,
    CollectLuts (SigMap module) module = Some luts ∧
    find_candidates luts = Some (cands, slog) ∧
    PlanMerges uniquify module luts cands = Some (luts', plans) ∧
    cells (result_module r) = reverse (fused_cell <$> plans) ++ kept ∧
    (NoDup (cell_names module) ->
     kept ≡ₚ filter (fun c => cell_name c ∉ cell_names_to_remove plans) (cells module)) ∧
    result_events r
    = (EvRemove <$> filter (fun n => n ∈ cell_names module) (cell_names_to_remove plans))
      ++ (EvAddCell <$> (new_cell_name <$> plans)) ∧
    result_log r
    = [LogCollected (length luts)] ++ slog
      ++ match plans with
         | [] => [LogNoValidMerges]
         | _ => [LogPlanned (length plans); LogPerformed (length plans)]
         end.
Proof.
  unfold StitcherMain. intros H.
  destruct (CollectLuts (SigMap module) module) as [luts|] eqn:Ec; [|done].
  cbn [mbind option_bind] in H.
  destruct (find_candidates luts) as [[cands slog]|] eqn:Ef; [|done].
  cbn [mbind option_bind] in H.
  destruct (PlanMerges uniquify module luts cands) as [[luts' plans]|] eqn:Ep; [|done].
  cbn [mbind option_bind] in H.
  exists luts, cands, slog, luts', plans.
  destruct plans as [|p plans].
  - injection H as <-. exists (cells module). cbn [result_module result_events result_log].
    do 4 (split; [done|]). split; [|split; [done|reflexivity]].
    intros _. rewrite filter_all; [done|]. intros c _ Hin. by apply elem_of_nil in Hin.
  - destruct (ExecuteMerges module (p :: plans)) as [cm|] eqn:Ex; [|done].
    cbn [mbind option_bind] in H. injection H as <-.
    destruct (ExecuteMerges_run _ _ _ Ex) as (kept & -> & _ & _ & _ & Hkept).
    exists kept. cbn [result_module result_events result_log module_after events performed
                        cells].
    do 6 (split; [done|]). reflexivity.
Qed.

(** ** The pass: cells kept, cells replaced *)

Lemma CollectLuts_cells sigmap module luts :
  CollectLuts sigmap module = Some luts ->
  Forall (fun lut => is_merged lut = false ∧
                     ∃ cell, cell ∈ cells module ∧ is_lut_cell cell ∧
                             cell_name cell = cell_ptr lut) luts.
Proof.
  intros Hc. pose proof (CollectLuts_fold sigmap (cells module) []) as H.
  unfold CollectLuts in Hc. rewrite Hc in H. destruct H as (more & -> & Hall).
  cbn [app]. apply Forall_forall. intros lut Hin.
  apply list_elem_of_lookup in Hin as [k Hk].
  destruct (Forall2_lookup_l _ _ _ _ _ Hall Hk) as (cell & Hcell & Hfrom & _).
  destruct Hfrom as (Hn & _ & _ & _ & Hm & _). split; [done|].
  apply list_elem_of_lookup_2, list_elem_of_filter in Hcell as [Hl Hin]. eauto.
Qed.

Lemma elem_of_planned_names plans n :
  n ∈ planned_names plans <-> ∃ plan, plan ∈ plans ∧ names_cell plan n.
Proof.
  unfold planned_names, names_cell. rewrite list_elem_of_bind. split.
  - intros (plan & Hn & Hp). exists plan. split; [done|].
    apply elem_of_cons in Hn as [->|Hn]; [by left|].
    apply list_elem_of_singleton in Hn as ->. by right.
  - intros (plan & Hp & [-> | ->]); exists plan; (split; [|done]).
    + by left.
    + by right; left.
Qed.

Lemma cell_names_to_remove_planned plans :
  NoDup (planned_names plans) -> cell_names_to_remove plans ≡ₚ planned_names plans.
Proof.
  intros Hnd. apply NoDup_Permutation; [apply NoDup_cell_names_to_remove|done|].
  intros n. by rewrite elem_of_cell_names_to_remove, elem_of_planned_names.
Qed.

Lemma length_filter_split {A} (P : A -> Prop) `{!∀ x, Decision (P x)} (l : list A) :
  (length (filter P l) + length (filter (fun x => ¬ P x) l) = length l)%nat.
Proof.
  induction l as [|x l IH]; [done|]. rewrite !filter_cons.
  destruct (decide (P x)); [rewrite decide_False by tauto|rewrite decide_True by done];
    simpl; lia.
Qed.

Lemma length_filter_named (cs : list Cell) (R : list IdString) :
  NoDup (cell_name <$> cs) -> NoDup R -> R ⊆ cell_name <$> cs ->
  (length (filter (fun c => cell_name c ∉ R) cs) + length R = length cs)%nat.
Proof.
  intros Hcs HR Hsub.
  assert (Hperm : cell_name <$> filter (fun c => cell_name c ∈ R) cs ≡ₚ R).
  { apply NoDup_Permutation; [|done|].
    - eapply sublist_NoDup; [exact Hcs|]. apply fmap_sublist, sublist_filter.
    - intros n. rewrite list_elem_of_fmap. split.
      + intros (c & -> & Hc). by apply list_elem_of_filter in Hc as [? _].
      + intros Hn. destruct (proj1 (list_elem_of_fmap _ _ _) (Hsub n Hn)) as (c & -> & Hc).
        exists c. split; [done|]. by apply list_elem_of_filter. }
  apply Permutation_length in Hperm. rewrite length_fmap in Hperm.
  pose proof (length_filter_split (fun c => cell_name c ∈ R) cs) as Hsplit.
  rewrite Hperm in Hsplit. lia.
Qed.

(** What one run leaves behind, in terms of its plans. *)
Lemma StitcherMain_plans uniquify SigMap module r :
  NoDup (cell_names module) ->
  StitcherMain uniquify SigMap module = Some r ->
  ∃ luts cands slog luts' plans kept,
    CollectLuts (SigMap module) module = Some luts ∧
    find_candidates luts = Some (cands, slog) ∧
    PlanMerges uniquify module luts cands = Some (luts', plans) ∧
    NoDup (cell_names_to_remove plans) ∧
    length (cell_names_to_remove plans) = (2 * length plans)%nat ∧
    (∀ n, n ∈ cell_names_to_remove plans ->
          ∃ cell, cell ∈ cells module ∧ is_lut_cell cell ∧ cell_name cell = n) ∧
    cells (result_module r) = reverse (fused_cell <$> plans) ++ kept ∧
    kept ≡ₚ filter (fun c => cell_name c ∉ cell_names_to_remove plans) (cells module) ∧
    result_events r
    = (EvRemove <$> cell_names_to_remove plans) ++ (EvAddCell <$> (new_cell_name <$> plans)) ∧
    (∀ n, LogPerformed n ∈ result_log r -> n = length plans).
Proof.
  intros Hnd Hrun.
  destruct (StitcherMain_run _ _ _ _ Hrun)
    as (luts & cands & slog & luts' & plans & kept & Hc & Hf & Hp & Hcells & Hkept & Hev & Hlog).
  pose proof (CollectLuts_cells _ _ _ Hc) as Hluts.
  pose proof (CollectLuts_distinct _ _ _ Hnd Hc) as Hptr.
  destruct (find_candidates_indices _ _ _ Hf) as [Hidx _].
  destruct (PlanMerges_loop_pairs uniquify module (luts, []) (pop_order cands) (luts', plans))
    as [(Hnames & _ & Hsub) _]; try done.
  { unfold pop_order. by rewrite merge_sort_Permutation. }
  { split; [constructor|]. cbn [fst snd]. split.
    - intros k lut Hk. rewrite Forall_forall in Hluts.
      destruct (Hluts lut) as [-> _]; [by eapply list_elem_of_lookup_2|].
      split; [done|]. intros Hin. by apply elem_of_nil in Hin.
    - intros n Hn. by apply elem_of_nil in Hn. }
  cbn [fst snd] in Hnames, Hsub.
  pose proof (PlanMerges_loop_ptrs _ _ _ _ _ Hp) as Hptrs. cbn [fst] in Hptrs.
  rewrite Hptrs in Hsub.
  pose proof (cell_names_to_remove_planned plans Hnames) as Hperm.
  assert (Hcell : ∀ n, n ∈ cell_names_to_remove plans ->
                       ∃ cell, cell ∈ cells module ∧ is_lut_cell cell ∧ cell_name cell = n).
  { intros n Hn. rewrite Hperm in Hn. apply Hsub in Hn.
    apply list_elem_of_fmap in Hn as (lut & -> & Hlut).
    rewrite Forall_forall in Hluts. by destruct (Hluts lut Hlut) as [_ ?]. }
  exists luts, cands, slog, luts', plans, kept. do 3 (split; [done|]).
  split; [apply NoDup_cell_names_to_remove|]. split.
  { by rewrite Hperm, length_planned_names. }
  split; [done|]. split; [done|]. split; [by apply Hkept|]. split.
  - rewrite Hev. f_equal. f_equal.
    apply filter_all. intros n Hn. destruct (Hcell n Hn) as (cell & Hin & _ & <-).
    unfold cell_names. apply list_elem_of_fmap. eauto.
  - intros n Hn. rewrite Hlog in Hn.
    assert (Hslog : LogPerformed n ∉ slog).
    { clear -Hf. unfold find_candidates in Hf. case_decide as Hsmall.
      - injection Hf as _ <-. intros Hin. by apply list_elem_of_singleton in Hin.
      - destruct (NumberLutsByLevel luts) as [lv|]; [|done]. cbn [mbind option_bind] in Hf.
        injection Hf as _ <-. intros Hin. apply elem_of_app in Hin as [Hin|Hin].
        + destruct (loop_warning lv); [|by apply elem_of_nil in Hin].
          by apply list_elem_of_singleton in Hin.
        + by apply list_elem_of_singleton in Hin. }
    apply elem_of_cons in Hn as [Hn|Hn]; [done|].
    apply elem_of_app in Hn as [Hn|Hn]; [done|].
    destruct plans as [|p plans]; [by apply list_elem_of_singleton in Hn|].
    apply elem_of_cons in Hn as [Hn|Hn]; [done|].
    apply list_elem_of_singleton in Hn. by injection Hn.
Qed.

(** X10. The pass only touches single-output LUT cells.  With distinct
    cell names, the module it returns is a block of new cells, all of type
    GTP_LUT6D, followed by cells of the original module, each at most once
    and in an order the removals may have changed; every original cell that
    is not a GTP_LUTk cell is among them, and every cell it removes is a
    GTP_LUTk cell of the original module. *)
Theorem StitcherMain_keeps_other_cells (uniquify : Module -> IdString -> IdString)
    (SigMap : Module -> SigBit -> SigBit) (module : Module) (r : PassResult) :
  NoDup (cell_names module) ->
  StitcherMain uniquify SigMap module = Some r ->
  ∃ fused kept,
    cells (result_module r) = fused ++ kept ∧
    Forall (fun c => cell_type c = ID_GTP_LUT6D) fused ∧
    kept ⊆+ cells module ∧
    (∀ c, c ∈ cells module -> ¬ is_lut_cell c -> c ∈ kept) ∧
    (∀ n, EvRemove n ∈ result_events r ->
          ∃ c, c ∈ cells module ∧ is_lut_cell c ∧ cell_name c = n ∧ c ∉ kept).
Proof.
  intros Hnd Hrun.
  destruct (StitcherMain_plans _ _ _ _ Hnd Hrun)
    as (luts & cands & slog & luts' & plans & kept & _ & _ & _
        & _ & _ & Hcell & Hcells & Hkept & Hev & _).
  exists (reverse (fused_cell <$> plans)), kept. split; [exact Hcells|]. split.
  { apply Forall_forall. intros c Hc. rewrite elem_of_reverse in Hc.
    by apply list_elem_of_fmap in Hc as (plan & -> & _). }
  split; [rewrite Hkept; apply sublist_submseteq, sublist_filter|]. split.
  - intros c Hc Hno. rewrite Hkept. apply list_elem_of_filter. split; [|done].
    intros Hn. destruct (Hcell _ Hn) as (c' & Hc' & Hl & Heq).
    assert (c' = c) as ->; [|done].
    apply list_elem_of_lookup in Hc as [i Hi]. apply list_elem_of_lookup in Hc' as [j Hj].
    assert (i = j) as ->; [|congruence].
    eapply NoDup_lookup; [exact Hnd| |]; unfold cell_names; rewrite list_lookup_fmap.
    + by rewrite Hi.
    + rewrite Hj. cbn. by rewrite Heq.
  - intros n Hn. rewrite Hev in Hn. apply elem_of_app in Hn as [Hn|Hn].
    + apply list_elem_of_fmap in Hn as (n' & [= <-] & Hn').
      destruct (Hcell _ Hn') as (c & Hc & Hl & Heq). exists c. repeat split; try done.
      rewrite Hkept. intros Hk. apply list_elem_of_filter in Hk as [Hk _].
      by rewrite Heq in Hk.
    + by apply list_elem_of_fmap in Hn as (n' & [=] & _).
Qed.

Lemma StitcherMain_keeps_other_cells_witness :
  ∃ r fused kept,
    StitcherMain keep_name same_sig module_keep = Some r ∧
    cells (result_module r) = fused ++ kept ∧
    Forall (fun c => cell_type c = ID_GTP_LUT6D) fused ∧
    kept ⊆+ cells module_keep ∧
    (∀ c, c ∈ cells module_keep -> ¬ is_lut_cell c -> c ∈ kept) ∧
    (∀ n, EvRemove n ∈ result_events r ->
          ∃ c, c ∈ cells module_keep ∧ is_lut_cell c ∧ cell_name c = n ∧ c ∉ kept).
Proof.
  destruct (StitcherMain keep_name same_sig module_keep) as [r|] eqn:E;
    [|vm_compute in E; discriminate].
  destruct (StitcherMain_keeps_other_cells keep_name same_sig module_keep r)
    as (fused & kept & H).
  - apply (bool_decide_unpack _). vm_compute. exact I.
  - exact E.
  - exists r, fused, kept. split; [reflexivity|exact H].
Defined.

(** X11. Every merge trades two cells for one.  With distinct cell names,
    a run that performs n merges removes 2n different cells, then adds n
    cells, and leaves the module with n cells fewer. *)
Theorem StitcherMain_two_for_one (uniquify : Module -> IdString -> IdString)
    (SigMap : Module -> SigBit -> SigBit) (module : Module) (r : PassResult) :
  NoDup (cell_names module) ->
  StitcherMain uniquify SigMap module = Some r ->
  ∃ (n : nat) removed added,
    result_events r = (EvRemove <$> removed) ++ (EvAddCell <$> added) ∧
    NoDup removed ∧ length removed = (2 * n)%nat ∧ length added = n ∧
    (length (cells (result_module r)) + n = length (cells module))%nat.
Proof.
  intros Hnd Hrun.
  destruct (StitcherMain_plans _ _ _ _ Hnd Hrun)
    as (luts & cands & slog & luts' & plans & kept & _ & _ & _
        & Hnodup & Hlen & Hcell & Hcells & Hkept & Hev & _).
  exists (length plans), (cell_names_to_remove plans), (new_cell_name <$> plans).
  split; [done|]. split; [done|]. split; [done|]. split; [by rewrite length_fmap|].
  rewrite Hcells, length_app, length_reverse, length_fmap, Hkept.
  pose proof (length_filter_named (cells module) (cell_names_to_remove plans) Hnd Hnodup) as Hf.
  rewrite Hlen in Hf. rewrite <- Hf; [lia|].
  intros n Hn. destruct (Hcell n Hn) as (c & Hc & _ & <-). apply list_elem_of_fmap. eauto.
Qed.

Lemma StitcherMain_two_for_one_witness :
  ∃ r (n : nat) removed added,
    StitcherMain keep_name same_sig module_65 = Some r ∧
    result_events r = (EvRemove <$> removed) ++ (EvAddCell <$> added) ∧
    NoDup removed ∧ length removed = (2 * n)%nat ∧ length added = n ∧
    (length (cells (result_module r)) + n = length (cells module_65))%nat.
Proof.
  destruct (StitcherMain keep_name same_sig module_65) as [r|] eqn:E;
    [|vm_compute in E; discriminate].
  destruct (StitcherMain_two_for_one keep_name same_sig module_65 r)
    as (n & removed & added & H).
  - apply (bool_decide_unpack _). vm_compute. exact I.
  - exact E.
  - exists r, n, removed, added. split; [reflexivity|exact H].
Defined.

(** X12. The pass reaches the commit on a well-formed netlist.  Once the
    LUT cells are collected, leveling, the search and planning run to the end
    without reading a vector out of bounds and without a failed table lookup,
    provided every collected 6-input LUT has its six ports connected and, for
    a netlist above the threshold of the layered search, cell names are
    distinct and no two LUTs drive the same canonical signal.  The pass then
    returns when there is no plan, and otherwise whenever the commit
    returns. *)
Theorem StitcherMain_total (uniquify : Module -> IdString -> IdString)
    (SigMap : Module -> SigBit -> SigBit) (module : Module) (luts : list LutInfo) :
  CollectLuts (SigMap module) module = Some luts ->
  (∀ lut, lut ∈ luts -> size lut = 6 -> length (ordered_inputs lut) = 6%nat) ->
  (LAYERED_SEARCH_THRESHOLD < Z.of_nat (length luts) ->
   NoDup (cell_names module) ∧ NoDup (output <$> luts)) ->
  ∃ cands slog luts' plans,
    find_candidates luts = Some (cands, slog) ∧
    PlanMerges uniquify module luts cands = Some (luts', plans) ∧
    (plans = [] ∨ is_Some (ExecuteMerges module plans) ->
     ∃ r, StitcherMain uniquify SigMap module = Some r ∧
          LogCollected (length luts) ∈ result_log r).
Proof.
  intros Hc Hsix Hbig.
  assert (∃ cands slog, find_candidates luts = Some (cands, slog)) as (cands & slog & Hf).
  { unfold find_candidates. case_decide as Hn; [eauto|].
    destruct Hbig as [Hnames Houts]; [lia|].
    pose proof (CollectLuts_distinct _ _ _ Hnames Hc) as Hptr.
    destruct (NumberLutsByLevel_total luts Hptr Houts) as (st & P & u & -> & _).
    cbn [mbind option_bind]. eauto. }
  destruct (find_candidates_indices _ _ _ Hf) as [_ Hplan].
  destruct (PlanMerges_loop_is_Some uniquify module (luts, []) (pop_order cands))
    as [[luts' plans] Hp].
  { cbn [fst]. unfold pop_order. rewrite merge_sort_Permutation. by apply Hplan. }
  fold (PlanMerges uniquify module luts cands) in Hp.
  exists cands, slog, luts', plans. split; [done|]. split; [done|]. intros Hcommit.
  unfold StitcherMain. rewrite Hc. cbn [mbind option_bind].
  rewrite Hf. cbn [mbind option_bind]. rewrite Hp. cbn [mbind option_bind].
  destruct plans as [|p plans].
  - eexists. split; [done|]. cbn [result_log]. rewrite <- app_assoc. by left.
  - destruct Hcommit as [|[cm ->]]; [done|]. cbn [mbind option_bind].
    eexists. split; [done|]. cbn [result_log]. rewrite <- app_assoc. by left.
Qed.

Lemma StitcherMain_total_witness :
  ∃ cands slog luts' plans,
    find_candidates [lut_six; lut_and5] = Some (cands, slog) ∧
    PlanMerges keep_name module_65 [lut_six; lut_and5] cands = Some (luts', plans) ∧
    (plans = [] ∨ is_Some (ExecuteMerges module_65 plans) ->
     ∃ r, StitcherMain keep_name same_sig module_65 = Some r ∧
          LogCollected (length [lut_six; lut_and5]) ∈ result_log r).
Proof.
  apply (StitcherMain_total keep_name same_sig module_65 [lut_six; lut_and5]).
  - vm_compute. reflexivity.
  - intros lut Hin Hsz.
    apply elem_of_cons in Hin as [->|Hin]; [reflexivity|].
    apply list_elem_of_singleton in Hin as ->. vm_compute in Hsz. discriminate.
  - intros Hbig. vm_compute in Hbig. discriminate.
Defined.

(** ** Leveling: the loop warning *)

Section LevelingAny.
Variable luts : list LutInfo.
Hypothesis ptrs_nodup : NoDup (cell_ptr <$> luts).
Hypothesis outputs_nodup : NoDup (output <$> luts).

Variable st : LevelState.
Variable P : list IdString.
Variable u0 : IdString.

Hypothesis Hinv : level_inv (cell_ptr <$> luts) (build_graph luts).1 P u0 [] st.
Hypothesis Hq : q st = [].

Lemma processed_nodup : NoDup P.
  Proof.
    pose proof (inv_nodup _ _ _ _ _ _ Hinv) as H. rewrite Hq, app_nil_r in H. done.
  Qed.

Lemma processed_nodes v : v ∈ P -> v ∈ cell_ptr <$> luts.
  Proof.
    intros Hv. apply (inv_nodes _ _ _ _ _ _ Hinv). rewrite Hq, app_nil_r. done.
  Qed.

Lemma no_edge_pending p v : p ∈ P -> ¬ pend (build_graph luts).1 P u0 [] v p.
  Proof.
    intros Hp [_ [Hn|[_ Hin]]]; [done|by apply elem_of_nil in Hin].
  Qed.

Lemma all_processed_rank :
    length P = length luts ->
    ∀ u v, u ∈ luts -> v ∈ luts -> dep_edge u v ->
           (Z.to_nat (default 0%Z (lut_levels st !! cell_ptr u))
            < Z.to_nat (default 0%Z (lut_levels st !! cell_ptr v)))%nat.
  Proof.
    intros Hlen u v Hu Hv Hedge.
    assert (Hperm : P ≡ₚ cell_ptr <$> luts).
    { apply submseteq_length_Permutation.
      - apply NoDup_submseteq; [apply processed_nodup|]. apply processed_nodes.
      - rewrite length_fmap. lia. }
    assert (HuP : cell_ptr u ∈ P).
    { rewrite Hperm. apply list_elem_of_fmap. eauto. }
    destruct (inv_have _ _ _ _ _ _ Hinv (cell_ptr u)) as [Lu HLu].
    { rewrite Hq, app_nil_r. done. }
    destruct (inv_ge _ _ _ _ _ _ Hinv (cell_ptr u) (cell_ptr v) Lu) as (Lv & HLv & Hle).
    - apply list_elem_of_fmap. eauto.
    - by apply lut_edge_graph.
    - by apply no_edge_pending.
    - done.
    - rewrite HLu, HLv. cbn [default from_option id].
      pose proof (inv_nonneg _ _ _ _ _ _ Hinv _ _ HLu). lia.
  Qed.

  (** A LUT none of whose inputs is driven by a LUT is processed, at level 0. *)
Lemma source_level v :
    v ∈ luts -> (∀ u, u ∈ luts -> ¬ dep_edge u v) ->
    lut_levels st !! cell_ptr v = Some 0.
  Proof.
    intros Hv Hsrc.
    assert (Hnone : ∀ p, cell_ptr v ∉ succs (build_graph luts).1 p).
    { intros p Hin. destruct (graph_edge_lut luts ptrs_nodup outputs_nodup p v Hv Hin)
        as (x & Hx & _ & Hedge). by apply (Hsrc x). }
    assert (HvP : cell_ptr v ∈ P).
    { apply (level_inv_final _ _ _ _ _ _ Hinv Hq).
      - apply list_elem_of_fmap. eauto.
      - intros p _ Hin. by destruct (Hnone p). }
    destruct (inv_have _ _ _ _ _ _ Hinv (cell_ptr v)) as [L HL].
    { rewrite Hq, app_nil_r. done. }
    destruct (inv_def _ _ _ _ _ _ Hinv _ _ HL) as [[-> _]|(p & _ & Hin & _)]; [done|].
    by destruct (Hnone p).
  Qed.

  (** A positive level comes from a driver one level below. *)
Lemma level_has_driver v L :
    v ∈ luts -> lut_levels st !! cell_ptr v = Some L ->
    0 <= L ∧
    (0 < L -> ∃ u, u ∈ luts ∧ dep_edge u v ∧ lut_levels st !! cell_ptr u = Some (L - 1)).
  Proof.
    intros Hv HL. split; [by eapply (inv_nonneg _ _ _ _ _ _ Hinv)|]. intros Hpos.
    destruct (inv_def _ _ _ _ _ _ Hinv _ _ HL) as [[-> _]|(p & Hp & Hin & _ & HLp)]; [lia|].
    destruct (graph_edge_lut luts ptrs_nodup outputs_nodup p v Hv Hin)
      as (x & Hx & <- & Hedge).
    eauto.
  Qed.
End LevelingAny.

(** X13. Leveling always returns on a netlist with distinct cells and one
    driver per signal, cyclic or not, and the loop warning is raised exactly
    when the LUTs form a dependency cycle.  In every case levels are not
    negative, a LUT with no LUT-driven input has level 0, and a LUT with a
    positive level has a driver LUT exactly one level below. *)
Theorem loop_warning_iff_cycle (luts : list LutInfo) :
  NoDup (cell_ptr <$> luts) -> NoDup (output <$> luts) ->
  ∃ lv,
    NumberLutsByLevel luts = Some lv ∧
    (loop_warning lv = true <-> ¬ cycle_free luts) ∧
    (∀ v, v ∈ luts -> (∀ u, u ∈ luts -> ¬ dep_edge u v) ->
          levels_of lv !! cell_ptr v = Some 0) ∧
    (∀ v L, v ∈ luts -> levels_of lv !! cell_ptr v = Some L ->
            0 <= L ∧
            (0 < L -> ∃ u, u ∈ luts ∧ dep_edge u v ∧
                           levels_of lv !! cell_ptr u = Some (L - 1))).
Proof.
  intros Hptr Hout.
  destruct (NumberLutsByLevel_total luts Hptr Hout) as (st & P & u0 & Hrun & Hinv & Hq).
  eexists. split; [exact Hrun|]. cbn [loop_warning levels_of]. split; [|split].
  - rewrite bool_decide_eq_true. split.
    + intros Hne Hfree. apply Hne. f_equal.
      by apply (processed_all luts Hptr Hout Hfree st P u0).
    + intros Hcyc Heq. apply Hcyc.
      apply (cycle_free_by_rank luts
               (fun w => Z.to_nat (default 0 (lut_levels st !! cell_ptr w)))).
      apply (all_processed_rank luts Hptr Hout st P u0 Hinv Hq). lia.
  - intros v Hv Hsrc. by apply (source_level luts Hptr Hout st P u0).
  - intros v L Hv HL. by apply (level_has_driver luts Hptr Hout st P u0).
Qed.

Lemma loop_warning_iff_cycle_witness :
  ∃ lv,
    NumberLutsByLevel cyc4 = Some lv ∧
    (loop_warning lv = true <-> ¬ cycle_free cyc4) ∧
    (∀ v, v ∈ cyc4 -> (∀ u, u ∈ cyc4 -> ¬ dep_edge u v) ->
          levels_of lv !! cell_ptr v = Some 0) ∧
    (∀ v L, v ∈ cyc4 -> levels_of lv !! cell_ptr v = Some L ->
            0 <= L ∧
            (0 < L -> ∃ u, u ∈ cyc4 ∧ dep_edge u v ∧
                           levels_of lv !! cell_ptr u = Some (L - 1))).
Proof.
  apply (loop_warning_iff_cycle cyc4).
  - apply (bool_decide_unpack _). vm_compute. exact I.
  - apply (bool_decide_unpack _). vm_compute. exact I.
Defined.

(** ** Diagnostic printing: what [format_init_hex] prints *)

Lemma pad_nibbles_spec fuel l :
  ((length l mod 4 ≠ 0)%nat -> (4 - length l mod 4 <= fuel)%nat) ->
  ∃ k, (k < 4)%nat ∧ pad_nibbles fuel l = replicate k "0"%char ++ l ∧
       ((k + length l) mod 4 = 0)%nat.
Proof.
  revert l. induction fuel as [|fuel IH]; intros l Hfuel; cbn [pad_nibbles].
  - assert (Hlt : (length l mod 4 < 4)%nat) by (apply Nat.mod_upper_bound; lia).
    case_decide as Hm; [specialize (Hfuel Hm); exfalso; lia|].
    exists 0%nat. split; [lia|]. split; [done|]. exact Hm.
  - case_decide as Hm.
    + assert (Hlt : (length l mod 4 < 4)%nat) by (apply Nat.mod_upper_bound; lia).
      assert (Hnext : (length ("0"%char :: l) mod 4 = S (length l mod 4) mod 4)%nat).
      { cbn [length]. change (S (length l)) with (1 + length l)%nat.
        change (S (length l mod 4)) with (1 + length l mod 4)%nat.
        by rewrite Nat.Div0.add_mod_idemp_r. }
      destruct (IH ("0"%char :: l)) as (k & Hk & Heq & Hmod).
      { rewrite Hnext. specialize (Hfuel Hm).
        destruct (decide (length l mod 4 = 3)%nat) as [E|E].
        - rewrite E. simpl. lia.
        - rewrite Nat.mod_small by lia. lia. }
      destruct (decide (k = 3%nat)) as [->|Hk3].
      { exfalso. cbn [length] in Hmod.
        replace (3 + S (length l))%nat with (length l + 1 * 4)%nat in Hmod by lia.
        rewrite Nat.Div0.mod_add in Hmod. done. }
      exists (S k). split; [lia|]. split.
      * rewrite Heq. cbn [replicate]. by rewrite replicate_cons_app, <- app_assoc.
      * cbn [length] in Hmod. by replace (S k + length l)%nat with (k + S (length l))%nat by lia.
    + exists 0%nat. split; [lia|]. split; [done|]. exact Hm.
Qed.

Lemma hex_digit_value_chars n :
  (n < 16)%nat ->
  default "0"%char (hex_chars !! n) ≠ "_"%char ∧
  hex_digit_value (default "0"%char (hex_chars !! n)) = Some (Z.of_nat n).
Proof.
  intros Hn. do 16 (destruct n as [|n]; [split; [done|vm_compute; reflexivity]|]). lia.
Qed.

Lemma nibble_of_lt g0 g1 g2 g3 : (nibble_of g0 g1 g2 g3 < 16)%nat.
Proof. unfold nibble_of. repeat case_decide; lia. Qed.

(** One step of reading a binary string, most significant bit first. *)
Lemma hex_of_groups_value (n : nat) :
  ∀ (l : list ascii) (acc : Z),
    length l = (4 * n)%nat ->
    foldl (fun acc c =>
             if decide (c = "_"%char) then acc
             else v ← acc; d ← hex_digit_value c; Some (16 * v + d))
          (Some acc) (hex_of_groups l)
    = Some (foldl (fun v c => 2 * v + (if decide (c = "1"%char) then 1 else 0)) acc l)
    ∧ length (hex_of_groups l) = n
    ∧ "_"%char ∉ hex_of_groups l.
Proof.
  induction n as [|n IH]; intros l acc Hlen.
  - destruct l; [|done]. cbn. split; [done|]. split; [done|]. apply not_elem_of_nil.
  - destruct l as [|g0 [|g1 [|g2 [|g3 rest]]]]; cbn [length] in Hlen; try lia.
    cbn [hex_of_groups foldl].
    destruct (hex_digit_value_chars _ (nibble_of_lt g0 g1 g2 g3)) as [Hne Hval].
    rewrite decide_False by done. rewrite Hval. cbn [mbind option_bind].
    destruct (IH rest (16 * acc + Z.of_nat (nibble_of g0 g1 g2 g3))) as (Hv & Hl & Hu); [lia|].
    rewrite Hv. split; [|split].
    + f_equal. f_equal. unfold nibble_of. repeat case_decide; lia.
    + cbn [length]. by rewrite Hl.
    + apply not_elem_of_cons. split; [done|]. done.
Qed.

Lemma bin_value_replicate_zero k l :
  foldl (fun v c => 2 * v + (if decide (c = "1"%char) then 1 else 0)) 0
        (replicate k "0"%char ++ l)
  = foldl (fun v c => 2 * v + (if decide (c = "1"%char) then 1 else 0)) 0 l.
Proof.
  induction k as [|k IH]; [done|]. cbn [replicate app foldl].
  rewrite decide_False by done. exact IH.
Qed.

Lemma bin_value_reverse (c : Const) :
  foldl (fun v ch => 2 * v + (if decide (ch = "1"%char) then 1 else 0)) 0
        (state_char <$> reverse c)
  = const_value c.
Proof.
  unfold const_value. induction c as [|s c IH]; [done|].
  rewrite reverse_cons, fmap_app, foldl_app, IH. cbn [fmap list_fmap foldl bits_to_Z].
  generalize (bits_to_Z (is_one <$> c)). intros z.
  assert (E : (if decide (state_char s = "1"%char) then 1 else 0) = Z.b2z (is_one s))
    by (by destruct s).
  rewrite E. lia.
Qed.

Lemma format_init_hex_unfold (init_val : Const) :
  init_val ≠ [] ->
  ∃ hex,
    length hex = ((length init_val + 3) / 4)%nat ∧ hex ≠ [] ∧ ("_"%char ∉ hex) ∧
    foldl (fun acc c =>
             if decide (c = "_"%char) then acc
             else v ← acc; d ← hex_digit_value c; Some (16 * v + d))
          (Some 0) hex = Some (const_value init_val) ∧
    format_init_hex init_val
    = String.string_of_list_ascii
        (if decide (length hex = 16%nat) then take 8 hex ++ "_"%char :: drop 8 hex else hex).
Proof.
  intros Hne. unfold format_init_hex.
  assert (Hw : length init_val ≠ 0%nat) by (by destruct init_val).
  rewrite decide_False by done. cbv zeta.
  set (bin := state_char <$> reverse init_val).
  assert (Hbl : length bin = length init_val)
    by (unfold bin; by rewrite length_fmap, length_reverse).
  destruct (pad_nibbles_spec 3 bin) as (k & Hk & Hpad & Hmod).
  { intros Hm. lia. }
  rewrite Hpad.
  set (padded := replicate k "0"%char ++ bin).
  assert (Hpl : length padded = (k + length init_val)%nat)
    by (unfold padded; by rewrite length_app, length_replicate, Hbl).
  assert (Hdiv : length padded = (4 * ((length init_val + 3) / 4))%nat).
  { rewrite Hpl. rewrite Hbl in Hmod.
    pose proof (Nat.div_mod_eq (k + length init_val) 4) as E1. rewrite Hmod in E1.
    pose proof (Nat.div_mod_eq (length init_val + 3) 4) as E2.
    assert ((length init_val + 3) mod 4 < 4)%nat by (apply Nat.mod_upper_bound; lia).
    lia. }
  destruct (hex_of_groups_value _ padded 0 Hdiv) as (Hv & Hl & Hu).
  exists (hex_of_groups padded). split; [done|].
  assert (Hpos : (0 < (length init_val + 3) / 4)%nat).
  { apply Nat.div_str_pos. lia. }
  split; [intros E; rewrite E in Hl; cbn [length] in Hl; lia|]. split; [done|]. split.
  - rewrite Hv. unfold padded, bin. by rewrite bin_value_replicate_zero, bin_value_reverse.
  - destruct (decide (length (hex_of_groups padded) = 16%nat)) as [E16|E16].
    + destruct (take 8 (hex_of_groups padded) ++ "_"%char :: drop 8 (hex_of_groups padded))
        eqn:E; [|done]. by apply app_eq_nil in E as [_ ?].
    + destruct (hex_of_groups padded) eqn:E; [|done]. cbn [length] in Hl. lia.
Qed.

(** X14. The hexadecimal text [format_init_hex] prints denotes the table:
    read back as a hexadecimal number, with the underscore as a separator, it
    is the sum of 2^i over the bits i of the table that are 1.  A bit in any
    other state (x, z, ...) is printed as 0, so the text does not
    distinguish it from a 0 bit. *)
Theorem format_init_hex_value (init_val : Const) :
  hex_value (format_init_hex init_val) = Some (const_value init_val).
Proof.
  destruct (decide (init_val = [])) as [->|Hne]; [done|].
  destruct (format_init_hex_unfold init_val Hne) as (hex & _ & _ & _ & Hv & ->).
  unfold hex_value. rewrite String.list_ascii_of_string_of_list_ascii.
  case_decide; [|done].
  rewrite foldl_app. cbn [foldl]. rewrite decide_True by done.
  by rewrite <- foldl_app, take_drop.
Qed.

(** X15. The shape of the printed text: an empty table prints as "0";
    otherwise there is one digit per started group of four bits, and a text
    of sixteen digits (a table of 61 to 64 bits) gets one underscore after
    the eighth digit. *)
Theorem format_init_hex_shape (init_val : Const) :
  let digits := ((length init_val + 3) / 4)%nat in
  (init_val = [] -> format_init_hex init_val = "0") ∧
  (init_val ≠ [] ->
   String.length (format_init_hex init_val)
   = (if decide (digits = 16%nat) then 17%nat else digits) ∧
   (∀ i, String.get i (format_init_hex init_val) = Some "_"%char <->
         digits = 16%nat ∧ i = 8%nat)).
Proof.
  cbv zeta. split; [by intros ->|]. intros Hne.
  destruct (format_init_hex_unfold init_val Hne) as (hex & Hl & _ & Hu & _ & ->).
  rewrite <- Hl. clear Hl.
  assert (Hget : ∀ (l : list ascii) i,
             String.get i (String.string_of_list_ascii l) = l !! i).
  { induction l as [|a l IH]; intros [|i]; cbn; auto. }
  assert (Hlen : ∀ l : list ascii, String.length (String.string_of_list_ascii l) = length l).
  { induction l as [|a l IH]; cbn; [done|]. by rewrite IH. }
  rewrite Hlen. case_decide as E16.
  - split.
    + rewrite length_app. cbn [length]. rewrite length_take, length_drop. lia.
    + intros i. rewrite Hget. split.
      * intros Hi. split; [done|].
        destruct (decide (i < 8)%nat) as [Hlt|Hge].
        { rewrite lookup_app_l in Hi by (rewrite length_take; lia).
          rewrite lookup_take_lt in Hi by done.
          destruct Hu. by eapply list_elem_of_lookup_2. }
        rewrite lookup_app_r in Hi by (rewrite length_take; lia).
        rewrite length_take in Hi. replace (8 `min` length hex)%nat with 8%nat in Hi by lia.
        destruct (i - 8)%nat as [|j] eqn:Ej; [lia|].
        change (drop 8 hex !! j = Some "_"%char) in Hi. rewrite lookup_drop in Hi.
        destruct Hu. by eapply list_elem_of_lookup_2.
      * intros [_ ->]. rewrite lookup_app_r by (rewrite length_take; lia).
        rewrite length_take. replace (8 `min` length hex)%nat with 8%nat by lia. done.
  - split; [done|]. intros i. rewrite Hget. split; [|by intros [? _]].
    intros Hi. destruct Hu. by eapply list_elem_of_lookup_2.
Qed.

(** ** Fusion: what [calculate_new_init] computes in general *)

Lemma find_index_notin l x : x ∉ l -> find_index l x = None.
Proof.
  intros Hx. destruct (find_index l x) as [k|] eqn:E; [|done].
  apply find_index_Some in E. destruct Hx. by eapply list_elem_of_lookup_2.
Qed.

Lemma addr_step_seen shared forced rho addr bit_pos pair :
  addr_step shared forced (slots_address shared rho) (addr, bit_pos) pair
  = (addr + bit_pos * Z.b2z (seen_through shared forced rho pair.2), 2 * bit_pos).
Proof.
  unfold seen_through. destruct (decide (pair.2 ∈ shared)) as [Hin|Hout].
  - by apply addr_step_found.
  - unfold addr_step. rewrite find_index_notin by done.
    rewrite Z.shiftl_mul_pow2 by lia. destruct forced as [sel|].
    + destruct (decide (pair.2 = sel)) as [->|Hne].
      * rewrite bool_decide_eq_true_2 by done. f_equal; simpl; lia.
      * rewrite bool_decide_eq_false_2 by congruence. f_equal; simpl; lia.
    + rewrite bool_decide_eq_false_2 by done. f_equal; simpl; lia.
Qed.

Lemma foldl_addr_step_seen shared forced rho inputs addr bit_pos :
  foldl (addr_step shared forced (slots_address shared rho)) (addr, bit_pos) inputs
  = (addr + bit_pos * bits_to_Z (seen_through shared forced rho <$> inputs.*2),
     bit_pos * 2 ^ Z.of_nat (length inputs)).
Proof.
  revert addr bit_pos. induction inputs as [|pair inputs IH]; intros addr bit_pos.
  - simpl. f_equal; lia.
  - cbn [foldl]. rewrite addr_step_seen, IH.
    cbn [fmap list_fmap bits_to_Z length]. rewrite Nat2Z.inj_succ, Z.pow_succ_r by lia.
    f_equal; lia.
Qed.

Lemma half_bits_seen shared forced lut rho :
  length shared = 5%nat -> fully_connected lut ->
  half_bits shared forced lut !! Z.to_nat (slots_address shared rho)
  = Some (lut_output lut (seen_through shared forced rho)).
Proof.
  intros Hlen Hfc. unfold half_bits.
  pose proof (bits_to_Z_bounds (rho <$> shared)) as Hb.
  rewrite length_fmap, Hlen in Hb. change (2 ^ Z.of_nat 5) with 32 in Hb.
  fold (slots_address shared rho) in Hb.
  rewrite list_lookup_fmap, lookup_seq_lt by lia. cbn [fmap option_fmap option_map Nat.add].
  rewrite Z2Nat.id by lia. f_equal.
  unfold source_addr. rewrite foldl_addr_step_seen. cbn [fst].
  rewrite Z.add_0_l, Z.mul_1_l.
  rewrite init_at_default by apply bits_to_Z_bounds.
  unfold lut_output. by rewrite lut_address_rank.
Qed.

(** X18. What [calculate_new_init] computes, for any two fully connected
    LUTs and any vector of at least five slots.  The result has 64 bits.  Z5
    is assigned to the LUT that does not read the selector ([lut_a] when
    neither does) and Z to the other one.  At the address the values of the
    five shared slots form, the low half holds the output of Z5's LUT and the
    high half the output of Z's LUT, each evaluated with the shared slots at
    their values, every other signal at 0, and, in the high half only, the
    selector at 1 when it is on no shared slot. *)
Theorem calculate_new_init_semantics (lut_a lut_b : LutInfo)
    (new_inputs_vec : list SigBit) (sel_bit : SigBit) :
  (5 <= length new_inputs_vec)%nat -> fully_connected lut_a -> fully_connected lut_b ->
  ∃ ni z5_src z_src,
    calculate_new_init lut_a lut_b new_inputs_vec sel_bit = Some ni ∧
    length (new_init ni) = 64%nat ∧
    (z5_src, z_src)
    = (if lut_has_input lut_a sel_bit then (lut_b, lut_a) else (lut_a, lut_b)) ∧
    z5_out_sig ni = output z5_src ∧ z_out_sig ni = output z_src ∧
    ∀ rho,
      let shared := take 5 new_inputs_vec in
      let addr := Z.to_nat (slots_address shared rho) in
      new_init ni !! addr = Some (lut_output z5_src (seen_through shared None rho)) ∧
      new_init ni !! (32 + addr)%nat
      = Some (lut_output z_src (seen_through shared (Some sel_bit) rho)).
Proof.
  intros Hlen Hfa Hfb. unfold calculate_new_init. rewrite decide_True by done.
  assert (Hl5 : length (take 5 new_inputs_vec) = 5%nat) by (rewrite length_take; lia).
  eexists _, (if lut_has_input lut_a sel_bit then lut_b else lut_a),
             (if lut_has_input lut_a sel_bit then lut_a else lut_b).
  split; [reflexivity|]. cbn [new_init z_out_sig z5_out_sig].
  split; [by rewrite length_app, !length_half_bits|].
  split; [by destruct (lut_has_input _ _)|]. split; [done|]. split; [done|].
  intros rho. cbv zeta. set (addr := Z.to_nat _).
  assert (Hlt : (addr < 32)%nat).
  { pose proof (bits_to_Z_bounds (rho <$> take 5 new_inputs_vec)) as Hbd.
    rewrite length_fmap, Hl5 in Hbd. change (2 ^ Z.of_nat 5) with 32 in Hbd.
    unfold addr, slots_address. lia. }
  split.
  - rewrite lookup_app_l by (rewrite length_half_bits; lia).
    apply half_bits_seen; [done|]. by destruct (lut_has_input _ _).
  - rewrite lookup_app_r by (rewrite length_half_bits; lia).
    rewrite length_half_bits. replace (32 + addr - 32)%nat with addr by lia.
    apply half_bits_seen; [done|]. by destruct (lut_has_input _ _).
Qed.

Lemma calculate_new_init_semantics_witness :
  ∃ ni z5_src z_src,
    calculate_new_init lut_p lut_q (shared_inputs_vec (current_union_inputs lut_p lut_q))
                       (SigConst S1) = Some ni ∧
    length (new_init ni) = 64%nat ∧
    (z5_src, z_src)
    = (if lut_has_input lut_p (SigConst S1) then (lut_q, lut_p) else (lut_p, lut_q)) ∧
    z5_out_sig ni = output z5_src ∧ z_out_sig ni = output z_src ∧
    ∀ rho,
      let shared := take 5 (shared_inputs_vec (current_union_inputs lut_p lut_q)) in
      let addr := Z.to_nat (slots_address shared rho) in
      new_init ni !! addr = Some (lut_output z5_src (seen_through shared None rho)) ∧
      new_init ni !! (32 + addr)%nat
      = Some (lut_output z_src (seen_through shared (Some (SigConst S1)) rho)).
Proof.
  apply (calculate_new_init_semantics lut_p lut_q
           (shared_inputs_vec (current_union_inputs lut_p lut_q)) (SigConst S1)).
  - vm_compute. lia.
  - reflexivity.
  - reflexivity.
Defined.

(** ** The 64-bit view of a table and the mask templates *)

(** X16. [const_to_uint64] keeps the low 64 bits of a table and reads
    every bit that is not 1 as 0: its result is the number the table denotes,
    modulo 2^64.  For a table of at most 64 bits it is that number. *)
Theorem const_to_uint64_value (c : Const) :
  const_to_uint64 c = const_value c mod 2 ^ 64 ∧
  0 <= const_to_uint64 c < 2 ^ 64 ∧
  ((length c <= 64)%nat -> const_to_uint64 c = const_value c).
Proof.
  assert (Hmod : const_to_uint64 c = const_value c mod 2 ^ 64).
  { apply Z.bits_inj'. intros n Hn.
    replace n with (Z.of_nat (Z.to_nat n)) by lia. generalize (Z.to_nat n). intros k.
    rewrite const_to_uint64_testbit by lia. rewrite Nat2Z.id.
    destruct (decide (Z.of_nat k < 64)) as [Hlt|Hge].
    - rewrite Z.mod_pow2_bits_low by lia. unfold const_value.
      rewrite testbit_bits_to_Z, list_lookup_fmap.
      destruct (c !! k) as [s|]; cbn.
      + unfold is_one. apply bool_decide_ext. split; [by intros [_ [= ->]]|].
        intros ->. done.
      + apply bool_decide_eq_false_2. by intros [_ ?].
    - rewrite Z.mod_pow2_bits_high by lia. apply bool_decide_eq_false_2. intros [? _]. lia. }
  split; [done|]. split.
  - rewrite Hmod. apply Z.mod_pos_bound. lia.
  - intros Hlen. rewrite Hmod. apply Z.mod_small.
    pose proof (bits_to_Z_bounds (is_one <$> c)) as Hb. rewrite length_fmap in Hb.
    unfold const_value. split; [lia|].
    assert (2 ^ Z.of_nat (length c) <= 2 ^ 64) by (apply Z.pow_le_mono_r; lia). lia.
Qed.



(** ** The planner: the shape of every plan *)

Lemma input_ports_names v ports name :
  input_ports v = Some ports ->
  is_Some (ports !! name) <-> name ∈ ["\I0"; "\I1"; "\I2"; "\I3"; "\I4"; "\I5"].
Proof.
  unfold input_ports.
  destruct v as [|x0 [|x1 [|x2 [|x3 [|x4 [|x5 v]]]]]]; try done.
  intros [= <-].
  change (seq 0 6) with [0; 1; 2; 3; 4; 5]%nat. cbn [foldl mbind option_bind lookup list_lookup].
  change ("\I" +:+ pretty 0%nat) with "\I0".
  change ("\I" +:+ pretty 1%nat) with "\I1".
  change ("\I" +:+ pretty 2%nat) with "\I2".
  change ("\I" +:+ pretty 3%nat) with "\I3".
  change ("\I" +:+ pretty 4%nat) with "\I4".
  change ("\I" +:+ pretty 5%nat) with "\I5".
  rewrite !lookup_insert_is_Some, lookup_empty, !elem_of_cons, elem_of_nil.
  split.
  - intros [->|[_ [->|[_ [->|[_ [->|[_ [->|[_ [->|[_ H]]]]]]]]]]]]; auto 10.
    by destruct H.
  - intros [->|[->|[->|[->|[->|[->|[]]]]]]];
      repeat (first [by left | right; split; [done|]]).
Qed.

Lemma calculate_new_init_Some lut_a lut_b v sel ni :
  calculate_new_init lut_a lut_b v sel = Some ni ->
  length (new_init ni) = 64%nat ∧
  z_out_sig ni = output (if lut_has_input lut_a sel then lut_a else lut_b) ∧
  z5_out_sig ni = output (if lut_has_input lut_a sel then lut_b else lut_a).
Proof.
  unfold calculate_new_init. case_decide as Hlen; [|done].
  intros H. apply (inj Some) in H. subst ni. cbn [new_init z_out_sig z5_out_sig].
  by rewrite length_app, !length_half_bits.
Qed.

Lemma make_plan_shape uniquify module lut_a lut_b c plan :
  make_plan uniquify module lut_a lut_b c = Some plan ->
  plan_for uniquify module lut_a lut_b plan.
Proof.
  unfold make_plan. destruct (new_inputs_of lut_a lut_b c) as [v sel].
  destruct (calculate_new_init lut_a lut_b v sel) as [ni|] eqn:En; [|done].
  cbn [mbind option_bind].
  destruct (input_ports v) as [ports|] eqn:Ep; [|done]. cbn [mbind option_bind].
  apply calculate_new_init_Some in En as (Hl & Hz & Hz5).
  intros H. apply (inj Some) in H. subst plan. unfold plan_for.
  cbn [cell_a_to_remove cell_b_to_remove new_cell_name plan_init_val port_connections].
  split; [done|]. split; [done|]. split; [done|]. split; [done|]. split.
  - intros name. rewrite !lookup_insert_is_Some, (input_ports_names v ports name Ep).
    unfold fused_port_names, ID_Z, ID_Z5. rewrite !elem_of_cons, elem_of_nil.
    split.
    + intros [<-|[_ [<-|[_ H]]]]; [auto 10|auto 10|]. tauto.
    + intros H. destruct (decide ("\Z5" = name)) as [|Hn5]; [by left|]. right.
      split; [done|]. destruct (decide ("\Z" = name)) as [|Hn]; [by left|]. right.
      split; [done|]. intuition congruence.
  - assert (Hne : ID_Z5 ≠ ID_Z) by done.
    rewrite lookup_insert_ne, !lookup_insert_eq by done. rewrite Hz, Hz5.
    destruct (lut_has_input lut_a sel); [left|right]; done.
Qed.

Lemma plan_for_static uniquify module a b a' b' plan :
  lut_static a' = lut_static a -> lut_static b' = lut_static b ->
  plan_for uniquify module a' b' plan -> plan_for uniquify module a b plan.
Proof.
  unfold lut_static. intros [= Ha _ _ Hoa _] [= Hb _ _ Hob _].
  unfold plan_for. by rewrite Ha, Hb, Hoa, Hob.
Qed.

Lemma PlanMerges_loop_shape uniquify module luts0 (cands : list MergeCandidate) st popped st' :
  lut_static <$> st.1 = lut_static <$> luts0 ->
  (∀ c, c ∈ popped -> c ∈ cands) ->
  Forall (fun plan => ∃ c lut_a lut_b,
            c ∈ cands ∧ luts0 !! idx_a c = Some lut_a ∧ luts0 !! idx_b c = Some lut_b ∧
            plan_for uniquify module lut_a lut_b plan) st.2 ->
  PlanMerges_loop uniquify module st popped = Some st' ->
  Forall (fun plan => ∃ c lut_a lut_b,
            c ∈ cands ∧ luts0 !! idx_a c = Some lut_a ∧ luts0 !! idx_b c = Some lut_b ∧
            plan_for uniquify module lut_a lut_b plan) st'.2.
Proof.
  revert st. induction popped as [|c popped IH]; intros st Hst Hsub Hall; simpl.
  - by intros [= <-].
  - destruct (plan_iteration uniquify module st c) as [st1|] eqn:E; [|done]. simpl.
    intros Hrun. apply (IH st1); [| |clear IH Hrun|done].
    + rewrite <- Hst. by eapply plan_iteration_static.
    + intros c' Hc'. apply Hsub. by right.
    + apply plan_iteration_cases in E
        as (a & b & Ha & Hb & [[_ ->]|(_ & _ & plan & Hplan & ->)]); [done|].
      cbn [snd]. apply Forall_app. split; [done|]. apply Forall_singleton.
      assert (Hk : ∀ k l, st.1 !! k = Some l ->
                          ∃ l0, luts0 !! k = Some l0 ∧ lut_static l = lut_static l0).
      { intros k l Hl. pose proof (f_equal (fun v => v !! k) Hst) as Ek. cbv beta in Ek.
        rewrite !list_lookup_fmap, Hl in Ek. destruct (luts0 !! k) as [l0|]; [|done].
        exists l0. split; [done|]. by apply (inj Some). }
      destruct (Hk _ _ Ha) as (a0 & Ha0 & Ea). destruct (Hk _ _ Hb) as (b0 & Hb0 & Eb).
      exists c, a0, b0. split; [apply Hsub; by left|]. split; [done|]. split; [done|].
      eapply plan_for_static; [done|done|]. by eapply make_plan_shape.
Qed.

(** X19. Every plan the planner emits is well formed.  It comes from one
    of the candidates; it removes the cells of the two LUTs at the
    candidate's indices and names the new cell after them; its table has 64
    bits; it connects exactly the ports I0..I5, Z and Z5; and Z and Z5 drive
    the outputs of the two LUTs, one each. *)
Theorem plans_well_formed (uniquify : Module -> IdString -> IdString) (module : Module)
    (luts : list LutInfo) (candidates : list MergeCandidate)
    (luts' : list LutInfo) (plans : list MergePlan) :
  PlanMerges uniquify module luts candidates = Some (luts', plans) ->
  Forall (fun plan => ∃ c lut_a lut_b,
            c ∈ candidates ∧ luts !! idx_a c = Some lut_a ∧ luts !! idx_b c = Some lut_b ∧
            plan_for uniquify module lut_a lut_b plan) plans.
Proof.
  intros Hrun. unfold PlanMerges in Hrun.
  apply (PlanMerges_loop_shape uniquify module luts candidates (luts, [])
           (pop_order candidates) (luts', plans)); try done.
  intros c Hc. unfold pop_order in Hc. by rewrite merge_sort_Permutation in Hc.
Qed.

Lemma plans_well_formed_witness :
  Forall (fun plan => ∃ c lut_a lut_b,
            c ∈ FindMergeCandidates_Global [lut_six; lut_and5] ∧
            [lut_six; lut_and5] !! idx_a c = Some lut_a ∧
            [lut_six; lut_and5] !! idx_b c = Some lut_b ∧
            plan_for keep_name (mkModule []) lut_a lut_b plan) planned_65.2.
Proof.
  apply (plans_well_formed keep_name (mkModule []) [lut_six; lut_and5]
           (FindMergeCandidates_Global [lut_six; lut_and5]) planned_65.1).
  vm_compute. reflexivity.
Defined.

(** ** The queue: ABSORB candidates leave first *)

Lemma candidate_score_bounds luts (lv : gmap Z (list nat)) c :
  (∀ lut, lut ∈ luts -> 0 <= size lut <= 6) ->
  c ∈ FindMergeCandidates_Global luts ∨ c ∈ FindMergeCandidates_Layered luts lv ->
  match type c with
  | SHARED_INPUTS => score c <= 1200
  | LUT6_ABSORB => 10000 <= score c
  end.
Proof.
  intros Hsz Hin. destruct (type c) eqn:Et.
  - assert (∃ a b, a ∈ luts ∧ b ∈ luts ∧ c = shared_candidate (idx_a c) (idx_b c) a b)
      as (a & b & Ha & Hb & ->).
    { destruct Hin as [Hin|Hin].
      - apply elem_of_FindMergeCandidates_Global in Hin
          as [(i & j & a & b & _ & Ha & Hb & Hc)|(i & j & a & b & _ & Ha & Hb & _ & Hc)].
        + apply elem_of_global_shared_check in Hc as (-> & _).
          exists a, b. split; [by eapply list_elem_of_lookup_2|].
          split; [by eapply list_elem_of_lookup_2|done].
        + assert (type c = LUT6_ABSORB) by (eapply absorb_check_type; eauto). congruence.
      - apply elem_of_FindMergeCandidates_Layered in Hin as (L & p & _ & _ & Hc).
        unfold layered_checks in Hc. rewrite !elem_of_app in Hc.
        destruct Hc as [Hc|[Hc|Hc]]; apply elem_of_on_pair in Hc as (a & b & Ha & Hb & Hc).
        + apply elem_of_check_shared_inputs in Hc as (-> & _).
          exists a, b. split; [by eapply list_elem_of_lookup_2|].
          split; [by eapply list_elem_of_lookup_2|done].
        + assert (type c = LUT6_ABSORB) by (eapply absorb_check_type; eauto). congruence.
        + assert (type c = LUT6_ABSORB) by (eapply absorb_check_type; eauto). congruence. }
    cbn [shared_candidate score]. unfold shared_score, shared_count.
    pose proof (Hsz a Ha). pose proof (Hsz b Hb). lia.
  - destruct (absorb_candidate_sound luts lv c Et Hin)
      as (l6 & ls & sel & _ & Hs & _ & _ & _ & _ & _ & Hscore & _).
    apply list_elem_of_lookup_2 in Hs. pose proof (Hsz ls Hs). lia.
Qed.

Lemma higher_first_total : Total higher_first.
Proof. intros c1 c2. unfold higher_first. lia. Qed.

Lemma higher_first_trans : Transitive higher_first.
Proof. intros c1 c2 c3. unfold higher_first. lia. Qed.

Lemma pop_order_sorted cands i j c c' :
  (i < j)%nat -> pop_order cands !! i = Some c -> pop_order cands !! j = Some c' ->
  score c' <= score c.
Proof.
  intros Hij Hi Hj.
  pose proof higher_first_total as Htot. pose proof higher_first_trans as Htr.
  pose proof (StronglySorted_merge_sort higher_first cands) as Hs.
  fold (pop_order cands) in Hs.
  revert i j Hij Hi Hj. induction Hs as [|x l Hs IH Hall]; intros i j Hij Hi Hj; [done|].
  destruct j as [|j]; [lia|]. destruct i as [|i].
  - cbn in Hi, Hj. injection Hi as <-. rewrite Forall_forall in Hall.
    apply (Hall c'). by eapply list_elem_of_lookup_2.
  - cbn in Hi, Hj. apply (IH i j); [lia|done|done].
Qed.

(** X20. Candidates leave the queue by non-increasing score, and when the
    LUT arities lie between 0 and 6 every ABSORB candidate of a search
    scores at least 10000 and every SHARED_INPUTS candidate at most 1200;
    so the planner sees all the ABSORB candidates before the first
    SHARED_INPUTS candidate. *)
Theorem absorb_candidates_pop_first (luts : list LutInfo) (lv : gmap Z (list nat))
    (candidates : list MergeCandidate) :
  (∀ lut, lut ∈ luts -> 0 <= size lut <= 6) ->
  candidates = FindMergeCandidates_Global luts ∨
  candidates = FindMergeCandidates_Layered luts lv ->
  pop_order candidates ≡ₚ candidates ∧
  (∀ i j c c', (i < j)%nat ->
               pop_order candidates !! i = Some c -> pop_order candidates !! j = Some c' ->
               score c' <= score c) ∧
  (∀ i j c c', pop_order candidates !! i = Some c -> pop_order candidates !! j = Some c' ->
               type c = LUT6_ABSORB -> type c' = SHARED_INPUTS ->
               (i < j)%nat ∧ score c' <= 1200 ∧ 10000 <= score c).
Proof.
  intros Hsz Hfrom.
  assert (Hperm : pop_order candidates ≡ₚ candidates) by apply merge_sort_Permutation.
  split; [done|]. split; [intros i j c c'; apply pop_order_sorted|].
  intros i j c c' Hi Hj Ht Ht'.
  assert (Hmem : ∀ k x, pop_order candidates !! k = Some x ->
                        x ∈ FindMergeCandidates_Global luts ∨
                        x ∈ FindMergeCandidates_Layered luts lv).
  { intros k x Hk. apply list_elem_of_lookup_2 in Hk. rewrite Hperm in Hk.
    destruct Hfrom as [-> | ->]; auto. }
  pose proof (candidate_score_bounds luts lv c Hsz (Hmem _ _ Hi)) as Hc.
  pose proof (candidate_score_bounds luts lv c' Hsz (Hmem _ _ Hj)) as Hc'.
  rewrite Ht in Hc. rewrite Ht' in Hc'. split; [|done].
  destruct (decide (i < j)%nat) as [|Hge]; [done|]. exfalso.
  destruct (decide (i = j)) as [->|Hne].
  - rewrite Hi in Hj. injection Hj as <-. congruence.
  - pose proof (pop_order_sorted candidates j i c' c ltac:(lia) Hj Hi). lia.
Qed.

Lemma absorb_candidates_pop_first_witness :
  let candidates := FindMergeCandidates_Global [lut_six; lut_and5] in
  pop_order candidates ≡ₚ candidates ∧
  (∀ i j c c', (i < j)%nat ->
               pop_order candidates !! i = Some c -> pop_order candidates !! j = Some c' ->
               score c' <= score c) ∧
  (∀ i j c c', pop_order candidates !! i = Some c -> pop_order candidates !! j = Some c' ->
               type c = LUT6_ABSORB -> type c' = SHARED_INPUTS ->
               (i < j)%nat ∧ score c' <= 1200 ∧ 10000 <= score c).
Proof.
  apply (absorb_candidates_pop_first [lut_six; lut_and5] ∅).
  - intros lut Hin. apply elem_of_cons in Hin as [->|Hin]; [vm_compute; split; discriminate|].
    apply list_elem_of_singleton in Hin as ->. vm_compute; split; discriminate.
  - by left.
Defined.

(** ** The command line *)

Lemma option_loop_take fuel (args : list string) idx dump f :
  args !! idx = Some "-dump" -> args !! S idx = Some f ->
  option_loop (S fuel) args idx dump = option_loop fuel args (S (S idx)) f.
Proof.
  intros Hd Hf. cbn [option_loop].
  pose proof (lookup_lt_Some _ _ _ Hd). pose proof (lookup_lt_Some _ _ _ Hf).
  rewrite decide_True by done. rewrite decide_True by (split; [done|lia]).
  by rewrite Hf.
Qed.

Lemma option_loop_stop fuel (args : list string) idx dump :
  ¬ (args !! idx = Some "-dump" ∧ (idx + 1 < length args)%nat) ->
  option_loop fuel args idx dump = (dump, idx).
Proof.
  intros Hno. destruct fuel as [|fuel]; [done|]. cbn [option_loop].
  case_decide; [|done]. by rewrite decide_False.
Qed.

Lemma option_loop_pairs fuel (pre files rest : list string) dump :
  (length files <= fuel)%nat ->
  (rest = [] ∨ rest = ["-dump"] ∨ ∃ x rest', rest = x :: rest' ∧ x ≠ "-dump") ->
  option_loop fuel (pre ++ (files ≫= fun f => ["-dump"; f]) ++ rest) (length pre) dump
  = (default dump (last files), (length pre + 2 * length files)%nat).
Proof.
  revert pre dump fuel. induction files as [|f files IH]; intros pre dump fuel Hfuel Hrest.
  - cbn [mbind list_bind app last default from_option id length]. rewrite Nat.add_0_r.
    apply option_loop_stop. intros [Hd Hnext].
    rewrite lookup_app_r, Nat.sub_diag in Hd by lia. rewrite length_app in Hnext.
    destruct Hrest as [->|[->|(x & rest' & -> & Hx)]].
    + done.
    + simpl in Hnext. lia.
    + cbn in Hd. congruence.
  - destruct fuel as [|fuel]; [simpl in Hfuel; lia|].
    assert (Heq : pre ++ ((f :: files) ≫= fun f => ["-dump"; f]) ++ rest
                  = (pre ++ ["-dump"; f]) ++ (files ≫= fun f => ["-dump"; f]) ++ rest).
    { by rewrite <- app_assoc. }
    rewrite (option_loop_take fuel _ (length pre) dump f).
    + rewrite Heq.
      replace (S (S (length pre))) with (length (pre ++ ["-dump"; f]))
        by (rewrite length_app; simpl; lia).
      rewrite IH by (simpl in Hfuel; lia || done).
      rewrite length_app. cbn [length default from_option id]. f_equal; [|lia].
      destruct files as [|f' fs]; [done|].
      change (last (f :: f' :: fs)) with (last (f' :: fs)).
      destruct (proj2 (last_is_Some (f' :: fs))) as [x ->]; done.
    + by rewrite lookup_app_r, Nat.sub_diag by lia.
    + rewrite lookup_app_r by lia.
      by replace (S (length pre) - length pre)%nat with 1%nat by lia.
Qed.

(** X21. The option loop of the command reads a run of ["-dump" file]
    pairs right after the command name.  On the arguments [cmd], then any
    number of such pairs, then a rest that is empty, or a lone ["-dump"], or
    starts with anything other than ["-dump"], it returns the file of the
    last pair (the empty name when there is none) and the index of the rest:
    a later pair overrides an earlier one, and a final ["-dump"] without a
    file is not taken as an option. *)
Theorem parse_options_pairs (cmd : string) (files rest : list string) :
  rest = [] ∨ rest = ["-dump"] ∨ (∃ x rest', rest = x :: rest' ∧ x ≠ "-dump") ->
  parse_options (cmd :: (files ≫= fun f => ["-dump"; f]) ++ rest)
  = (default "" (last files), (1 + 2 * length files)%nat).
Proof.
  intros Hrest. unfold parse_options.
  change (cmd :: (files ≫= fun f => ["-dump"; f]) ++ rest)
    with ([cmd] ++ (files ≫= fun f => ["-dump"; f]) ++ rest).
  rewrite length_app. cbn [length Nat.add].
  apply (option_loop_pairs _ [cmd] files rest "").
  - rewrite length_app. assert (length files <= length (files ≫= fun f => ["-dump"; f]))%nat.
    { clear. induction files as [|f files IH]; [done|]. cbn [mbind list_bind length app].
      change (mbind ?g files) with (files ≫= g). lia. }
    lia.
  - done.
Qed.

Lemma parse_options_pairs_witness :
  parse_options ("stitcher" :: (["a.txt"; "b.txt"] ≫= fun f => ["-dump"; f]) ++ ["-dump"])
  = (default "" (last ["a.txt"; "b.txt"]), (1 + 2 * length ["a.txt"; "b.txt"])%nat).
Proof.
  apply (parse_options_pairs "stitcher" ["a.txt"; "b.txt"] ["-dump"]).
  right. left. reflexivity.
Defined.

(** ** The shuffler: hexadecimal text *)

Lemma ascii_enumerated (c : ascii) : c ∈ (ascii_of_nat <$> seq 0 256).
Proof.
  apply list_elem_of_fmap. exists (nat_of_ascii c). split; [by rewrite ascii_nat_embedding|].
  apply elem_of_seq. pose proof (nat_ascii_bounded c). lia.
Qed.

Lemma hex_char_to_bin_cases c :
  match Shuffler.hex_char_to_bin c with
  | Shuffler.Ok [g0; g1; g2; g3] =>
      Shuffler.hex_chars !! nibble_of g0 g1 g2 g3 = Some (Shuffler.toupper c)
  | Shuffler.Throw Shuffler.InvalidHexCharacter => ¬ is_hex_digit c
  | _ => False
  end.
Proof.
  assert (Hall : forallb (fun c =>
                   match Shuffler.hex_char_to_bin c with
                   | Shuffler.Ok [g0; g1; g2; g3] =>
                       bool_decide (Shuffler.hex_chars !! nibble_of g0 g1 g2 g3
                                    = Some (Shuffler.toupper c))
                   | Shuffler.Throw Shuffler.InvalidHexCharacter =>
                       bool_decide (¬ is_hex_digit c)
                   | _ => false
                   end) (ascii_of_nat <$> seq 0 256) = true)
    by (vm_compute; reflexivity).
  rewrite forallb_forall in Hall. specialize (Hall c).
  pose proof (ascii_enumerated c) as Hc. apply list_elem_of_In in Hc. specialize (Hall Hc).
  destruct (Shuffler.hex_char_to_bin c) as [[|g0 [|g1 [|g2 [|g3 [|g4 r]]]]]|[]|]; try done;
    by apply bool_decide_eq_true in Hall.
Qed.

Lemma pad_nibbles_id fuel l : (length l mod 4 = 0)%nat -> pad_nibbles fuel l = l.
Proof. intros H. destruct fuel; cbn [pad_nibbles]; by rewrite decide_False by lia. Qed.

Lemma hex_to_bin_groups (value : list ascii) :
  match Shuffler.hex_to_bin value with
  | Shuffler.Ok bits =>
      Forall is_hex_digit value ∧ length bits = (4 * length value)%nat ∧
      Shuffler.hex_of_groups bits = Shuffler.toupper <$> value
  | Shuffler.Throw e => e = Shuffler.InvalidHexCharacter ∧ ¬ Forall is_hex_digit value
  | Shuffler.Undefined => False
  end.
Proof.
  induction value as [|c value IH]; cbn [Shuffler.hex_to_bin].
  - split; [constructor|]. done.
  - pose proof (hex_char_to_bin_cases c) as Hc.
    destruct (Shuffler.hex_char_to_bin c) as [[|g0 [|g1 [|g2 [|g3 [|g4 r]]]]]|[]|];
      try done; cbn [Shuffler.bind].
    + destruct (Shuffler.hex_to_bin value) as [more|e|]; cbn [Shuffler.bind]; [| |done].
      * destruct IH as (Hall & Hlen & Hhex). split; [|split].
        -- constructor; [|done]. unfold is_hex_digit.
           by eapply list_elem_of_lookup_2.
        -- cbn [app length]. lia.
        -- cbn [app Shuffler.hex_of_groups fmap list_fmap]. rewrite Hc, Hhex. done.
      * destruct IH as [-> Hno]. split; [done|]. intros H. apply Forall_cons in H as [_ H].
        done.
    + split; [done|]. intros H. by apply Forall_cons in H as [H _].
Qed.

(** X22. Hexadecimal input and output agree.  [hex_to_bin] accepts
    exactly the strings of hexadecimal digits, in either case, and gives four
    bits per digit; on any other string it throws "Invalid hex character".
    Printing the bits of a non-empty string with [bin_to_hex] gives the
    string back in upper case. *)
Theorem hex_to_bin_round_trip (value : list ascii) :
  match Shuffler.hex_to_bin value with
  | Shuffler.Ok bits =>
      Forall is_hex_digit value ∧ length bits = (4 * length value)%nat ∧
      (value ≠ [] -> Shuffler.bin_to_hex bits = Shuffler.toupper <$> value)
  | Shuffler.Throw e => e = Shuffler.InvalidHexCharacter ∧ ¬ Forall is_hex_digit value
  | Shuffler.Undefined => False
  end.
Proof.
  pose proof (hex_to_bin_groups value) as G.
  destruct (Shuffler.hex_to_bin value) as [bits|e|]; [|done|done].
  destruct G as (Hall & Hlen & Hhex). split; [done|]. split; [done|]. intros Hne.
  unfold Shuffler.bin_to_hex. destruct bits as [|b bits].
  - destruct value; [done|]. simpl in Hlen. lia.
  - rewrite pad_nibbles_id; [done|]. rewrite Hlen. by rewrite Nat.mul_comm, Nat.Div0.mod_mul.
Qed.

(** ** The shuffler: reading a table *)

Lemma normalised_length (bin_tt : list ascii) (e : nat) :
  length (if decide (length bin_tt < e)%nat
          then bin_tt ++ replicate (e - length bin_tt) "0"%char
          else take e bin_tt) = e.
Proof.
  case_decide.
  - rewrite length_app, length_replicate. lia.
  - rewrite length_take. lia.
Qed.

Lemma normalised_lookup (bin_tt : list ascii) (e i : nat) :
  (i < e)%nat ->
  (if decide (length bin_tt < e)%nat
   then bin_tt ++ replicate (e - length bin_tt) "0"%char
   else take e bin_tt) !! i = Some (default "0"%char (bin_tt !! i)).
Proof.
  intros Hi. case_decide.
  - destruct (decide (i < length bin_tt)%nat) as [Hlt|Hge].
    + rewrite lookup_app_l by done.
      destruct (lookup_lt_is_Some_2 bin_tt i Hlt) as [x ->]. done.
    + rewrite lookup_app_r by lia. rewrite (lookup_ge_None_2 bin_tt i) by lia.
      cbn [default from_option]. apply lookup_replicate_2. lia.
  - rewrite lookup_take_lt by done.
    destruct (lookup_lt_is_Some_2 bin_tt i) as [x ->]; [lia|done].
Qed.

Lemma parse_truth_table_length raw_tt n_bits t :
  Shuffler.parse_truth_table raw_tt n_bits = Shuffler.Ok t -> length t = (2 ^ n_bits)%nat.
Proof.
  unfold Shuffler.parse_truth_table. destruct raw_tt as [|f [|v value]]; [done|done|].
  cbv zeta.
  destruct (if decide (Shuffler.tolower f = "b"%char) then _ else _) as [bin_tt| |];
    cbn [Shuffler.bind]; [|done|done].
  unfold Shuffler.shl1. case_decide; cbn [Shuffler.bind]; [|done].
  intros [= <-]. apply normalised_length.
Qed.

(** X23. The outcome of reading a table for fewer than 31 inputs.
    [parse_truth_table] returns a table of exactly [2 ^ n_bits] characters, or
    throws: "too short" exactly for an input of fewer than two characters,
    "invalid format" when the first character is neither [b] nor [h] in either
    case, "invalid hex character" when the format is [h] and a later character
    is no hexadecimal digit. *)
Theorem parse_truth_table_outcome (raw_tt : list ascii) (n_bits : nat) :
  (n_bits < 31)%nat ->
  match Shuffler.parse_truth_table raw_tt n_bits with
  | Shuffler.Ok t => (2 <= length raw_tt)%nat ∧ length t = (2 ^ n_bits)%nat
  | Shuffler.Throw Shuffler.TooShort => (length raw_tt < 2)%nat
  | Shuffler.Throw Shuffler.InvalidFormat =>
      (2 <= length raw_tt)%nat ∧
      ∀ f, head raw_tt = Some f ->
           Shuffler.tolower f ≠ "b"%char ∧ Shuffler.tolower f ≠ "h"%char
  | Shuffler.Throw Shuffler.InvalidHexCharacter =>
      (2 <= length raw_tt)%nat ∧
      (∀ f, head raw_tt = Some f -> Shuffler.tolower f = "h"%char) ∧
      ¬ Forall is_hex_digit (tail raw_tt)
  | _ => False
  end.
Proof.
  intros Hn.
  destruct (Shuffler.parse_truth_table raw_tt n_bits) as [t|e|] eqn:E.
  - split; [|by eapply parse_truth_table_length].
    unfold Shuffler.parse_truth_table in E.
    destruct raw_tt as [|f [|v value]]; [done|done|]. cbn [length]. lia.
  - unfold Shuffler.parse_truth_table in E.
    destruct raw_tt as [|f [|v value]].
    + injection E as <-. cbn [length]. lia.
    + injection E as <-. cbn [length]. lia.
    + cbv zeta in E. unfold Shuffler.shl1 in E. rewrite (decide_True (P := (n_bits < 31)%nat)) in E by done.
      assert (Hlen : (2 <= length (f :: v :: value))%nat) by (cbn [length]; lia).
      destruct (decide (Shuffler.tolower f = "b"%char)) as [Hb|Hb]; [done|].
      destruct (decide (Shuffler.tolower f = "h"%char)) as [Hh|Hh].
      * pose proof (hex_to_bin_groups (v :: value)) as Hhex.
        destruct (Shuffler.hex_to_bin (v :: value)) as [bits|e'|]; [done| |done].
        cbn [Shuffler.bind] in E. injection E as <-. destruct Hhex as [-> Hno].
        split; [done|]. split; [|done]. by intros f' [= <-].
      * cbn [Shuffler.bind] in E. injection E as <-. split; [done|].
        by intros f' [= <-].
  - unfold Shuffler.parse_truth_table in E.
    destruct raw_tt as [|f [|v value]]; [done|done|].
    cbv zeta in E. unfold Shuffler.shl1 in E. rewrite (decide_True (P := (n_bits < 31)%nat)) in E by done.
    destruct (decide (Shuffler.tolower f = "b"%char)) as [Hb|Hb]; [done|].
    destruct (decide (Shuffler.tolower f = "h"%char)) as [Hh|Hh]; [|done].
    pose proof (hex_to_bin_groups (v :: value)) as Hhex.
    by destruct (Shuffler.hex_to_bin (v :: value)) as [bits|e'|].
Qed.

Lemma parse_truth_table_outcome_witness :
  (2 <= length (String.list_ascii_of_string "hG9"))%nat ∧
  (∀ f, head (String.list_ascii_of_string "hG9") = Some f ->
        Shuffler.tolower f = "h"%char) ∧
  ¬ Forall is_hex_digit (tail (String.list_ascii_of_string "hG9")).
Proof.
  apply (parse_truth_table_outcome (String.list_ascii_of_string "hG9") 3). lia.
Defined.

(** X24. The table read.  For the format [b] the digits are the
    characters after the prefix, for [h] four bits per hexadecimal digit; the
    table returned lists them from the last digit to the first, entry [i]
    being the digit [i] places from the right, and ['0'] beyond the digits
    given; digits beyond [2 ^ n_bits] are dropped. *)
Theorem parse_truth_table_content (f : ascii) (value : list ascii) (n_bits : nat)
    (t : list ascii) :
  Shuffler.parse_truth_table (f :: value) n_bits = Shuffler.Ok t ->
  ∃ bin_tt,
    (Shuffler.tolower f = "b"%char ∧ bin_tt = value ∨
     Shuffler.tolower f = "h"%char ∧ Shuffler.hex_to_bin value = Shuffler.Ok bin_tt) ∧
    length t = (2 ^ n_bits)%nat ∧
    ∀ i, (i < 2 ^ n_bits)%nat ->
         t !! i = Some (default "0"%char (reverse bin_tt !! i)).
Proof.
  intros E. pose proof (parse_truth_table_length _ _ _ E) as Hlen.
  unfold Shuffler.parse_truth_table in E. destruct value as [|v value]; [done|].
  cbv zeta in E.
  assert (∃ bin_tt,
             (Shuffler.tolower f = "b"%char ∧ bin_tt = v :: value ∨
              Shuffler.tolower f = "h"%char ∧
              Shuffler.hex_to_bin (v :: value) = Shuffler.Ok bin_tt) ∧
             (if decide (Shuffler.tolower f = "b"%char) then Shuffler.Ok (v :: value)
              else if decide (Shuffler.tolower f = "h"%char)
                   then Shuffler.hex_to_bin (v :: value)
                   else Shuffler.Throw Shuffler.InvalidFormat) = Shuffler.Ok bin_tt)
    as (bin_tt & Hfmt & Hbin).
  { destruct (decide (Shuffler.tolower f = "b"%char)) as [Hb|Hb]; [by eauto|].
    destruct (decide (Shuffler.tolower f = "h"%char)) as [Hh|Hh]; [|done].
    destruct (Shuffler.hex_to_bin (v :: value)) as [bits| |]; [|done|done]. by eauto. }
  rewrite Hbin in E. cbn [Shuffler.bind] in E. unfold Shuffler.shl1 in E.
  destruct (decide (n_bits < 31)%nat); cbn [Shuffler.bind] in E; [|done].
  injection E as <-. exists bin_tt. split; [done|]. split; [done|]. intros i Hi. by apply normalised_lookup.
Qed.

Lemma parse_truth_table_content_witness :
  ∃ bin_tt,
    (Shuffler.tolower "h" = "b"%char ∧ bin_tt = String.list_ascii_of_string "D9" ∨
     Shuffler.tolower "h" = "h"%char ∧
     Shuffler.hex_to_bin (String.list_ascii_of_string "D9") = Shuffler.Ok bin_tt) ∧
    length (String.list_ascii_of_string "10011011") = (2 ^ 3)%nat ∧
    ∀ i, (i < 2 ^ 3)%nat ->
         String.list_ascii_of_string "10011011" !! i
         = Some (default "0"%char (reverse bin_tt !! i)).
Proof.
  apply (parse_truth_table_content "h" (String.list_ascii_of_string "D9") 3
           (String.list_ascii_of_string "10011011")).
  reflexivity.
Defined.

(** ** The shuffler: the conversion *)

Lemma testbit_address names rho i :
  Nat.testbit (address names rho) i = from_option rho false (names !! i).
Proof.
  revert i. induction names as [|c rest IH]; intros i; cbn [address].
  - by rewrite Nat.bits_0.
  - rewrite Nat.add_comm. destruct i as [|i].
    + by rewrite Nat.testbit_0_r.
    + rewrite Nat.testbit_succ_r. apply IH.
Qed.

Lemma address_lt names rho : (address names rho < 2 ^ length names)%nat.
Proof.
  induction names as [|c rest IH]; cbn [address length]; [simpl; lia|].
  rewrite Nat.pow_succ_r'. destruct (rho c); cbn [Nat.b2n]; lia.
Qed.

Lemma old_weights_map_snoc w c :
  Shuffler.old_weights_map (w ++ [c]) = <[c := length w]> (Shuffler.old_weights_map w).
Proof.
  unfold Shuffler.old_weights_map. rewrite imap_app, foldl_app. cbn [imap foldl fst snd].
  by rewrite Nat.add_0_r.
Qed.

Lemma old_weights_map_lookup w j c :
  NoDup w -> w !! j = Some c -> Shuffler.old_weights_map w !! c = Some j.
Proof.
  induction w as [|x w IH] using rev_ind; intros Hnd Hj; [done|].
  rewrite old_weights_map_snoc. apply NoDup_app in Hnd as (Hnd & Hdisj & _).
  destruct (decide (j = length w)) as [->|Hne].
  - rewrite list_lookup_middle in Hj by done. injection Hj as <-.
    by rewrite lookup_insert_eq.
  - assert (Hlt : (j < length w)%nat).
    { apply lookup_lt_Some in Hj. rewrite length_app in Hj. cbn [length] in Hj. lia. }
    rewrite lookup_app_l in Hj by done.
    rewrite lookup_insert_ne; [by apply IH|].
    intros <-. apply (Hdisj x); [by eapply list_elem_of_lookup_2|apply list_elem_of_here].
Qed.

Lemma old_weights_map_None w c : c ∉ w -> Shuffler.old_weights_map w !! c = None.
Proof.
  induction w as [|x w IH] using rev_ind; intros Hc; [done|].
  rewrite old_weights_map_snoc. rewrite not_elem_of_app in Hc. destruct Hc as [Hc Hx].
  rewrite lookup_insert_ne; [by apply IH|]. intros ->. apply Hx, list_elem_of_here.
Qed.

(** The inner loop at the address of an assignment whose set inputs all
    have a weight: the sum of the weights the original order gives them. *)
Lemma old_address_sum_set (m : gmap ascii nat) (new_weights_str : list ascii)
    (rho : ascii -> bool) :
  (∀ c, c ∈ new_weights_str -> rho c = true -> ∃ j, m !! c = Some j ∧ (j < 31)%nat) ->
  Shuffler.old_address m new_weights_str (address new_weights_str rho)
  = Shuffler.Ok (sum_list ((fun c => if rho c then (2 ^ default 0 (m !! c))%nat else 0%nat)
                           <$> new_weights_str)).
Proof.
  intros Hm. unfold Shuffler.old_address.
  set (F := fun acc i => Shuffler.bind acc _).
  assert (G : ∀ suf pre acc,
             new_weights_str = pre ++ suf ->
             foldl F (Shuffler.Ok acc) (seq (length pre) (length suf))
             = Shuffler.Ok (acc + sum_list ((fun c => if rho c
                                                      then (2 ^ default 0 (m !! c))%nat
                                                      else 0%nat) <$> suf))%nat).
  { induction suf as [|c suf IH]; intros pre acc Heq.
    - cbn. by rewrite Nat.add_0_r.
    - cbn [length seq foldl fmap list_fmap sum_list].
      assert (Hc : new_weights_str !! length pre = Some c)
        by (rewrite Heq; by apply list_lookup_middle).
      assert (Hstep : F (Shuffler.Ok acc) (length pre)
                      = Shuffler.Ok (acc + (if rho c then 2 ^ default 0 (m !! c) else 0))%nat).
      { unfold F. cbn [Shuffler.bind]. rewrite testbit_address, Hc. cbn [from_option].
        destruct (rho c) eqn:Erho; [|by rewrite Nat.add_0_r].
        destruct (Hm c) as (j & Hj & Hlt); [by eapply list_elem_of_lookup_2|done|].
        rewrite Hj. cbn [default from_option]. unfold Shuffler.shl1.
        by rewrite decide_True by done. }
      rewrite Hstep.
      replace (S (length pre)) with (length (pre ++ [c]))
        by (rewrite length_app; cbn [length]; lia).
      rewrite IH by (by rewrite <- app_assoc). f_equal. unfold id. lia. }
  exact (G new_weights_str [] 0%nat eq_refl).
Qed.

Lemma weights_sum_address (idx : ascii -> nat) (w : list ascii) (rho : ascii -> bool) (k : nat) :
  (∀ (i : nat) (c : ascii), w !! i = Some c -> idx c = (k + i)%nat) ->
  sum_list ((fun c => if rho c then (2 ^ idx c)%nat else 0%nat) <$> w)
  = (2 ^ k * address w rho)%nat.
Proof.
  revert k. induction w as [|c w IH]; intros k Hidx.
  - cbn. lia.
  - rewrite fmap_cons. cbn [address].
    change (sum_list (?x :: ?l)) with (x + sum_list l)%nat.
    rewrite (IH (S k)) by (intros i c' Hi; rewrite (Hidx (S i) c' Hi); lia).
    rewrite (Hidx 0%nat c eq_refl), Nat.add_0_r, Nat.pow_succ_r'.
    destruct (rho c); cbn [Nat.b2n]; lia.
Qed.

(** The inner loop maps the address of an assignment in the new order to
    its address in the original order. *)
Lemma old_address_spec (w w' : list ascii) rho :
  NoDup w -> w' ≡ₚ w -> (length w < 31)%nat ->
  Shuffler.old_address (Shuffler.old_weights_map w) w' (address w' rho)
  = Shuffler.Ok (address w rho).
Proof.
  intros Hnd Hperm Hlen.
  rewrite old_address_sum_set.
  - f_equal. rewrite Hperm.
    rewrite (weights_sum_address
               (fun c => default 0%nat (Shuffler.old_weights_map w !! c)) w rho 0).
    + simpl. lia.
    + intros i c Hi. by rewrite (old_weights_map_lookup w i c Hnd Hi).
  - intros c Hc _. rewrite Hperm in Hc. apply list_elem_of_lookup_1 in Hc as [j Hj].
    exists j. split; [by apply old_weights_map_lookup|].
    apply lookup_lt_Some in Hj. lia.
Qed.

Lemma address_surjective (w : list ascii) (a : nat) :
  NoDup w -> (a < 2 ^ length w)%nat -> ∃ rho, address w rho = a.
Proof.
  intros Hnd Ha.
  exists (fun c => from_option (Nat.testbit a) false (Shuffler.old_weights_map w !! c)).
  apply Nat.bits_inj. intros i. rewrite testbit_address.
  destruct (w !! i) as [c|] eqn:E; cbn [from_option].
  - by rewrite (old_weights_map_lookup w i c Hnd E).
  - apply lookup_ge_None in E. symmetry.
    destruct (decide (a = 0%nat)) as [->|Hne]; [apply Nat.bits_0|].
    apply Nat.bits_above_log2. apply Nat.log2_lt_pow2; [lia|].
    eapply Nat.lt_le_trans; [exact Ha|]. apply Nat.pow_le_mono_r; lia.
Qed.

Lemma convert_spec (m : gmap ascii nat) (w' t : list ascii) (addrs : list nat) :
  (∀ a, a ∈ addrs -> ∃ oa, Shuffler.old_address m w' a = Shuffler.Ok oa ∧
                           (oa < length t)%nat) ->
  ∃ t', Shuffler.convert m w' t addrs = Shuffler.Ok t' ∧
        length t' = length addrs ∧
        ∀ i a, addrs !! i = Some a ->
               ∃ oa, Shuffler.old_address m w' a = Shuffler.Ok oa ∧ t' !! i = t !! oa.
Proof.
  induction addrs as [|a addrs IH]; intros Hall.
  - exists []. by split.
  - destruct (Hall a) as (oa & Hoa & Hlt); [apply list_elem_of_here|].
    destruct IH as (t' & Ht' & Hlen & Hget).
    { intros a' Ha'. apply Hall. by apply list_elem_of_further. }
    destruct (lookup_lt_is_Some_2 t oa Hlt) as [c Hc].
    exists (c :: t'). cbn [Shuffler.convert]. rewrite Hoa. cbn [Shuffler.bind].
    unfold Shuffler.char_at. rewrite Hc. cbn [Shuffler.bind]. rewrite Ht'.
    cbn [Shuffler.bind]. split; [done|]. split; [by cbn [length]; rewrite Hlen|].
    intros [|i] a' Hi.
    + injection Hi as <-. exists oa. by rewrite Hc.
    + by apply Hget.
Qed.

(** The conversion loop of [main], for a new order that permutes the
    original one. *)
Lemma shuffle_spec (w tt w' t : list ascii) :
  NoDup w -> w' ≡ₚ w -> (length w < 31)%nat ->
  Shuffler.parse_truth_table tt (length w) = Shuffler.Ok t ->
  ∃ t',
    Shuffler.shuffle w tt w' = Shuffler.Ok (reverse t', Shuffler.bin_to_hex (reverse t')) ∧
    length t' = (2 ^ length w)%nat ∧
    ∀ rho, t' !! address w' rho = t !! address w rho.
Proof.
  intros Hnd Hperm Hlen Hparse.
  pose proof (parse_truth_table_length _ _ _ Hparse) as Ht.
  assert (Hlen' : length w' = length w) by (by rewrite Hperm).
  assert (Hnd' : NoDup w') by (by rewrite Hperm).
  destruct (convert_spec (Shuffler.old_weights_map w) w' t (seq 0 (2 ^ length w)))
    as (t' & Hconv & Hl & Hget).
  { intros a Ha. apply elem_of_seq in Ha.
    destruct (address_surjective w' a Hnd') as [rho <-]; [rewrite Hlen'; lia|].
    exists (address w rho). split; [by apply old_address_spec|].
    rewrite Ht. apply address_lt. }
  rewrite length_seq in Hl.
  exists t'. split; [|split; [done|]].
  - unfold Shuffler.shuffle. rewrite decide_False by (intros H; apply H; by rewrite Hlen').
    unfold Shuffler.shl1. rewrite decide_True by done. cbn [Shuffler.bind].
    rewrite Hparse. cbn [Shuffler.bind]. rewrite Hconv. done.
  - intros rho.
    pose proof (address_lt w' rho) as Ha. rewrite Hlen' in Ha.
    destruct (Hget (address w' rho) (address w' rho)) as (oa & Hoa & Heq).
    { apply lookup_seq. split; [done|lia]. }
    rewrite (old_address_spec w w' rho Hnd Hperm Hlen) in Hoa. injection Hoa as <-. done.
Qed.

(** A table is determined by its entries at the addresses of the
    assignments. *)
Lemma table_ext (w t1 t2 : list ascii) :
  NoDup w -> length t1 = (2 ^ length w)%nat -> length t2 = (2 ^ length w)%nat ->
  (∀ rho, t1 !! address w rho = t2 !! address w rho) -> t1 = t2.
Proof.
  intros Hnd H1 H2 Hall. apply list_eq. intros a.
  destruct (decide (a < 2 ^ length w)%nat) as [Ha|Ha].
  - destruct (address_surjective w a Hnd Ha) as [rho <-]. apply Hall.
  - rewrite !lookup_ge_None_2 by lia. done.
Qed.

(** X25. What the shuffler computes.  For distinct input names, a
    new order that permutes them, fewer than 31 inputs and a table that
    parses, the tool succeeds and prints a table of [2 ^ n] entries (the text
    read from its last character) in which every assignment of the inputs
    finds, at its address in the new order, the entry the original table has
    at its address in the original order; the hexadecimal line is
    [bin_to_hex] of the binary line. *)
Theorem shuffle_same_function (w tt w' t : list ascii) :
  NoDup w -> w' ≡ₚ w -> (length w < 31)%nat ->
  Shuffler.parse_truth_table tt (length w) = Shuffler.Ok t ->
  ∃ new_tt_bin new_tt_hex,
    Shuffler.shuffle w tt w' = Shuffler.Ok (new_tt_bin, new_tt_hex) ∧
    new_tt_hex = Shuffler.bin_to_hex new_tt_bin ∧
    length new_tt_bin = (2 ^ length w)%nat ∧
    ∀ rho, reverse new_tt_bin !! address w' rho = t !! address w rho.
Proof.
  intros Hnd Hperm Hlen Hparse.
  destruct (shuffle_spec w tt w' t Hnd Hperm Hlen Hparse) as (t' & Hrun & Hl & Hsem).
  exists (reverse t'), (Shuffler.bin_to_hex (reverse t')).
  split; [done|]. split; [done|]. rewrite length_reverse, reverse_involutive. by split.
Qed.

Lemma shuffle_same_function_witness :
  ∃ new_tt_bin new_tt_hex,
    Shuffler.shuffle (String.list_ascii_of_string "ABC") (String.list_ascii_of_string "hD9")
                     (String.list_ascii_of_string "CBA")
    = Shuffler.Ok (new_tt_bin, new_tt_hex) ∧
    new_tt_hex = Shuffler.bin_to_hex new_tt_bin ∧
    length new_tt_bin = (2 ^ length (String.list_ascii_of_string "ABC"))%nat ∧
    ∀ rho, reverse new_tt_bin !! address (String.list_ascii_of_string "CBA") rho
           = String.list_ascii_of_string "10011011"
               !! address (String.list_ascii_of_string "ABC") rho.
Proof.
  apply (shuffle_same_function (String.list_ascii_of_string "ABC")
           (String.list_ascii_of_string "hD9") (String.list_ascii_of_string "CBA")
           (String.list_ascii_of_string "10011011")).
  - apply (bool_decide_unpack _). vm_compute. exact I.
  - apply (bool_decide_unpack _). vm_compute. exact I.
  - cbn. lia.
  - reflexivity.
Defined.

(** X26. Shuffling back restores the table.  After a successful
    shuffle from the order [w] to a permutation [w'], running the tool on the
    binary line it printed, from [w'] back to [w], prints the original table
    as [parse_truth_table] normalised it. *)
Theorem shuffle_round_trip (w tt w' t : list ascii) :
  NoDup w -> w' ≡ₚ w -> (length w < 31)%nat ->
  Shuffler.parse_truth_table tt (length w) = Shuffler.Ok t ->
  ∃ new_tt_bin new_tt_hex,
    Shuffler.shuffle w tt w' = Shuffler.Ok (new_tt_bin, new_tt_hex) ∧
    Shuffler.shuffle w' ("b"%char :: new_tt_bin) w
    = Shuffler.Ok (reverse t, Shuffler.bin_to_hex (reverse t)).
Proof.
  intros Hnd Hperm Hlen Hparse.
  pose proof (parse_truth_table_length _ _ _ Hparse) as Ht.
  destruct (shuffle_spec w tt w' t Hnd Hperm Hlen Hparse) as (t' & Hrun & Hl & Hsem).
  exists (reverse t'), (Shuffler.bin_to_hex (reverse t')). split; [done|].
  assert (Hlen' : length w' = length w) by (by rewrite Hperm).
  assert (Hnd' : NoDup w') by (by rewrite Hperm).
  assert (Hparse' : Shuffler.parse_truth_table ("b"%char :: reverse t') (length w')
                    = Shuffler.Ok t').
  { unfold Shuffler.parse_truth_table.
    destruct (reverse t') as [|c r] eqn:Er.
    { apply (f_equal length) in Er. rewrite length_reverse, Hl in Er. cbn [length] in Er.
      pose proof (Nat.pow_nonzero 2 (length w)). lia. }
    rewrite <- Er. cbv zeta.
    rewrite decide_True by reflexivity. cbn [Shuffler.bind].
    unfold Shuffler.shl1. rewrite decide_True by lia. cbn [Shuffler.bind].
    rewrite reverse_involutive, Hlen'. rewrite decide_False by lia.
    by rewrite <- Hl, firstn_all. }
  destruct (shuffle_spec w' ("b"%char :: reverse t') w t') as (t'' & Hrun' & Hl' & Hsem').
  - done.
  - by symmetry.
  - lia.
  - done.
  - rewrite Hrun'. replace t'' with t; [done|].
    apply (table_ext w); [done|done|by rewrite Hl', Hlen'|].
    intros rho. by rewrite Hsem', Hsem.
Qed.

Lemma shuffle_round_trip_witness :
  ∃ new_tt_bin new_tt_hex,
    Shuffler.shuffle (String.list_ascii_of_string "ABC") (String.list_ascii_of_string "hD9")
                     (String.list_ascii_of_string "BCA")
    = Shuffler.Ok (new_tt_bin, new_tt_hex) ∧
    Shuffler.shuffle (String.list_ascii_of_string "BCA") ("b"%char :: new_tt_bin)
                     (String.list_ascii_of_string "ABC")
    = Shuffler.Ok (reverse (String.list_ascii_of_string "10011011"),
                   Shuffler.bin_to_hex (reverse (String.list_ascii_of_string "10011011"))).
Proof.
  apply (shuffle_round_trip (String.list_ascii_of_string "ABC")
           (String.list_ascii_of_string "hD9") (String.list_ascii_of_string "BCA")
           (String.list_ascii_of_string "10011011")).
  - apply (bool_decide_unpack _). vm_compute. exact I.
  - apply (bool_decide_unpack _). vm_compute. exact I.
  - cbn. lia.
  - reflexivity.
Defined.

(** ** The shuffler: an unknown input *)

Lemma old_weights_map_lookup_inv w c j :
  Shuffler.old_weights_map w !! c = Some j -> w !! j = Some c.
Proof.
  induction w as [|x w IH] using rev_ind; [done|].
  rewrite old_weights_map_snoc. destruct (decide (x = c)) as [->|Hne].
  - rewrite lookup_insert_eq. intros [= <-]. by apply list_lookup_middle.
  - rewrite lookup_insert_ne by done. intros H. apply IH in H.
    rewrite lookup_app_l; [done|]. by eapply lookup_lt_Some.
Qed.

Lemma old_weights_map_is_Some w c : c ∈ w -> is_Some (Shuffler.old_weights_map w !! c).
Proof.
  intros Hc. destruct (Shuffler.old_weights_map w !! c) eqn:E; [by eexists|].
  induction w as [|x w IH] using rev_ind; [by apply elem_of_nil in Hc|].
  rewrite old_weights_map_snoc in E. destruct (decide (x = c)) as [->|Hne].
  - by rewrite lookup_insert_eq in E.
  - rewrite lookup_insert_ne in E by done. apply IH; [|done].
    apply elem_of_app in Hc as [Hc|Hc]; [done|]. apply list_elem_of_singleton in Hc.
    congruence.
Qed.

Lemma sum_list_submseteq (l k : list nat) : l ⊆+ k -> (sum_list l <= sum_list k)%nat.
Proof.
  induction 1 as [|x l k _ IH|x y l|x l k _ IH|l k1 k2 _ IH1 _ IH2].
  - done.
  - change (x + sum_list l <= x + sum_list k)%nat. lia.
  - change (y + (x + sum_list l) <= x + (y + sum_list l))%nat. lia.
  - change (sum_list l <= x + sum_list k)%nat. lia.
  - lia.
Qed.

Lemma sum_pow2_seq (n : nat) : (sum_list ((fun j => 2 ^ j) <$> seq 0 n) + 1 = 2 ^ n)%nat.
Proof.
  induction n as [|n IH]; [done|].
  rewrite seq_S, fmap_app, sum_list_with_app.
  cbn [fmap list_fmap sum_list_with]. unfold id in *. rewrite Nat.pow_succ_r', Nat.add_0_l. lia.
Qed.

Lemma sum_list_if_filter (g : ascii -> nat) (rho : ascii -> bool) (l : list ascii) :
  sum_list ((fun c => if rho c then g c else 0%nat) <$> l)
  = sum_list (g <$> filter (fun c => rho c = true) l).
Proof.
  induction l as [|c l IH]; [done|].
  rewrite fmap_cons, filter_cons.
  change (sum_list (?x :: ?l)) with (x + sum_list l)%nat. rewrite IH.
  destruct (rho c) eqn:E.
  - rewrite decide_True by done. done.
  - rewrite decide_False by done. done.
Qed.

(** Distinct inputs with a weight in the original order select an address
    inside the table. *)
Lemma weights_sum_lt (w l : list ascii) :
  NoDup l -> (∀ c, c ∈ l -> c ∈ w) ->
  (sum_list ((fun c => 2 ^ default 0 (Shuffler.old_weights_map w !! c)) <$> l)
   < 2 ^ length w)%nat.
Proof.
  intros Hnd Hsub.
  set (idx := fun c => default 0%nat (Shuffler.old_weights_map w !! c)).
  assert (Hidx : ∀ c, c ∈ l -> w !! idx c = Some c).
  { intros c Hc. unfold idx.
    destruct (old_weights_map_is_Some w c (Hsub c Hc)) as [j Hj]. rewrite Hj.
    by apply old_weights_map_lookup_inv. }
  assert (Hsubm : (idx <$> l) ⊆+ seq 0 (length w)).
  { apply NoDup_submseteq.
    - apply NoDup_fmap_2_strong; [|done]. intros x y Hx Hy Heq.
      apply Hidx in Hx, Hy. rewrite Heq in Hx. congruence.
    - intros j Hj. apply list_elem_of_fmap in Hj as (c & -> & Hc).
      apply elem_of_seq. apply Hidx, lookup_lt_Some in Hc. lia. }
  pose proof (sum_list_submseteq _ _ (fmap_submseteq (fun j => (2 ^ j)%nat) _ _ Hsubm)) as Hle.
  rewrite <- list_fmap_compose in Hle. pose proof (sum_pow2_seq (length w)).
  unfold compose in Hle.
  change (sum_list ((fun c => 2 ^ idx c) <$> l) < 2 ^ length w)%nat. lia.
Qed.

Lemma foldl_bind_Throw {A} (F : Shuffler.Outcome A -> nat -> Shuffler.Outcome A) e l :
  (∀ i, F (Shuffler.Throw e) i = Shuffler.Throw e) ->
  foldl F (Shuffler.Throw e) l = Shuffler.Throw e.
Proof. intros HF. induction l as [|i l IH]; [done|]. cbn [foldl]. by rewrite HF. Qed.

(** The inner loop at the address with the single bit [i], when the input
    at place [i] of the new order has no weight. *)
Lemma old_address_unknown (m : gmap ascii nat) (w' : list ascii) (i : nat) (x : ascii) :
  w' !! i = Some x -> m !! x = None ->
  Shuffler.old_address m w' (2 ^ i) = Shuffler.Throw Shuffler.OutOfRange.
Proof.
  intros Hi Hx. unfold Shuffler.old_address.
  set (F := fun acc i => Shuffler.bind acc _).
  pose proof (lookup_lt_Some _ _ _ Hi) as Hlt.
  replace (length w') with (i + S (length w' - S i))%nat by lia.
  rewrite seq_app, foldl_app. cbn [seq foldl Nat.add].
  assert (Hpre : ∀ k, (k <= i)%nat -> foldl F (Shuffler.Ok 0%nat) (seq 0 k) = Shuffler.Ok 0%nat).
  { induction k as [|k IH]; intros Hk; [done|].
    rewrite seq_S, foldl_app, IH by lia. cbn [foldl Nat.add]. unfold F.
    cbn [Shuffler.bind]. rewrite Nat.pow2_bits_false by lia. done. }
  rewrite Hpre by done.
  assert (Hat : F (Shuffler.Ok 0%nat) i = Shuffler.Throw Shuffler.OutOfRange).
  { unfold F. cbn [Shuffler.bind]. by rewrite Nat.pow2_bits_true, Hi, Hx. }
  rewrite Hat. by apply foldl_bind_Throw.
Qed.

Lemma convert_throws (m : gmap ascii nat) (w' t : list ascii) (pre : list nat) (b : nat)
    (rest : list nat) e :
  (∀ a, a ∈ pre -> ∃ oa, Shuffler.old_address m w' a = Shuffler.Ok oa ∧
                         (oa < length t)%nat) ->
  Shuffler.old_address m w' b = Shuffler.Throw e ->
  Shuffler.convert m w' t (pre ++ b :: rest) = Shuffler.Throw e.
Proof.
  intros Hpre Hb. induction pre as [|a pre IH]; cbn [app Shuffler.convert].
  - by rewrite Hb.
  - destruct (Hpre a) as (oa & Hoa & Hlt); [apply list_elem_of_here|].
    rewrite Hoa. cbn [Shuffler.bind]. unfold Shuffler.char_at.
    destruct (lookup_lt_is_Some_2 t oa Hlt) as [c ->]. cbn [Shuffler.bind].
    rewrite IH; [done|]. intros a' Ha'. apply Hpre. by apply list_elem_of_further.
Qed.

(** X27. An input the original order lacks.  When the new order
    has the length of the original one and distinct names, one of which does
    not occur in the original order, the tool fails with the [out_of_range] of
    [map::at] (for fewer than 31 inputs and a table that parses): it reads no
    entry outside the table before it reaches the unknown name. *)
Theorem shuffle_rejects_unknown_input (w tt w' t : list ascii) (x : ascii) :
  NoDup w' -> length w' = length w -> (length w < 31)%nat ->
  Shuffler.parse_truth_table tt (length w) = Shuffler.Ok t ->
  x ∈ w' -> x ∉ w ->
  Shuffler.shuffle w tt w' = Shuffler.Throw Shuffler.OutOfRange.
Proof.
  intros Hnd' Hlen' Hlen Hparse Hx Hxw.
  pose proof (parse_truth_table_length _ _ _ Hparse) as Ht.
  destruct (list_find (fun c => c ∉ w) w') as [[i y]|] eqn:Ef.
  2:{ apply list_find_None in Ef. rewrite Forall_forall in Ef. by destruct (Ef x Hx). }
  apply list_find_Some in Ef as (Hi & Hy & Hbefore).
  pose proof (lookup_lt_Some _ _ _ Hi) as Hilt.
  assert (Hpow : (2 ^ i < 2 ^ length w)%nat) by (apply Nat.pow_lt_mono_r; lia).
  unfold Shuffler.shuffle. rewrite decide_False by (intros H; apply H; by rewrite Hlen').
  unfold Shuffler.shl1. rewrite decide_True by done. cbn [Shuffler.bind].
  rewrite Hparse. cbn [Shuffler.bind].
  replace (2 ^ length w)%nat with (2 ^ i + S (2 ^ length w - S (2 ^ i)))%nat by lia.
  rewrite seq_app. cbn [seq Nat.add].
  rewrite (convert_throws _ _ _ _ _ _ Shuffler.OutOfRange); [done| |].
  - intros a Ha. apply elem_of_seq in Ha.
    destruct (address_surjective w' a Hnd') as [rho Hrho].
    { eapply Nat.lt_le_trans; [apply Ha|]. apply Nat.pow_le_mono_r; lia. }
    assert (Hset : ∀ c, c ∈ w' -> rho c = true -> c ∈ w).
    { intros c Hc Hrc. apply list_elem_of_lookup_1 in Hc as [k Hk].
      destruct (decide (k < i)%nat) as [Hki|Hki].
      - destruct (decide (c ∈ w)) as [|Hno]; [done|]. by destruct (Hbefore k c Hk Hki).
      - pose proof (testbit_address w' rho k) as Hbit. rewrite Hk in Hbit.
        cbn [from_option] in Hbit. rewrite Hrho, Hrc in Hbit.
        destruct (decide (a = 0%nat)) as [->|Hne]; [by rewrite Nat.bits_0 in Hbit|].
        rewrite Nat.bits_above_log2 in Hbit; [done|].
        apply Nat.log2_lt_pow2; [lia|]. eapply Nat.lt_le_trans; [apply Ha|].
        apply Nat.pow_le_mono_r; lia. }
    rewrite <- Hrho. rewrite old_address_sum_set.
    + eexists. split; [done|]. rewrite sum_list_if_filter, Ht.
      apply weights_sum_lt; [by apply NoDup_filter|].
      intros c Hc. apply list_elem_of_filter in Hc as [Hrc Hc]. by apply Hset.
    + intros c Hc Hrc.
      destruct (old_weights_map_is_Some w c (Hset c Hc Hrc)) as [j Hj].
      exists j. split; [done|]. apply old_weights_map_lookup_inv, lookup_lt_Some in Hj. lia.
  - apply (old_address_unknown _ _ _ y Hi). by apply old_weights_map_None.
Qed.

Lemma shuffle_rejects_unknown_input_witness :
  Shuffler.shuffle (String.list_ascii_of_string "AAB") (String.list_ascii_of_string "hD9")
                   (String.list_ascii_of_string "ABX")
  = Shuffler.Throw Shuffler.OutOfRange.
Proof.
  apply (shuffle_rejects_unknown_input (String.list_ascii_of_string "AAB")
           (String.list_ascii_of_string "hD9") (String.list_ascii_of_string "ABX")
           (String.list_ascii_of_string "10011011") "X"%char).
  - apply (bool_decide_unpack _). vm_compute. exact I.
  - reflexivity.
  - cbn. lia.
  - reflexivity.
  - apply (bool_decide_unpack _). vm_compute. exact I.
  - apply (bool_decide_unpack _). vm_compute. exact I.
Defined.

(** ** Running the pass again *)

Lemma collect_skips (sigmap : SigBit -> SigBit) (pre cs : list Cell) (acc : list LutInfo) :
  Forall (fun c => ¬ is_lut_cell c) pre ->
  foldl (fun acc cell => acc ≫= fun luts => collect_cell sigmap luts cell)
        (Some acc) (pre ++ cs)
  = foldl (fun acc cell => acc ≫= fun luts => collect_cell sigmap luts cell) (Some acc) cs.
Proof.
  intros Hpre. induction Hpre as [|c pre Hc _ IH]; [done|].
  cbn [app foldl mbind option_bind].
  destruct (collect_cell_cases sigmap acc c) as [[_ ->]|[[H _]|[H _]]]; done.
Qed.

Lemma collect_filter (sigmap : SigBit -> SigBit) (P : IdString -> Prop)
    `{!∀ n, Decision (P n)} (cs : list Cell) :
  ∀ acc acc' res,
    foldl (fun acc cell => acc ≫= fun luts => collect_cell sigmap luts cell) (Some acc) cs
    = Some res ->
    ∃ more,
      res = acc ++ more ∧
      foldl (fun acc cell => acc ≫= fun luts => collect_cell sigmap luts cell)
            (Some acc') (filter (fun c => P (cell_name c)) cs)
      = Some (acc' ++ filter (fun lut => P (cell_ptr lut)) more).
Proof.
  induction cs as [|c cs IH]; intros acc acc' res Hrun.
  - cbn [foldl] in Hrun. injection Hrun as <-. exists []. by rewrite !app_nil_r.
  - cbn [foldl mbind option_bind] in Hrun. rewrite filter_cons.
    unfold collect_cell in Hrun at 2.
    destruct (gtp_lut_size (cell_type c)) as [sz|] eqn:Esz.
    + destruct (cell_connections c !! ID_Z) as [out|] eqn:Eo;
        [|by rewrite foldl_collect_None in Hrun].
      cbn [mbind option_bind] in Hrun.
      destruct (cell_parameters c !! ID_INIT) as [init|] eqn:Ei;
        [|by rewrite foldl_collect_None in Hrun].
      cbn [mbind option_bind] in Hrun.
      set (lut := mkLutInfo (cell_name c) sz (collect_inputs sigmap c sz) (sigmap out)
                            init false) in *.
      destruct (decide (P (cell_name c))) as [HP|HP].
      * destruct (IH _ (acc' ++ [lut]) _ Hrun) as (more & -> & Hrest).
        exists (lut :: more). split; [by rewrite <- app_assoc|].
        cbn [foldl mbind option_bind]. unfold collect_cell at 2.
        rewrite Esz, Eo. cbn [mbind option_bind]. rewrite Ei. cbn [mbind option_bind].
        fold lut. rewrite Hrest. rewrite filter_cons_True by done.
        by rewrite <- app_assoc.
      * destruct (IH _ acc' _ Hrun) as (more & -> & Hrest).
        exists (lut :: more). split; [by rewrite <- app_assoc|].
        rewrite Hrest. by rewrite filter_cons_False by done.
    + destruct (decide (P (cell_name c))) as [HP|HP].
      * destruct (IH _ acc' _ Hrun) as (more & -> & Hrest). exists more. split; [done|].
        cbn [foldl mbind option_bind]. unfold collect_cell at 2. by rewrite Esz.
      * by apply IH.
Qed.

(** The record a cell adds does not depend on the records before it. *)
Lemma collect_cell_acc (sigmap : SigBit -> SigBit) (acc : list LutInfo) (c : Cell) :
  collect_cell sigmap acc c = (fun more => acc ++ more) <$> collect_cell sigmap [] c.
Proof.
  unfold collect_cell. destruct (gtp_lut_size (cell_type c)) as [sz|].
  - destruct (cell_connections c !! ID_Z) as [out|]; [|done]. cbn [mbind option_bind].
    by destruct (cell_parameters c !! ID_INIT).
  - cbn. by rewrite app_nil_r.
Qed.

Lemma collect_acc (sigmap : SigBit -> SigBit) (cs : list Cell) (acc : list LutInfo) :
  foldl (fun acc cell => acc ≫= fun luts => collect_cell sigmap luts cell) (Some acc) cs
  = (fun more => acc ++ more)
      <$> foldl (fun acc cell => acc ≫= fun luts => collect_cell sigmap luts cell)
                (Some []) cs.
Proof.
  revert acc. induction cs as [|c cs IH]; intros acc.
  - cbn. by rewrite app_nil_r.
  - cbn [foldl mbind option_bind]. rewrite (collect_cell_acc sigmap acc c).
    destruct (collect_cell sigmap [] c) as [rc|]; cbn [fmap option_fmap option_map].
    + rewrite (IH (acc ++ rc)), (IH rc).
      destruct (foldl _ (Some []) cs) as [more|]; cbn; [|done]. by rewrite app_assoc.
    + by rewrite foldl_collect_None.
Qed.

(** Collecting from the same cells in another order gives the same
    records in another order. *)
Lemma collect_perm (sigmap : SigBit -> SigBit) (cs cs' : list Cell) (luts : list LutInfo) :
  cs ≡ₚ cs' ->
  CollectLuts sigmap (mkModule cs) = Some luts ->
  ∃ luts', CollectLuts sigmap (mkModule cs') = Some luts' ∧ luts ≡ₚ luts'.
Proof.
  unfold CollectLuts. cbn [cells]. intros Hperm. revert luts.
  induction Hperm as [|x l l' _ IH|x y l|l l' l'' _ IH1 _ IH2]; intros luts Hrun.
  - by exists luts.
  - cbn [foldl mbind option_bind] in Hrun |- *.
    destruct (collect_cell sigmap [] x) as [rx|]; [|by rewrite foldl_collect_None in Hrun].
    rewrite collect_acc in Hrun |- *.
    destruct (foldl _ (Some []) l) as [more|] eqn:El; [|done].
    destruct (IH more eq_refl) as (more' & -> & Hm). injection Hrun as <-.
    exists (rx ++ more'). split; [done|]. by rewrite Hm.
  - cbn [foldl mbind option_bind] in Hrun |- *.
    destruct (collect_cell sigmap [] y) as [ry|] eqn:Ey;
      [|by rewrite foldl_collect_None in Hrun].
    cbn [mbind option_bind] in Hrun. rewrite (collect_cell_acc sigmap ry x) in Hrun.
    destruct (collect_cell sigmap [] x) as [rx|]; [|by rewrite foldl_collect_None in Hrun].
    cbn [fmap option_fmap option_map mbind option_bind] in Hrun |- *.
    rewrite (collect_cell_acc sigmap rx y), Ey.
    cbn [fmap option_fmap option_map].
    rewrite collect_acc in Hrun |- *.
    destruct (foldl _ (Some []) l) as [more|]; [|done]. injection Hrun as <-.
    exists ((rx ++ ry) ++ more). split; [done|].
    by rewrite (Permutation_app_comm rx ry).
  - destruct (IH1 _ Hrun) as (luts1 & H1 & Hp1). destruct (IH2 _ H1) as (luts2 & H2 & Hp2).
    exists luts2. split; [done|]. by rewrite Hp1.
Qed.

(** X28. Running the pass again.  The fused cells have the type
    [\GTP_LUT6D], which [CollectLuts] does not take: on the module a run
    returns, with distinct cell names, the collection succeeds and yields
    exactly the records of the LUT cells that the run did not remove, once
    each, in an order the removals may have changed, and never a fused
    cell. *)
Theorem rerun_collects_unmerged (uniquify : Module -> IdString -> IdString)
    (SigMap : Module -> SigBit -> SigBit) (sigmap : SigBit -> SigBit)
    (module : Module) (r : PassResult) (luts : list LutInfo) :
  NoDup (cell_names module) ->
  StitcherMain uniquify SigMap module = Some r ->
  CollectLuts sigmap module = Some luts ->
  ∃ luts_again,
    CollectLuts sigmap (result_module r) = Some luts_again ∧
    luts_again ≡ₚ filter (fun lut => EvRemove (cell_ptr lut) ∉ result_events r) luts.
Proof.
  intros Hnd Hrun Hc.
  destruct (StitcherMain_run _ _ _ _ Hrun)
    as (luts0 & cands & slog & luts' & plans & kept & _ & _ & _ & Hcells & Hkept & Hev & _).
  specialize (Hkept Hnd).
  destruct (collect_filter sigmap (fun n => n ∉ cell_names_to_remove plans)
                           (cells module) [] [] luts Hc) as (more & -> & Hfilt).
  cbn [app] in Hfilt.
  destruct (collect_perm sigmap _ kept _ (symmetry Hkept) Hfilt) as (luts_again & Hagain & Hp).
  exists luts_again. split.
  - unfold CollectLuts in Hagain |- *. cbn [cells] in Hagain. rewrite Hcells, collect_skips.
    + exact Hagain.
    + apply Forall_forall. intros c Hin. rewrite elem_of_reverse in Hin.
      apply list_elem_of_fmap in Hin as (plan & -> & _). by intros [sz Hsz].
  - rewrite <- Hp. cbn [app].
    rewrite (filter_ext_elem (fun lut => EvRemove (cell_ptr lut) ∉ result_events r)
                             (fun lut => cell_ptr lut ∉ cell_names_to_remove plans)); [done|].
    intros lut Hin. cbv beta.
    pose proof (CollectLuts_cells _ _ _ Hc) as Hall. rewrite Forall_forall in Hall.
    destruct (Hall lut Hin) as (_ & cell & Hcell & _ & Hname).
    rewrite Hev, elem_of_app, !list_elem_of_fmap. split.
    + intros Hno Hn. apply Hno. left. exists (cell_ptr lut). split; [done|].
      apply list_elem_of_filter. split; [|done]. rewrite <- Hname.
      apply list_elem_of_fmap. eauto.
    + intros Hno [(n & [= <-] & Hn)|(n & [=] & _)].
      by apply list_elem_of_filter in Hn as [_ Hn].
Qed.

Lemma rerun_collects_unmerged_witness :
  ∃ r luts_again,
    StitcherMain keep_name same_sig module_keep = Some r ∧
    CollectLuts (fun s => s) (result_module r) = Some luts_again ∧
    luts_again ≡ₚ filter (fun lut => EvRemove (cell_ptr lut) ∉ result_events r) luts_keep.
Proof.
  destruct (StitcherMain keep_name same_sig module_keep) as [r|] eqn:E;
    [|vm_compute in E; discriminate].
  destruct (rerun_collects_unmerged keep_name same_sig (fun s => s) module_keep r luts_keep)
    as (luts_again & H).
  - apply (bool_decide_unpack _). vm_compute. exact I.
  - exact E.
  - vm_compute. reflexivity.
  - exists r, luts_again. split; [reflexivity|exact H].
Defined.

(** ** The commit never meets an absent cell *)



(** ** SHARED_INPUTS plans and ports without a connection *)

(** C1 fails on the code for a LUT with a gap in its ports.  The cell
    [cell_gap] is a [GTP_LUT2] with only I1 connected, to a, and a table that
    makes it output a.  [CollectLuts] records a as its only input, the
    exhaustive search pairs it with the buffer [cell_b1] (union of two
    signals, score 98), the pass merges them, and [calculate_new_init] weights
    a by its rank 0 among the recorded inputs instead of its port number 1:
    the half of the fused table behind Z5, the pin that replaces the output of
    [cell_gap], is 0 at every address, while [cell_gap] outputs 1 whenever a is
    1.  With a and b at 1 the low half agrees with neither source. *)
Theorem shared_inputs_port_gap_not_exact :
  CollectLuts (same_sig module_gap) module_gap = Some [lut_gap; lut_b1] ∧
  FindMergeCandidates_Global [lut_gap; lut_b1] = [shared_candidate 0 1 lut_gap lut_b1] ∧
  score (shared_candidate 0 1 lut_gap lut_b1) = 98 ∧
  (length (current_union_inputs lut_gap lut_b1) <= 5)%nat ∧
  (∃ r, StitcherMain keep_name same_sig module_gap = Some r ∧
        result_events r = [EvRemove "\b1"; EvRemove "\g2"; EvAddCell "\g2_b1_merged"]) ∧
  ∃ plan,
    make_plan keep_name module_gap lut_gap lut_b1 (shared_candidate 0 1 lut_gap lut_b1)
    = Some plan ∧
    (∀ k, (k < 5)%nat -> port_connections plan !! ("\I" +:+ pretty k) = gap_slots !! k) ∧
    port_connections plan !! ID_Z5 = Some (output lut_gap) ∧
    port_connections plan !! ID_Z = Some (output lut_b1) ∧
    ∀ rho : SigBit -> bool,
      plan_init_val plan !! Z.to_nat (slots_address gap_slots rho) = Some S0 ∧
      (rho (wire_bit "a") = true -> lut_output lut_gap rho = S1) ∧
      (rho (wire_bit "b") = true -> lut_output lut_b1 rho = S1).
Proof.
  split; [vm_compute; reflexivity|]. split; [vm_compute; reflexivity|].
  split; [vm_compute; reflexivity|]. split; [vm_compute; lia|].
  split; [eexists; split; vm_compute; reflexivity|].
  eexists. split; [vm_compute; reflexivity|]. split.
  { intros k Hk. do 5 (destruct k as [|k]; [vm_compute; reflexivity|]). lia. }
  split; [vm_compute; reflexivity|]. split; [vm_compute; reflexivity|].
  intros rho. split; [|split].
  - assert (Hlow : ∀ k, (k < 32)%nat ->
                        (replicate 32 S0 ++ half_bits gap_slots (Some (SigConst S1)) lut_b1)
                          !! k = Some S0).
    { intros k Hk. rewrite lookup_app_l by (rewrite length_replicate; lia).
      by apply lookup_replicate_2. }
    pose proof (bits_to_Z_bounds (rho <$> gap_slots)) as Hb.
    rewrite length_fmap in Hb. cbn [gap_slots length] in Hb.
    cbn [plan_init_val]. rewrite <- (Hlow (Z.to_nat (slots_address gap_slots rho))).
    + vm_compute. reflexivity.
    + unfold slots_address. change (2 ^ Z.of_nat 5) with 32 in Hb. lia.
  - intros Ha. cbv [wire_bit] in Ha. cbv. by rewrite Ha.
  - intros Hb. cbv [wire_bit] in Hb. cbv. by rewrite Hb.
Qed.

(** ** Fused names *)

(** X30. Two plans with one fused name abort the pass.  The name of a
    fused cell is made from the names of its two cells before any cell is
    added, so two plans can carry the same name.  When two different plans
    of a run do, an [addCell] of the commit finds its name in use: neither
    the commit nor the pass returns. *)
Theorem same_fused_name_aborts (uniquify : Module -> IdString -> IdString)
    (SigMap : Module -> SigBit -> SigBit) (module : Module)
    (luts : list LutInfo) (cands : list MergeCandidate) (slog : list LogMsg)
    (luts' : list LutInfo) (plans : list MergePlan) (p1 p2 : MergePlan) (i j : nat) :
  CollectLuts (SigMap module) module = Some luts ->
  find_candidates luts = Some (cands, slog) ->
  PlanMerges uniquify module luts cands = Some (luts', plans) ->
  plans !! i = Some p1 -> plans !! j = Some p2 -> i ≠ j ->
  new_cell_name p1 = new_cell_name p2 ->
  ExecuteMerges module plans = None ∧ StitcherMain uniquify SigMap module = None.
Proof.
  intros Hc Hf Hp Hi Hj Hne Hname.
  assert (Hex : ExecuteMerges module plans = None).
  { destruct (ExecuteMerges module plans) as [cm|] eqn:Ex; [|done].
    destruct (ExecuteMerges_run _ _ _ Ex) as (kept & _ & Hnd & _).
    destruct Hne. eapply NoDup_lookup; [exact Hnd| |]; rewrite list_lookup_fmap.
    - by rewrite Hi.
    - rewrite Hj. cbn. by rewrite Hname. }
  split; [done|].
  unfold StitcherMain. rewrite Hc. cbn [mbind option_bind].
  rewrite Hf. cbn [mbind option_bind]. rewrite Hp. cbn [mbind option_bind].
  destruct plans as [|p plans]; [done|]. by rewrite Hex.
Qed.

Lemma same_fused_name_aborts_witness :
  ExecuteMerges module_clash planned_clash.2 = None ∧
  StitcherMain keep_name same_sig module_clash = None.
Proof.
  eapply (same_fused_name_aborts keep_name same_sig module_clash luts_clash _ _
            planned_clash.1 planned_clash.2 _ _ 0 1).
  - vm_compute. reflexivity.
  - vm_compute. reflexivity.
  - vm_compute. reflexivity.
  - vm_compute. reflexivity.
  - vm_compute. reflexivity.
  - lia.
  - vm_compute. reflexivity.
Defined.
